(** * codesurvey: the orchestration core, embedded and verified

    A shallow embedding of [codesurvey/utils.py], [codesurvey/database.py],
    [codesurvey/analyzers/core.py] and [codesurvey/core.py].

    Conventions of the embedding:
    - Python [int] is [Z]; [len(...)] is [Z.of_nat (List.length ...)].
    - Python dicts whose iteration order is observable ([self.sources],
      [self.analyzers], [future_to_job], the tables of the store) are
      association lists in insertion order.
    - A Python object whose identity is observable ([job.repo is repo]) carries
      an explicit identity field.
    - Exceptions are explicit: a computation returns an [Outcome] next to the
      coordinator state it leaves behind. *)

From Stdlib Require Import List ZArith String Bool Lia Arith PeanoNat.
From Equations Require Import Equations.
Import ListNotations.
Open Scope string_scope.
Open Scope Z_scope.

Set Implicit Arguments.

(** ** Exceptions and results *)

(** The exceptions the core distinguishes: [ValueError] raised for an invalid
    configuration, [KeyError] raised by a failed dict lookup, and whatever a source, an analyzer or a worker raised
    (opaque, identified by a tag). *)
Inductive Exn : Type :=
| ValueError (msg : string)
| KeyError (key : string)
| Failure (tag : nat).

Inductive Try (A : Type) : Type :=
| Ok (a : A)
| Err (e : Exn).
Arguments Ok {A} a.
Arguments Err {A} e.

(** ** codesurvey/utils.py *)

Module Utils.

Definition mem (x : string) (l : list string) : bool :=
  existsb (String.eqb x) l.

(** The body of the [for item in items] loop of [get_duplicates], with the
    two accumulators [seen] (a set, used for membership only) and
    [duplicates] (a list, appended to). *)
Fixpoint get_duplicates_loop (items seen duplicates : list string)
  : list string :=
  match items with
  | [] => duplicates
  | item :: rest =>
      if mem item seen then
        if mem item duplicates
        then get_duplicates_loop rest seen duplicates
        else get_duplicates_loop rest seen (duplicates ++ [item])
      else get_duplicates_loop rest (item :: seen) duplicates
  end.

Definition get_duplicates (items : list string) : list string :=
  get_duplicates_loop items [] [].

(** [', '.join(names)] *)
Fixpoint join (sep : string) (l : list string) : string :=
  match l with
  | [] => ""
  | [x] => x
  | x :: rest => x ++ sep ++ join sep rest
  end.

Lemma mem_In x l : mem x l = true <-> In x l.
Proof.
  unfold mem. rewrite existsb_exists. split.
  - intros [y [Hy He]]. apply String.eqb_eq in He. now subst.
  - intros H. exists x. split; [assumption | apply String.eqb_refl].
Qed.

Lemma mem_false x l : mem x l = false <-> ~ In x l.
Proof.
  rewrite <- mem_In. destruct (mem x l); split; congruence.
Qed.

Lemma get_duplicates_loop_grows items : forall seen dups x,
  In x dups -> In x (get_duplicates_loop items seen dups).
Proof.
  induction items as [|i rest IH]; intros seen dups x Hx; simpl; auto.
  destruct (mem i seen); [destruct (mem i dups)|]; apply IH; auto.
  apply in_or_app; now left.
Qed.

(** The loop returns no duplicate exactly when it started with none and the
    items are pairwise distinct and new. *)
Lemma get_duplicates_loop_nil items : forall seen,
  get_duplicates_loop items seen [] = [] <->
  (NoDup items /\ forall x, In x items -> ~ In x seen).
Proof.
  induction items as [|i rest IH]; intros seen; simpl.
  - split; [intros _; split; [constructor | tauto] | reflexivity].
  - destruct (mem i seen) eqn:Hm.
    + simpl. split.
      * intros H. exfalso.
        assert (Hin : In i (get_duplicates_loop rest seen [i]))
          by (apply get_duplicates_loop_grows; now left).
        rewrite H in Hin. destruct Hin.
      * intros [_ Hns]. exfalso. apply (Hns i); [now left | now apply mem_In].
    + apply mem_false in Hm. rewrite IH. split.
      * intros [Hnd Hns]. split.
        -- constructor; [|assumption]. intros Hi. apply (Hns i Hi). now left.
        -- intros x [<-|Hx]; [assumption|]. intros Hs. apply (Hns x Hx). now right.
      * intros [Hnd Hns]. inversion Hnd as [|? ? Hni Hnd']; subst. split; [assumption|].
        intros x Hx [<-|Hs]; [contradiction|]. apply (Hns x); [now right | assumption].
Qed.

Lemma get_duplicates_nil items : get_duplicates items = [] <-> NoDup items.
Proof.
  unfold get_duplicates. rewrite get_duplicates_loop_nil. split.
  - tauto.
  - intros H; split; [assumption | intros x _ []].
Qed.

(** The assertions of [tests/test_utils.py::test_get_duplicates]. *)
Example test_get_duplicates :
  get_duplicates [] = [] /\
  get_duplicates ["3"; "2"; "1"] = [] /\
  get_duplicates ["1"; "2"; "3"; "3"; "1"; "2"; "1"] = ["3"; "1"; "2"].
Proof. repeat split. Qed.

End Utils.

(** ** codesurvey/sources/core.py and codesurvey/analyzers: the data model *)

(** A [Repo] handle.  [repo_id] is the identity of the Python object (what
    [is] compares); the dataclass equality [==] compares [source], [key],
    [path] and [cleanup] ([metadata] is declared [compare=False]).  The
    owning [Source] is represented by its name, and the [cleanup] callable by
    a tag. *)
Record Repo : Type := {
  repo_id : nat;
  repo_source : string;
  repo_key : string;
  repo_path : string;
  repo_cleanup : nat;
  repo_metadata : list (string * string)
}.

(** [a is b] *)
Definition repo_is (a b : Repo) : bool := Nat.eqb (repo_id a) (repo_id b).

(** [a == b] *)
Definition repo_eqb (a b : Repo) : bool :=
  String.eqb (repo_source a) (repo_source b) &&
  String.eqb (repo_key a) (repo_key b) &&
  String.eqb (repo_path a) (repo_path b) &&
  Nat.eqb (repo_cleanup a) (repo_cleanup b).

(** A [RepoThunk]; [rt_thunk] is what running the thunk in a worker
    produces: a [Repo], or the exception it raises. *)
Record RepoThunk : Type := {
  rt_source : string;
  rt_key : string;
  rt_thunk : Try Repo
}.

(** [Feature]: the occurrences are opaque payloads. *)
Record Feature : Type := {
  feat_name : string;
  feat_occurrences : list string;
  feat_ignore : bool
}.

Record Code : Type := {
  code_analyzer : string;
  code_repo : Repo;
  code_key : string;
  code_features : list (string * Feature)
}.

Record CodeThunk : Type := {
  ct_analyzer : string;
  ct_repo : Repo;
  ct_key : string;
  ct_features : list string;
  ct_thunk : Try Code
}.

(** ** codesurvey/database.py *)

Module Db.

Record RepoMetadataRow : Type := {
  rm_updated : Z;
  rm_source_name : string;
  rm_repo_key : string;
  rm_metadata_key : string;
  rm_metadata_value : string
}.

Record RepoFeatureRow : Type := {
  rf_updated : Z;
  rf_source_name : string;
  rf_repo_key : string;
  rf_analyzer_name : string;
  rf_feature_name : string;
  rf_occurrence_count : Z;
  rf_code_occurrence_count : Z;
  rf_code_total_count : Z
}.

(** [occurrence_count] and [occurrences] are nullable: null marks an
    ignored code. *)
Record CodeFeatureRow : Type := {
  cf_updated : Z;
  cf_source_name : string;
  cf_repo_key : string;
  cf_analyzer_name : string;
  cf_code_key : string;
  cf_feature_name : string;
  cf_occurrence_count : option Z;
  cf_occurrences : option (list string)
}.

(** The three tables, each a list of rows in storage order. *)
Record Database : Type := {
  repo_metadata_tbl : list RepoMetadataRow;
  repo_feature_tbl : list RepoFeatureRow;
  code_feature_tbl : list CodeFeatureRow
}.

Definition empty : Database :=
  {| repo_metadata_tbl := []; repo_feature_tbl := []; code_feature_tbl := [] |}.

(** Primary keys ([CompositeKey]). *)
Definition rm_same_key (a b : RepoMetadataRow) : bool :=
  String.eqb (rm_source_name a) (rm_source_name b) &&
  String.eqb (rm_repo_key a) (rm_repo_key b) &&
  String.eqb (rm_metadata_key a) (rm_metadata_key b).

Definition rf_same_key (a b : RepoFeatureRow) : bool :=
  String.eqb (rf_source_name a) (rf_source_name b) &&
  String.eqb (rf_repo_key a) (rf_repo_key b) &&
  String.eqb (rf_analyzer_name a) (rf_analyzer_name b) &&
  String.eqb (rf_feature_name a) (rf_feature_name b).

Definition cf_same_key (a b : CodeFeatureRow) : bool :=
  String.eqb (cf_source_name a) (cf_source_name b) &&
  String.eqb (cf_repo_key a) (cf_repo_key b) &&
  String.eqb (cf_analyzer_name a) (cf_analyzer_name b) &&
  String.eqb (cf_code_key a) (cf_code_key b) &&
  String.eqb (cf_feature_name a) (cf_feature_name b).

Section Upsert.
Variable R : Type.
Variable same_key : R -> R -> bool.

(** [INSERT ... ON CONFLICT (primary key) DO UPDATE SET c = EXCLUDED.c] for
    every non-key column [c] (peewee's [preserve]): a row with the same key
    is replaced where it stands, otherwise the row is appended. *)
Fixpoint upsert (new : R) (tbl : list R) : list R :=
  match tbl with
  | [] => [new]
  | old :: rest =>
      if same_key old new then new :: rest else old :: upsert new rest
  end.

(** [insert_many(rows)]: the rows are inserted one after the other.  An
    empty list inserts nothing. *)
Definition upsert_many (rows : list R) (tbl : list R) : list R :=
  fold_left (fun t r => upsert r t) rows tbl.
End Upsert.

(** *** Queries for what remains to be done *)

(** [get_repo_missing_analyzer_features]. [existing] collects, per analyzer
    name, the feature names recorded for the repo. *)
Definition existing_repo_features (db : Database) (source_name repo_key : string)
    (analyzer_name : string) : list string :=
  map rf_feature_name
    (filter (fun row =>
               String.eqb (rf_source_name row) source_name &&
               String.eqb (rf_repo_key row) repo_key &&
               String.eqb (rf_analyzer_name row) analyzer_name)
            (repo_feature_tbl db)).

Definition missing_of (existing features : list string) : list string :=
  filter (fun feature => negb (Utils.mem feature existing)) features.

Fixpoint get_repo_missing_loop (db : Database) (source_name repo_key : string)
    (analyzer_features : list (string * list string))
  : list (string * list string) :=
  match analyzer_features with
  | [] => []
  | (analyzer_name, features) :: rest =>
      let missing_features :=
        missing_of (existing_repo_features db source_name repo_key analyzer_name)
                   features in
      let tail := get_repo_missing_loop db source_name repo_key rest in
      if (0 <? Z.of_nat (List.length missing_features))
      then (analyzer_name, missing_features) :: tail
      else tail
  end.

Definition get_repo_missing_analyzer_features (db : Database)
    (source_name repo_key : string)
    (analyzer_features : list (string * list string))
  : list (string * list string) :=
  get_repo_missing_loop db source_name repo_key analyzer_features.

(** [get_code_missing_features] *)
Definition existing_code_features (db : Database)
    (source_name repo_key analyzer_name code_key : string)
    (features : list string) : list string :=
  map cf_feature_name
    (filter (fun row =>
               String.eqb (cf_source_name row) source_name &&
               String.eqb (cf_repo_key row) repo_key &&
               String.eqb (cf_analyzer_name row) analyzer_name &&
               String.eqb (cf_code_key row) code_key &&
               Utils.mem (cf_feature_name row) features)
            (code_feature_tbl db)).

Definition get_code_missing_features (db : Database)
    (source_name repo_key code_key analyzer_name : string)
    (features : list string) : list string :=
  missing_of
    (existing_code_features db source_name repo_key analyzer_name code_key features)
    features.

(** *** Writes *)

(** [save_repo_metadata]; [now] is the reading of [datetime.now()]. *)
Definition save_repo_metadata (now : Z) (repo : Repo) (db : Database) : Database :=
  {| repo_metadata_tbl :=
       upsert_many rm_same_key
         (map (fun kv =>
                 {| rm_updated := now;
                    rm_source_name := repo_source repo;
                    rm_repo_key := repo_key repo;
                    rm_metadata_key := fst kv;
                    rm_metadata_value := snd kv |})
              (repo_metadata repo))
         (repo_metadata_tbl db);
     repo_feature_tbl := repo_feature_tbl db;
     code_feature_tbl := code_feature_tbl db |}.

(** The row [save_code_features] builds for one entry of [code.features]. *)
Definition code_row (now : Z) (save_occurrences : bool) (code : Code)
    (entry : string * Feature) : CodeFeatureRow :=
  let feature := snd entry in
  {| cf_updated := now;
     cf_source_name := repo_source (code_repo code);
     cf_repo_key := repo_key (code_repo code);
     cf_analyzer_name := code_analyzer code;
     cf_code_key := code_key code;
     cf_feature_name := fst entry;
     cf_occurrence_count :=
       if feat_ignore feature then None
       else Some (Z.of_nat (List.length (feat_occurrences feature)));
     cf_occurrences :=
       if feat_ignore feature || negb save_occurrences then None
       else Some (feat_occurrences feature) |}.

Definition save_code_features (now : Z) (save_occurrences : bool) (code : Code)
    (db : Database) : Database :=
  {| repo_metadata_tbl := repo_metadata_tbl db;
     repo_feature_tbl := repo_feature_tbl db;
     code_feature_tbl :=
       upsert_many cf_same_key
         (map (code_row now save_occurrences code) (code_features code))
         (code_feature_tbl db) |}.

(** [repo_code_filter] of [save_repo_features] *)
Definition repo_code_filter (repo : Repo) (row : CodeFeatureRow) : bool :=
  String.eqb (cf_source_name row) (repo_source repo) &&
  String.eqb (cf_repo_key row) (repo_key repo).

Definition is_null (c : option Z) : bool :=
  match c with None => true | Some _ => false end.

(** The value of a non-null count (the [WHERE] clause has removed the nulls
    before any aggregate sees them). *)
Definition count_of (row : CodeFeatureRow) : Z :=
  match cf_occurrence_count row with Some c => c | None => 0 end.

(** The rows the [SELECT] of [save_repo_features] aggregates:
    [WHERE repo_code_filter AND occurrence_count IS NOT NULL]. *)
Definition selected_rows (repo : Repo) (db : Database) : list CodeFeatureRow :=
  filter (fun row => repo_code_filter repo row &&
                     negb (is_null (cf_occurrence_count row)))
         (code_feature_tbl db).

(** The distinct values of a list, in order of first appearance. *)
Fixpoint distinct (l : list string) : list string :=
  match l with
  | [] => []
  | x :: rest => x :: filter (fun y => negb (String.eqb y x)) (distinct rest)
  end.

(** [GROUP BY feature_name]: one group per feature name. *)
Definition group_of (feature_name : string) (rows : list CodeFeatureRow)
  : list CodeFeatureRow :=
  filter (fun row => String.eqb (cf_feature_name row) feature_name) rows.

(** [MAX(updated)] over a group, and a row of the group where it is attained.
    The select list has bare columns ([source_name], [repo_key],
    [analyzer_name], [feature_name]) next to exactly one [MAX] aggregate, so
    SQLite takes them from a row holding the maximum; among several such rows
    the first one in storage order is taken here. *)
Fixpoint latest_row (first : CodeFeatureRow) (rest : list CodeFeatureRow)
  : CodeFeatureRow :=
  match rest with
  | [] => first
  | row :: rest' =>
      if cf_updated first <? cf_updated row
      then latest_row row rest'
      else latest_row first rest'
  end.

Definition sum_Z (l : list Z) : Z := fold_right Z.add 0 l.

(** One result row of the aggregate [SELECT]:
    [MAX(updated)], the bare columns, [SUM(occurrence_count)],
    [SUM(MAX(occurrence_count, 1))] (the two-argument [MAX] is SQLite's scalar
    maximum) and [COUNT()]. *)
Definition aggregate_group (first : CodeFeatureRow) (rest : list CodeFeatureRow)
  : RepoFeatureRow :=
  let bare := latest_row first rest in
  let group := first :: rest in
  {| rf_updated := cf_updated bare;
     rf_source_name := cf_source_name bare;
     rf_repo_key := cf_repo_key bare;
     rf_analyzer_name := cf_analyzer_name bare;
     rf_feature_name := cf_feature_name bare;
     rf_occurrence_count := sum_Z (map count_of group);
     rf_code_occurrence_count := sum_Z (map (fun row => Z.max (count_of row) 1) group);
     rf_code_total_count := Z.of_nat (List.length group) |}.

Definition aggregate_rows (rows : list CodeFeatureRow) : list RepoFeatureRow :=
  flat_map (fun feature_name =>
              match group_of feature_name rows with
              | [] => []
              | first :: rest => [aggregate_group first rest]
              end)
           (distinct (map cf_feature_name rows)).

(** [save_repo_features]: upsert the aggregates, then optionally delete the
    code rows of the repo. *)
Definition save_repo_features (repo : Repo) (keep_code_features : bool)
    (db : Database) : Database :=
  {| repo_metadata_tbl := repo_metadata_tbl db;
     repo_feature_tbl :=
       upsert_many rf_same_key (aggregate_rows (selected_rows repo db))
                   (repo_feature_tbl db);
     code_feature_tbl :=
       if keep_code_features then code_feature_tbl db
       else filter (fun row => negb (repo_code_filter repo row))
                   (code_feature_tbl db) |}.

(** *** Reads *)

Definition in_opt (filter_values : option (list string)) (v : string) : bool :=
  match filter_values with
  | None => true
  | Some values => Utils.mem v values
  end.

(** [_get_repo_metadata]: a dict, so a later row for a key wins. *)
Definition get_repo_metadata (db : Database) (source_name repo_key : string)
  : list (string * string) :=
  map (fun row => (rm_metadata_key row, rm_metadata_value row))
      (filter (fun row => String.eqb (rm_source_name row) source_name &&
                          String.eqb (rm_repo_key row) repo_key)
              (repo_metadata_tbl db)).

(** [get_repo_features]: the rows of [repo_feature] that pass the optional
    filters, each with the metadata of its repo. *)
Definition get_repo_features (db : Database)
    (source_names repo_keys analyzer_names feature_names : option (list string))
  : list (RepoFeatureRow * list (string * string)) :=
  map (fun row => (row, get_repo_metadata db (rf_source_name row) (rf_repo_key row)))
      (filter (fun row =>
                 in_opt source_names (rf_source_name row) &&
                 in_opt repo_keys (rf_repo_key row) &&
                 in_opt analyzer_names (rf_analyzer_name row) &&
                 in_opt feature_names (rf_feature_name row))
              (repo_feature_tbl db)).

(** The persisted aggregate of a key, if any. *)
Definition lookup_repo_feature (db : Database)
    (source_name repo_key analyzer_name feature_name : string)
  : option RepoFeatureRow :=
  find (fun row =>
          String.eqb (rf_source_name row) source_name &&
          String.eqb (rf_repo_key row) repo_key &&
          String.eqb (rf_analyzer_name row) analyzer_name &&
          String.eqb (rf_feature_name row) feature_name)
       (repo_feature_tbl db).

End Db.

(** ** Sources and analyzers as the core sees them *)

Inductive RepoOrThunk : Type :=
| GotRepo (repo : Repo)
| GotRepoThunk (thunk : RepoThunk).

Inductive CodeOrThunk : Type :=
| GotCode (code : Code)
| GotCodeThunk (thunk : CodeThunk).

(** [repo_or_thunk.source.name] and [repo_or_thunk.key] *)
Definition candidate_source (c : RepoOrThunk) : string :=
  match c with GotRepo r => repo_source r | GotRepoThunk t => rt_source t end.

Definition candidate_key (c : RepoOrThunk) : string :=
  match c with GotRepo r => repo_key r | GotRepoThunk t => rt_key t end.

(** The result of one [next()] on an iterator that is not exhausted: the item,
    or the exception raised in its place.  [StopIteration] is the end of the
    list. *)
Inductive Next (A : Type) : Type :=
| Yields (a : A)
| Raises (e : Exn).
Arguments Yields {A} a.
Arguments Raises {A} e.

(** A [Source]: its name and the iterator [repo_generator()] returns, given as
    the results of the successive [next()] calls on it.  The list is finite:
    a generator that never ends (the [while True] of
    [GithubSampleSource.repo_generator]) is not represented, and what is
    proved of a whole run is proved of sources whose generators end
    ([LocalSource], [GitSource], [TestSource]). *)
Record Source : Type := {
  source_name : string;
  repo_generator : list (Next RepoOrThunk)
}.

(** One advance of the iterator [Analyzer.code_generator] returns.  Between
    two yields the generator may ask, through the callback
    [get_code_features], which features are still to be analysed for a code
    key; the answer is read from the store when the question is asked. *)
Inductive GenStep : Type :=
| StepSkip
| StepYield (item : CodeOrThunk)
| StepRaise (e : Exn).

Definition UnitGen : Type := (string -> list string) -> GenStep.

(** An [Analyzer]: its name, [get_feature_names()] and [code_generator]
    (the call itself may raise). *)
Record Analyzer : Type := {
  analyzer_name : string;
  get_feature_names : list string;
  code_generator : Repo -> Try (list UnitGen)
}.

(** *** codesurvey/analyzers/core.py: [Analyzer.__init__], [FileAnalyzer] *)

Module Analyzers.

Record FeatureFinder : Type := {
  ff_name : string;
  ff_call : string -> Try Feature
}.

(** A [FileAnalyzer] instance: [file_keys] is what [_get_file_keys] yields
    for a repo, [prepare_file] the code representation of a file ([None]
    when the file is to be ignored). *)
Record FileAnalyzer : Type := {
  fa_name : string;
  fa_feature_finders : list FeatureFinder;
  fa_file_keys : Repo -> list string;
  fa_prepare_file : Repo -> string -> Try (option string)
}.

(** [Analyzer.__init__]: the duplicate check on the names of the feature
    finders. *)
Definition Analyzer_init (name : string) (feature_finders : list FeatureFinder)
    (file_keys : Repo -> list string)
    (prepare_file : Repo -> string -> Try (option string)) : Try FileAnalyzer :=
  let duplicate_feature_names := Utils.get_duplicates (map ff_name feature_finders) in
  match duplicate_feature_names with
  | _ :: _ =>
      Err (ValueError ("Cannot instantiate analyzer with duplicate feature names: "
                       ++ Utils.join ", " duplicate_feature_names))
  | [] =>
      Ok {| fa_name := name;
            fa_feature_finders := feature_finders;
            fa_file_keys := file_keys;
            fa_prepare_file := prepare_file |}
  end.

(** [self.feature_finders[feature_name]] *)
Definition find_finder (fa : FileAnalyzer) (feature_name : string)
  : option FeatureFinder :=
  find (fun ff => String.eqb (ff_name ff) feature_name) (fa_feature_finders fa).

(** The dict comprehension of [analyze_code] over [features]: the first
    exception aborts it. *)
Fixpoint feature_results (fa : FileAnalyzer) (code_repr : string)
    (features : list string) : Try (list (string * Feature)) :=
  match features with
  | [] => Ok []
  | feature_name :: rest =>
      match find_finder fa feature_name with
      | None => Err (KeyError feature_name)
      | Some ff =>
          match ff_call ff code_repr with
          | Err e => Err e
          | Ok feature =>
              match feature_results fa code_repr rest with
              | Err e => Err e
              | Ok results => Ok ((feature_name, feature) :: results)
              end
          end
      end
  end.

Definition analyze_code (fa : FileAnalyzer) (repo : Repo) (code_key : string)
    (features : list string) : Try Code :=
  match fa_prepare_file fa repo code_key with
  | Err e => Err e
  | Ok code_repr =>
      let results :=
        match code_repr with
        | None =>
            Ok (map (fun feature_name =>
                       (feature_name,
                        {| feat_name := feature_name;
                           feat_occurrences := [];
                           feat_ignore := true |}))
                    features)
        | Some r => feature_results fa r features
        end in
      match results with
      | Err e => Err e
      | Ok feature_results =>
          Ok {| code_analyzer := fa_name fa;
                code_repo := repo;
                code_key := code_key;
                code_features := feature_results |}
      end
  end.

(** [FileAnalyzer.code_generator]: one step per file key. *)
Definition file_step (fa : FileAnalyzer) (repo : Repo) (file_key : string)
  : UnitGen :=
  fun get_code_features =>
    let features := get_code_features file_key in
    if Z.of_nat (List.length features) =? 0 then StepSkip
    else StepYield (GotCodeThunk
           {| ct_analyzer := fa_name fa;
              ct_repo := repo;
              ct_key := file_key;
              ct_features := features;
              ct_thunk := analyze_code fa repo file_key features |}).

Definition to_analyzer (fa : FileAnalyzer) : Analyzer :=
  {| analyzer_name := fa_name fa;
     get_feature_names := map ff_name (fa_feature_finders fa);
     code_generator := fun repo => Ok (map (file_step fa repo) (fa_file_keys fa repo)) |}.

End Analyzers.

(** ** codesurvey/core.py: [CodeSurvey.__init__] *)

(** The configuration a [CodeSurvey] holds.  [sources] and [analyzers] are
    the values of the dicts keyed by name, in insertion order. *)
Record CodeSurvey : Type := {
  sources : list Source;
  analyzers : list Analyzer;
  analyzer_features : list (string * list string);
  max_workers : Z;
  continue_on_failure : bool;
  save_code_features : bool;
  save_occurrences : bool;
  use_saved_features : bool
}.

(** [max_workers or os.cpu_count() or 1] *)
Definition py_or (a : option Z) (b : Z) : Z :=
  match a with
  | Some v => if v =? 0 then b else v
  | None => b
  end.

Definition CodeSurvey_init (srcs : list Source) (ans : list Analyzer)
    (max_workers_arg cpu_count : option Z)
    (continue_on_failure_arg save_code_features_arg
     save_occurrences_arg use_saved_features_arg : bool) : Try CodeSurvey :=
  let duplicate_source_names := Utils.get_duplicates (map source_name srcs) in
  match duplicate_source_names with
  | _ :: _ =>
      Err (ValueError ("Cannot instantiate CodeSurvey with duplicate source names: "
                       ++ Utils.join ", " duplicate_source_names))
  | [] =>
      let duplicate_analyzer_names := Utils.get_duplicates (map analyzer_name ans) in
      match duplicate_analyzer_names with
      | _ :: _ =>
          Err (ValueError ("Cannot instantiate CodeSurvey with duplicate analyzer names: "
                           ++ Utils.join ", " duplicate_analyzer_names))
      | [] =>
          Ok {| sources := srcs;
                analyzers := ans;
                analyzer_features :=
                  map (fun a => (analyzer_name a, get_feature_names a)) ans;
                max_workers := py_or max_workers_arg (py_or cpu_count 1);
                continue_on_failure := continue_on_failure_arg;
                save_code_features := save_code_features_arg;
                save_occurrences := save_occurrences_arg;
                use_saved_features := use_saved_features_arg |}
      end
  end.

(** ** codesurvey/core.py: [CodeSurveyRunner.get_repo_generator] *)

Module Feed.

(** What one [next()] on the repo generator gives: a candidate (tagged here
    with the name of the source whose turn produced it), or, when
    [continue_on_failure] is off, the exception [handle_failure] re-raises.
    The end of the list is [StopIteration]. *)
Inductive FeedEvent : Type :=
| FeedYield (source : string) (candidate : RepoOrThunk)
| FeedRaise (e : Exn).

(** [source_repo_generators]: the dict from source to its iterator. *)
Definition Generators : Type := list (string * list (Next RepoOrThunk)).

Fixpoint lookup (name : string) (gens : Generators)
  : option (list (Next RepoOrThunk)) :=
  match gens with
  | [] => None
  | (n, g) :: rest => if String.eqb n name then Some g else lookup name rest
  end.

(** [del source_repo_generators[source]] *)
Fixpoint delete (name : string) (gens : Generators) : Generators :=
  match gens with
  | [] => []
  | (n, g) :: rest =>
      if String.eqb n name then rest else (n, g) :: delete name rest
  end.

(** The iterator of [name] has advanced to [g]. *)
Fixpoint advance (name : string) (g : list (Next RepoOrThunk)) (gens : Generators)
  : Generators :=
  match gens with
  | [] => []
  | (n, g0) :: rest =>
      if String.eqb n name then (n, g) :: rest else (n, g0) :: advance name g rest
  end.

(** The loop [for source in cycle(self.sources.values())].  [all] is the
    sequence being cycled, [pass] what is left of the current pass over it;
    each iteration of the loop takes one unit of [fuel]. *)
Fixpoint feed_loop (fuel : nat) (continue : bool) (all pass : list string)
    (gens : Generators) : list FeedEvent :=
  match fuel with
  | O => []
  | S fuel' =>
      match pass with
      | [] =>
          match all with
          | [] => []                      (* cycle of nothing ends at once *)
          | _ :: _ => feed_loop fuel' continue all all gens
          end
      | source :: pass' =>
          if Z.of_nat (List.length gens) =? 0 then []          (* return *)
          else
            match lookup source gens with
            | None => feed_loop fuel' continue all pass' gens   (* continue *)
            | Some [] =>                                    (* StopIteration *)
                feed_loop fuel' continue all pass' (delete source gens)
            | Some (Yields candidate :: g) =>
                FeedYield source candidate
                  :: feed_loop fuel' continue all pass' (advance source g gens)
            | Some (Raises e :: g) =>
                (* handle_failure: log and go on, or re-raise *)
                if continue
                then feed_loop fuel' continue all pass' (advance source g gens)
                else [FeedRaise e]
            end
      end
  end.

(** The number of [next()] results still to come from the sources, counting
    each final [StopIteration]. *)
Definition weight (gens : Generators) : nat :=
  fold_right (fun ng acc => (S (List.length (snd ng)) + acc)%nat) O gens.

Definition initial_generators (srcs : list Source) : Generators :=
  map (fun s => (source_name s, repo_generator s)) srcs.

(** Iterations that are enough for the loop to return. *)
Definition enough_fuel (srcs : list Source) : nat :=
  (S (weight (initial_generators srcs)) * (2 * List.length srcs + 3))%nat.

(** Everything the generator yields until it returns or raises. *)
Definition get_repo_generator (continue : bool) (srcs : list Source)
  : list FeedEvent :=
  feed_loop (enough_fuel srcs) continue (map source_name srcs)
            (map source_name srcs) (initial_generators srcs).

End Feed.

(** *** The feed as the specification words it

    Sources take turns in a rotation.  The source whose turn it is yields one
    candidate and goes to the back of the rotation; if it raises instead, it
    is skipped for this turn and also goes to the back; if it is exhausted, it
    leaves the rotation for good.  The feed ends when the rotation is empty.
    Each candidate is paired with the name of the source that yielded it. *)
Module FeedSpec.

Import Feed.



End FeedSpec.

(** ** codesurvey/core.py: [CodeSurveyRunner.get_pbars] and the progress trackers

    The keys of the dict [get_pbars] builds, and the loop of
    [check_repo_completion] that looks a tracker up for every aggregate of
    the completed repository with an occurrence. *)

Module Progress.

Import Db.

(** The keys of [self.pbars]: ['border'], ['repos'], ['codes'] and the
    tuples [('feature', analyzer_name, feature_name)]. *)
Inductive PbarKey : Type :=
| Border
| Repos
| Codes
| FeatureBar (analyzer_name feature_name : string).

Definition pbar_key_eqb (a b : PbarKey) : bool :=
  match a, b with
  | Border, Border => true
  | Repos, Repos => true
  | Codes, Codes => true
  | FeatureBar a1 f1, FeatureBar a2 f2 => String.eqb a1 a2 && String.eqb f1 f2
  | _, _ => false
  end.

(** The key as [KeyError] reports it. *)
Definition pbar_key_repr (key : PbarKey) : string :=
  match key with
  | Border => "border"
  | Repos => "repos"
  | Codes => "codes"
  | FeatureBar analyzer_name feature_name =>
      "('feature', '" ++ analyzer_name ++ "', '" ++ feature_name ++ "')"
  end.

(** [key in self.pbars] *)
Definition has_pbar (key : PbarKey) (pbars : list PbarKey) : bool :=
  existsb (pbar_key_eqb key) pbars.

Definition max_auto_feature_progress : Z := 10.

(** [all_features] of [get_pbars]: iterating over the dict
    [self.analyzer_features] gives its keys, the analyzer names, and
    iterating over a name gives its characters. *)
Definition all_features (analyzer_features : list (string * list string))
  : list Ascii.ascii :=
  flat_map (fun entry => list_ascii_of_string (fst entry)) analyzer_features.

(** [get_pbars]: the keys of the dict it returns, in insertion order. *)
Definition get_pbars (analyzer_features : list (string * list string))
    (progress_analyzer_features : option (list (string * list string)))
  : list PbarKey :=
  let progress_analyzer_features :=
    match progress_analyzer_features with
    | None =>
        if max_auto_feature_progress <? Z.of_nat (List.length (all_features analyzer_features))
        then []
        else analyzer_features
    | Some given => given
    end in
  [Border; Repos; Codes]
  ++ flat_map (fun entry => map (FeatureBar (fst entry)) (snd entry))
              progress_analyzer_features.

(** How the loop over [repo_features] in [check_repo_completion] ends. *)
Inductive Tracked : Type :=
| AllUpdated
| RaisesKeyError (key : PbarKey).

(** [for repo_feature in repo_features: if repo_feature.occurrence_count > 0:
    self.pbars[feature_pbar_key].update(1)] *)
Fixpoint update_feature_pbars (pbars : list PbarKey) (repo_features : list RepoFeatureRow)
  : Tracked :=
  match repo_features with
  | [] => AllUpdated
  | repo_feature :: rest =>
      if 0 <? rf_occurrence_count repo_feature then
        let feature_pbar_key :=
          FeatureBar (rf_analyzer_name repo_feature) (rf_feature_name repo_feature) in
        if has_pbar feature_pbar_key pbars
        then update_feature_pbars pbars rest
        else RaisesKeyError feature_pbar_key
      else update_feature_pbars pbars rest
  end.

(** The tracking [check_repo_completion] does for a completed repository,
    on the store as [save_repo_features] left it. *)
Definition track_completed_repo (pbars : list PbarKey) (db : Database) (repo : Repo)
  : Tracked :=
  update_feature_pbars pbars
    (map fst (get_repo_features db (Some [repo_source repo]) (Some [repo_key repo])
                                None None)).

End Progress.

(** ** codesurvey/core.py: [CodeSurveyRunner] *)

Module Runner.

Import Feed.

(** A pending job of [future_to_job].  The callback is determined by the kind
    of job ([handle_repo_future] or [handle_code_future]); [result] is what
    [future.result()] gives for the future the job is filed under, once that
    future is done. *)
Inductive Job : Type :=
| RepoJob (source : string) (analyzer_features : list (string * list string))
          (result : Try Repo)
| CodeJob (analyzer : string) (repo : Repo) (result : Try Code).

Definition is_repo_job (job : Job) : bool :=
  match job with RepoJob _ _ _ => true | CodeJob _ _ _ => false end.

(** [isinstance(job, CodeJob) and job.repo is repo] *)
Definition is_code_job_of (repo : Repo) (job : Job) : bool :=
  match job with
  | RepoJob _ _ _ => false
  | CodeJob _ r _ => repo_is r repo
  end.

Inductive LogMsg : Type :=
| SkipInProgress (source key : string)
| SkipFullyAnalyzed (source key : string)
| SkipCompletedAnalyzer (analyzer : string) (repo : Repo)
| MaxCodesReached (repo : Repo)
| Failed (e : Exn).

(** What the coordinator does that is visible from outside its own state. *)
Inductive Event : Type :=
| EvFetchRepo (future : nat) (source key : string) (* submit of a RepoThunk *)
| EvAnalyzeRepo (repo : Repo)                      (* handle_repo entered *)
| EvCodeJob (future : nat) (repo : Repo) (analyzer : string)
                                                   (* submit of a CodeThunk *)
| EvCodeSaved (code : Code)                        (* handle_code saved it *)
| EvRepoCompleted (repo : Repo)                    (* its aggregates saved and counted *)
| EvCleanup (repo : Repo)                          (* repo.cleanup() *)
| EvLog (msg : LogMsg).

(** The sizes of the bookkeeping at one point of a run. *)
Record Snapshot : Type := {
  snap_pending_jobs : Z;            (* len(future_to_job) *)
  snap_repo_jobs : Z;               (* the RepoJobs among them *)
  snap_fetching : Z;                (* RepoJobs not yet handed to their callback *)
  snap_current_repos : Z;           (* len(current_repos) *)
  snap_counted_repos : Z;           (* those of them already counted as completed *)
  snap_completed_repo_count : Z;
  snap_completed_code_count : Z
}.

(** The state of a run.  [next_future] is the identity of the next future
    the executor hands out, [clock] counts the readings of [datetime.now()],
    [delivered] lists the futures of the batch being processed whose callback
    has been entered (how far [for future in done] has got).  [events] and
    [history] record, most recent first, what was done and the sizes of the
    bookkeeping after each change to it. *)
Record State : Type := {
  db : Db.Database;
  completed_repo_count : Z;
  completed_code_count : Z;
  future_to_job : list (nat * Job);
  current_repos : list Repo;
  next_future : nat;
  clock : nat;
  delivered : list nat;
  events : list Event;
  history : list Snapshot
}.

(** The arguments of a run: the survey, the two caps, the features to track
    progress for, and the two things the outside world decides: the time read
    by each [datetime.now()] and which pending futures
    [concurrent.futures.wait] reports done in each round. *)
Record Config : Type := {
  survey : CodeSurvey;
  max_repos : option Z;
  max_codes : option Z;
  progress_analyzer_features : option (list (string * list string));
  now : nat -> Z;
  wait_oracle : nat -> list nat -> list nat
}.

Inductive Outcome : Type :=
| Normal
| Break                 (* BreakException *)
| Raise (e : Exn).

Definition len {A} (l : list A) : Z := Z.of_nat (List.length l).

(** [self.pbars], as [run] sets it. *)
Definition pbars (cfg : Config) : list Progress.PbarKey :=
  Progress.get_pbars (analyzer_features (survey cfg)) (progress_analyzer_features cfg).

Definition jobs (st : State) : list Job := map snd (future_to_job st).

Definition mem_nat (n : nat) (l : list nat) : bool := existsb (Nat.eqb n) l.

Definition undelivered_repo_jobs (st : State) : list (nat * Job) :=
  filter (fun fj => is_repo_job (snd fj) && negb (mem_nat (fst fj) (delivered st)))
         (future_to_job st).

Definition snapshot (st : State) : Snapshot :=
  {| snap_pending_jobs := len (future_to_job st);
     snap_repo_jobs := len (filter is_repo_job (jobs st));
     snap_fetching := len (undelivered_repo_jobs st);
     snap_current_repos := len (current_repos st);
     snap_counted_repos := 0;
     snap_completed_repo_count := completed_repo_count st;
     snap_completed_code_count := completed_code_count st |}.

(** The sizes between the two halves of the completion of [repo]: it has
    been counted as completed and, if it is in [current_repos], is not yet
    removed from it. *)
Definition counted_snapshot (repo : Repo) (st : State) : Snapshot :=
  {| snap_pending_jobs := len (future_to_job st);
     snap_repo_jobs := len (filter is_repo_job (jobs st));
     snap_fetching := len (undelivered_repo_jobs st);
     snap_current_repos := len (current_repos st);
     snap_counted_repos :=
       if existsb (fun r => repo_eqb r repo) (current_repos st) then 1 else 0;
     snap_completed_repo_count := completed_repo_count st;
     snap_completed_code_count := completed_code_count st |}.

(** *** State updates *)

Definition log_event (ev : Event) (st : State) : State :=
  {| db := db st;
     completed_repo_count := completed_repo_count st;
     completed_code_count := completed_code_count st;
     future_to_job := future_to_job st;
     current_repos := current_repos st;
     next_future := next_future st;
     clock := clock st;
     delivered := delivered st;
     events := ev :: events st;
     history := history st |}.

Definition log (msg : LogMsg) (st : State) : State := log_event (EvLog msg) st.

(** Record the sizes of the bookkeeping as they now are. *)
Definition tick (st : State) : State :=
  {| db := db st;
     completed_repo_count := completed_repo_count st;
     completed_code_count := completed_code_count st;
     future_to_job := future_to_job st;
     current_repos := current_repos st;
     next_future := next_future st;
     clock := clock st;
     delivered := delivered st;
     events := events st;
     history := snapshot st :: history st |}.

(** Record the sizes between the two halves of the completion of [repo]. *)
Definition tick_counted (repo : Repo) (st : State) : State :=
  {| db := db st;
     completed_repo_count := completed_repo_count st;
     completed_code_count := completed_code_count st;
     future_to_job := future_to_job st;
     current_repos := current_repos st;
     next_future := next_future st;
     clock := clock st;
     delivered := delivered st;
     events := events st;
     history := counted_snapshot repo st :: history st |}.

(** [future = self.executor.submit(thunk); self.future_to_job[future] = job] *)
Definition submit (ev : nat -> Event) (job : Job) (st : State) : State :=
  tick
    {| db := db st;
       completed_repo_count := completed_repo_count st;
       completed_code_count := completed_code_count st;
       future_to_job := future_to_job st ++ [(next_future st, job)];
       current_repos := current_repos st;
       next_future := S (next_future st);
       clock := clock st;
       delivered := delivered st;
       events := ev (next_future st) :: events st;
       history := history st |}.

(** [self.current_repos.append(repo); self.db.save_repo_metadata(repo)] *)
Definition start_repo (cfg : Config) (repo : Repo) (st : State) : State :=
  tick
    {| db := Db.save_repo_metadata (now cfg (clock st)) repo (db st);
       completed_repo_count := completed_repo_count st;
       completed_code_count := completed_code_count st;
       future_to_job := future_to_job st;
       current_repos := current_repos st ++ [repo];
       next_future := next_future st;
       clock := S (clock st);
       delivered := delivered st;
       events := EvAnalyzeRepo repo :: events st;
       history := history st |}.

(** [list.remove(x)]: drop the first element that [==] x. *)
Fixpoint remove_repo (repo : Repo) (l : list Repo) : list Repo :=
  match l with
  | [] => []
  | r :: rest => if repo_eqb r repo then rest else r :: remove_repo repo rest
  end.

(** The first half of the body of the loop of [check_repo_completion] for
    one completed repo: [self.db.save_repo_features(...)] and
    [self.completed_repo_count += 1]. *)
Definition count_repo (cfg : Config) (repo : Repo) (st : State) : State :=
  tick_counted repo
    {| db := Db.save_repo_features repo (save_code_features (survey cfg)) (db st);
       completed_repo_count := completed_repo_count st + 1;
       completed_code_count := completed_code_count st;
       future_to_job := future_to_job st;
       current_repos := current_repos st;
       next_future := next_future st;
       clock := clock st;
       delivered := delivered st;
       events := EvRepoCompleted repo :: events st;
       history := history st |}.

(** The second half: [repo.cleanup()] and [self.current_repos.remove(repo)]. *)
Definition cleanup_repo (repo : Repo) (st : State) : State :=
  tick
    {| db := db st;
       completed_repo_count := completed_repo_count st;
       completed_code_count := completed_code_count st;
       future_to_job := future_to_job st;
       current_repos := remove_repo repo (current_repos st);
       next_future := next_future st;
       clock := clock st;
       delivered := delivered st;
       events := EvCleanup repo :: events st;
       history := history st |}.

(** The state a completion leaves when every tracker it looks up exists. *)
Definition finish_repo (cfg : Config) (repo : Repo) (st : State) : State :=
  cleanup_repo repo (count_repo cfg repo st).

(** The body of the loop of [check_repo_completion] for one completed repo.
    Between the two halves [self.pbars[('feature', analyzer, feature)]] is
    looked up for every aggregate of the repo with an occurrence: a missing
    tracker raises [KeyError], and the second half is not reached. *)
Definition complete_repo (cfg : Config) (repo : Repo) (st : State)
  : State * Outcome :=
  let st1 := count_repo cfg repo st in
  match Progress.track_completed_repo (pbars cfg) (db st1) repo with
  | Progress.AllUpdated => (cleanup_repo repo st1, Normal)
  | Progress.RaisesKeyError key =>
      (st1, Raise (KeyError (Progress.pbar_key_repr key)))
  end.

(** The saving branch of [handle_code]. *)
Definition save_code (cfg : Config) (code : Code) (st : State) : State :=
  tick
    {| db := Db.save_code_features (now cfg (clock st))
               (save_occurrences (survey cfg)) code (db st);
       completed_repo_count := completed_repo_count st;
       completed_code_count := completed_code_count st + 1;
       future_to_job := future_to_job st;
       current_repos := current_repos st;
       next_future := next_future st;
       clock := S (clock st);
       delivered := delivered st;
       events := EvCodeSaved code :: events st;
       history := history st |}.

(** The callback of [future] is being entered. *)
Definition deliver (future : nat) (st : State) : State :=
  tick
    {| db := db st;
       completed_repo_count := completed_repo_count st;
       completed_code_count := completed_code_count st;
       future_to_job := future_to_job st;
       current_repos := current_repos st;
       next_future := next_future st;
       clock := clock st;
       delivered := future :: delivered st;
       events := events st;
       history := history st |}.

(** [self.future_to_job = {future: ... for future in self.future_to_job
    if future not in done}] *)
Definition remove_done (done : list nat) (st : State) : State :=
  tick
    {| db := db st;
       completed_repo_count := completed_repo_count st;
       completed_code_count := completed_code_count st;
       future_to_job :=
         filter (fun fj => negb (mem_nat (fst fj) done)) (future_to_job st);
       current_repos := current_repos st;
       next_future := next_future st;
       clock := clock st;
       delivered := [];
       events := events st;
       history := history st |}.

(** *** The methods of [CodeSurveyRunner] *)

Definition handle_failure (cfg : Config) (ex : Exn) (st : State)
  : State * Outcome :=
  if continue_on_failure (survey cfg)
  then (log (Failed ex) st, Normal)
  else (log (Failed ex) st, Raise ex).

Definition reached_max_repos (cfg : Config) (st : State) : bool :=
  match max_repos cfg with
  | None => false
  | Some m =>
      let pending_repos := len (filter is_repo_job (jobs st)) in
      let repo_count :=
        len (current_repos st) + pending_repos + completed_repo_count st in
      m <=? repo_count
  end.

Definition reached_max_codes (cfg : Config) (st : State) : bool :=
  match max_codes cfg with
  | None => false
  | Some m => m <=? completed_code_count st
  end.

(** The list comprehension [completed_repos] of [check_repo_completion]. *)
Definition completed_repos (st : State) : list Repo :=
  filter (fun repo => len (filter (is_code_job_of repo) (jobs st)) =? 0)
         (current_repos st).

(** The loop [for repo in completed_repos] of [check_repo_completion]. *)
Fixpoint complete_repos (cfg : Config) (todo : list Repo) (st : State)
  : State * Outcome :=
  match todo with
  | [] => (st, Normal)
  | repo :: rest =>
      let '(st1, o) := complete_repo cfg repo st in
      match o with
      | Normal => complete_repos cfg rest st1
      | _ => (st1, o)
      end
  end.

(** [check_repo_completion]; its argument [repos] is not used by the
    source. *)
Definition check_repo_completion (cfg : Config) (st : State) : State * Outcome :=
  complete_repos cfg (completed_repos st) st.

Definition handle_code (cfg : Config) (code : Code) (st : State) : State :=
  if reached_max_codes cfg st then st
  else save_code cfg code st.

(** The closure [get_code_features] of [handle_repo]; it reads the store as
    it is when called. *)
Definition get_code_features (cfg : Config) (repo : Repo) (analyzer : Analyzer)
    (features : list string) (st : State) (code_key : string) : list string :=
  if negb (use_saved_features (survey cfg)) then features
  else Db.get_code_missing_features (db st) (repo_source repo) (repo_key repo)
         code_key (analyzer_name analyzer) features.

(** The loop [for code_or_thunk in analyzer_codes] of [handle_repo].  The
    iterator is advanced first; the cap is checked on what it yielded. *)
Fixpoint codes_loop (cfg : Config) (repo : Repo) (analyzer : Analyzer)
    (features : list string) (steps : list UnitGen) (st : State)
  : State * Outcome :=
  match steps with
  | [] => (st, Normal)
  | step :: rest =>
      match step (get_code_features cfg repo analyzer features st) with
      | StepSkip => codes_loop cfg repo analyzer features rest st
      | StepRaise e => (st, Raise e)
      | StepYield code_or_thunk =>
          if reached_max_codes cfg st then (st, Break)
          else
            match code_or_thunk with
            | GotCodeThunk thunk =>
                codes_loop cfg repo analyzer features rest
                  (submit (fun f => EvCodeJob f repo (analyzer_name analyzer))
                          (CodeJob (analyzer_name analyzer) repo (ct_thunk thunk))
                          st)
            | GotCode code =>
                codes_loop cfg repo analyzer features rest (handle_code cfg code st)
            end
      end
  end.

(** [analyzer_features.get(name)] *)
Fixpoint dict_get (name : string) (d : list (string * list string))
  : option (list string) :=
  match d with
  | [] => None
  | (k, v) :: rest => if String.eqb k name then Some v else dict_get name rest
  end.

(** [self.analyzers[name]] *)
Definition lookup_analyzer (cfg : Config) (name : string) : option Analyzer :=
  find (fun a => String.eqb (analyzer_name a) name) (analyzers (survey cfg)).

(** The loop [for analyzer in self.analyzers.values()] of [handle_repo]. *)
Fixpoint analyzers_loop (cfg : Config) (repo : Repo)
    (analyzer_features : list (string * list string))
    (todo : list Analyzer) (st : State) : State * Outcome :=
  match todo with
  | [] => (st, Normal)
  | analyzer0 :: rest =>
      match dict_get (analyzer_name analyzer0) analyzer_features with
      | None =>
          analyzers_loop cfg repo analyzer_features rest
            (log (SkipCompletedAnalyzer (analyzer_name analyzer0) repo) st)
      | Some features =>
          match lookup_analyzer cfg (analyzer_name analyzer0) with
          | None => (st, Raise (KeyError (analyzer_name analyzer0)))
          | Some analyzer =>
              match code_generator analyzer repo with
              | Err ex =>
                  let '(st1, o) := handle_failure cfg ex st in
                  match o with
                  | Normal => analyzers_loop cfg repo analyzer_features rest st1
                  | _ => (st1, o)
                  end
              | Ok analyzer_codes =>
                  let '(st1, o) :=
                    codes_loop cfg repo analyzer features analyzer_codes st in
                  match o with
                  | Normal => analyzers_loop cfg repo analyzer_features rest st1
                  | _ => (st1, o)
                  end
              end
          end
      end
  end.

Definition handle_repo (cfg : Config) (repo : Repo)
    (analyzer_features : list (string * list string)) (st : State)
  : State * Outcome :=
  let st1 := start_repo cfg repo st in
  let '(st2, o) :=
    if reached_max_codes cfg st1 then (st1, Break)
    else analyzers_loop cfg repo analyzer_features (analyzers (survey cfg)) st1 in
  let '(st3, o') :=
    match o with
    | Break => (log (MaxCodesReached repo) st2, Normal)   (* except BreakException *)
    | _ => (st2, o)
    end in
  let '(st4, o_finally) := check_repo_completion cfg st3 in          (* finally *)
  (st4, match o_finally with Normal => o' | _ => o_finally end).

(** [job.callback(future)]: [handle_repo_future] or [handle_code_future]. *)
Definition callback (cfg : Config) (job : Job) (st : State) : State * Outcome :=
  match job with
  | RepoJob _ analyzer_features result =>
      match result with
      | Err ex => handle_failure cfg ex st
      | Ok repo => handle_repo cfg repo analyzer_features st
      end
  | CodeJob _ _ result =>
      match result with
      | Err ex => handle_failure cfg ex st
      | Ok code => (handle_code cfg code st, Normal)
      end
  end.

(** [any(repo.source.name == c.source.name and repo.key == c.key
         for repo in self.current_repos)] *)
Definition in_progress (c : RepoOrThunk) (st : State) : bool :=
  existsb (fun repo => String.eqb (repo_source repo) (candidate_source c) &&
                       String.eqb (repo_key repo) (candidate_key c))
          (current_repos st).

Definition repo_analyzer_features (cfg : Config) (c : RepoOrThunk) (st : State)
  : list (string * list string) :=
  if use_saved_features (survey cfg)
  then Db.get_repo_missing_analyzer_features (db st) (candidate_source c)
         (candidate_key c) (analyzer_features (survey cfg))
  else analyzer_features (survey cfg).

(** The condition of the [while] loop of [consume_repos]. *)
Definition may_admit (cfg : Config) (st : State) : bool :=
  (len (future_to_job st) <? max_workers (survey cfg)) &&
  negb (reached_max_repos cfg st) &&
  negb (reached_max_codes cfg st).

(** [consume_repos].  [gen] is what [self.repo_generator] has still to give;
    the function returns what is left of it. *)
Fixpoint consume_repos (cfg : Config) (gen : list FeedEvent) (st : State)
  : list FeedEvent * State * Outcome :=
  match gen with
  | [] => ([], st, Normal)          (* loop condition false, or StopIteration *)
  | ev :: gen' =>
      if may_admit cfg st then
        match ev with
        | FeedRaise e => (gen', st, Raise e)
        | FeedYield _ repo_or_thunk =>
            let features := repo_analyzer_features cfg repo_or_thunk st in
            if in_progress repo_or_thunk st then
              consume_repos cfg gen'
                (log (SkipInProgress (candidate_source repo_or_thunk)
                                     (candidate_key repo_or_thunk)) st)
            else if len features =? 0 then
              consume_repos cfg gen'
                (log (SkipFullyAnalyzed (candidate_source repo_or_thunk)
                                        (candidate_key repo_or_thunk)) st)
            else
              match repo_or_thunk with
              | GotRepoThunk thunk =>
                  consume_repos cfg gen'
                    (submit (fun f => EvFetchRepo f (rt_source thunk) (rt_key thunk))
                            (RepoJob (rt_source thunk) features (rt_thunk thunk))
                            st)
              | GotRepo repo =>
                  let '(st1, o) := handle_repo cfg repo features st in
                  match o with
                  | Normal => consume_repos cfg gen' st1
                  | _ => (gen', st1, o)
                  end
              end
        end
      else (gen, st, Normal)
  end.

(** [concurrent.futures.wait(..., return_when=FIRST_COMPLETED)]: a non-empty
    set of pending futures, in the order the loop over it will visit them.
    Whatever the oracle answers is cut down to pending futures without
    repetition; an empty answer stands for the first pending future. *)
Fixpoint dedup (l : list nat) : list nat :=
  match l with
  | [] => []
  | x :: rest => x :: filter (fun y => negb (Nat.eqb y x)) (dedup rest)
  end.

Definition wait (cfg : Config) (round : nat) (st : State) : list nat :=
  let pending := map fst (future_to_job st) in
  match dedup (filter (fun f => mem_nat f pending) (wait_oracle cfg round pending)) with
  | [] => firstn 1 pending
  | done => done
  end.

(** [self.future_to_job[future]] *)
Fixpoint job_of (future : nat) (ftj : list (nat * Job)) : option Job :=
  match ftj with
  | [] => None
  | (f, job) :: rest => if Nat.eqb f future then Some job else job_of future rest
  end.

(** [for future in done: job = self.future_to_job[future]; job.callback(future)] *)
Fixpoint process_done (cfg : Config) (done : list nat) (st : State)
  : State * Outcome :=
  match done with
  | [] => (st, Normal)
  | future :: rest =>
      match job_of future (future_to_job st) with
      | None => (st, Raise (KeyError "future"))
      | Some job =>
          let '(st1, o) := callback cfg job (deliver future st) in
          match o with
          | Normal => process_done cfg rest st1
          | _ => (st1, o)
          end
      end
  end.

Inductive RunResult : Type :=
| Finished (st : State) (o : Outcome)
| OutOfFuel (st : State).

(** The loop [while True] of [run]; each iteration takes one unit of
    [fuel]. *)
Fixpoint run_loop (cfg : Config) (fuel : nat) (round : nat)
    (gen : list FeedEvent) (st : State) : RunResult :=
  match fuel with
  | O => OutOfFuel st
  | S fuel' =>
      let '(gen1, st1, o1) := consume_repos cfg gen st in
      match o1 with
      | Normal =>
          if len (future_to_job st1) =? 0 then Finished st1 Normal
          else
            let done := wait cfg round st1 in
            let '(st2, o2) := process_done cfg done st1 in
            match o2 with
            | Normal =>
                let '(st3, o3) :=
                  check_repo_completion cfg (remove_done done st2) in
                match o3 with
                | Normal => run_loop cfg fuel' (S round) gen1 st3
                | _ => Finished st3 o3
                end
            | _ => Finished st2 o2
            end
      | _ => Finished st1 o1
      end
  end.

(** The state [run] starts from, on the store [db0]. *)
Definition initial_state (db0 : Db.Database) : State :=
  tick
    {| db := db0;
       completed_repo_count := 0;
       completed_code_count := 0;
       future_to_job := [];
       current_repos := [];
       next_future := O;
       clock := O;
       delivered := [];
       events := [];
       history := [] |}.

(** The [finally] block of [run]: what it does to the repos still in
    flight.  (It also cancels the pending futures, stops the executor and
    closes the store.) *)
Definition final_cleanup (st : State) : State :=
  fold_left (fun s repo => log_event (EvCleanup repo) s) (current_repos st) st.

Definition run (cfg : Config) (fuel : nat) (db0 : Db.Database) : RunResult :=
  match run_loop cfg fuel O
          (get_repo_generator (continue_on_failure (survey cfg))
                              (sources (survey cfg)))
          (initial_state db0) with
  | Finished st o => Finished (final_cleanup st) o
  | OutOfFuel st => OutOfFuel st
  end.

End Runner.

(** * Properties *)

Unset Implicit Arguments.
Open Scope list_scope.

(** ** Configuration failures *)

Section FindByName.
Variable A : Type.
Variable name_of : A -> string.

Lemma find_by_name_NoDup (l : list A) (a : A) :
  NoDup (map name_of l) -> In a l ->
  find (fun x => String.eqb (name_of x) (name_of a)) l = Some a.
Proof.
  induction l as [|x l IH]; simpl; intros Hnd Hin; [contradiction|].
  inversion Hnd as [|? ? Hni Hnd']; subst.
  destruct Hin as [->|Hin].
  - now rewrite String.eqb_refl.
  - destruct (String.eqb (name_of x) (name_of a)) eqn:E.
    + apply String.eqb_eq in E. exfalso. apply Hni. rewrite E.
      now apply in_map.
    + now apply IH.
Qed.
End FindByName.

Lemma get_duplicates_cases (names : list string) :
  (Utils.get_duplicates names = [] /\ NoDup names) \/
  (exists d ds, Utils.get_duplicates names = d :: ds /\ ~ NoDup names).
Proof.
  destruct (Utils.get_duplicates names) as [|d ds] eqn:E.
  - left. split; [reflexivity | now apply Utils.get_duplicates_nil].
  - right. exists d, ds. split; [reflexivity|].
    intros Hnd. apply Utils.get_duplicates_nil in Hnd. congruence.
Qed.

(** C9. [CodeSurvey.__init__] raises [ValueError] exactly when two sources
    or two analyzers share a name, and [Analyzer.__init__] exactly when two
    feature finders do; both do so before building anything.  When the names
    are distinct the object is built from the given collections unchanged, and
    the lookups by name made during a run ([self.analyzers[name]],
    [self.feature_finders[name]]) find the very item that carries the name,
    so that no failure over names is left for run time. *)
Theorem C9_duplicate_names_fail_at_construction :
  forall (srcs : list Source) (ans : list Analyzer) (mw cpu : option Z)
         (c1 c2 c3 c4 : bool)
         (name : string) (ffs : list Analyzers.FeatureFinder)
         (fk : Repo -> list string) (pf : Repo -> string -> Try (option string)),
    match CodeSurvey_init srcs ans mw cpu c1 c2 c3 c4 with
    | Err (ValueError _) =>
        ~ (NoDup (map source_name srcs) /\ NoDup (map analyzer_name ans))
    | Err _ => False
    | Ok sv =>
        NoDup (map source_name srcs) /\ NoDup (map analyzer_name ans) /\
        sources sv = srcs /\ analyzers sv = ans /\
        forall a cfg, In a ans -> Runner.survey cfg = sv ->
                      Runner.lookup_analyzer cfg (analyzer_name a) = Some a
    end /\
    match Analyzers.Analyzer_init name ffs fk pf with
    | Err (ValueError _) => ~ NoDup (map Analyzers.ff_name ffs)
    | Err _ => False
    | Ok fa =>
        NoDup (map Analyzers.ff_name ffs) /\
        Analyzers.fa_feature_finders fa = ffs /\
        forall ff, In ff ffs ->
                   Analyzers.find_finder fa (Analyzers.ff_name ff) = Some ff
    end.
Proof.
  intros. split.
  - unfold CodeSurvey_init.
    destruct (get_duplicates_cases (map source_name srcs))
      as [[Es Hs] | (d & ds & Es & Hs)]; rewrite Es.
    + destruct (get_duplicates_cases (map analyzer_name ans))
        as [[Ea Ha] | (d & ds & Ea & Ha)]; rewrite Ea.
      * repeat split; auto. simpl.
        intros a cfg Hin Hcfg. unfold Runner.lookup_analyzer. rewrite Hcfg. simpl.
        now apply find_by_name_NoDup.
      * tauto.
    + tauto.
  - unfold Analyzers.Analyzer_init.
    destruct (get_duplicates_cases (map Analyzers.ff_name ffs))
      as [[E H] | (d & ds & E & H)]; rewrite E.
    + repeat split; auto. simpl. intros ff Hin.
      unfold Analyzers.find_finder. simpl. now apply find_by_name_NoDup.
    + assumption.
Qed.

(** ** Results delivered after the cap on codes *)

Lemma reached_max_codes_iff cfg st :
  Runner.reached_max_codes cfg st = true <->
  exists m, Runner.max_codes cfg = Some m /\ m <= Runner.completed_code_count st.
Proof.
  unfold Runner.reached_max_codes. destruct (Runner.max_codes cfg) as [m|].
  - rewrite Z.leb_le. split; [intros H; exists m; auto | intros (m' & E & H)].
    inversion E; subst. assumption.
  - split; [discriminate | intros (m' & E & _); discriminate].
Qed.

(** ** Concrete surveys used to exercise the statements below *)

Module Scenario.

Import Runner.

Definition repo (id : nat) (source key : string) : Repo :=
  {| repo_id := id; repo_source := source; repo_key := key; repo_path := key;
     repo_cleanup := id; repo_metadata := [] |}.

(** A feature finder that reports [n] occurrences in every file. *)
Definition finder (name : string) (n : nat) : Analyzers.FeatureFinder :=
  {| Analyzers.ff_name := name;
     Analyzers.ff_call := fun _ =>
       Ok {| feat_name := name; feat_occurrences := repeat "occurrence" n;
             feat_ignore := false |} |}.

(** A file analyzer with one feature, found [n] times in each of [files]. *)
Definition file_analyzer (n : nat) (files : list string) : Analyzers.FileAnalyzer :=
  {| Analyzers.fa_name := "python";
     Analyzers.fa_feature_finders := [finder "f" n];
     Analyzers.fa_file_keys := fun _ => files;
     Analyzers.fa_prepare_file := fun _ key => Ok (Some key) |}.

Definition local (repos : list Repo) : Source :=
  {| source_name := "local";
     repo_generator := map (fun r => Yields (GotRepo r)) repos |}.

Definition survey_of (srcs : list Source) (ans : list Analyzer) (workers : Z)
    (save_code use_saved : bool) : CodeSurvey :=
  {| sources := srcs;
     analyzers := ans;
     analyzer_features := map (fun a => (analyzer_name a, get_feature_names a)) ans;
     max_workers := workers;
     continue_on_failure := true;
     save_code_features := save_code;
     save_occurrences := true;
     use_saved_features := use_saved |}.

(** Futures complete in the order they were submitted, one per round. *)
Definition fifo : nat -> list nat -> list nat := fun _ pending => firstn 1 pending.

(** Futures complete most recent first, one per round. *)
Definition lifo : nat -> list nat -> list nat := fun _ pending => firstn 1 (rev pending).

Definition config (sv : CodeSurvey) (repos codes : option Z)
    (oracle : nat -> list nat -> list nat) : Config :=
  {| survey := sv; max_repos := repos; max_codes := codes;
     progress_analyzer_features := None;
     now := fun n => Z.of_nat n; wait_oracle := oracle |}.

Definition final_state (r : RunResult) : State :=
  match r with Finished st _ => st | OutOfFuel st => st end.

Definition finished_normally (r : RunResult) : bool :=
  match r with Finished _ Normal => true | _ => false end.

(** One repository of five files, one worker. *)
Definition five_files : list string := ["u1"; "u2"; "u3"; "u4"; "u5"].
Definition r1 : Repo := repo 1 "local" "r1".
Definition survey5 : CodeSurvey :=
  survey_of [local [r1]] [Analyzers.to_analyzer (file_analyzer 3 five_files)] 1 true true.

(** An analyzer that analyses inline: it yields finished [Code]s, one
    occurrence of each requested feature per file. *)
Definition inline_step (repo : Repo) (key : string) : UnitGen :=
  fun get_code_features =>
    let features := get_code_features key in
    if Z.of_nat (List.length features) =? 0 then StepSkip
    else StepYield (GotCode
           {| code_analyzer := "inline"; code_repo := repo; code_key := key;
              code_features :=
                map (fun f => (f, {| feat_name := f; feat_occurrences := ["occurrence"];
                                     feat_ignore := false |}))
                    features |}).

Definition inline_analyzer (files : list string) : Analyzer :=
  {| analyzer_name := "inline";
     get_feature_names := ["f"];
     code_generator := fun repo => Ok (map (inline_step repo) files) |}.

Definition survey5_inline : CodeSurvey :=
  survey_of [local [r1]] [inline_analyzer five_files] 1 true true.

(** Three repositories of one file each. *)
Definition r2 : Repo := repo 2 "local" "r2".
Definition r3 : Repo := repo 3 "local" "r3".
Definition survey3 : CodeSurvey :=
  survey_of [local [r1; r2; r3]] [Analyzers.to_analyzer (file_analyzer 1 ["u1"])]
            1 true true.

(** Two sources: ["a"] yields [a1], raises, yields [a2], [a3]; ["b"] yields
    [b1]. *)
Definition a1 : Repo := repo 11 "a" "a1".
Definition a2 : Repo := repo 12 "a" "a2".
Definition b1 : Repo := repo 21 "b" "b1".

(** One repository of the given files, the feature found [n] times in each
    file; unit records kept or not, saved features used or not. *)
Definition survey_files (n : nat) (files : list string) (save_code use_saved : bool)
  : CodeSurvey :=
  survey_of [local [r1]] [Analyzers.to_analyzer (file_analyzer n files)] 1
            save_code use_saved.

(** The persisted aggregates as (occurrence_count, code_occurrence_count,
    code_total_count). *)
Definition aggregates (st : State) : list (Z * Z * Z) :=
  map (fun row => (Db.rf_occurrence_count row, Db.rf_code_occurrence_count row,
                   Db.rf_code_total_count row))
      (Db.repo_feature_tbl (db st)).


(** Two repositories to be fetched, two workers: [g1] has one file, [g2] is
    delivered after the cap on codes is reached. *)
Definition g1 : Repo := repo 31 "git" "g1".
Definition g2 : Repo := repo 32 "git" "g2".
Definition git (repos : list Repo) : Source :=
  {| source_name := "git";
     repo_generator :=
       map (fun r => Yields (GotRepoThunk {| rt_source := "git"; rt_key := repo_key r;
                                              rt_thunk := Ok r |})) repos |}.
Definition survey_git : CodeSurvey :=
  survey_of [git [g1; g2]] [Analyzers.to_analyzer (file_analyzer 1 ["u1"])] 2 true true.

(** A repository without files. *)
Definition survey_empty_repo : CodeSurvey :=
  survey_of [local [r1]] [Analyzers.to_analyzer (file_analyzer 1 [])] 1 true true.

(** A file analyzer whose feature finder raises on every file. *)
Definition failing_finder (name : string) : Analyzers.FeatureFinder :=
  {| Analyzers.ff_name := name; Analyzers.ff_call := fun _ => Err (Failure 1) |}.

Definition failing_analyzer (files : list string) : Analyzers.FileAnalyzer :=
  {| Analyzers.fa_name := "python";
     Analyzers.fa_feature_finders := [failing_finder "f"];
     Analyzers.fa_file_keys := fun _ => files;
     Analyzers.fa_prepare_file := fun _ key => Ok (Some key) |}.

(** Two sources of one repository each, three files per repository, two
    workers. *)
Definition three_files : list string := ["u1"; "u2"; "u3"].
Definition one_repo (name : string) (r : Repo) : Source :=
  {| source_name := name; repo_generator := [Yields (GotRepo r)] |}.
Definition two_sources : list Source := [one_repo "a" a1; one_repo "b" b1].

(** The code keys with a row in [code_feature], and the cleanups made. *)
Definition saved_code_keys (st : State) : list string :=
  map Db.cf_code_key (Db.code_feature_tbl (db st)).

Definition cleanups (st : State) : list nat :=
  flat_map (fun ev => match ev with EvCleanup r => [repo_id r] | _ => [] end)
           (rev (events st)).

Definition code_jobs_submitted (st : State) : Z :=
  len (filter (fun ev => match ev with EvCodeJob _ _ _ => true | _ => false end)
              (events st)).

(** ['Max codes reached, ... will not be fully analyzed'] was logged. *)
Definition max_codes_logged (st : State) : bool :=
  existsb (fun ev => match ev with EvLog (MaxCodesReached _) => true | _ => false end)
          (events st).

Definition total_counts (st : State) : list Z :=
  map Db.rf_code_total_count (Db.repo_feature_tbl (db st)).

End Scenario.

(** C10. Once [completed_code_count] has reached [max_codes], [handle_code]
    returns the state it was given: a finished analysis, handed over directly
    or through the callback of a deferred job submitted before the cap was
    reached, changes neither the store nor [completed_code_count]. *)
Theorem C10_result_after_cap_is_discarded :
  forall (cfg : Runner.Config) (st : Runner.State) (code : Code) (m : Z),
    Runner.max_codes cfg = Some m ->
    m <= Runner.completed_code_count st ->
    Runner.handle_code cfg code st = st /\
    (forall analyzer repo,
        Runner.callback cfg (Runner.CodeJob analyzer repo (Ok code)) st
        = (st, Runner.Normal)) /\
    (forall future analyzer repo,
        Runner.job_of future (Runner.future_to_job st)
        = Some (Runner.CodeJob analyzer repo (Ok code)) ->
        let st' := fst (Runner.process_done cfg [future] st) in
        Runner.db st' = Runner.db st /\
        Runner.completed_code_count st' = Runner.completed_code_count st).
Proof.
  intros cfg st code m Hm Hle.
  assert (Hr : forall s, Runner.completed_code_count s = Runner.completed_code_count st ->
                         Runner.reached_max_codes cfg s = true).
  { intros s Hs. apply reached_max_codes_iff. exists m. rewrite Hs. auto. }
  assert (Hc : Runner.handle_code cfg code st = st).
  { unfold Runner.handle_code. now rewrite (Hr st eq_refl). }
  split; [exact Hc|]. split.
  - intros. simpl. now rewrite Hc.
  - intros future analyzer repo Hjob. simpl. rewrite Hjob. simpl.
    unfold Runner.handle_code. rewrite (Hr (Runner.deliver future st) eq_refl).
    simpl. auto.
Qed.

(** C10 at a state where two codes are saved and the cap is two. *)
Lemma C10_witness :
  let cfg := Scenario.config Scenario.survey5 None (Some 2) Scenario.fifo in
  let st := Scenario.final_state (Runner.run cfg 10 Db.empty) in
  let code := {| code_analyzer := "python"; code_repo := Scenario.r1;
                 code_key := "u3"; code_features := [] |} in
  Runner.completed_code_count st = 2 /\ Runner.handle_code cfg code st = st.
Proof.
  intros cfg st code. split; [vm_compute; reflexivity|].
  apply (C10_result_after_cap_is_discarded cfg st code 2).
  - reflexivity.
  - vm_compute. discriminate.
Defined.

(** ** Invariants of a run *)

Module RunnerFacts.

Import Feed Runner.

(** *** How [check_repo_completion] ends

    Either every completed repository found its trackers, and was counted,
    cleaned up and removed; or the loop stopped at the first one that did not,
    after counting it. *)
Lemma complete_repos_cons cfg x todo st :
  complete_repos cfg (x :: todo) st
  = match Progress.track_completed_repo (pbars cfg) (db (count_repo cfg x st)) x with
    | Progress.AllUpdated => complete_repos cfg todo (finish_repo cfg x st)
    | Progress.RaisesKeyError key =>
        (count_repo cfg x st, Raise (KeyError (Progress.pbar_key_repr key)))
    end.
Proof.
  cbn [complete_repos]. unfold complete_repo.
  destruct (Progress.track_completed_repo (pbars cfg) (db (count_repo cfg x st)) x);
    reflexivity.
Qed.

Lemma complete_repos_cases cfg todo : forall st,
  (snd (complete_repos cfg todo st) = Normal /\
   fst (complete_repos cfg todo st)
   = fold_left (fun s x => finish_repo cfg x s) todo st) \/
  (exists done repo rest key,
      todo = done ++ repo :: rest /\
      fst (complete_repos cfg todo st)
      = count_repo cfg repo (fold_left (fun s x => finish_repo cfg x s) done st) /\
      snd (complete_repos cfg todo st) = Raise (KeyError key)).
Proof.
  induction todo as [|x todo IH]; intros st.
  - left. split; reflexivity.
  - rewrite complete_repos_cons.
    destruct (Progress.track_completed_repo (pbars cfg) (db (count_repo cfg x st)) x)
      as [|key].
    + destruct (IH (finish_repo cfg x st))
        as [[H1 H2]|(done & repo & rest & key & H1 & H2 & H3)].
      * left. split; assumption.
      * right. exists (x :: done), repo, rest, key.
        split; [rewrite H1; reflexivity|]. split; assumption.
    + right. exists [], x, todo, (Progress.pbar_key_repr key).
      split; [reflexivity|]. split; reflexivity.
Qed.

Lemma check_repo_completion_cases cfg st :
  (snd (check_repo_completion cfg st) = Normal /\
   fst (check_repo_completion cfg st)
   = fold_left (fun s x => finish_repo cfg x s) (completed_repos st) st) \/
  (exists done repo rest key,
      completed_repos st = done ++ repo :: rest /\
      fst (check_repo_completion cfg st)
      = count_repo cfg repo (fold_left (fun s x => finish_repo cfg x s) done st) /\
      snd (check_repo_completion cfg st) = Raise (KeyError key)).
Proof. apply complete_repos_cases. Qed.

(** [check_repo_completion] ends normally or by a [KeyError]. *)
Lemma check_repo_completion_outcome cfg st :
  snd (check_repo_completion cfg st) = Normal \/
  exists key, snd (check_repo_completion cfg st) = Raise (KeyError key).
Proof.
  destruct (check_repo_completion_cases cfg st) as [[H _]|(d & r & t & key & _ & _ & H)];
    eauto.
Qed.

(** The [finally] block of [handle_repo]: the state is the one
    [check_repo_completion] leaves, and what it raises replaces the outcome of
    the [try]. *)
Lemma finally_fst cfg st3 (o' : Outcome) :
  fst (let '(st4, o_finally) := check_repo_completion cfg st3 in
       (st4, match o_finally with Normal => o' | _ => o_finally end))
  = fst (check_repo_completion cfg st3).
Proof. destruct (check_repo_completion cfg st3); reflexivity. Qed.

Lemma finally_snd cfg st3 (o' : Outcome) :
  snd (let '(st4, o_finally) := check_repo_completion cfg st3 in
       (st4, match o_finally with Normal => o' | _ => o_finally end))
  = match snd (check_repo_completion cfg st3) with
    | Normal => o'
    | o_finally => o_finally
    end.
Proof. destruct (check_repo_completion cfg st3) as [st4 o4]; destruct o4; reflexivity. Qed.

(** *** Properties kept by the handling of one repository

    [I] is a property of the state that every change made while a
    repository is handled keeps, each under the condition the source makes it
    under; [E] is what is left of it when [check_repo_completion] stops
    half-way.  [I] holds when [handle_repo] returns normally, [E] however it
    ends. *)
Section Handling.
Variable cfg : Config.
Variables I E : State -> Prop.

Hypothesis I_log : forall msg st, I st -> I (log msg st).
Hypothesis I_save_code : forall code st,
    I st -> reached_max_codes cfg st = false -> I (save_code cfg code st).
Hypothesis I_submit_code : forall analyzer repo result st,
    I st -> reached_max_codes cfg st = false ->
    I (submit (fun f => EvCodeJob f repo analyzer) (CodeJob analyzer repo result) st).
Hypothesis I_check : forall st, I st ->
    (snd (check_repo_completion cfg st) = Normal ->
     I (fst (check_repo_completion cfg st))) /\
    E (fst (check_repo_completion cfg st)).

Lemma handle_code_keeps code st : I st -> I (handle_code cfg code st).
Proof.
  intros H. unfold handle_code.
  destruct (reached_max_codes cfg st) eqn:Hr; auto.
Qed.

Lemma handle_failure_keeps ex st : I st -> I (fst (handle_failure cfg ex st)).
Proof.
  intros H. unfold handle_failure.
  destruct (continue_on_failure (survey cfg)); simpl; auto.
Qed.

Lemma codes_loop_keeps repo analyzer features steps :
  forall st, I st -> I (fst (codes_loop cfg repo analyzer features steps st)).
Proof.
  induction steps as [|step rest IH]; intros st H; simpl; auto.
  destruct (step _) as [|item|e]; simpl; auto.
  destruct (reached_max_codes cfg st) eqn:Hr; simpl; auto.
  destruct item as [code|thunk]; apply IH.
  - now apply handle_code_keeps.
  - now apply I_submit_code.
Qed.

Lemma analyzers_loop_keeps repo features todo :
  forall st, I st -> I (fst (analyzers_loop cfg repo features todo st)).
Proof.
  induction todo as [|a rest IH]; intros st H; simpl; auto.
  destruct (dict_get _ _) as [fs|]; [|apply IH; now apply I_log].
  destruct (lookup_analyzer cfg _) as [analyzer|]; simpl; auto.
  destruct (code_generator analyzer repo) as [steps|ex].
  - pose proof (codes_loop_keeps repo analyzer fs steps st H) as Hc.
    destruct (codes_loop cfg repo analyzer fs steps st) as [st1 o]. simpl in Hc.
    destruct o; simpl; auto.
  - pose proof (handle_failure_keeps ex st H) as Hf.
    destruct (handle_failure cfg ex st) as [st1 o]. simpl in Hf.
    destruct o; simpl; auto.
Qed.

(** The [finally] block of [handle_repo]. *)
Lemma finally_check_ends st3 o' r :
  I st3 ->
  r = (let '(st4, o_finally) := check_repo_completion cfg st3 in
       (st4, match o_finally with Normal => o' | _ => o_finally end)) ->
  (snd r = Normal -> I (fst r)) /\ E (fst r).
Proof.
  intros H ->. destruct (I_check st3 H) as [H1 H2].
  destruct (check_repo_completion cfg st3) as [st4 o4]. simpl in *.
  split; [|exact H2]. destruct o4; auto; discriminate.
Qed.

Lemma handle_repo_ends repo features st :
  I (start_repo cfg repo st) ->
  (snd (handle_repo cfg repo features st) = Normal ->
   I (fst (handle_repo cfg repo features st))) /\
  E (fst (handle_repo cfg repo features st)).
Proof.
  intros H. unfold handle_repo.
  destruct (reached_max_codes cfg (start_repo cfg repo st)).
  - eapply finally_check_ends; [|reflexivity]. now apply I_log.
  - pose proof (analyzers_loop_keeps repo features (analyzers (survey cfg)) _ H) as Ha.
    destruct (analyzers_loop cfg repo features (analyzers (survey cfg))
                (start_repo cfg repo st)) as [st2 o].
    simpl in Ha. destruct o; (eapply finally_check_ends; [|reflexivity]); auto.
Qed.
End Handling.

(** The same for a property that [check_repo_completion] keeps however it
    ends: it holds however [handle_repo] ends. *)
Section HandlingAny.
Variable cfg : Config.
Variable I : State -> Prop.

Hypothesis I_log : forall msg st, I st -> I (log msg st).
Hypothesis I_save_code : forall code st,
    I st -> reached_max_codes cfg st = false -> I (save_code cfg code st).
Hypothesis I_submit_code : forall analyzer repo result st,
    I st -> reached_max_codes cfg st = false ->
    I (submit (fun f => EvCodeJob f repo analyzer) (CodeJob analyzer repo result) st).
Hypothesis I_check : forall st, I st -> I (fst (check_repo_completion cfg st)).

Lemma handle_repo_keeps repo features st :
  I (start_repo cfg repo st) -> I (fst (handle_repo cfg repo features st)).
Proof.
  intros H.
  apply (handle_repo_ends cfg I I I_log I_save_code I_submit_code
           (fun s h => conj (fun _ => I_check s h) (I_check s h)) repo features st H).
Qed.
End HandlingAny.

(** *** What handling a repository leaves alone *)

(** [future_to_job] only grows at its end, by futures not handed out before;
    [delivered] does not change. *)
Definition extends (st0 st : State) : Prop :=
  (exists new, future_to_job st = future_to_job st0 ++ new /\
               forall f, In f (map fst new) -> (next_future st0 <= f)%nat) /\
  (next_future st0 <= next_future st)%nat /\
  (forall f, In f (map fst (future_to_job st)) -> (f < next_future st)%nat) /\
  delivered st = delivered st0.

Definition fresh_futures (st : State) : Prop :=
  forall f, In f (map fst (future_to_job st)) -> (f < next_future st)%nat.

Lemma extends_refl st : fresh_futures st -> extends st st.
Proof.
  intros Hf. split; [exists []; rewrite app_nil_r; split; [reflexivity|intros f []]|].
  repeat split; auto.
Qed.

Lemma fold_finish_repo_frame cfg repos : forall st,
  let st' := fold_left (fun s r => finish_repo cfg r s) repos st in
  future_to_job st' = future_to_job st /\ next_future st' = next_future st /\
  delivered st' = delivered st /\ completed_code_count st' = completed_code_count st /\
  clock st' = clock st.
Proof.
  induction repos as [|r rest IH]; intros st; simpl; [tauto|].
  specialize (IH (finish_repo cfg r st)). simpl in IH. exact IH.
Qed.

Lemma check_repo_completion_frame cfg st :
  let st' := fst (check_repo_completion cfg st) in
  future_to_job st' = future_to_job st /\ next_future st' = next_future st /\
  delivered st' = delivered st /\ completed_code_count st' = completed_code_count st /\
  clock st' = clock st.
Proof.
  destruct (check_repo_completion_cases cfg st)
    as [[_ ->]|(done & repo & rest & key & _ & -> & _)].
  - apply fold_finish_repo_frame.
  - exact (fold_finish_repo_frame cfg done st).
Qed.

Lemma extends_submit st0 ev job st :
  extends st0 st -> extends st0 (submit ev job st).
Proof.
  intros ((new & Hn & Hfr) & Hle & Hlt & Hd).
  split; [|repeat split].
  - exists (new ++ [(next_future st, job)]). simpl. rewrite Hn, app_assoc.
    split; [reflexivity|]. intros f. rewrite map_app, in_app_iff. simpl.
    intros [H|[<-|[]]]; auto.
  - simpl. lia.
  - simpl. intros f. rewrite map_app, in_app_iff. simpl.
    intros [H|[<-|[]]]; [apply Hlt in H|]; lia.
  - simpl. assumption.
Qed.

Lemma extends_frame st st' :
  fresh_futures st ->
  future_to_job st' = future_to_job st -> next_future st' = next_future st ->
  delivered st' = delivered st -> extends st st'.
Proof.
  intros Hf E1 E2 E3. unfold extends. rewrite E1, E2, E3.
  split; [exists []; rewrite app_nil_r; split; [reflexivity|intros f []]|].
  repeat split; auto.
Qed.

Lemma handle_repo_extends cfg repo features st :
  fresh_futures st -> extends st (fst (handle_repo cfg repo features st)).
Proof.
  intros Hf. apply handle_repo_keeps.
  - intros msg s H. exact H.
  - intros code s H _. exact H.
  - intros a r res s H _. now apply extends_submit.
  - intros s ((new & Hn & Hfr) & Hle & Hlt & Hd).
    destruct (check_repo_completion_frame cfg s) as (E1 & E2 & E3 & _).
    unfold extends. rewrite E1, E2, E3. split; [exists new; auto|]. repeat split; auto.
  - now apply extends_frame.
Qed.

Lemma callback_extends cfg job st :
  fresh_futures st -> extends st (fst (callback cfg job st)).
Proof.
  intros Hf. destruct job as [src af [repo|ex] | a r [code|ex]]; simpl.
  - now apply handle_repo_extends.
  - unfold handle_failure. destruct (continue_on_failure _); simpl; now apply extends_frame.
  - unfold handle_code. destruct (reached_max_codes cfg st); now apply extends_frame.
  - unfold handle_failure. destruct (continue_on_failure _); simpl; now apply extends_frame.
Qed.


(** *** The bookkeeping of futures *)

(** Futures in [future_to_job] are pairwise distinct and were handed out
    earlier. *)
Definition futures_ok (st : State) : Prop :=
  fresh_futures st /\ NoDup (map fst (future_to_job st)).

Lemma futures_ok_submit ev job st : futures_ok st -> futures_ok (submit ev job st).
Proof.
  intros [Hf Hn]. split.
  - intros f. simpl. rewrite map_app, in_app_iff. simpl.
    intros [H|[<-|[]]]; [apply Hf in H|]; lia.
  - simpl. rewrite map_app. simpl. apply NoDup_app; auto.
    + constructor; [intros []|constructor].
    + intros f H [<-|[]]. apply Hf in H. lia.
Qed.

Lemma futures_ok_frame st st' :
  future_to_job st' = future_to_job st -> next_future st' = next_future st ->
  futures_ok st -> futures_ok st'.
Proof. unfold futures_ok, fresh_futures. intros -> ->. auto. Qed.

Lemma handle_repo_futures_ok cfg repo features st :
  futures_ok st -> futures_ok (fst (handle_repo cfg repo features st)).
Proof.
  intros H. apply handle_repo_keeps.
  - intros msg s Hs. exact Hs.
  - intros code s Hs _. exact Hs.
  - intros a r res s Hs _. now apply futures_ok_submit.
  - intros s Hs. destruct (check_repo_completion_frame cfg s) as (E1 & E2 & _).
    now apply (futures_ok_frame s).
  - exact H.
Qed.

Lemma callback_futures_ok cfg job st :
  futures_ok st -> futures_ok (fst (callback cfg job st)).
Proof.
  intros H. destruct job as [src af [repo|ex] | a r [code|ex]]; simpl.
  - now apply handle_repo_futures_ok.
  - unfold handle_failure. destruct (continue_on_failure _); exact H.
  - unfold handle_code. destruct (reached_max_codes cfg st); exact H.
  - unfold handle_failure. destruct (continue_on_failure _); exact H.
Qed.

Lemma job_of_Some f ftj : In f (map fst ftj) -> exists job, job_of f ftj = Some job.
Proof.
  induction ftj as [|[g j] rest IH]; simpl; [intros []|].
  destruct (Nat.eqb g f) eqn:E; [intros _; now exists j|].
  intros [H|H]; [apply Nat.eqb_neq in E; contradiction | auto].
Qed.

Lemma job_of_In f ftj job : job_of f ftj = Some job -> In (f, job) ftj.
Proof.
  induction ftj as [|[g j] rest IH]; simpl; [discriminate|].
  destruct (Nat.eqb g f) eqn:E.
  - apply Nat.eqb_eq in E. intros [= <-]. left. now subst.
  - intros H. right. auto.
Qed.

Lemma job_of_app f ftj new job :
  job_of f ftj = Some job -> job_of f (ftj ++ new) = Some job.
Proof.
  induction ftj as [|[g j] rest IH]; simpl; [discriminate|].
  destruct (Nat.eqb g f); auto.
Qed.

Lemma mem_nat_In n l : mem_nat n l = true <-> In n l.
Proof.
  unfold mem_nat. rewrite existsb_exists. split.
  - intros (y & Hy & E). apply Nat.eqb_eq in E. now subst.
  - intros H. exists n. split; [assumption | apply Nat.eqb_refl].
Qed.

Lemma mem_nat_false n l : mem_nat n l = false <-> ~ In n l.
Proof. rewrite <- mem_nat_In. destruct (mem_nat n l); split; congruence. Qed.

Lemma dedup_In l x : In x (dedup l) <-> In x l.
Proof.
  induction l as [|y l IH]; simpl; [tauto|].
  rewrite filter_In, IH. destruct (Nat.eq_dec x y) as [->|Hn].
  - tauto.
  - rewrite Bool.negb_true_iff, Nat.eqb_neq. split.
    + intros [H|[H _]]; auto.
    + intros [H|H]; [congruence | auto].
Qed.

Lemma dedup_NoDup l : NoDup (dedup l).
Proof.
  induction l as [|y l IH]; simpl; constructor.
  - rewrite filter_In, Bool.negb_true_iff, Nat.eqb_neq. tauto.
  - now apply NoDup_filter.
Qed.

(** What [wait] returns: pending futures, without repetition, and at least
    one when one is pending. *)
Lemma wait_spec cfg round st :
  NoDup (wait cfg round st) /\
  (forall f, In f (wait cfg round st) -> In f (map fst (future_to_job st))) /\
  (future_to_job st <> [] -> wait cfg round st <> []).
Proof.
  unfold wait.
  set (pending := map fst (future_to_job st)).
  set (answer := dedup (filter (fun f => mem_nat f pending) (wait_oracle cfg round pending))).
  assert (Ha : NoDup answer /\ forall f, In f answer -> In f pending).
  { split; [apply dedup_NoDup|]. intros f Hf. apply dedup_In, filter_In in Hf.
    now apply mem_nat_In. }
  destruct answer as [|a rest] eqn:E.
  - repeat split.
    + destruct pending; simpl; repeat constructor. intros [].
    + intros f Hf. destruct pending; simpl in *; tauto.
    + intros Hne. subst pending. destruct (future_to_job st); [congruence|]. discriminate.
  - destruct Ha as [Hn Hi]. repeat split; auto. discriminate.
Qed.

Definition result_state (r : RunResult) : State :=
  match r with Finished st _ => st | OutOfFuel st => st end.

(** The run has not ended by an exception. *)
Definition undisturbed (r : RunResult) : Prop :=
  match r with
  | Finished _ Normal => True
  | Finished _ _ => False
  | OutOfFuel _ => True
  end.

Lemma remove_done_futures_ok done st :
  futures_ok st -> futures_ok (remove_done done st).
Proof.
  intros [Hf Hn]. split.
  - intros f. simpl. intros Hin. apply Hf.
    apply in_map_iff in Hin. destruct Hin as ([g j] & <- & Hgj).
    apply filter_In in Hgj. apply in_map_iff. exists (g, j). tauto.
  - simpl. clear Hf. induction (future_to_job st) as [|[g j] l IHl]; simpl; [constructor|].
    inversion Hn as [|? ? Hni Hn']; subst.
    destruct (negb (mem_nat g done)); simpl; auto.
    constructor; auto. intros Hin. apply Hni.
    apply in_map_iff in Hin. destruct Hin as ([g' j'] & <- & Hgj).
    apply filter_In in Hgj. apply in_map_iff. exists (g', j'). tauto.
Qed.

(** *** Properties kept by a whole run

    [I] is a property of the generator and the state that every change the
    coordinator makes keeps, each under the condition the source makes it
    under; [E] is what is left of it when [check_repo_completion] stops
    half-way.  [E] holds at the end of [run_loop], however many rounds it is
    given and however it ends, and [I] unless it ended by an exception. *)
Section Run.
Variable cfg : Config.
Variables I E : list FeedEvent -> State -> Prop.

Hypothesis I_E : forall gen st, I gen st -> E gen st.
Hypothesis I_log : forall gen msg st, I gen st -> I gen (log msg st).
Hypothesis I_save_code : forall gen code st,
    I gen st -> reached_max_codes cfg st = false -> I gen (save_code cfg code st).
Hypothesis I_submit_code : forall gen analyzer repo result st,
    I gen st -> reached_max_codes cfg st = false ->
    I gen (submit (fun f => EvCodeJob f repo analyzer) (CodeJob analyzer repo result) st).
Hypothesis I_check : forall gen st, I gen st ->
    (snd (check_repo_completion cfg st) = Normal ->
     I gen (fst (check_repo_completion cfg st))) /\
    E gen (fst (check_repo_completion cfg st)).
Hypothesis I_skip : forall gen ev st, I (ev :: gen) st -> I gen st.
Hypothesis I_admit_repo : forall gen source repo st,
    I (FeedYield source (GotRepo repo) :: gen) st ->
    may_admit cfg st = true -> in_progress (GotRepo repo) st = false ->
    I gen (start_repo cfg repo st).
Hypothesis I_admit_thunk : forall gen source thunk features st,
    I (FeedYield source (GotRepoThunk thunk) :: gen) st ->
    may_admit cfg st = true -> in_progress (GotRepoThunk thunk) st = false ->
    I gen (submit (fun f => EvFetchRepo f (rt_source thunk) (rt_key thunk))
                  (RepoJob (rt_source thunk) features (rt_thunk thunk)) st).
Hypothesis I_deliver_repo : forall gen future source features repo st,
    I gen st ->
    job_of future (future_to_job st) = Some (RepoJob source features (Ok repo)) ->
    ~ In future (delivered st) ->
    I gen (start_repo cfg repo (deliver future st)).
Hypothesis I_deliver : forall gen future job st,
    I gen st -> job_of future (future_to_job st) = Some job ->
    ~ In future (delivered st) ->
    (forall source features repo, job <> RepoJob source features (Ok repo)) ->
    I gen (deliver future st).
Hypothesis I_remove_done : forall gen done st,
    I gen st -> NoDup done ->
    (forall f, In f done <-> In f (delivered st)) ->
    (forall f, In f done -> In f (map fst (future_to_job st))) ->
    I gen (remove_done done st).

Lemma callback_ends gen future job st :
  I gen st -> job_of future (future_to_job st) = Some job ->
  ~ In future (delivered st) ->
  (snd (callback cfg job (deliver future st)) = Normal ->
   I gen (fst (callback cfg job (deliver future st)))) /\
  E gen (fst (callback cfg job (deliver future st))).
Proof.
  intros H Hjob Hnd.
  assert (Hany : forall r : State * Outcome,
            I gen (fst r) -> (snd r = Normal -> I gen (fst r)) /\ E gen (fst r))
    by (intros r Hr; split; auto).
  destruct job as [src af [repo|ex] | a r [code|ex]]; simpl callback.
  - apply (handle_repo_ends cfg (I gen) (E gen) (I_log gen) (I_save_code gen)
             (I_submit_code gen) (I_check gen)).
    eapply I_deliver_repo; eauto.
  - apply Hany. apply (handle_failure_keeps cfg (I gen) (I_log gen)).
    eapply I_deliver; eauto. congruence.
  - apply Hany. simpl. apply (handle_code_keeps cfg (I gen) (I_save_code gen)).
    eapply I_deliver; eauto. congruence.
  - apply Hany. apply (handle_failure_keeps cfg (I gen) (I_log gen)).
    eapply I_deliver; eauto. congruence.
Qed.

Lemma process_done_ends gen done : forall st,
  I gen st -> futures_ok st -> NoDup done ->
  (forall f, In f done -> In f (map fst (future_to_job st))) ->
  (forall f, In f done -> ~ In f (delivered st)) ->
  let r := process_done cfg done st in
  (snd r = Normal -> I gen (fst r)) /\ E gen (fst r) /\ futures_ok (fst r) /\
  (forall f, In f (map fst (future_to_job st)) -> In f (map fst (future_to_job (fst r)))) /\
  (snd r = Normal -> delivered (fst r) = rev done ++ delivered st).
Proof.
  induction done as [|f rest IH]; intros st H Hok Hnd Hin Hnot; simpl.
  - split; [|split; [|split; [|split]]]; auto.
  - destruct (job_of_Some f (future_to_job st)) as [job Hjob]; [apply Hin; now left|].
    rewrite Hjob.
    pose proof (callback_ends gen f job st H Hjob (Hnot f (or_introl eq_refl))) as [Hk HE].
    assert (Hokd : futures_ok (deliver f st)) by (now apply (futures_ok_frame st)).
    pose proof (callback_futures_ok cfg job _ Hokd) as Hok1.
    pose proof (callback_extends cfg job _ (proj1 Hokd)) as Hext.
    destruct (callback cfg job (deliver f st)) as [st1 o]. simpl in Hk, HE, Hok1, Hext.
    destruct Hext as ((new & Hnew & _) & _ & _ & Hdel). simpl in Hnew, Hdel.
    assert (Hkeys : forall g, In g (map fst (future_to_job st)) ->
                              In g (map fst (future_to_job st1))).
    { intros g Hg. rewrite Hnew, map_app, in_app_iff. now left. }
    inversion Hnd as [|? ? Hnf Hnd']; subst.
    destruct o; simpl;
      try (split; [discriminate|]; split; [exact HE|]; split; [exact Hok1|];
           split; [exact Hkeys | discriminate]).
    specialize (IH st1 (Hk eq_refl) Hok1 Hnd').
    destruct IH as (IH1 & IHE & IH2 & IH3 & IH4).
    + intros g Hg. apply Hkeys, Hin. now right.
    + intros g Hg. rewrite Hdel. intros [<-|Hd]; [contradiction|].
      apply (Hnot g); [now right | assumption].
    + split; [exact IH1|]. split; [exact IHE|]. split; [exact IH2|]. split; [auto|].
      intros Hn. rewrite (IH4 Hn), Hdel, <- app_assoc. reflexivity.
Qed.

Lemma consume_repos_ends gen : forall st,
  I gen st -> futures_ok st ->
  let r := consume_repos cfg gen st in
  (snd r = Normal -> I (fst (fst r)) (snd (fst r))) /\
  E (fst (fst r)) (snd (fst r)) /\ futures_ok (snd (fst r)) /\
  delivered (snd (fst r)) = delivered st.
Proof.
  induction gen as [|ev gen' IH]; intros st H Hok; simpl; [auto|].
  destruct (may_admit cfg st) eqn:Hadm; simpl; [|auto].
  destruct ev as [source c|e]; simpl.
  2: { split; [discriminate|]. split; [apply I_E; eapply I_skip; eauto | auto]. }
  destruct (in_progress c st) eqn:Hip.
  { apply (IH (log _ st)); [apply I_log; eapply I_skip; eauto | exact Hok]. }
  destruct (len (repo_analyzer_features cfg c st) =? 0).
  { apply (IH (log _ st)); [apply I_log; eapply I_skip; eauto | exact Hok]. }
  destruct c as [repo|thunk].
  - assert (Hs : I gen' (start_repo cfg repo st)) by (eapply I_admit_repo; eauto).
    pose proof (handle_repo_ends cfg (I gen') (E gen') (I_log gen') (I_save_code gen')
                  (I_submit_code gen') (I_check gen') repo
                  (repo_analyzer_features cfg (GotRepo repo) st) st Hs) as [Hk HE].
    pose proof (handle_repo_futures_ok cfg repo
                  (repo_analyzer_features cfg (GotRepo repo) st) st Hok) as Hok1.
    pose proof (handle_repo_extends cfg repo
                  (repo_analyzer_features cfg (GotRepo repo) st) st (proj1 Hok)) as Hext.
    destruct (handle_repo cfg repo _ st) as [st1 o]. simpl in Hk, HE, Hok1, Hext.
    destruct Hext as (_ & _ & _ & Hdel).
    destruct o; simpl;
      try (split; [discriminate|]; split; [exact HE|]; split; [exact Hok1 | exact Hdel]).
    destruct (IH st1 (Hk eq_refl) Hok1) as (A & B & C & D).
    split; [exact A|]. split; [exact B|]. split; [exact C|]. congruence.
  - match goal with |- context [consume_repos cfg gen' ?s] =>
      destruct (IH s) as (A & B & C & D)
    end.
    + eapply I_admit_thunk; eauto.
    + now apply futures_ok_submit.
    + split; [exact A|]. split; [exact B|]. split; [exact C | exact D].
Qed.

Lemma run_loop_ends fuel : forall round gen st,
  I gen st -> futures_ok st -> delivered st = [] ->
  exists gen',
    E gen' (result_state (run_loop cfg fuel round gen st)) /\
    (undisturbed (run_loop cfg fuel round gen st) ->
     I gen' (result_state (run_loop cfg fuel round gen st))).
Proof.
  induction fuel as [|fuel IH]; intros round gen st H Hok Hd; simpl.
  - exists gen. split; auto.
  - pose proof (consume_repos_ends gen st H Hok) as Hc.
    destruct (consume_repos cfg gen st) as [[gen1 st1] o1]. simpl in Hc.
    destruct Hc as (H1 & HE1 & Hok1 & Hd1).
    destruct o1; simpl; try (exists gen1; split; [exact HE1 | intros []]).
    destruct (len (future_to_job st1) =? 0); simpl; [exists gen1; split; auto|].
    destruct (wait_spec cfg round st1) as (Wn & Wi & _).
    assert (Hnot : forall f, In f (wait cfg round st1) -> ~ In f (delivered st1)).
    { intros f _. rewrite Hd1, Hd. intros []. }
    pose proof (process_done_ends gen1 (wait cfg round st1) st1 (H1 eq_refl) Hok1 Wn Wi Hnot)
      as Hp.
    destruct (process_done cfg (wait cfg round st1) st1) as [st2 o2]. simpl in Hp.
    destruct Hp as (H2 & HE2 & Hok2 & Hkeys & Hdel).
    destruct o2; simpl; try (exists gen1; split; [exact HE2 | intros []]).
    assert (Hr : I gen1 (remove_done (wait cfg round st1) st2)).
    { apply I_remove_done; auto.
      intros f. rewrite (Hdel eq_refl), Hd1, Hd, app_nil_r, <- in_rev. tauto. }
    destruct (I_check gen1 _ Hr) as [H3 HE3].
    pose proof (check_repo_completion_frame cfg (remove_done (wait cfg round st1) st2))
      as (F1 & F2 & F3 & _).
    destruct (check_repo_completion cfg (remove_done (wait cfg round st1) st2))
      as [st3 o3]. simpl in H3, HE3, F1, F2, F3.
    destruct o3; simpl; try (exists gen1; split; [exact HE3 | intros []]).
    apply IH.
    + exact (H3 eq_refl).
    + apply (futures_ok_frame (remove_done (wait cfg round st1) st2)); auto.
      now apply remove_done_futures_ok.
    + rewrite F3. reflexivity.
Qed.
End Run.

(** The same for a property that [check_repo_completion] keeps however it
    ends: it holds however [run_loop] ends. *)
Section RunAny.
Variable cfg : Config.
Variable I : list FeedEvent -> State -> Prop.

Hypothesis I_log : forall gen msg st, I gen st -> I gen (log msg st).
Hypothesis I_save_code : forall gen code st,
    I gen st -> reached_max_codes cfg st = false -> I gen (save_code cfg code st).
Hypothesis I_submit_code : forall gen analyzer repo result st,
    I gen st -> reached_max_codes cfg st = false ->
    I gen (submit (fun f => EvCodeJob f repo analyzer) (CodeJob analyzer repo result) st).
Hypothesis I_check : forall gen st, I gen st -> I gen (fst (check_repo_completion cfg st)).
Hypothesis I_skip : forall gen ev st, I (ev :: gen) st -> I gen st.
Hypothesis I_admit_repo : forall gen source repo st,
    I (FeedYield source (GotRepo repo) :: gen) st ->
    may_admit cfg st = true -> in_progress (GotRepo repo) st = false ->
    I gen (start_repo cfg repo st).
Hypothesis I_admit_thunk : forall gen source thunk features st,
    I (FeedYield source (GotRepoThunk thunk) :: gen) st ->
    may_admit cfg st = true -> in_progress (GotRepoThunk thunk) st = false ->
    I gen (submit (fun f => EvFetchRepo f (rt_source thunk) (rt_key thunk))
                  (RepoJob (rt_source thunk) features (rt_thunk thunk)) st).
Hypothesis I_deliver_repo : forall gen future source features repo st,
    I gen st ->
    job_of future (future_to_job st) = Some (RepoJob source features (Ok repo)) ->
    ~ In future (delivered st) ->
    I gen (start_repo cfg repo (deliver future st)).
Hypothesis I_deliver : forall gen future job st,
    I gen st -> job_of future (future_to_job st) = Some job ->
    ~ In future (delivered st) ->
    (forall source features repo, job <> RepoJob source features (Ok repo)) ->
    I gen (deliver future st).
Hypothesis I_remove_done : forall gen done st,
    I gen st -> NoDup done ->
    (forall f, In f done <-> In f (delivered st)) ->
    (forall f, In f done -> In f (map fst (future_to_job st))) ->
    I gen (remove_done done st).

Let I_check_any gen st (h : I gen st) :
    (snd (check_repo_completion cfg st) = Normal ->
     I gen (fst (check_repo_completion cfg st))) /\
    I gen (fst (check_repo_completion cfg st)) :=
  conj (fun _ => I_check gen st h) (I_check gen st h).

Lemma process_done_keeps gen done st :
  I gen st -> futures_ok st -> NoDup done ->
  (forall f, In f done -> In f (map fst (future_to_job st))) ->
  (forall f, In f done -> ~ In f (delivered st)) ->
  let r := process_done cfg done st in
  I gen (fst r) /\ futures_ok (fst r) /\
  (forall f, In f (map fst (future_to_job st)) -> In f (map fst (future_to_job (fst r)))) /\
  (snd r = Normal -> delivered (fst r) = rev done ++ delivered st).
Proof.
  intros H Hok Hnd Hin Hnot.
  destruct (process_done_ends cfg I I (fun _ _ h => h) I_log I_save_code I_submit_code
              I_check_any I_deliver_repo I_deliver gen done st H Hok Hnd Hin Hnot)
    as (_ & A & B & C & D).
  cbv zeta. auto.
Qed.

Lemma consume_repos_keeps gen st :
  I gen st -> futures_ok st ->
  let r := consume_repos cfg gen st in
  I (fst (fst r)) (snd (fst r)) /\ futures_ok (snd (fst r)) /\
  delivered (snd (fst r)) = delivered st.
Proof.
  intros H Hok.
  destruct (consume_repos_ends cfg I I (fun _ _ h => h) I_log I_save_code I_submit_code
              I_check_any I_skip I_admit_repo I_admit_thunk gen st H Hok)
    as (_ & A & B & C).
  cbv zeta. auto.
Qed.

Lemma run_loop_keeps fuel round gen st :
  I gen st -> futures_ok st -> delivered st = [] ->
  exists gen', I gen' (result_state (run_loop cfg fuel round gen st)).
Proof.
  intros H Hok Hd.
  destruct (run_loop_ends cfg I I (fun _ _ h => h) I_log I_save_code I_submit_code
              I_check_any I_skip I_admit_repo I_admit_thunk I_deliver_repo I_deliver
              I_remove_done fuel round gen st H Hok Hd) as (gen' & A & _).
  now exists gen'.
Qed.
End RunAny.

Lemma initial_futures_ok db0 : futures_ok (initial_state db0).
Proof. split; [intros f [] | constructor]. Qed.

End RunnerFacts.

(** ** The caps and the bound on repository fetches *)

Module Bounds.

Import Feed Runner RunnerFacts.

(** [repo_eqb] is an equivalence. *)
Lemma repo_eqb_refl r : repo_eqb r r = true.
Proof.
  unfold repo_eqb. now rewrite !String.eqb_refl, Nat.eqb_refl.
Qed.

Lemma repo_eqb_true a b :
  repo_eqb a b = true <->
  repo_source a = repo_source b /\ repo_key a = repo_key b /\
  repo_path a = repo_path b /\ repo_cleanup a = repo_cleanup b.
Proof.
  unfold repo_eqb. rewrite !Bool.andb_true_iff, !String.eqb_eq, Nat.eqb_eq. tauto.
Qed.

Lemma repo_eqb_sym a b : repo_eqb a b = repo_eqb b a.
Proof.
  destruct (repo_eqb a b) eqn:E1, (repo_eqb b a) eqn:E2; auto.
  - apply repo_eqb_true in E1. assert (repo_eqb b a = true) by (apply repo_eqb_true; intuition congruence). congruence.
  - apply repo_eqb_true in E2. assert (repo_eqb a b = true) by (apply repo_eqb_true; intuition congruence). congruence.
Qed.

Lemma repo_eqb_trans_l a b c : repo_eqb a b = true -> repo_eqb a c = repo_eqb b c.
Proof.
  intros Hab. apply repo_eqb_true in Hab.
  destruct (repo_eqb a c) eqn:E1, (repo_eqb b c) eqn:E2; auto.
  - apply repo_eqb_true in E1. assert (repo_eqb b c = true) by (apply repo_eqb_true; intuition congruence). congruence.
  - apply repo_eqb_true in E2. assert (repo_eqb a c = true) by (apply repo_eqb_true; intuition congruence). congruence.
Qed.

(** How many elements of a list [==] a given repo. *)
Definition cnt (r : Repo) (l : list Repo) : nat :=
  List.length (filter (fun x => repo_eqb x r) l).

Lemma remove_repo_length x l :
  (1 <= cnt x l)%nat -> S (List.length (remove_repo x l)) = List.length l.
Proof.
  unfold cnt. induction l as [|y l IH]; simpl; [lia|].
  destruct (repo_eqb y x) eqn:E; simpl; [reflexivity|].
  intros H. now rewrite IH.
Qed.

Lemma remove_repo_cnt x l r :
  (1 <= cnt x l)%nat ->
  (cnt r (remove_repo x l) + (if repo_eqb x r then 1 else 0) = cnt r l)%nat.
Proof.
  unfold cnt. induction l as [|y l IH]; simpl; [lia|].
  destruct (repo_eqb y x) eqn:E; simpl.
  - intros _. rewrite (repo_eqb_trans_l y x r E).
    destruct (repo_eqb x r); simpl; lia.
  - intros H. specialize (IH H). destruct (repo_eqb y r); simpl; lia.
Qed.

Lemma cnt_filter p r l : (cnt r (filter p l) <= cnt r l)%nat.
Proof.
  unfold cnt. induction l as [|y l IH]; simpl; [lia|].
  destruct (p y); simpl; destruct (repo_eqb y r); simpl; lia.
Qed.

(** [list.remove] in [check_repo_completion] always finds its element: the
    repos still to complete are, up to [==], among the current ones. *)
Definition among (todo current : list Repo) : Prop :=
  forall r, (cnt r todo <= cnt r current)%nat.

Lemma among_head x todo current : among (x :: todo) current -> (1 <= cnt x current)%nat.
Proof.
  intros H. specialize (H x). unfold cnt in H at 1. simpl in H.
  rewrite repo_eqb_refl in H. simpl in H. lia.
Qed.

Lemma among_tail x todo current :
  among (x :: todo) current -> among todo (remove_repo x current).
Proof.
  intros H r. pose proof (remove_repo_cnt x current r (among_head _ _ _ H)) as E.
  specialize (H r). unfold cnt in *. simpl in H.
  destruct (repo_eqb x r); simpl in H; lia.
Qed.

Lemma among_completed st : among (completed_repos st) (current_repos st).
Proof. intros r. apply cnt_filter. Qed.

Lemma among_after cfg done : forall todo st,
  among (done ++ todo) (current_repos st) ->
  among todo (current_repos (fold_left (fun s x => finish_repo cfg x s) done st)).
Proof.
  induction done as [|x done IH]; intros todo st H; simpl; [exact H|].
  apply IH. simpl. now apply among_tail.
Qed.

(** A property that completing a current repository keeps is kept by
    completing several. *)
Lemma fold_finish_repo_keeps cfg (P : State -> Prop) :
  (forall x st, (1 <= cnt x (current_repos st))%nat -> P st -> P (finish_repo cfg x st)) ->
  forall todo st, among todo (current_repos st) -> P st ->
                  P (fold_left (fun s x => finish_repo cfg x s) todo st).
Proof.
  intros Hfinish. induction todo as [|x todo IH]; intros st Ha H; simpl; [exact H|].
  apply IH.
  - simpl. now apply among_tail.
  - apply Hfinish; [eapply among_head; eauto | exact H].
Qed.

(** What [check_repo_completion] keeps: [P] when it ends normally, [Q]
    when it stops at a repository it has counted. *)
Lemma check_repo_completion_ends cfg (P Q : State -> Prop) :
  (forall st, P st -> Q st) ->
  (forall x st, (1 <= cnt x (current_repos st))%nat -> P st -> P (finish_repo cfg x st)) ->
  (forall x st, (1 <= cnt x (current_repos st))%nat -> P st -> Q (count_repo cfg x st)) ->
  forall st, P st ->
    (snd (check_repo_completion cfg st) = Normal -> P (fst (check_repo_completion cfg st))) /\
    Q (fst (check_repo_completion cfg st)).
Proof.
  intros HPQ Hfinish Hcount st H.
  pose proof (among_completed st) as Ha.
  destruct (check_repo_completion_cases cfg st)
    as [[E1 E2]|(done & repo & rest & key & E1 & E2 & E3)].
  - assert (HP : P (fst (check_repo_completion cfg st))).
    { rewrite E2. now apply fold_finish_repo_keeps. }
    split; [intros _; exact HP | now apply HPQ].
  - rewrite E1 in Ha. split; [rewrite E3; discriminate|]. rewrite E2.
    apply Hcount.
    + eapply among_head. eapply among_after. exact Ha.
    + apply fold_finish_repo_keeps; [exact Hfinish | | exact H].
      intros r. specialize (Ha r). unfold cnt in *.
      rewrite filter_app, length_app in Ha. lia.
Qed.

Lemma check_repo_completion_keeps cfg (P : State -> Prop) :
  (forall x st, (1 <= cnt x (current_repos st))%nat -> P st -> P (finish_repo cfg x st)) ->
  (forall x st, (1 <= cnt x (current_repos st))%nat -> P st -> P (count_repo cfg x st)) ->
  forall st, P st -> P (fst (check_repo_completion cfg st)).
Proof.
  intros Hfinish Hcount st H.
  exact (proj2 (check_repo_completion_ends cfg P P (fun _ h => h) Hfinish Hcount st H)).
Qed.

(** *** Statements about every point of a run *)

(** [P] holds of the bookkeeping as it is and as it was after each change. *)
Definition always (P : Snapshot -> Prop) (st : State) : Prop :=
  P (snapshot st) /\ Forall P (history st).

Lemma always_tick P st : P (snapshot st) -> Forall P (history st) -> always P (tick st).
Proof. intros H1 H2. split; [exact H1 | constructor; assumption]. Qed.

Lemma always_log P ev st : always P st -> always P (log_event ev st).
Proof. intros H. exact H. Qed.

Lemma len_app {A} (l : list A) x : len (l ++ [x]) = len l + 1.
Proof. unfold len. rewrite length_app. simpl. lia. Qed.

Lemma len_nonneg {A} (l : list A) : 0 <= len l.
Proof. unfold len. lia. Qed.

Lemma filter_length_le {A} (p q : A -> bool) l :
  (forall x, In x l -> p x = true -> q x = true) ->
  (List.length (filter p l) <= List.length (filter q l))%nat.
Proof.
  induction l as [|y l IH]; simpl; intros H; [lia|].
  assert (IH' := IH (fun x Hx => H x (or_intror Hx))).
  destruct (p y) eqn:Ep.
  - rewrite (H y (or_introl eq_refl) Ep). simpl. lia.
  - destruct (q y); simpl; lia.
Qed.

Lemma filter_length_lt {A} (p q : A -> bool) l y :
  (forall x, In x l -> p x = true -> q x = true) ->
  In y l -> p y = false -> q y = true ->
  (S (List.length (filter p l)) <= List.length (filter q l))%nat.
Proof.
  induction l as [|z l IH]; simpl; intros H Hin Hp Hq; [contradiction|].
  assert (Hl : forall x, In x l -> p x = true -> q x = true)
    by (intros x Hx; apply H; now right).
  destruct Hin as [->|Hin].
  - rewrite Hp, Hq. simpl. pose proof (filter_length_le p q l Hl). lia.
  - specialize (IH Hl Hin Hp Hq).
    destruct (p z) eqn:Ep.
    + rewrite (H z (or_introl eq_refl) Ep). simpl. lia.
    + destruct (q z); simpl; lia.
Qed.


(** The three bounds, on one snapshot of the bookkeeping. *)
Definition within (cfg : Config) (s : Snapshot) : Prop :=
  (forall m, max_codes cfg = Some m -> 0 <= m -> snap_completed_code_count s <= m) /\
  (forall k, max_repos cfg = Some k -> 0 <= k ->
     snap_completed_repo_count s <= k /\
     snap_counted_repos s <= 1 /\
     snap_current_repos s + snap_fetching s + snap_completed_repo_count s
       - snap_counted_repos s <= k) /\
  (0 <= max_workers (survey cfg) -> snap_repo_jobs s <= max_workers (survey cfg)).

Definition repo_jobs (st : State) : Z := len (filter is_repo_job (jobs st)).
Definition fetching (st : State) : Z := len (undelivered_repo_jobs st).

Lemma repo_jobs_as_pairs (l : list (nat * Job)) :
  filter is_repo_job (map snd l) = map snd (filter (fun fj => is_repo_job (snd fj)) l).
Proof.
  induction l as [|[f j] l IH]; simpl; [reflexivity|].
  destruct (is_repo_job j); simpl; now rewrite IH.
Qed.

Lemma fetching_le_repo_jobs st : fetching st <= repo_jobs st.
Proof.
  unfold fetching, repo_jobs, jobs, undelivered_repo_jobs, len.
  rewrite repo_jobs_as_pairs, length_map. apply Nat2Z.inj_le.
  apply filter_length_le. intros x _ H. now apply Bool.andb_true_iff in H.
Qed.

Lemma repo_jobs_le_pending st : repo_jobs st <= len (future_to_job st).
Proof.
  unfold repo_jobs, jobs, len. rewrite repo_jobs_as_pairs, length_map.
  apply Nat2Z.inj_le. apply List.filter_length_le.
Qed.

(** The sizes after each kind of change. *)
Lemma repo_jobs_submit ev job st :
  repo_jobs (submit ev job st) = repo_jobs st + (if is_repo_job job then 1 else 0).
Proof.
  unfold repo_jobs, jobs, len. simpl. rewrite map_app, filter_app, length_app. simpl.
  destruct (is_repo_job job); simpl; lia.
Qed.

Lemma fetching_submit ev job st :
  fetching st <= fetching (submit ev job st)
  <= fetching st + (if is_repo_job job then 1 else 0).
Proof.
  unfold fetching, undelivered_repo_jobs, len. simpl. rewrite filter_app, length_app. simpl.
  destruct (is_repo_job job); simpl; [destruct (negb _)|]; simpl; lia.
Qed.

Lemma mem_nat_cons g f d : mem_nat g (f :: d) = Nat.eqb g f || mem_nat g d.
Proof. reflexivity. Qed.

Definition undelivered_in (d : list nat) (l : list (nat * Job)) : list (nat * Job) :=
  filter (fun fj => is_repo_job (snd fj) && negb (mem_nat (fst fj) d)) l.

Lemma undelivered_in_cons_le f d l :
  (List.length (undelivered_in (f :: d) l) <= List.length (undelivered_in d l))%nat.
Proof.
  apply filter_length_le. intros [g j] _. cbn [fst snd]. rewrite mem_nat_cons.
  destruct (is_repo_job j); cbn [andb]; [|discriminate].
  destruct (Nat.eqb g f); cbn [orb negb]; auto. discriminate.
Qed.

Lemma undelivered_in_cons_lt f d l source features result :
  In (f, RepoJob source features result) l -> ~ In f d ->
  (S (List.length (undelivered_in (f :: d) l)) <= List.length (undelivered_in d l))%nat.
Proof.
  intros Hin Hnd.
  apply filter_length_lt with (y := (f, RepoJob source features result)); auto.
  - intros [g j] _. cbn [fst snd]. rewrite mem_nat_cons.
    destruct (is_repo_job j); cbn [andb]; [|discriminate].
    destruct (Nat.eqb g f); cbn [orb negb]; auto. discriminate.
  - cbn [fst snd is_repo_job andb]. rewrite mem_nat_cons, Nat.eqb_refl. reflexivity.
  - cbn [fst snd is_repo_job andb]. apply mem_nat_false in Hnd. now rewrite Hnd.
Qed.

Lemma fetching_deliver f st : fetching (deliver f st) <= fetching st.
Proof.
  apply Nat2Z.inj_le. exact (undelivered_in_cons_le f (delivered st) (future_to_job st)).
Qed.

Lemma fetching_deliver_repo f source features result st :
  job_of f (future_to_job st) = Some (RepoJob source features result) ->
  ~ In f (delivered st) ->
  fetching (deliver f st) + 1 <= fetching st.
Proof.
  intros Hjob Hnd. apply job_of_In in Hjob.
  pose proof (undelivered_in_cons_lt f (delivered st) (future_to_job st)
                source features result Hjob Hnd) as H.
  change (len (undelivered_in (f :: delivered st) (future_to_job st)) + 1
          <= len (undelivered_in (delivered st) (future_to_job st))).
  unfold len. lia.
Qed.

Lemma repo_jobs_remove_done done st : repo_jobs (remove_done done st) <= repo_jobs st.
Proof.
  unfold repo_jobs, jobs, len. simpl. rewrite !repo_jobs_as_pairs, !length_map.
  apply Nat2Z.inj_le.
  induction (future_to_job st) as [|[g j] l IH]; simpl; [lia|].
  destruct (negb (mem_nat g done)); simpl; destruct (is_repo_job j); simpl; lia.
Qed.

Lemma fetching_remove_done done st :
  (forall f, In f done <-> In f (delivered st)) ->
  fetching (remove_done done st) = fetching st.
Proof.
  intros Hd. unfold fetching, undelivered_repo_jobs, len. simpl. f_equal. f_equal.
  induction (future_to_job st) as [|[g j] l IH]; simpl; [reflexivity|].
  assert (E : mem_nat g done = mem_nat g (delivered st)).
  { destruct (mem_nat g done) eqn:E1, (mem_nat g (delivered st)) eqn:E2; auto.
    - apply mem_nat_In in E1. apply Hd in E1. apply mem_nat_In in E1. congruence.
    - apply mem_nat_In in E2. apply Hd in E2. apply mem_nat_In in E2. congruence. }
  rewrite E. destruct (mem_nat g (delivered st)); simpl.
  - rewrite Bool.andb_false_r. exact IH.
  - rewrite Bool.andb_true_r. destruct (is_repo_job j); simpl; now rewrite IH.
Qed.

Lemma not_reached_max_codes cfg st m :
  reached_max_codes cfg st = false -> max_codes cfg = Some m ->
  completed_code_count st < m.
Proof.
  unfold reached_max_codes. intros H E. rewrite E in H. now apply Z.leb_gt in H.
Qed.

Lemma may_admit_true cfg st :
  may_admit cfg st = true ->
  len (future_to_job st) < max_workers (survey cfg) /\
  (forall k, max_repos cfg = Some k ->
             len (current_repos st) + repo_jobs st + completed_repo_count st < k) /\
  reached_max_codes cfg st = false.
Proof.
  unfold may_admit. rewrite !Bool.andb_true_iff, !Bool.negb_true_iff, Z.ltb_lt.
  intros [[H1 H2] H3]. split; [exact H1|]. split; [|exact H3].
  intros k Hk. unfold reached_max_repos in H2. rewrite Hk in H2.
  now apply Z.leb_gt in H2.
Qed.

(** *** The bounds are kept by every change *)

Definition bounded (cfg : Config) (st : State) : Prop := always (within cfg) st.

Arguments fetching : simpl never.
Arguments repo_jobs : simpl never.

Lemma within_fields cfg st :
  within cfg (snapshot st) <->
  (forall m, max_codes cfg = Some m -> 0 <= m -> completed_code_count st <= m) /\
  (forall k, max_repos cfg = Some k -> 0 <= k ->
     len (current_repos st) + fetching st + completed_repo_count st <= k) /\
  (0 <= max_workers (survey cfg) -> repo_jobs st <= max_workers (survey cfg)).
Proof.
  assert (Hc : 0 <= len (current_repos st)) by apply len_nonneg.
  assert (Hf : 0 <= fetching st) by apply len_nonneg.
  split.
  - intros (H1 & H2 & H3). split; [exact H1|]. split; [|exact H3].
    intros k Hk Hk0. destruct (H2 k Hk Hk0) as (_ & _ & H). simpl in H.
    change (len (undelivered_repo_jobs st)) with (fetching st) in H. lia.
  - intros (H1 & H2 & H3). split; [exact H1|]. split; [|exact H3].
    intros k Hk Hk0. specialize (H2 k Hk Hk0). simpl.
    change (len (undelivered_repo_jobs st)) with (fetching st). lia.
Qed.

Lemma existsb_cnt x l :
  (1 <= cnt x l)%nat -> existsb (fun r => repo_eqb r x) l = true.
Proof.
  unfold cnt. induction l as [|y l IH]; simpl; [lia|].
  destruct (repo_eqb y x); simpl; [reflexivity|exact IH].
Qed.

(** The bounds between the two halves of the completion of a current
    repo. *)
Lemma within_counted cfg x st :
  (1 <= cnt x (current_repos st))%nat ->
  within cfg (counted_snapshot x st) <->
  (forall m, max_codes cfg = Some m -> 0 <= m -> completed_code_count st <= m) /\
  (forall k, max_repos cfg = Some k -> 0 <= k ->
     completed_repo_count st <= k /\ 1 <= 1 /\
     len (current_repos st) + fetching st + completed_repo_count st - 1 <= k) /\
  (0 <= max_workers (survey cfg) -> repo_jobs st <= max_workers (survey cfg)).
Proof.
  intros Hx. unfold within, counted_snapshot. simpl.
  rewrite (existsb_cnt x (current_repos st) Hx). reflexivity.
Qed.

(** One change that records itself keeps the bounds when the new sizes are
    within them. *)
Lemma bounded_next cfg st st' :
  bounded cfg st -> history st' = snapshot st' :: history st ->
  within cfg (snapshot st') -> bounded cfg st'.
Proof.
  intros [H1 H2] Hh Hw. split; [exact Hw|]. rewrite Hh. constructor; assumption.
Qed.

(** A change that lets no size grow keeps the bounds. *)
Lemma bounded_next_le cfg st st' :
  bounded cfg st -> history st' = snapshot st' :: history st ->
  completed_code_count st' = completed_code_count st ->
  len (current_repos st') + fetching st' + completed_repo_count st'
    <= len (current_repos st) + fetching st + completed_repo_count st ->
  repo_jobs st' <= repo_jobs st ->
  bounded cfg st'.
Proof.
  intros H Hh E1 E2 E3. apply (bounded_next cfg st); auto.
  destruct H as [H _]. destruct (proj1 (within_fields cfg _) H) as (H1 & H2 & H3).
  apply within_fields. rewrite E1. split; [exact H1|]. split.
  - intros k Hk Hk0. specialize (H2 k Hk Hk0). lia.
  - intros HW. specialize (H3 HW). lia.
Qed.

Lemma bounded_save_code cfg code st :
  bounded cfg st -> reached_max_codes cfg st = false -> bounded cfg (save_code cfg code st).
Proof.
  intros H Hr. apply (bounded_next cfg st); [exact H | reflexivity |].
  destruct H as [H _]. destruct (proj1 (within_fields cfg _) H) as (H1 & H2 & H3).
  apply within_fields. split; [|split]; [|exact H2|exact H3].
  intros m Hm _. simpl. pose proof (not_reached_max_codes cfg st m Hr Hm). lia.
Qed.

Lemma bounded_submit_code cfg ev analyzer repo result st :
  bounded cfg st -> bounded cfg (submit ev (CodeJob analyzer repo result) st).
Proof.
  intros H. apply (bounded_next_le cfg st); [exact H | reflexivity | reflexivity | |].
  - pose proof (fetching_submit ev (CodeJob analyzer repo result) st) as E.
    simpl in *. lia.
  - pose proof (repo_jobs_submit ev (CodeJob analyzer repo result) st) as E.
    simpl in *. lia.
Qed.

(** What is left of the bounds at a state [check_repo_completion] has
    stopped in: they held at every recorded point, and the two counters are
    within their caps. *)
Definition ended (cfg : Config) (st : State) : Prop :=
  Forall (within cfg) (history st) /\
  (forall m, max_codes cfg = Some m -> 0 <= m -> completed_code_count st <= m) /\
  (forall k, max_repos cfg = Some k -> 0 <= k -> completed_repo_count st <= k).

Lemma bounded_ended cfg st : bounded cfg st -> ended cfg st.
Proof.
  intros [H1 H2]. split; [exact H2|].
  destruct (proj1 (within_fields cfg st) H1) as (A & B & _).
  split; [exact A|]. intros k Hk Hk0. specialize (B k Hk Hk0).
  pose proof (len_nonneg (current_repos st)).
  assert (0 <= fetching st) by apply len_nonneg. lia.
Qed.

Lemma within_count_repo cfg x st :
  (1 <= cnt x (current_repos st))%nat -> within cfg (snapshot st) ->
  within cfg (counted_snapshot x (count_repo cfg x st)).
Proof.
  intros Hx H. destruct (proj1 (within_fields cfg st) H) as (H1 & H2 & H3).
  apply within_counted; [exact Hx|]. split; [exact H1|]. split; [|exact H3].
  intros k Hk Hk0. specialize (H2 k Hk Hk0).
  assert (Hc : 1 <= len (current_repos st)).
  { pose proof (List.filter_length_le (fun y => repo_eqb y x) (current_repos st)) as Hle.
    unfold cnt in Hx. unfold len. lia. }
  assert (Hf : 0 <= fetching st) by apply len_nonneg.
  change (fetching (count_repo cfg x st)) with (fetching st). simpl. lia.
Qed.

Lemma ended_count_repo cfg x st :
  (1 <= cnt x (current_repos st))%nat -> bounded cfg st -> ended cfg (count_repo cfg x st).
Proof.
  intros Hx [H1 H2].
  pose proof (within_count_repo cfg x st Hx H1) as Hw.
  split; [simpl; constructor; assumption|].
  destruct (proj1 (within_counted cfg x (count_repo cfg x st) Hx) Hw) as (A & B & _).
  split; [exact A|]. intros k Hk Hk0. exact (proj1 (B k Hk Hk0)).
Qed.

Lemma bounded_finish_repo cfg x st :
  (1 <= cnt x (current_repos st))%nat -> bounded cfg st -> bounded cfg (finish_repo cfg x st).
Proof.
  intros Hx [H1 H2].
  pose proof (within_count_repo cfg x st Hx H1) as Hw.
  destruct (proj1 (within_fields cfg st) H1) as (A & B & C).
  assert (Hs : within cfg (snapshot (finish_repo cfg x st))).
  { apply within_fields. split; [exact A|]. split; [|exact C].
    intros k Hk Hk0. specialize (B k Hk Hk0).
    pose proof (remove_repo_length x (current_repos st) Hx).
    change (fetching (finish_repo cfg x st)) with (fetching st).
    simpl. unfold len in *. lia. }
  split; [exact Hs|]. simpl. constructor; [exact Hs|]. constructor; assumption.
Qed.

Lemma bounded_check cfg st :
  bounded cfg st ->
  (snd (check_repo_completion cfg st) = Normal ->
   bounded cfg (fst (check_repo_completion cfg st))) /\
  ended cfg (fst (check_repo_completion cfg st)).
Proof.
  apply check_repo_completion_ends.
  - apply bounded_ended.
  - apply bounded_finish_repo.
  - apply ended_count_repo.
Qed.

Lemma bounded_admit_repo cfg repo st :
  bounded cfg st -> may_admit cfg st = true -> bounded cfg (start_repo cfg repo st).
Proof.
  intros H Hadm. apply (bounded_next cfg st); [exact H | reflexivity |].
  destruct H as [H _]. destruct (proj1 (within_fields cfg _) H) as (H1 & H2 & H3).
  apply within_fields. split; [|split]; [exact H1| |exact H3].
  intros k Hk _. destruct (may_admit_true cfg st Hadm) as (_ & Hr & _).
  specialize (Hr k Hk). pose proof (fetching_le_repo_jobs st) as Hf.
  change (fetching (start_repo cfg repo st)) with (fetching st).
  simpl. rewrite len_app. lia.
Qed.

Lemma bounded_admit_thunk cfg ev source features result st :
  bounded cfg st -> may_admit cfg st = true ->
  bounded cfg (submit ev (RepoJob source features result) st).
Proof.
  intros H Hadm. apply (bounded_next cfg st); [exact H | reflexivity |].
  destruct H as [H _]. destruct (proj1 (within_fields cfg _) H) as (H1 & H2 & H3).
  destruct (may_admit_true cfg st Hadm) as (Hw & Hr & _).
  pose proof (fetching_submit ev (RepoJob source features result) st) as Ef.
  pose proof (repo_jobs_submit ev (RepoJob source features result) st) as Er.
  pose proof (fetching_le_repo_jobs st) as Hf.
  pose proof (repo_jobs_le_pending st) as Hp.
  simpl in Ef, Er.
  apply within_fields. split; [|split]; [exact H1| |].
  - intros k Hk _. specialize (Hr k Hk). simpl. lia.
  - intros _. lia.
Qed.

Lemma bounded_deliver cfg f st : bounded cfg st -> bounded cfg (deliver f st).
Proof.
  intros H. apply (bounded_next_le cfg st); [exact H | reflexivity | reflexivity | |].
  - pose proof (fetching_deliver f st) as E. simpl. lia.
  - change (repo_jobs (deliver f st)) with (repo_jobs st). lia.
Qed.

Lemma bounded_deliver_repo cfg f source features repo st :
  bounded cfg st ->
  job_of f (future_to_job st) = Some (RepoJob source features (Ok repo)) ->
  ~ In f (delivered st) ->
  bounded cfg (start_repo cfg repo (deliver f st)).
Proof.
  intros H Hjob Hnd.
  pose proof (bounded_deliver cfg f st H) as Hd.
  apply (bounded_next cfg (deliver f st)); [exact Hd | reflexivity |].
  destruct H as [H _]. destruct (proj1 (within_fields cfg _) H) as (H1 & H2 & H3).
  pose proof (fetching_deliver_repo f source features (Ok repo) st Hjob Hnd) as E.
  apply within_fields. split; [|split]; [exact H1| |exact H3].
  intros k Hk Hk0. specialize (H2 k Hk Hk0).
  change (fetching (start_repo cfg repo (deliver f st))) with (fetching (deliver f st)).
  simpl. rewrite len_app. lia.
Qed.

Lemma bounded_remove_done cfg done st :
  bounded cfg st -> (forall f, In f done <-> In f (delivered st)) ->
  bounded cfg (remove_done done st).
Proof.
  intros H Hd. apply (bounded_next_le cfg st); [exact H | reflexivity | reflexivity | |].
  - pose proof (fetching_remove_done done st Hd) as E. simpl. lia.
  - apply repo_jobs_remove_done.
Qed.

Lemma bounded_initial cfg db0 : bounded cfg (initial_state db0).
Proof.
  apply always_tick; [|constructor]. apply within_fields.
  split; [|split]; intros; unfold fetching, repo_jobs, undelivered_repo_jobs, jobs, len;
    simpl; lia.
Qed.

Lemma ended_final_cleanup cfg st : ended cfg st -> ended cfg (final_cleanup st).
Proof.
  unfold final_cleanup. generalize (current_repos st). intros l. revert st.
  induction l as [|r l IH]; intros st H; simpl; auto.
Qed.

(** The bounds hold at every point of [run_loop], started on any store. *)
Lemma run_loop_bounded cfg fuel gen db0 :
  ended cfg (result_state (run_loop cfg fuel O gen (initial_state db0))).
Proof.
  destruct (run_loop_ends cfg (fun _ st => bounded cfg st) (fun _ st => ended cfg st)) with
    (fuel := fuel) (round := O) (gen := gen) (st := initial_state db0)
    as (gen' & H & _); auto.
  - intros _ st. apply bounded_ended.
  - intros _ code st. apply bounded_save_code.
  - intros _ a r res st H _. now apply bounded_submit_code.
  - intros _ st. apply bounded_check.
  - intros _ _ repo st H Hadm _. now apply bounded_admit_repo.
  - intros _ _ thunk features st H Hadm _. now apply bounded_admit_thunk.
  - intros _ f src af repo st. apply bounded_deliver_repo.
  - intros _ f job st H _ _ _. now apply bounded_deliver.
  - intros _ done st H _ Hd _. now apply bounded_remove_done.
  - apply bounded_initial.
  - apply initial_futures_ok.
Qed.

Lemma run_bounded cfg fuel db0 : ended cfg (result_state (run cfg fuel db0)).
Proof.
  unfold run.
  pose proof (run_loop_bounded cfg fuel
                (get_repo_generator (continue_on_failure (survey cfg))
                                    (sources (survey cfg))) db0) as H.
  destruct (run_loop cfg fuel O _ (initial_state db0)) as [st o|st]; simpl in *.
  - now apply ended_final_cleanup.
  - exact H.
Qed.

End Bounds.

(** ** What [check_repo_completion] does to each completed repository *)

Module Completion.

Import Feed Runner RunnerFacts.

Lemma fold_finish_events cfg todo : forall st,
  let st' := fold_left (fun s r => finish_repo cfg r s) todo st in
  completed_repo_count st' = completed_repo_count st + len todo /\
  (forall ev, In ev (events st) -> In ev (events st')) /\
  (forall r, In r todo ->
             In (EvCleanup r) (events st') /\ In (EvRepoCompleted r) (events st')).
Proof.
  induction todo as [|x todo IH]; intros st; simpl.
  - split; [unfold len; simpl; lia|]. split; [auto | intros r []].
  - destruct (IH (finish_repo cfg x st)) as (E & Hk & Hc). simpl in *.
    split; [rewrite E; unfold len; simpl List.length; lia|]. split.
    + intros ev Hev. apply Hk. simpl. auto.
    + intros r [<-|Hr]; [|now apply Hc].
      split; apply Hk; simpl; auto.
Qed.

Lemma completed_repos_In st r :
  In r (current_repos st) ->
  filter (is_code_job_of r) (jobs st) = [] ->
  In r (completed_repos st).
Proof.
  intros Hin Hno. unfold completed_repos. apply filter_In. split; [exact Hin|].
  rewrite Hno. reflexivity.
Qed.

(** A [check_repo_completion] all of whose lookups succeed. *)
Lemma check_repo_completion_completes cfg st r :
  In r (completed_repos st) ->
  snd (check_repo_completion cfg st) = Normal ->
  let st' := fst (check_repo_completion cfg st) in
  st' = fold_left (fun s x => finish_repo cfg x s) (completed_repos st) st /\
  In (EvCleanup r) (events st') /\ In (EvRepoCompleted r) (events st') /\
  completed_repo_count st' = completed_repo_count st + len (completed_repos st).
Proof.
  intros Hin Hn.
  destruct (check_repo_completion_cases cfg st)
    as [[_ E]|(d & x & t & key & _ & _ & E)]; [|congruence].
  cbv zeta. rewrite E.
  destruct (fold_finish_events cfg (completed_repos st) st) as (E1 & _ & Hc).
  destruct (Hc r Hin) as [H1 H2]. auto.
Qed.

(** The two ways the completion of one repository ends. *)
Lemma complete_repo_cases cfg r st :
  complete_repo cfg r st = (finish_repo cfg r st, Normal) \/
  exists key, complete_repo cfg r st = (count_repo cfg r st, Raise (KeyError key)).
Proof.
  unfold complete_repo, finish_repo.
  destruct (Progress.track_completed_repo (pbars cfg) (db (count_repo cfg r st)) r);
    eauto.
Qed.

(** The [finally] block of [run] calls the cleanup of every repository
    still in [current_repos]. *)
Lemma final_cleanup_cleans r : forall st,
  In r (current_repos st) -> In (EvCleanup r) (events (final_cleanup st)).
Proof.
  unfold final_cleanup. intros st.
  assert (G : forall l s, In r l \/ In (EvCleanup r) (events s) ->
            In (EvCleanup r)
               (events (fold_left (fun s0 repo => log_event (EvCleanup repo) s0) l s))).
  { induction l as [|x l IH]; intros s H; simpl.
    - destruct H as [[]|H]; exact H.
    - apply IH. destruct H as [[->|H]|H]; simpl; auto. }
  intros H. apply G. now left.
Qed.

End Completion.

(** ** Claims about the caps and the worker bound *)

(** C7 as stated fails, with the pending repo-preparation jobs counted as
    [reached_max_repos] counts them (the RepoJobs in [future_to_job]).  Two
    repositories to fetch, [max_repos = 1]: while the callback of the first
    RepoJob runs, its repository is in [current_repos] and the job is still
    in [future_to_job], which is pruned only after the batch; the sum is 2.
    Inside [check_repo_completion] the repository is counted as completed
    before it is removed from [current_repos]: in flight and completed are
    together 2 as well. *)
Lemma C7_counterexample :
  let cfg := Scenario.config Scenario.survey_git (Some 1) None Scenario.fifo in
  let result := Runner.run cfg 10 Db.empty in
  let points := Runner.history (Scenario.final_state result) in
  Scenario.finished_normally result = true /\
  Runner.completed_repo_count (Scenario.final_state result) = 1 /\
  existsb (fun s => (Runner.snap_current_repos s =? 1) && (Runner.snap_repo_jobs s =? 1)
                    && (Runner.snap_completed_repo_count s =? 0)) points = true /\
  existsb (fun s => (Runner.snap_current_repos s =? 1) && (Runner.snap_repo_jobs s =? 0)
                    && (Runner.snap_completed_repo_count s =? 1)) points = true.
Proof. vm_compute. auto. Qed.

(** C7 (as amended). With [max_repos = k] (a count, so [0 <= k]):
    [reached_max_repos] is exactly [completed_repo_count + pending RepoJobs +
    in-flight repos >= k], and while it holds [consume_repos] takes no
    candidate from the feed.  So [completed_repo_count <= k] at every point
    of a run and when it ends, however it ends.  What never exceeds [k] is
    the sum of the repos in flight, the repos being fetched (the RepoJobs not
    yet handed to their callback) and the completed repos, a repository that
    [check_repo_completion] has counted and not yet removed from
    [current_repos] (there is at most one) being counted once. *)
Theorem C7_max_repos_is_enforced :
  forall (cfg : Runner.Config) (k : Z),
    Runner.max_repos cfg = Some k -> 0 <= k ->
    (forall st,
        Runner.reached_max_repos cfg st = true <->
        k <= Runner.len (Runner.current_repos st)
             + Runner.len (filter Runner.is_repo_job (Runner.jobs st))
             + Runner.completed_repo_count st) /\
    (forall gen st,
        Runner.reached_max_repos cfg st = true ->
        Runner.consume_repos cfg gen st = (gen, st, Runner.Normal)) /\
    (forall fuel db0,
        let st := RunnerFacts.result_state (Runner.run cfg fuel db0) in
        Runner.completed_repo_count st <= k /\
        Forall (fun s => Runner.snap_completed_repo_count s <= k /\
                         Runner.snap_counted_repos s <= 1 /\
                         Runner.snap_current_repos s + Runner.snap_fetching s
                         + Runner.snap_completed_repo_count s
                         - Runner.snap_counted_repos s <= k)
               (Runner.history st)).
Proof.
  intros cfg k Hk Hk0. split; [|split].
  - intros st. unfold Runner.reached_max_repos. rewrite Hk. apply Z.leb_le.
  - intros gen st Hr. destruct gen as [|ev gen]; [reflexivity|]. simpl.
    unfold Runner.may_admit. rewrite Hr. simpl. rewrite Bool.andb_false_r. reflexivity.
  - intros fuel db0 st. destruct (Bounds.run_bounded cfg fuel db0) as (Hh & _ & Hc).
    fold st in Hh, Hc. split; [exact (Hc k Hk Hk0)|].
    eapply Forall_impl; [|exact Hh]. intros s (_ & H2 & _). exact (H2 k Hk Hk0).
Qed.

(** C3 (as amended). A candidate is taken from the feed, and so a RepoJob
    submitted, only while fewer than [max_workers] jobs are pending: with
    [max_workers <= len(future_to_job)], [consume_repos] returns at once.  So
    the RepoJobs in [future_to_job] never exceed [max_workers] (for
    [max_workers >= 0]).  CodeJobs are submitted by [handle_repo] without
    looking at [max_workers]. *)
Theorem C3_repo_jobs_bounded_by_workers :
  forall (cfg : Runner.Config),
    (forall gen st,
        max_workers (Runner.survey cfg) <= Runner.len (Runner.future_to_job st) ->
        Runner.consume_repos cfg gen st = (gen, st, Runner.Normal)) /\
    (forall fuel db0,
        0 <= max_workers (Runner.survey cfg) ->
        Forall (fun s => Runner.snap_repo_jobs s <= max_workers (Runner.survey cfg))
               (Runner.history (RunnerFacts.result_state (Runner.run cfg fuel db0)))).
Proof.
  intros cfg. split.
  - intros gen st Hw. destruct gen as [|ev gen]; [reflexivity|]. simpl.
    unfold Runner.may_admit.
    assert (E : (Runner.len (Runner.future_to_job st) <? max_workers (Runner.survey cfg)) = false)
      by (apply Z.ltb_ge; exact Hw).
    rewrite E. reflexivity.
  - intros fuel db0 HW. destruct (Bounds.run_bounded cfg fuel db0) as [Hh _].
    eapply Forall_impl; [|exact Hh]. intros s (_ & _ & H3). exact (H3 HW).
Qed.

(** C3 as stated fails: one worker, one repository of five files.  All five
    CodeJobs are pending at once. *)
Lemma C3_counterexample :
  let cfg := Scenario.config Scenario.survey5 None None Scenario.fifo in
  max_workers (Runner.survey cfg) = 1 /\
  Scenario.finished_normally (Runner.run cfg 10 Db.empty) = true /\
  existsb (fun s => Runner.snap_pending_jobs s =? 5)
          (Runner.history (Scenario.final_state (Runner.run cfg 10 Db.empty))) = true.
Proof. vm_compute. auto. Qed.

(** C7 (as amended) at three repositories with [max_repos = 2]. *)
Lemma C7_witness :
  let cfg := Scenario.config Scenario.survey3 (Some 2) None Scenario.fifo in
  let st := RunnerFacts.result_state (Runner.run cfg 10 Db.empty) in
  Runner.completed_repo_count st <= 2 /\
  Forall (fun s => Runner.snap_completed_repo_count s <= 2 /\
                   Runner.snap_counted_repos s <= 1 /\
                   Runner.snap_current_repos s + Runner.snap_fetching s
                   + Runner.snap_completed_repo_count s
                   - Runner.snap_counted_repos s <= 2)
         (Runner.history st).
Proof.
  intros cfg st.
  exact (proj2 (proj2 (C7_max_repos_is_enforced cfg 2 eq_refl ltac:(lia)))
               10%nat Db.empty).
Defined.

(** C6 as stated fails for analyses that are deferred to jobs, as those of a
    [FileAnalyzer] are: one repository of five files, [max_codes = 2].
    [handle_repo] submits the five CodeJobs while no result has been counted
    yet, so the cap stops none of them and ['Max codes reached'] is never
    logged; five analyses are run, two results are saved and three are
    dropped by [handle_code]. *)
Lemma C6_counterexample :
  let cfg := Scenario.config Scenario.survey5 None (Some 2) Scenario.fifo in
  let result := Runner.run cfg 10 Db.empty in
  let st := Scenario.final_state result in
  Scenario.finished_normally result = true /\
  Scenario.code_jobs_submitted st = 5 /\
  Runner.completed_code_count st = 2 /\
  Scenario.max_codes_logged st = false.
Proof. vm_compute. auto. Qed.

(** C6 (as amended). With [max_codes = m] (a count, so [0 <= m]):
    [completed_code_count] is at most [m] at every point of a run.  Once the
    cap is reached no candidate is admitted, [handle_repo] started on a
    repository submits nothing, and the loop over an analyzer's codes stops
    at the next code it is given, without submitting or saving it; either way
    [handle_repo] logs the fact and goes on to [check_repo_completion].  That
    call, for each current repository without a pending CodeJob, saves the
    aggregate of what the store holds and counts the repository as completed;
    then it calls the repository's cleanup and removes it, or, where a
    progress tracker is missing, raises [KeyError] with the repository still
    in [current_repos], where the [finally] block of [run] cleans it up.  The
    jobs submitted before the cap was reached are not stopped.  On one
    repository of five files with [max_codes = 2]: with deferred analyses, in
    whichever of two orders they finish, five jobs are submitted, two results
    are saved and nothing is logged; with inline analyses two codes are
    analysed and the stop is logged; in both cases the run ends normally with
    one repository completed, an aggregate over two codes, and one cleanup. *)
Theorem C6_max_codes_is_enforced :
  forall (cfg : Runner.Config) (m : Z),
    Runner.max_codes cfg = Some m -> 0 <= m ->
    (forall fuel db0,
        let st := RunnerFacts.result_state (Runner.run cfg fuel db0) in
        Runner.completed_code_count st <= m /\
        Forall (fun s => Runner.snap_completed_code_count s <= m) (Runner.history st)) /\
    (forall st, m <= Runner.completed_code_count st ->
        (forall gen, Runner.consume_repos cfg gen st = (gen, st, Runner.Normal)) /\
        (forall repo features,
            let logged := Runner.log (Runner.MaxCodesReached repo)
                                     (Runner.start_repo cfg repo st) in
            Runner.future_to_job (fst (Runner.handle_repo cfg repo features st))
            = Runner.future_to_job st /\
            fst (Runner.handle_repo cfg repo features st)
            = fst (Runner.check_repo_completion cfg logged) /\
            snd (Runner.handle_repo cfg repo features st)
            = snd (Runner.check_repo_completion cfg logged)) /\
        (forall repo analyzer features step rest item,
            step (Runner.get_code_features cfg repo analyzer features st)
              = StepYield item ->
            Runner.codes_loop cfg repo analyzer features (step :: rest) st
            = (st, Runner.Break))) /\
    (forall repo features st st2,
        Runner.analyzers_loop cfg repo features (analyzers (Runner.survey cfg))
          (Runner.start_repo cfg repo st) = (st2, Runner.Break) ->
        Runner.completed_code_count st < m ->
        let logged := Runner.log (Runner.MaxCodesReached repo) st2 in
        fst (Runner.handle_repo cfg repo features st)
        = fst (Runner.check_repo_completion cfg logged) /\
        snd (Runner.handle_repo cfg repo features st)
        = snd (Runner.check_repo_completion cfg logged)) /\
    (forall st repo,
        In repo (Runner.current_repos st) ->
        filter (Runner.is_code_job_of repo) (Runner.jobs st) = [] ->
        In repo (Runner.completed_repos st) /\
        (snd (Runner.check_repo_completion cfg st) = Runner.Normal ->
         let st' := fst (Runner.check_repo_completion cfg st) in
         In (Runner.EvRepoCompleted repo) (Runner.events st') /\
         In (Runner.EvCleanup repo) (Runner.events st') /\
         Runner.completed_repo_count st'
         = Runner.completed_repo_count st + Runner.len (Runner.completed_repos st))) /\
    (forall r s,
        Runner.db (Runner.count_repo cfg r s)
        = Db.save_repo_features r (save_code_features (Runner.survey cfg)) (Runner.db s) /\
        Runner.completed_repo_count (Runner.count_repo cfg r s)
        = Runner.completed_repo_count s + 1 /\
        (Runner.complete_repo cfg r s
         = (Runner.cleanup_repo r (Runner.count_repo cfg r s), Runner.Normal) \/
         exists key,
           Runner.complete_repo cfg r s
           = (Runner.count_repo cfg r s, Runner.Raise (KeyError key)) /\
           Runner.current_repos (Runner.count_repo cfg r s) = Runner.current_repos s) /\
        In (Runner.EvCleanup r)
           (Runner.events (Runner.cleanup_repo r (Runner.count_repo cfg r s))) /\
        Runner.current_repos (Runner.cleanup_repo r (Runner.count_repo cfg r s))
        = Runner.remove_repo r (Runner.current_repos s) /\
        (forall st, In r (Runner.current_repos st) ->
                    In (Runner.EvCleanup r) (Runner.events (Runner.final_cleanup st)))) /\
    (forall oracle,
        In oracle [Scenario.fifo; Scenario.lifo] ->
        let result :=
          Runner.run (Scenario.config Scenario.survey5 None (Some 2) oracle) 10 Db.empty in
        let st := Scenario.final_state result in
        Scenario.finished_normally result = true /\
        Scenario.code_jobs_submitted st = 5 /\
        Runner.completed_code_count st = 2 /\
        List.length (Scenario.saved_code_keys st) = 2%nat /\
        Scenario.max_codes_logged st = false /\
        Runner.completed_repo_count st = 1 /\
        Scenario.total_counts st = [2] /\
        Scenario.cleanups st = [1%nat]) /\
    (let result :=
       Runner.run (Scenario.config Scenario.survey5_inline None (Some 2) Scenario.fifo)
                  10 Db.empty in
     let st := Scenario.final_state result in
     Scenario.finished_normally result = true /\
     Scenario.code_jobs_submitted st = 0 /\
     Runner.completed_code_count st = 2 /\
     List.length (Scenario.saved_code_keys st) = 2%nat /\
     Scenario.max_codes_logged st = true /\
     Runner.completed_repo_count st = 1 /\
     Scenario.total_counts st = [2] /\
     Scenario.cleanups st = [1%nat]).
Proof.
  intros cfg m Hm Hm0.
  assert (Hreached : forall st, m <= Runner.completed_code_count st ->
                                Runner.reached_max_codes cfg st = true).
  { intros st H. apply reached_max_codes_iff. eauto. }
  split; [|split; [|split; [|split; [|split; [|split]]]]].
  - intros fuel db0 st. destruct (Bounds.run_bounded cfg fuel db0) as (Hh & Hc & _).
    fold st in Hh, Hc. split; [exact (Hc m Hm Hm0)|].
    eapply Forall_impl; [|exact Hh]. intros s (H1 & _). exact (H1 m Hm Hm0).
  - intros st Hst. pose proof (Hreached st Hst) as Hr. split; [|split].
    + intros [|ev gen]; [reflexivity|]. simpl. unfold Runner.may_admit.
      rewrite Hr. simpl. rewrite Bool.andb_false_r. reflexivity.
    + intros repo features logged. unfold Runner.handle_repo.
      replace (Runner.reached_max_codes cfg (Runner.start_repo cfg repo st)) with true
        by (symmetry; apply Hreached; exact Hst).
      fold logged.
      pose proof (RunnerFacts.check_repo_completion_frame cfg logged) as (F & _).
      destruct (Runner.check_repo_completion cfg logged) as [st4 o4]. simpl in *.
      split; [exact F|]. split; [reflexivity|]. destruct o4; reflexivity.
    + intros repo analyzer features step rest item Hstep. simpl.
      rewrite Hstep, Hr. reflexivity.
  - intros repo features st st2 Hloop Hlt logged. unfold Runner.handle_repo.
    replace (Runner.reached_max_codes cfg (Runner.start_repo cfg repo st)) with false.
    + rewrite Hloop. fold logged.
      destruct (Runner.check_repo_completion cfg logged) as [st4 o4]. simpl.
      split; [reflexivity|]. destruct o4; reflexivity.
    + symmetry. unfold Runner.reached_max_codes. rewrite Hm. apply Z.leb_gt. exact Hlt.
  - intros st repo Hin Hno.
    pose proof (Completion.completed_repos_In st repo Hin Hno) as Hc.
    split; [exact Hc|]. intros Hn.
    destruct (Completion.check_repo_completion_completes cfg st repo Hc Hn)
      as (_ & H1 & H2 & H3).
    cbv zeta. auto.
  - intros r s. split; [reflexivity|]. split; [reflexivity|]. split; [|split; [|split]].
    + destruct (Completion.complete_repo_cases cfg r s) as [H|[key H]]; [now left|].
      right. exists key. split; [exact H | reflexivity].
    + simpl. now left.
    + reflexivity.
    + intros st. apply Completion.final_cleanup_cleans.
  - intros oracle Ho.
    destruct Ho as [<-|[<-|[]]]; vm_compute; repeat split; reflexivity.
  - vm_compute. repeat split; reflexivity.
Qed.

(** C6 (as amended) at one repository of five files with [max_codes = 2]. *)
Lemma C6_witness :
  let cfg := Scenario.config Scenario.survey5 None (Some 2) Scenario.fifo in
  Runner.completed_code_count (RunnerFacts.result_state (Runner.run cfg 10 Db.empty)) <= 2.
Proof.
  intros cfg.
  exact (proj1 (proj1 (C6_max_codes_is_enforced cfg 2 eq_refl ltac:(lia))
                      10%nat Db.empty)).
Defined.

(** ** The repo feed *)

Module FeedFacts.

Import Feed FeedSpec.






Lemma lookup_In s gens g : lookup s gens = Some g -> In s (map fst gens).
Proof.
  induction gens as [|[n g0] gens IH]; simpl; [discriminate|].
  destruct (String.eqb n s) eqn:E; [apply String.eqb_eq in E; auto | auto].
Qed.





































End FeedFacts.



(** ** The aggregates of the store *)

Module DbFacts.

Import Db.

Lemma rf_same_key_true a b :
  rf_same_key a b = true <->
  rf_source_name a = rf_source_name b /\ rf_repo_key a = rf_repo_key b /\
  rf_analyzer_name a = rf_analyzer_name b /\ rf_feature_name a = rf_feature_name b.
Proof.
  unfold rf_same_key. rewrite !Bool.andb_true_iff, !String.eqb_eq. tauto.
Qed.

Lemma rf_same_key_refl a : rf_same_key a a = true.
Proof. apply rf_same_key_true. auto. Qed.

Lemma rf_same_key_trans a b c :
  rf_same_key a b = true -> rf_same_key b c = true -> rf_same_key a c = true.
Proof. rewrite !rf_same_key_true. intuition congruence. Qed.

Section UpsertFacts.
Variable R : Type.
Variable same_key : R -> R -> bool.
Hypothesis same_key_refl : forall a, same_key a a = true.
Hypothesis same_key_trans : forall a b c,
    same_key a b = true -> same_key b c = true -> same_key a c = true.

Lemma upsert_In_new new tbl : In new (upsert same_key new tbl).
Proof.
  induction tbl as [|old tbl IH]; simpl; [now left|].
  destruct (same_key old new); simpl; auto.
Qed.

Lemma upsert_In_old new tbl x : In x (upsert same_key new tbl) -> x = new \/ In x tbl.
Proof.
  induction tbl as [|old tbl IH]; simpl; [intuition|].
  destruct (same_key old new); simpl; intuition.
Qed.

Lemma upsert_keeps new tbl row :
  In row tbl -> In row (upsert same_key new tbl) \/ same_key row new = true.
Proof.
  induction tbl as [|old tbl IH]; simpl; [intros []|].
  destruct (same_key old new) eqn:E; simpl.
  - intros [<-|H]; auto.
  - intros [<-|H]; auto. destruct (IH H); auto.
Qed.

Lemma upsert_many_In_old news : forall tbl x,
  In x (upsert_many same_key news tbl) -> In x news \/ In x tbl.
Proof.
  unfold upsert_many. induction news as [|n news IH]; simpl; intros tbl x H; [auto|].
  destruct (IH _ _ H) as [H1|H1]; [auto|].
  destruct (upsert_In_old _ _ _ H1); subst; auto.
Qed.

(** A row of the table survives an [insert_many], or is replaced by one of
    the inserted rows with its key. *)
Lemma upsert_many_keeps news : forall tbl row,
  In row tbl ->
  exists row', In row' (upsert_many same_key news tbl) /\
               same_key row row' = true /\ (row' = row \/ In row' news).
Proof.
  unfold upsert_many. induction news as [|n news IH]; simpl; intros tbl row Hin.
  - exists row. auto.
  - destruct (upsert_keeps n tbl row Hin) as [H|H].
    + destruct (IH _ _ H) as (row' & H1 & H2 & H3). exists row'. intuition.
    + destruct (IH _ _ (upsert_In_new n tbl)) as (row' & H1 & H2 & H3).
      exists row'. split; [exact H1|]. split; [eauto|].
      right. destruct H3; subst; auto.
Qed.


End UpsertFacts.

(** *** What [save_repo_features] computes *)

(** The unit records an aggregate is computed from: the non-null rows of a
    repo and a feature name (whatever the analyzer: the query groups by
    [feature_name] alone). *)
Definition unit_rows (db : Database) (source key feature : string)
  : list CodeFeatureRow :=
  filter (fun row => String.eqb (cf_source_name row) source &&
                     String.eqb (cf_repo_key row) key &&
                     negb (is_null (cf_occurrence_count row)) &&
                     String.eqb (cf_feature_name row) feature)
         (code_feature_tbl db).

Definition sum_clamped (rows : list CodeFeatureRow) : Z :=
  sum_Z (map (fun row => Z.max (count_of row) 1) rows).

Lemma latest_row_In rest : forall first,
  In (latest_row first rest) (first :: rest).
Proof.
  induction rest as [|row rest IH]; intros first; simpl; [auto|].
  destruct (cf_updated first <? cf_updated row).
  - destruct (IH row) as [H|H]; [right; left; exact H | right; right; exact H].
  - destruct (IH first) as [H|H]; [left; exact H | right; right; exact H].
Qed.

Lemma latest_row_max rest : forall first row,
  In row (first :: rest) -> cf_updated row <= cf_updated (latest_row first rest).
Proof.
  induction rest as [|x rest IH]; intros first row; simpl.
  - intros [<-|[]]. lia.
  - destruct (cf_updated first <? cf_updated x) eqn:E.
    + apply Z.ltb_lt in E. intros [<-|[<-|H]].
      * pose proof (IH x x (or_introl eq_refl)). lia.
      * apply IH. now left.
      * apply IH. now right.
    + apply Z.ltb_ge in E. intros [<-|[<-|H]].
      * apply IH. now left.
      * pose proof (IH first first (or_introl eq_refl)). lia.
      * apply IH. now right.
Qed.

Lemma group_of_selected repo db feature :
  group_of feature (selected_rows repo db)
  = unit_rows db (repo_source repo) (repo_key repo) feature.
Proof.
  unfold group_of, selected_rows, unit_rows, repo_code_filter.
  induction (code_feature_tbl db) as [|row tbl IH]; simpl; [reflexivity|].
  destruct (String.eqb (cf_source_name row) (repo_source repo));
    destruct (String.eqb (cf_repo_key row) (repo_key repo));
    destruct (is_null (cf_occurrence_count row)); simpl; auto.
  destruct (String.eqb (cf_feature_name row) feature); simpl; now rewrite IH.
Qed.

Lemma unit_rows_In db source key feature row :
  In row (unit_rows db source key feature) ->
  cf_source_name row = source /\ cf_repo_key row = key /\
  cf_feature_name row = feature /\ cf_occurrence_count row <> None.
Proof.
  unfold unit_rows. rewrite filter_In, !Bool.andb_true_iff, !String.eqb_eq.
  intros (_ & ((H1 & H2) & H3) & H4). repeat split; auto.
  destruct (cf_occurrence_count row); [discriminate | discriminate H3].
Qed.

(** Each row [save_repo_features] upserts is, for the feature name it
    carries, the aggregate of the repo's non-null unit records: the latest
    update time, the sum of the counts, the sum of the counts each raised to
    at least one, and the number of records. *)
Lemma aggregate_rows_spec repo db agg :
  In agg (aggregate_rows (selected_rows repo db)) ->
  let units := unit_rows db (repo_source repo) (repo_key repo) (rf_feature_name agg) in
  rf_source_name agg = repo_source repo /\
  rf_repo_key agg = repo_key repo /\
  units <> [] /\
  (forall row, In row units -> cf_updated row <= rf_updated agg) /\
  (exists row, In row units /\ cf_updated row = rf_updated agg /\
               cf_analyzer_name row = rf_analyzer_name agg) /\
  rf_occurrence_count agg = sum_Z (map count_of units) /\
  rf_code_occurrence_count agg = sum_clamped units /\
  rf_code_total_count agg = Z.of_nat (List.length units).
Proof.
  unfold aggregate_rows. rewrite in_flat_map. intros (feature & _ & Hin).
  rewrite group_of_selected in Hin.
  destruct (unit_rows db (repo_source repo) (repo_key repo) feature)
    as [|first rest] eqn:E; [destruct Hin|].
  destruct Hin as [<-|[]]. simpl.
  pose proof (latest_row_In rest first) as Hb. rewrite <- E in Hb.
  destruct (unit_rows_In _ _ _ _ _ Hb) as (H1 & H2 & H3 & _).
  rewrite H3, E. repeat split; auto.
  - discriminate.
  - apply latest_row_max.
  - exists (latest_row first rest). rewrite <- E at 1. auto.
Qed.



Lemma sum_clamped_ge rows : Z.of_nat (List.length rows) <= sum_clamped rows.
Proof.
  unfold sum_clamped, sum_Z. induction rows as [|row rows IH]; simpl List.length; simpl map;
    simpl fold_right; lia.
Qed.

(** *** Stores whose unit records are kept and only added to *)









Lemma code_rows_pairwise now so code :
  NoDup (map fst (code_features code)) ->
  ForallOrdPairs (fun a b => cf_same_key a b = false)
                 (map (code_row now so code) (code_features code)).
Proof.
  induction (code_features code) as [|e l IH]; simpl; intros Hnd; [constructor|].
  inversion Hnd as [|? ? Hni Hnd']; subst. constructor; [|auto].
  apply Forall_forall. intros x Hx. apply in_map_iff in Hx.
  destruct Hx as (e' & <- & He'). unfold cf_same_key, code_row. simpl.
  destruct (String.eqb (fst e) (fst e')) eqn:E; [|now rewrite Bool.andb_false_r].
  apply String.eqb_eq in E. exfalso. apply Hni. rewrite E. now apply in_map.
Qed.











End DbFacts.

(** ** Claims about the aggregates *)

(** C2 at the failing inputs: one repository with one file, analysed to
    completion.  With three occurrences in the file the persisted aggregate
    has [occurrence_count = 3], [code_total_count = 1] and
    [code_occurrence_count = 3] (one file holds the feature); with no
    occurrence it has [occurrence_count = 0], [code_total_count = 1] and
    [code_occurrence_count = 1] (no file holds the feature). *)
Theorem C2_code_occurrence_count_is_a_clamped_sum :
  (let result := Runner.run (Scenario.config (Scenario.survey_files 3 ["u1"] true true)
                                             None None Scenario.fifo) 10 Db.empty in
   Scenario.finished_normally result = true /\
   Scenario.aggregates (Scenario.final_state result) = [(3, 3, 1)]) /\
  (let result := Runner.run (Scenario.config (Scenario.survey_files 0 ["u1"] true true)
                                             None None Scenario.fifo) 10 Db.empty in
   Scenario.finished_normally result = true /\
   Scenario.aggregates (Scenario.final_state result) = [(0, 1, 1)]) /\
  (forall repo db agg,
      In agg (Db.aggregate_rows (Db.selected_rows repo db)) ->
      let units := DbFacts.unit_rows db (repo_source repo) (repo_key repo)
                                     (Db.rf_feature_name agg) in
      Db.rf_occurrence_count agg = Db.sum_Z (map Db.count_of units) /\
      Db.rf_code_occurrence_count agg
      = Db.sum_Z (map (fun row => Z.max (Db.count_of row) 1) units) /\
      Db.rf_code_total_count agg = Z.of_nat (List.length units) /\
      Db.rf_code_total_count agg <= Db.rf_code_occurrence_count agg).
Proof.
  split; [vm_compute; auto|]. split; [vm_compute; auto|].
  intros repo db agg Hin units.
  destruct (DbFacts.aggregate_rows_spec repo db agg Hin) as (_ & _ & _ & _ & _ & E1 & E2 & E3).
  fold units in E1, E2, E3. repeat split; auto.
  rewrite E2, E3. apply DbFacts.sum_clamped_ge.
Qed.




(** ** A run over sources that run out ends *)

Module Termination.

Import Feed Runner RunnerFacts.

(** The CodeJobs handling [repo] can submit: one per step of each
    analyzer's iterator. *)
Definition steps_of (cfg : Config) (repo : Repo) (analyzer0 : Analyzer) : nat :=
  match lookup_analyzer cfg (analyzer_name analyzer0) with
  | Some analyzer =>
      match code_generator analyzer repo with
      | Ok steps => List.length steps
      | Err _ => O
      end
  | None => O
  end.

Definition sum_nat (l : list nat) : nat := fold_right Nat.add O l.

Definition units (cfg : Config) (todo : list Analyzer) (repo : Repo) : nat :=
  sum_nat (map (steps_of cfg repo) todo).

Definition result_units (cfg : Config) (result : Try Repo) : nat :=
  match result with
  | Ok repo => units cfg (analyzers (survey cfg)) repo
  | Err _ => O
  end.

(** The futures a pending job stands for: itself and the CodeJobs its
    callback can submit. *)
Definition job_cost (cfg : Config) (job : Job) : nat :=
  match job with
  | RepoJob _ _ result => S (result_units cfg result)
  | CodeJob _ _ _ => 1
  end.

Definition event_cost (cfg : Config) (ev : FeedEvent) : nat :=
  match ev with
  | FeedYield _ (GotRepo repo) => units cfg (analyzers (survey cfg)) repo
  | FeedYield _ (GotRepoThunk thunk) => S (result_units cfg (rt_thunk thunk))
  | FeedRaise _ => O
  end.

Definition feed_cost (cfg : Config) (gen : list FeedEvent) : nat :=
  sum_nat (map (event_cost cfg) gen).

(** The cost of the jobs whose callback has not been entered. *)
Definition cost_in (cfg : Config) (d : list nat) (l : list (nat * Job)) : nat :=
  sum_nat (map (fun fj => job_cost cfg (snd fj))
               (filter (fun fj => negb (mem_nat (fst fj) d)) l)).

Definition pending_cost (cfg : Config) (st : State) : nat :=
  cost_in cfg (delivered st) (future_to_job st).

Lemma sum_nat_app a b : sum_nat (a ++ b) = (sum_nat a + sum_nat b)%nat.
Proof. unfold sum_nat. induction a as [|x a IH]; simpl; lia. Qed.

Lemma cost_in_app cfg d l1 l2 :
  cost_in cfg d (l1 ++ l2) = (cost_in cfg d l1 + cost_in cfg d l2)%nat.
Proof. unfold cost_in. now rewrite filter_app, map_app, sum_nat_app. Qed.

Lemma pending_cost_submit cfg ev job st :
  (pending_cost cfg (submit ev job st) <= pending_cost cfg st + job_cost cfg job)%nat.
Proof.
  unfold pending_cost. simpl. rewrite cost_in_app. unfold cost_in at 2. simpl.
  destruct (negb _); simpl; lia.
Qed.

Lemma pending_cost_check cfg st :
  pending_cost cfg (fst (check_repo_completion cfg st)) = pending_cost cfg st.
Proof.
  unfold pending_cost.
  destruct (check_repo_completion_frame cfg st) as (E1 & _ & E3 & _).
  now rewrite E1, E3.
Qed.

Lemma codes_loop_cost cfg repo analyzer features steps : forall st,
  (pending_cost cfg (fst (codes_loop cfg repo analyzer features steps st))
   <= pending_cost cfg st + List.length steps)%nat.
Proof.
  induction steps as [|step rest IH]; intros st; simpl; [lia|].
  destruct (step _) as [|item|e]; simpl; [specialize (IH st); lia | | lia].
  destruct (reached_max_codes cfg st) eqn:Hr; simpl; [lia|].
  destruct item as [code|thunk].
  - unfold handle_code. rewrite Hr.
    specialize (IH (save_code cfg code st)).
    change (pending_cost cfg (save_code cfg code st)) with (pending_cost cfg st) in IH. lia.
  - match goal with |- context [codes_loop _ _ _ _ rest ?s] => specialize (IH s) end.
    match type of IH with (_ <= pending_cost cfg (submit ?e ?j st) + _)%nat =>
      pose proof (pending_cost_submit cfg e j st) as Hs end.
    simpl job_cost in Hs. lia.
Qed.

Lemma analyzers_loop_cost cfg repo features todo : forall st,
  (pending_cost cfg (fst (analyzers_loop cfg repo features todo st))
   <= pending_cost cfg st + units cfg todo repo)%nat.
Proof.
  unfold units.
  induction todo as [|a rest IH]; intros st; simpl; [lia|].
  unfold steps_of at 1.
  destruct (dict_get _ _) as [fs|].
  - destruct (lookup_analyzer cfg _) as [analyzer|]; simpl; [|lia].
    destruct (code_generator analyzer repo) as [steps|ex].
    + pose proof (codes_loop_cost cfg repo analyzer fs steps st) as Hc.
      destruct (codes_loop cfg repo analyzer fs steps st) as [st1 o]. simpl in Hc.
      destruct o; simpl; try lia. specialize (IH st1). lia.
    + unfold handle_failure. destruct (continue_on_failure (survey cfg)); simpl.
      * specialize (IH (log (Failed ex) st)).
        change (pending_cost cfg (log (Failed ex) st)) with (pending_cost cfg st) in IH. lia.
      * change (pending_cost cfg (log (Failed ex) st)) with (pending_cost cfg st). lia.
  - match goal with |- context [analyzers_loop _ _ _ rest ?s] => specialize (IH s) end.
    match type of IH with (_ <= pending_cost cfg (log ?m st) + _)%nat =>
      change (pending_cost cfg (log m st)) with (pending_cost cfg st) in IH end.
    lia.
Qed.

Lemma handle_repo_cost cfg repo features st :
  (pending_cost cfg (fst (handle_repo cfg repo features st))
   <= pending_cost cfg st + units cfg (analyzers (survey cfg)) repo)%nat.
Proof.
  assert (G : forall st3 o',
            pending_cost cfg
              (fst (let '(st4, o_finally) := check_repo_completion cfg st3 in
                    (st4, match o_finally with Normal => o' | _ => o_finally end)))
            = pending_cost cfg st3).
  { intros st3 o'. pose proof (pending_cost_check cfg st3) as E.
    destruct (check_repo_completion cfg st3) as [st4 o4]. exact E. }
  unfold handle_repo.
  destruct (reached_max_codes cfg (start_repo cfg repo st)).
  - rewrite G.
    change (pending_cost cfg (log (MaxCodesReached repo) (start_repo cfg repo st)))
      with (pending_cost cfg st). lia.
  - pose proof (analyzers_loop_cost cfg repo features (analyzers (survey cfg))
                  (start_repo cfg repo st)) as Ha.
    change (pending_cost cfg (start_repo cfg repo st)) with (pending_cost cfg st) in Ha.
    destruct (analyzers_loop cfg repo features (analyzers (survey cfg))
                (start_repo cfg repo st)) as [st2 o]. simpl in Ha.
    destruct o; rewrite G; auto.
Qed.


Lemma consume_repos_cost cfg gen : forall st,
  let r := consume_repos cfg gen st in
  (feed_cost cfg (fst (fst r)) + pending_cost cfg (snd (fst r))
   <= feed_cost cfg gen + pending_cost cfg st)%nat.
Proof.
  unfold feed_cost.
  induction gen as [|ev gen' IH]; intros st; simpl; [lia|].
  destruct (may_admit cfg st); simpl; [|lia].
  destruct ev as [source c|e]; simpl; [|lia].
  destruct (in_progress c st).
  { specialize (IH (log (SkipInProgress (candidate_source c) (candidate_key c)) st)).
    simpl in IH.
    change (pending_cost cfg (log (SkipInProgress (candidate_source c) (candidate_key c)) st))
      with (pending_cost cfg st) in IH. lia. }
  destruct (len (repo_analyzer_features cfg c st) =? 0).
  { specialize (IH (log (SkipFullyAnalyzed (candidate_source c) (candidate_key c)) st)).
    simpl in IH.
    change (pending_cost cfg (log (SkipFullyAnalyzed (candidate_source c) (candidate_key c)) st))
      with (pending_cost cfg st) in IH. lia. }
  destruct c as [repo|thunk].
  - pose proof (handle_repo_cost cfg repo
                  (repo_analyzer_features cfg (GotRepo repo) st) st) as Hh.
    destruct (handle_repo cfg repo _ st) as [st1 o]. simpl in Hh.
    destruct o; simpl; try lia. specialize (IH st1). simpl in IH. lia.
  - match goal with |- context [consume_repos cfg gen' ?s] => specialize (IH s) end.
    simpl in IH.
    match type of IH with (_ <= _ + pending_cost cfg (submit ?e ?j st))%nat =>
      pose proof (pending_cost_submit cfg e j st) as Hs end.
    simpl job_cost in Hs. lia.
Qed.

Lemma cost_in_cons cfg d g j l :
  cost_in cfg d ((g, j) :: l)
  = ((if mem_nat g d then 0 else job_cost cfg j) + cost_in cfg d l)%nat.
Proof.
  unfold cost_in, mem_nat. simpl. destruct (existsb (Nat.eqb g) d); reflexivity.
Qed.

Lemma cost_in_more_delivered cfg f d l :
  (cost_in cfg (f :: d) l <= cost_in cfg d l)%nat.
Proof.
  induction l as [|[g j] l IH]; [reflexivity|].
  rewrite !cost_in_cons, Bounds.mem_nat_cons.
  destruct (Nat.eqb g f), (mem_nat g d); simpl; lia.
Qed.

Lemma cost_in_deliver cfg f d l job :
  In (f, job) l -> ~ In f d ->
  (cost_in cfg (f :: d) l + job_cost cfg job <= cost_in cfg d l)%nat.
Proof.
  intros Hin Hnd.
  induction l as [|[g j] l IH]; [destruct Hin|].
  rewrite !cost_in_cons, Bounds.mem_nat_cons.
  pose proof (cost_in_more_delivered cfg f d l) as Hle.
  destruct Hin as [Heq|Hin].
  - inversion Heq; subst. rewrite Nat.eqb_refl. simpl.
    apply mem_nat_false in Hnd. rewrite Hnd. lia.
  - specialize (IH Hin).
    destruct (Nat.eqb g f), (mem_nat g d); simpl; lia.
Qed.

Lemma callback_cost cfg f job st :
  job_of f (future_to_job st) = Some job -> ~ In f (delivered st) ->
  (S (pending_cost cfg (fst (callback cfg job (deliver f st)))) <= pending_cost cfg st)%nat.
Proof.
  intros Hjob Hnd. apply job_of_In in Hjob.
  pose proof (cost_in_deliver cfg f (delivered st) (future_to_job st) job Hjob Hnd) as Hd.
  change (cost_in cfg (f :: delivered st) (future_to_job st))
    with (pending_cost cfg (deliver f st)) in Hd.
  change (cost_in cfg (delivered st) (future_to_job st)) with (pending_cost cfg st) in Hd.
  destruct job as [src af [repo|ex] | a r [code|ex]]; simpl callback; simpl job_cost in Hd.
  - pose proof (handle_repo_cost cfg repo af (deliver f st)). lia.
  - unfold handle_failure. destruct (continue_on_failure (survey cfg)); simpl;
      change (pending_cost cfg (log (Failed ex) (deliver f st)))
        with (pending_cost cfg (deliver f st)); lia.
  - unfold handle_code. destruct (reached_max_codes cfg (deliver f st)); simpl; [lia|].
    change (pending_cost cfg (save_code cfg code (deliver f st)))
      with (pending_cost cfg (deliver f st)). lia.
  - unfold handle_failure. destruct (continue_on_failure (survey cfg)); simpl;
      change (pending_cost cfg (log (Failed ex) (deliver f st)))
        with (pending_cost cfg (deliver f st)); lia.
Qed.

(** Each future of the batch lowers the cost of what is pending. *)
Lemma process_done_cost cfg done : forall st,
  futures_ok st -> NoDup done ->
  (forall f, In f done -> In f (map fst (future_to_job st))) ->
  (forall f, In f done -> ~ In f (delivered st)) ->
  let r := process_done cfg done st in
  snd r = Normal ->
  (pending_cost cfg (fst r) + List.length done <= pending_cost cfg st)%nat.
Proof.
  induction done as [|f rest IH]; intros st Hok Hnd Hin Hnot; simpl; [lia|].
  destruct (job_of_Some f (future_to_job st)) as [job Hjob]; [apply Hin; now left|].
  rewrite Hjob.
  pose proof (callback_cost cfg f job st Hjob (Hnot f (or_introl eq_refl))) as Hc.
  assert (Hokd : futures_ok (deliver f st)) by (now apply (futures_ok_frame st)).
  pose proof (callback_futures_ok cfg job _ Hokd) as Hok1.
  pose proof (callback_extends cfg job _ (proj1 Hokd)) as Hext.
  destruct (callback cfg job (deliver f st)) as [st1 o]. simpl in Hc, Hok1, Hext.
  destruct Hext as ((new & Hnew & _) & _ & _ & Hdel). simpl in Hnew, Hdel.
  inversion Hnd as [|? ? Hnf Hnd']; subst.
  destruct o; simpl; try discriminate. intros Hn.
  specialize (IH st1 Hok1 Hnd'). simpl in IH.
  assert (H1 : forall g, In g rest -> In g (map fst (future_to_job st1))).
  { intros g Hg. rewrite Hnew, map_app, in_app_iff. left. apply Hin. now right. }
  assert (H2 : forall g, In g rest -> ~ In g (delivered st1)).
  { intros g Hg. rewrite Hdel. intros [<-|Hd]; [contradiction|].
    apply (Hnot g); [now right | assumption]. }
  specialize (IH H1 H2 Hn). lia.
Qed.

Lemma pending_cost_remove_done cfg done st :
  (forall f, In f done <-> In f (delivered st)) ->
  pending_cost cfg (remove_done done st) = pending_cost cfg st.
Proof.
  intros Hd. unfold pending_cost, cost_in. simpl. f_equal. f_equal.
  induction (future_to_job st) as [|[g j] l IH]; simpl; [reflexivity|].
  assert (E : mem_nat g done = mem_nat g (delivered st)).
  { destruct (mem_nat g done) eqn:E1, (mem_nat g (delivered st)) eqn:E2; auto.
    - apply mem_nat_In in E1. apply Hd in E1. apply mem_nat_In in E1. congruence.
    - apply mem_nat_In in E2. apply Hd in E2. apply mem_nat_In in E2. congruence. }
  rewrite E. destruct (mem_nat g (delivered st)); simpl; [exact IH | now rewrite IH].
Qed.

(** With more rounds than the feed and the pending jobs cost, the loop
    ends. *)
Lemma run_loop_finishes cfg fuel : forall round gen st,
  futures_ok st -> delivered st = [] ->
  (feed_cost cfg gen + pending_cost cfg st < fuel)%nat ->
  exists st' o, run_loop cfg fuel round gen st = Finished st' o.
Proof.
  induction fuel as [|fuel IH]; intros round gen st Hok Hd Hlt; [lia|]. simpl.
  pose proof (consume_repos_cost cfg gen st) as Hc.
  pose proof (consume_repos_keeps cfg (fun _ _ => True)
                (fun _ _ _ _ => I) (fun _ _ _ _ _ => I) (fun _ _ _ _ _ _ _ => I)
                (fun _ _ _ => I) (fun _ _ _ _ => I) (fun _ _ _ _ _ _ _ => I)
                (fun _ _ _ _ _ _ _ _ => I) gen st I Hok) as Hk.
  destruct (consume_repos cfg gen st) as [[gen1 st1] o1]. simpl in Hc, Hk.
  destruct Hk as (_ & Hok1 & Hd1).
  destruct o1; simpl; eauto.
  destruct (len (future_to_job st1) =? 0) eqn:Hz; simpl; eauto.
  destruct (wait_spec cfg round st1) as (Wn & Wi & Wne).
  assert (Hnot : forall f, In f (wait cfg round st1) -> ~ In f (delivered st1)).
  { intros f _. rewrite Hd1, Hd. intros []. }
  pose proof (process_done_cost cfg (wait cfg round st1) st1 Hok1 Wn Wi Hnot) as Hp.
  pose proof (process_done_keeps cfg (fun _ _ => True)
                (fun _ _ _ _ => I) (fun _ _ _ _ _ => I) (fun _ _ _ _ _ _ _ => I)
                (fun _ _ _ => I) (fun _ _ _ _ _ _ _ _ _ => I) (fun _ _ _ _ _ _ _ _ => I)
                gen1 (wait cfg round st1) st1 I Hok1 Wn Wi Hnot) as Hk2.
  destruct (process_done cfg (wait cfg round st1) st1) as [st2 o2]. simpl in Hp, Hk2.
  destruct Hk2 as (_ & Hok2 & _ & Hdel).
  destruct o2; simpl; eauto.
  specialize (Hp eq_refl). specialize (Hdel eq_refl).
  assert (Hdone : wait cfg round st1 <> []).
  { apply Wne. intros E. rewrite E in Hz. discriminate. }
  assert (Hlen : (1 <= List.length (wait cfg round st1))%nat).
  { destruct (wait cfg round st1); [congruence | simpl; lia]. }
  pose proof (check_repo_completion_frame cfg (remove_done (wait cfg round st1) st2))
    as (F1 & F2 & F3 & _).
  pose proof (pending_cost_check cfg (remove_done (wait cfg round st1) st2)) as Ec.
  destruct (check_repo_completion cfg (remove_done (wait cfg round st1) st2))
    as [st3 o3]. simpl in F1, F2, F3, Ec.
  destruct o3; simpl; eauto.
  apply IH.
  - apply (futures_ok_frame (remove_done (wait cfg round st1) st2)); auto.
    now apply remove_done_futures_ok.
  - rewrite F3. reflexivity.
  - rewrite Ec, pending_cost_remove_done.
    + lia.
    + intros f. rewrite Hdel, Hd1, Hd, app_nil_r, <- in_rev. tauto.
Qed.

(** Rounds that are enough for [run] on a given configuration. *)
Definition enough_rounds (cfg : Config) : nat :=
  S (feed_cost cfg (get_repo_generator (continue_on_failure (survey cfg))
                                       (sources (survey cfg)))).

(** [run] ends, normally or by an exception, on every store: the generators
    of a [Source] end, and each round of the loop of [run] consumes a
    candidate or a pending job. *)
Lemma run_finishes cfg fuel db0 :
  (enough_rounds cfg <= fuel)%nat ->
  exists st o, run cfg fuel db0 = Finished st o.
Proof.
  intros Hf. unfold run.
  destruct (run_loop_finishes cfg fuel O
              (get_repo_generator (continue_on_failure (survey cfg)) (sources (survey cfg)))
              (initial_state db0) (initial_futures_ok db0) eq_refl) as (st & o & E).
  - unfold enough_rounds in Hf.
    change (pending_cost cfg (initial_state db0)) with O. lia.
  - rewrite E. eauto.
Qed.

End Termination.

(** ** Cleanup of repository handles *)

Module Cleanup.

Import Feed Runner RunnerFacts Bounds.

(** The handles a feed event brings: the repo it yields, or the repo its
    thunk will produce. *)
Definition event_handles (ev : FeedEvent) : list Repo :=
  match ev with
  | FeedYield _ (GotRepo repo) => [repo]
  | FeedYield _ (GotRepoThunk thunk) =>
      match rt_thunk thunk with Ok repo => [repo] | Err _ => [] end
  | FeedRaise _ => []
  end.

Definition feed_handles (gen : list FeedEvent) : list Repo :=
  flat_map event_handles gen.

Definition job_handles (job : Job) : list Repo :=
  match job with
  | RepoJob _ _ (Ok repo) => [repo]
  | _ => []
  end.

(** The handles of the RepoJobs whose callback has not been entered. *)
Definition handles_in (d : list nat) (l : list (nat * Job)) : list Repo :=
  flat_map (fun fj => job_handles (snd fj))
           (filter (fun fj => negb (mem_nat (fst fj) d)) l).

Definition fetching_handles (st : State) : list Repo :=
  handles_in (delivered st) (future_to_job st).

(** The handles [handle_repo] was entered with, and the handles whose
    [cleanup] was called. *)
Definition admitted_in (evs : list Event) : list Repo :=
  flat_map (fun ev => match ev with EvAnalyzeRepo r => [r] | _ => [] end) evs.

Definition cleaned_in (evs : list Event) : list Repo :=
  flat_map (fun ev => match ev with EvCleanup r => [r] | _ => [] end) evs.

Definition admitted (st : State) : list Repo := admitted_in (events st).
Definition cleaned (st : State) : list Repo := cleaned_in (events st).

(** The number of [cleanup] calls on handles equal to [repo]. *)
Definition cleanup_calls (repo : Repo) (st : State) : nat := cnt repo (cleaned st).

Lemma cnt_app r a b : cnt r (a ++ b) = (cnt r a + cnt r b)%nat.
Proof. unfold cnt. now rewrite filter_app, length_app. Qed.

Lemma cnt_cons r x l : cnt r (x :: l) = ((if repo_eqb x r then 1 else 0) + cnt r l)%nat.
Proof. unfold cnt. simpl. destruct (repo_eqb x r); reflexivity. Qed.

Lemma cnt_nil r : cnt r [] = O.
Proof. reflexivity. Qed.

Lemma handles_in_cons d g j l :
  handles_in d ((g, j) :: l)
  = (if mem_nat g d then [] else job_handles j) ++ handles_in d l.
Proof.
  unfold handles_in, mem_nat. simpl. destruct (existsb (Nat.eqb g) d); reflexivity.
Qed.

Lemma handles_in_app d l1 l2 : handles_in d (l1 ++ l2) = handles_in d l1 ++ handles_in d l2.
Proof. unfold handles_in. now rewrite filter_app, flat_map_app. Qed.

Lemma handles_in_more_delivered r f d l :
  (cnt r (handles_in (f :: d) l) <= cnt r (handles_in d l))%nat.
Proof.
  induction l as [|[g j] l IH]; [reflexivity|].
  rewrite !handles_in_cons, !cnt_app, mem_nat_cons.
  destruct (Nat.eqb g f), (mem_nat g d); simpl; rewrite ?cnt_nil; lia.
Qed.

Lemma handles_in_deliver r f d l job :
  In (f, job) l -> ~ In f d ->
  (cnt r (handles_in (f :: d) l) + cnt r (job_handles job) <= cnt r (handles_in d l))%nat.
Proof.
  intros Hin Hnd.
  induction l as [|[g j] l IH]; [destruct Hin|].
  rewrite !handles_in_cons, !cnt_app, mem_nat_cons.
  pose proof (handles_in_more_delivered r f d l) as Hle.
  destruct Hin as [Heq|Hin].
  - inversion Heq; subst. rewrite Nat.eqb_refl. simpl.
    apply mem_nat_false in Hnd. rewrite Hnd. simpl. rewrite ?cnt_nil. lia.
  - specialize (IH Hin).
    destruct (Nat.eqb g f), (mem_nat g d); simpl; rewrite ?cnt_nil; lia.
Qed.

Lemma fetching_handles_remove_done done st :
  (forall f, In f done <-> In f (delivered st)) ->
  fetching_handles (remove_done done st) = fetching_handles st.
Proof.
  intros Hd. unfold fetching_handles, handles_in. simpl. f_equal.
  induction (future_to_job st) as [|[g j] l IH]; simpl; [reflexivity|].
  assert (E : mem_nat g done = mem_nat g (delivered st)).
  { destruct (mem_nat g done) eqn:E1, (mem_nat g (delivered st)) eqn:E2; auto.
    - apply mem_nat_In in E1. apply Hd in E1. apply mem_nat_In in E1. congruence.
    - apply mem_nat_In in E2. apply Hd in E2. apply mem_nat_In in E2. congruence. }
  rewrite E. destruct (mem_nat g (delivered st)); simpl; [exact IH | now rewrite IH].
Qed.

(** *** The account of handles

    Relative to the handles [source0] the feed had to give at the start: no
    more handles equal to [r] are waiting in the feed, being fetched or
    admitted than the feed had; and each admitted handle is in flight or
    cleaned up. *)
Definition accounted (source0 : list Repo) (gen : list FeedEvent) (st : State) : Prop :=
  forall r,
    (cnt r (feed_handles gen) + cnt r (fetching_handles st) + cnt r (admitted st)
     <= cnt r source0)%nat /\
    cnt r (admitted st) = (cnt r (current_repos st) + cnt r (cleaned st))%nat.

Lemma accounted_same source0 gen st st' :
  fetching_handles st' = fetching_handles st -> admitted st' = admitted st ->
  current_repos st' = current_repos st -> cleaned st' = cleaned st ->
  accounted source0 gen st -> accounted source0 gen st'.
Proof. unfold accounted. intros -> -> -> -> H. exact H. Qed.

Lemma accounted_submit_code source0 gen analyzer repo result st :
  accounted source0 gen st ->
  accounted source0 gen
    (submit (fun f => EvCodeJob f repo analyzer) (CodeJob analyzer repo result) st).
Proof.
  intros H. apply (accounted_same source0 gen st); auto.
  unfold fetching_handles. simpl. rewrite handles_in_app.
  rewrite (handles_in_cons (delivered st) (next_future st)). simpl.
  destruct (mem_nat _ _); simpl; now rewrite app_nil_r.
Qed.

Lemma accounted_count_repo source0 gen cfg x st :
  accounted source0 gen st -> accounted source0 gen (count_repo cfg x st).
Proof. intros H. apply (accounted_same source0 gen st); auto. Qed.

Lemma accounted_finish_repo source0 gen cfg x st :
  (1 <= cnt x (current_repos st))%nat ->
  accounted source0 gen st -> accounted source0 gen (finish_repo cfg x st).
Proof.
  intros Hx H r. destruct (H r) as [H1 H2].
  pose proof (remove_repo_cnt x (current_repos st) r Hx) as Hc.
  unfold admitted, cleaned in *. simpl.
  change (fetching_handles (finish_repo cfg x st)) with (fetching_handles st).
  split; [exact H1|]. rewrite cnt_cons. lia.
Qed.

Lemma accounted_check source0 gen cfg st :
  accounted source0 gen st -> accounted source0 gen (fst (check_repo_completion cfg st)).
Proof.
  apply (check_repo_completion_keeps cfg (accounted source0 gen)).
  - intros x s. apply accounted_finish_repo.
  - intros x s _. apply accounted_count_repo.
Qed.

Lemma accounted_skip source0 gen ev st :
  accounted source0 (ev :: gen) st -> accounted source0 gen st.
Proof.
  intros H r. destruct (H r) as [H1 H2]. split; [|exact H2].
  unfold feed_handles in *. simpl in H1. rewrite cnt_app in H1. lia.
Qed.

Lemma accounted_admit_repo source0 gen cfg source repo st :
  accounted source0 (FeedYield source (GotRepo repo) :: gen) st ->
  accounted source0 gen (start_repo cfg repo st).
Proof.
  intros H r. destruct (H r) as [H1 H2].
  unfold feed_handles in H1. simpl in H1. rewrite cnt_cons in H1.
  change (fetching_handles (start_repo cfg repo st)) with (fetching_handles st).
  unfold admitted, cleaned in *. simpl.
  rewrite cnt_cons, cnt_app, cnt_cons, cnt_nil. fold (feed_handles gen) in H1. lia.
Qed.

Lemma accounted_admit_thunk source0 gen source thunk features st :
  accounted source0 (FeedYield source (GotRepoThunk thunk) :: gen) st ->
  accounted source0 gen
    (submit (fun f => EvFetchRepo f (rt_source thunk) (rt_key thunk))
            (RepoJob (rt_source thunk) features (rt_thunk thunk)) st).
Proof.
  intros H r. destruct (H r) as [H1 H2].
  unfold feed_handles in H1. simpl in H1. rewrite cnt_app in H1.
  fold (feed_handles gen) in H1.
  assert (Hf : (cnt r (fetching_handles (submit (fun f => EvFetchRepo f (rt_source thunk) (rt_key thunk))
            (RepoJob (rt_source thunk) features (rt_thunk thunk)) st))
               <= cnt r (fetching_handles st)
                  + cnt r (match rt_thunk thunk with Ok repo => [repo] | Err _ => [] end))%nat).
  { unfold fetching_handles. simpl. rewrite handles_in_app, cnt_app.
    rewrite (handles_in_cons (delivered st) (next_future st)). simpl.
    destruct (mem_nat _ _); simpl; rewrite ?app_nil_r, ?cnt_nil; lia. }
  unfold admitted, cleaned in *. simpl. split; [lia | exact H2].
Qed.

Lemma accounted_deliver source0 gen f st :
  accounted source0 gen st -> accounted source0 gen (deliver f st).
Proof.
  intros H r. destruct (H r) as [H1 H2].
  pose proof (handles_in_more_delivered r f (delivered st) (future_to_job st)) as Hle.
  change (handles_in (f :: delivered st) (future_to_job st))
    with (fetching_handles (deliver f st)) in Hle.
  change (handles_in (delivered st) (future_to_job st)) with (fetching_handles st) in Hle.
  unfold admitted, cleaned in *. simpl. split; [lia | exact H2].
Qed.

Lemma accounted_deliver_repo source0 gen cfg f source features repo st :
  accounted source0 gen st ->
  job_of f (future_to_job st) = Some (RepoJob source features (Ok repo)) ->
  ~ In f (delivered st) ->
  accounted source0 gen (start_repo cfg repo (deliver f st)).
Proof.
  intros H Hjob Hnd r. destruct (H r) as [H1 H2]. apply job_of_In in Hjob.
  pose proof (handles_in_deliver r f (delivered st) (future_to_job st) _ Hjob Hnd) as Hle.
  change (handles_in (f :: delivered st) (future_to_job st))
    with (fetching_handles (start_repo cfg repo (deliver f st))) in Hle.
  change (handles_in (delivered st) (future_to_job st)) with (fetching_handles st) in Hle.
  simpl job_handles in Hle. rewrite cnt_cons, cnt_nil in Hle.
  unfold admitted, cleaned in *. simpl.
  rewrite cnt_cons, cnt_app, cnt_cons, cnt_nil. lia.
Qed.

Lemma accounted_remove_done source0 gen done st :
  accounted source0 gen st -> (forall f, In f done <-> In f (delivered st)) ->
  accounted source0 gen (remove_done done st).
Proof.
  intros H Hd. apply (accounted_same source0 gen st); auto.
  now apply fetching_handles_remove_done.
Qed.


Lemma accounted_initial gen db0 : accounted (feed_handles gen) gen (initial_state db0).
Proof.
  intros r. unfold admitted, cleaned, fetching_handles. simpl. rewrite ?cnt_nil.
  split; lia.
Qed.

Lemma run_loop_accounted cfg fuel gen db0 :
  exists gen',
    accounted (feed_handles gen) gen'
              (result_state (run_loop cfg fuel O gen (initial_state db0))).
Proof.
  apply (run_loop_keeps cfg (accounted (feed_handles gen))).
  - intros g msg st H. exact H.
  - intros g code st H _. exact H.
  - intros g a r res st H _. now apply accounted_submit_code.
  - intros g st. apply accounted_check.
  - intros g ev st. apply accounted_skip.
  - intros g source repo st H _ _. eapply accounted_admit_repo; eauto.
  - intros g source thunk features st H _ _. eapply accounted_admit_thunk; eauto.
  - intros g f src af repo st. apply accounted_deliver_repo.
  - intros g f job st H _ _ _. now apply accounted_deliver.
  - intros g done st H _ Hd _. now apply accounted_remove_done.
  - apply accounted_initial.
  - apply initial_futures_ok.
  - reflexivity.
Qed.

(** The [finally] block cleans up what is still in flight. *)
Lemma final_cleanup_counts r l : forall st,
  let st' := fold_left (fun s repo => log_event (EvCleanup repo) s) l st in
  cnt r (cleaned st') = (cnt r l + cnt r (cleaned st))%nat /\
  admitted st' = admitted st.
Proof.
  induction l as [|x l IH]; intros st; simpl; [rewrite ?cnt_nil; split; [lia|reflexivity]|].
  destruct (IH (log_event (EvCleanup x) st)) as [E1 E2]. simpl in E1, E2.
  rewrite E1, E2. unfold cleaned, admitted. simpl. rewrite !cnt_cons. split; [lia|reflexivity].
Qed.

(** When [run] has returned, the handles cleaned up are the handles
    admitted, no more than the feed could give. *)
Lemma run_accounted cfg fuel db0 st o :
  run cfg fuel db0 = Finished st o ->
  forall r,
    cleanup_calls r st = cnt r (admitted st) /\
    (cnt r (admitted st)
     <= cnt r (feed_handles (get_repo_generator (continue_on_failure (survey cfg))
                                                (sources (survey cfg)))))%nat.
Proof.
  unfold run. intros Hrun r.
  destruct (run_loop_accounted cfg fuel
              (get_repo_generator (continue_on_failure (survey cfg)) (sources (survey cfg)))
              db0) as [gen' H].
  destruct (run_loop cfg fuel O _ (initial_state db0)) as [st1 o1|st1]; [|discriminate].
  inversion Hrun; subst. simpl in H. destruct (H r) as [H1 H2].
  destruct (final_cleanup_counts r (current_repos st1) st1) as [E1 E2].
  unfold cleanup_calls, final_cleanup. rewrite E1, E2. lia.
Qed.

Lemma admitted_In r evs : In (EvAnalyzeRepo r) evs -> (1 <= cnt r (admitted_in evs))%nat.
Proof.
  induction evs as [|ev evs IH]; simpl; [intros []|].
  intros [->|H].
  - simpl. rewrite cnt_cons, repo_eqb_refl. lia.
  - specialize (IH H). rewrite cnt_app. lia.
Qed.

End Cleanup.

(** ** Claims about cleanup *)

(** C5 as stated fails: a survey of one local repository is run twice on the
    same store.  In the second run the source again yields a handle for the
    repository; the repository is fully analysed, [consume_repos] skips the
    candidate, and the handle's cleanup is never called. *)
Lemma C5_counterexample :
  let sv := Scenario.survey_files 1 ["u1"] true true in
  let cfg := Scenario.config sv None None Scenario.fifo in
  let first := Runner.run cfg 10 Db.empty in
  let second := Runner.run cfg 10 (Runner.db (Scenario.final_state first)) in
  Feed.get_repo_generator true (sources sv) = [Feed.FeedYield "local" (GotRepo Scenario.r1)] /\
  Scenario.finished_normally first = true /\
  Scenario.cleanups (Scenario.final_state first) = [1%nat] /\
  Scenario.finished_normally second = true /\
  Scenario.cleanups (Scenario.final_state second) = [].
Proof. vm_compute. auto. Qed.

(** C5 (as amended). When [run] has returned, normally or by an exception
    (one that [continue_on_failure=False] lets through, or the [KeyError] of
    a progress tracker that [check_repo_completion] does not find), the
    cleanup calls on handles equal to a given one are as many as the
    admissions of such handles to [handle_repo]; so, when no two handles the
    sources give compare equal, each admitted handle has had its cleanup
    called exactly once, whether or not a unit-analysis job was ever started
    for it.  (A candidate that [consume_repos] skips is not admitted and gets
    no cleanup call.) *)
Theorem C5_admitted_handles_are_cleaned_up_once :
  forall (cfg : Runner.Config) (db0 : Db.Database) (fuel : nat)
         (st : Runner.State) (o : Runner.Outcome),
    Runner.run cfg fuel db0 = Runner.Finished st o ->
    (forall r, Cleanup.cleanup_calls r st = Bounds.cnt r (Cleanup.admitted st)) /\
    ((forall r, (Bounds.cnt r (Cleanup.feed_handles
                   (Feed.get_repo_generator (continue_on_failure (Runner.survey cfg))
                                            (sources (Runner.survey cfg)))) <= 1)%nat) ->
     forall r, In (Runner.EvAnalyzeRepo r) (Runner.events st) ->
               Cleanup.cleanup_calls r st = 1%nat).
Proof.
  intros cfg db0 fuel st o Hrun. split.
  - intros r. exact (proj1 (Cleanup.run_accounted cfg fuel db0 st o Hrun r)).
  - intros Hdistinct r Hin.
    destruct (Cleanup.run_accounted cfg fuel db0 st o Hrun r) as [E Hle].
    pose proof (Cleanup.admitted_In r (Runner.events st) Hin) as H1.
    specialize (Hdistinct r). unfold Cleanup.admitted in *. lia.
Qed.

(** C5 (as amended) at a repository without files; at two fetched
    repositories of which [g1] is delivered after [max_codes = 1] has been
    reached by the unit of [g2]: no CodeJob is submitted for the repository
    without files nor for [g1], and each handle is cleaned up once; and at a
    run with [progress_analyzer_features={}], which the completion of its
    repository ends by [KeyError]: the handle is cleaned up once, by the
    [finally] block of [run]. *)
Lemma C5_witness :
  let empty_run := Runner.run (Scenario.config Scenario.survey_empty_repo None None
                                               Scenario.fifo) 10 Db.empty in
  let capped_run := Runner.run (Scenario.config Scenario.survey_git None (Some 1)
                                                Scenario.lifo) 10 Db.empty in
  let untracked :=
    {| Runner.survey := Scenario.survey_files 1 ["u1"] true true;
       Runner.max_repos := None;
       Runner.max_codes := None;
       Runner.progress_analyzer_features := Some [];
       Runner.now := fun n => Z.of_nat n;
       Runner.wait_oracle := Scenario.fifo |} in
  let untracked_run := Runner.run untracked 10 Db.empty in
  (Scenario.code_jobs_submitted (Scenario.final_state empty_run) = 0 /\
   Scenario.cleanups (Scenario.final_state empty_run) = [1%nat]) /\
  (Scenario.code_jobs_submitted (Scenario.final_state capped_run) = 1 /\
   Scenario.cleanups (Scenario.final_state capped_run) = [32%nat; 31%nat]) /\
  Cleanup.cleanup_calls Scenario.g1 (Scenario.final_state capped_run) = 1%nat /\
  untracked_run
  = Runner.Finished (Scenario.final_state untracked_run)
                    (Runner.Raise (KeyError "('feature', 'python', 'f')")) /\
  Runner.current_repos (Scenario.final_state untracked_run) = [Scenario.r1] /\
  Cleanup.cleanup_calls Scenario.r1 (Scenario.final_state untracked_run) = 1%nat.
Proof.
  intros empty_run capped_run untracked untracked_run.
  split; [vm_compute; split; reflexivity|]. split; [vm_compute; split; reflexivity|].
  split; [|split; [vm_compute; reflexivity|split; [vm_compute; reflexivity|]]].
  - destruct (C5_admitted_handles_are_cleaned_up_once
                (Scenario.config Scenario.survey_git None (Some 1) Scenario.lifo) Db.empty
                10%nat (Scenario.final_state capped_run) Runner.Normal) as [_ H1].
    + vm_compute. reflexivity.
    + apply H1.
      * intros r.
        match goal with
        | |- (Bounds.cnt r ?l <= 1)%nat =>
            replace l with [Scenario.g1; Scenario.g2] by (vm_compute; reflexivity)
        end.
        rewrite !Cleanup.cnt_cons, Cleanup.cnt_nil.
        destruct (repo_eqb Scenario.g1 r) eqn:E1; destruct (repo_eqb Scenario.g2 r) eqn:E2;
          try lia.
        apply Bounds.repo_eqb_true in E1. apply Bounds.repo_eqb_true in E2.
        destruct E1 as (_ & K1 & _). destruct E2 as (_ & K2 & _).
        rewrite <- K2 in K1. discriminate K1.
      * vm_compute. auto 10.
  - destruct (C5_admitted_handles_are_cleaned_up_once
                untracked Db.empty 10%nat (Scenario.final_state untracked_run)
                (Runner.Raise (KeyError "('feature', 'python', 'f')"))) as [_ H1].
    + vm_compute. reflexivity.
    + apply H1.
      * intros r.
        match goal with
        | |- (Bounds.cnt r ?l <= 1)%nat =>
            replace l with [Scenario.r1] by (vm_compute; reflexivity)
        end.
        rewrite !Cleanup.cnt_cons, Cleanup.cnt_nil.
        destruct (repo_eqb Scenario.r1 r); lia.
      * vm_compute. auto 10.
Defined.

(** ** Running a survey again on the store of a finished run *)

Module Resume.

(* The field of [CodeSurvey], before [Db]'s function of the same name is imported. *)
Local Abbreviation keeps_code_features := save_code_features (only parsing).

Import Feed Runner RunnerFacts Bounds Db DbFacts Analyzers Cleanup.

(** *** What the store records *)

(** A row of [repo_feature] for the key, and a row of [code_feature]. *)
Definition has_repo_row (db : Database) (source key analyzer feature : string) : bool :=
  Utils.mem feature (existing_repo_features db source key analyzer).

Definition has_code_row (db : Database) (source key analyzer code feature : string)
  : bool :=
  existsb (fun row => String.eqb (cf_source_name row) source &&
                      String.eqb (cf_repo_key row) key &&
                      String.eqb (cf_analyzer_name row) analyzer &&
                      String.eqb (cf_code_key row) code &&
                      String.eqb (cf_feature_name row) feature)
          (code_feature_tbl db).

(** Two stores with the same [repo_feature] and [code_feature] tables. *)
Definition same_tables (db db' : Database) : Prop :=
  repo_feature_tbl db' = repo_feature_tbl db /\
  code_feature_tbl db' = code_feature_tbl db.

Lemma same_tables_refl db : same_tables db db.
Proof. split; reflexivity. Qed.

Lemma same_tables_trans a b c : same_tables a b -> same_tables b c -> same_tables a c.
Proof. intros [A1 A2] [B1 B2]. split; congruence. Qed.

Lemma same_tables_sym a b : same_tables a b -> same_tables b a.
Proof. intros [A1 A2]. split; congruence. Qed.

Lemma same_tables_metadata now repo db : same_tables db (save_repo_metadata now repo db).
Proof. split; reflexivity. Qed.

Lemma has_repo_row_same db db' s k a f :
  same_tables db db' -> has_repo_row db' s k a f = has_repo_row db s k a f.
Proof.
  intros [E _]. unfold has_repo_row, existing_repo_features. now rewrite E.
Qed.

Lemma has_code_row_same db db' s k a c f :
  same_tables db db' -> has_code_row db' s k a c f = has_code_row db s k a c f.
Proof. intros [_ E]. unfold has_code_row. now rewrite E. Qed.

Lemma get_repo_missing_same db db' s k afs :
  same_tables db db' ->
  get_repo_missing_analyzer_features db' s k afs
  = get_repo_missing_analyzer_features db s k afs.
Proof.
  intros [E _]. unfold get_repo_missing_analyzer_features.
  induction afs as [|[a fs] rest IH]; simpl; [reflexivity|].
  unfold existing_repo_features. now rewrite E, IH.
Qed.

Lemma get_code_missing_same db db' s k c a fs :
  same_tables db db' ->
  get_code_missing_features db' s k c a fs = get_code_missing_features db s k c a fs.
Proof.
  intros [_ E]. unfold get_code_missing_features, existing_code_features. now rewrite E.
Qed.

Lemma filter_nil {A} (p : A -> bool) l :
  filter p l = [] <-> forall x, In x l -> p x = false.
Proof.
  induction l as [|y l IH]; simpl; [tauto|].
  destruct (p y) eqn:E.
  - split; [discriminate|]. intros H. specialize (H y (or_introl eq_refl)). congruence.
  - rewrite IH. split; [intros H x [<-|Hx]; auto | auto].
Qed.

Lemma cf_same_key_true a b :
  cf_same_key a b = true <->
  cf_source_name a = cf_source_name b /\ cf_repo_key a = cf_repo_key b /\
  cf_analyzer_name a = cf_analyzer_name b /\ cf_code_key a = cf_code_key b /\
  cf_feature_name a = cf_feature_name b.
Proof.
  unfold cf_same_key. rewrite !Bool.andb_true_iff, !String.eqb_eq. tauto.
Qed.

Lemma cf_same_key_refl a : cf_same_key a a = true.
Proof. apply cf_same_key_true. auto. Qed.

Lemma cf_same_key_trans a b c :
  cf_same_key a b = true -> cf_same_key b c = true -> cf_same_key a c = true.
Proof. rewrite !cf_same_key_true. intuition congruence. Qed.

Lemma has_code_row_true db s k a c f :
  has_code_row db s k a c f = true <->
  exists row, In row (code_feature_tbl db) /\
              cf_source_name row = s /\ cf_repo_key row = k /\
              cf_analyzer_name row = a /\ cf_code_key row = c /\
              cf_feature_name row = f.
Proof.
  unfold has_code_row. rewrite existsb_exists. split.
  - intros (row & Hin & H). exists row. split; [exact Hin|].
    rewrite !Bool.andb_true_iff, !String.eqb_eq in H. tauto.
  - intros (row & Hin & H). exists row. split; [exact Hin|].
    rewrite !Bool.andb_true_iff, !String.eqb_eq. tauto.
Qed.

Lemma has_repo_row_true db s k a f :
  has_repo_row db s k a f = true <->
  exists row, In row (repo_feature_tbl db) /\
              rf_source_name row = s /\ rf_repo_key row = k /\
              rf_analyzer_name row = a /\ rf_feature_name row = f.
Proof.
  unfold has_repo_row, existing_repo_features. rewrite Utils.mem_In, in_map_iff. split.
  - intros (row & E & Hin). apply filter_In in Hin. destruct Hin as [Hin H].
    exists row. split; [exact Hin|].
    rewrite !Bool.andb_true_iff, !String.eqb_eq in H. tauto.
  - intros (row & Hin & H). exists row. split; [tauto|]. apply filter_In.
    split; [exact Hin|]. rewrite !Bool.andb_true_iff, !String.eqb_eq. tauto.
Qed.

(** [get_code_missing_features] lists the requested features without a row. *)
Lemma code_missing_In db s k c a fs f :
  In f (get_code_missing_features db s k c a fs) <->
  In f fs /\ has_code_row db s k a c f = false.
Proof.
  unfold get_code_missing_features, missing_of. rewrite filter_In.
  assert (E : Utils.mem f (existing_code_features db s k a c fs) = true <->
              (In f fs /\ has_code_row db s k a c f = true)).
  { unfold existing_code_features. rewrite Utils.mem_In, in_map_iff, has_code_row_true.
    split.
    - intros (row & E & Hin). apply filter_In in Hin. destruct Hin as [Hin H].
      rewrite !Bool.andb_true_iff, !String.eqb_eq, Utils.mem_In in H.
      split; [rewrite <- E; tauto|]. exists row. tauto.
    - intros (Hf & row & Hin & H). exists row. split; [tauto|]. apply filter_In.
      split; [exact Hin|]. rewrite !Bool.andb_true_iff, !String.eqb_eq, Utils.mem_In.
      destruct H as (-> & -> & -> & -> & ->). tauto. }
  destruct (Utils.mem f (existing_code_features db s k a c fs)) eqn:Em;
    destruct (has_code_row db s k a c f) eqn:Eh; simpl; intuition congruence.
Qed.

Lemma code_missing_nil db s k c a fs :
  (forall f, In f fs -> has_code_row db s k a c f = true) ->
  get_code_missing_features db s k c a fs = [].
Proof.
  intros H. destruct (get_code_missing_features db s k c a fs) as [|f l] eqn:E;
    [reflexivity|].
  assert (Hin : In f (get_code_missing_features db s k c a fs)) by (rewrite E; now left).
  apply code_missing_In in Hin. destruct Hin as [Hf Hn]. rewrite (H f Hf) in Hn.
  discriminate.
Qed.

(** *** Rows are never lost *)

Lemma upsert_many_has_new {R} (same_key : R -> R -> bool)
    (Hrefl : forall a, same_key a a = true)
    (Htrans : forall a b c, same_key a b = true -> same_key b c = true ->
                            same_key a c = true)
    news : forall tbl n,
  In n news ->
  exists row, In row (upsert_many same_key news tbl) /\ same_key n row = true.
Proof.
  unfold upsert_many. induction news as [|x news IH]; simpl; intros tbl n Hin;
    [contradiction|].
  destruct Hin as [->|Hin]; [|now apply IH].
  destruct (upsert_many_keeps R same_key Hrefl Htrans news (upsert same_key n tbl) n
              (upsert_In_new R same_key n tbl)) as (row & H1 & H2 & _).
  exists row. split; assumption.
Qed.

Lemma has_code_row_kept now so code db s k a c f :
  has_code_row db s k a c f = true ->
  has_code_row (save_code_features now so code db) s k a c f = true.
Proof.
  rewrite !has_code_row_true. intros (row & Hin & H).
  destruct (upsert_many_keeps _ cf_same_key cf_same_key_refl cf_same_key_trans
              (map (code_row now so code) (code_features code))
              (code_feature_tbl db) row Hin) as (row' & H1 & H2 & _).
  exists row'. split; [exact H1|]. apply cf_same_key_true in H2.
  intuition congruence.
Qed.

Lemma has_code_row_saved now so code db feature :
  In feature (map fst (code_features code)) ->
  has_code_row (save_code_features now so code db)
    (repo_source (code_repo code)) (repo_key (code_repo code))
    (code_analyzer code) (code_key code) feature = true.
Proof.
  intros Hin. apply in_map_iff in Hin. destruct Hin as (entry & <- & Hin).
  apply has_code_row_true.
  destruct (upsert_many_has_new cf_same_key cf_same_key_refl cf_same_key_trans
              (map (code_row now so code) (code_features code))
              (code_feature_tbl db) (code_row now so code entry)) as (row & H1 & H2).
  { now apply in_map. }
  exists row. split; [exact H1|]. apply cf_same_key_true in H2. simpl in H2.
  intuition congruence.
Qed.

Lemma has_repo_row_kept repo keep db s k a f :
  has_repo_row db s k a f = true ->
  has_repo_row (save_repo_features repo keep db) s k a f = true.
Proof.
  rewrite !has_repo_row_true. intros (row & Hin & H).
  destruct (upsert_many_keeps _ rf_same_key rf_same_key_refl rf_same_key_trans
              (aggregate_rows (selected_rows repo db))
              (repo_feature_tbl db) row Hin) as (row' & H1 & H2 & _).
  exists row'. split; [exact H1|]. apply rf_same_key_true in H2.
  intuition congruence.
Qed.


(** *** Aggregates that are up to date *)

(** [row] is what the table holds for its key. *)
Definition stored (tbl : list RepoFeatureRow) (row : RepoFeatureRow) : Prop :=
  find (fun old => rf_same_key old row) tbl = Some row.

Lemma rf_same_key_sym a b : rf_same_key a b = rf_same_key b a.
Proof.
  destruct (rf_same_key a b) eqn:E1, (rf_same_key b a) eqn:E2; auto.
  - apply rf_same_key_true in E1.
    assert (rf_same_key b a = true) by (apply rf_same_key_true; intuition congruence).
    congruence.
  - apply rf_same_key_true in E2.
    assert (rf_same_key a b = true) by (apply rf_same_key_true; intuition congruence).
    congruence.
Qed.

Lemma stored_upsert_same new tbl : stored (upsert rf_same_key new tbl) new.
Proof.
  unfold stored. induction tbl as [|old tbl IH]; simpl.
  - now rewrite rf_same_key_refl.
  - destruct (rf_same_key old new) eqn:E; simpl.
    + now rewrite rf_same_key_refl.
    + now rewrite E.
Qed.

Lemma stored_upsert_other new tbl row :
  rf_same_key new row = false -> stored tbl row ->
  stored (upsert rf_same_key new tbl) row.
Proof.
  unfold stored. intros Hn. induction tbl as [|old tbl IH]; simpl; [discriminate|].
  destruct (rf_same_key old row) eqn:E1.
  - intros [= ->]. rewrite rf_same_key_sym, Hn. simpl. now rewrite rf_same_key_refl.
  - intros H. destruct (rf_same_key old new) eqn:E2; simpl.
    + now rewrite Hn.
    + rewrite E1. now apply IH.
Qed.

Lemma upsert_stored new tbl : stored tbl new -> upsert rf_same_key new tbl = tbl.
Proof.
  unfold stored. induction tbl as [|old tbl IH]; simpl; [discriminate|].
  destruct (rf_same_key old new) eqn:E.
  - now intros [= ->].
  - intros H. f_equal. now apply IH.
Qed.

Lemma upsert_many_stored rows tbl :
  Forall (stored tbl) rows -> upsert_many rf_same_key rows tbl = tbl.
Proof.
  unfold upsert_many. induction 1 as [|row rows H _ IH]; simpl; [reflexivity|].
  now rewrite (upsert_stored _ _ H).
Qed.

Lemma stored_upsert_many_other rows : forall tbl row,
  (forall r, In r rows -> rf_same_key r row = false) -> stored tbl row ->
  stored (upsert_many rf_same_key rows tbl) row.
Proof.
  unfold upsert_many. induction rows as [|x rows IH]; simpl; intros tbl row Hn H; [exact H|].
  apply IH; [auto|]. apply stored_upsert_other; auto.
Qed.

Lemma stored_upsert_many rows : forall tbl,
  NoDup (map rf_feature_name rows) ->
  Forall (stored (upsert_many rf_same_key rows tbl)) rows.
Proof.
  induction rows as [|x rows IH]; intros tbl Hnd; [constructor|].
  inversion Hnd as [|? ? Hni Hnd']; subst. constructor.
  - change (upsert_many rf_same_key (x :: rows) tbl)
      with (upsert_many rf_same_key rows (upsert rf_same_key x tbl)).
    apply stored_upsert_many_other; [|apply stored_upsert_same].
    intros r Hr. destruct (rf_same_key r x) eqn:E; [|reflexivity].
    apply rf_same_key_true in E. exfalso. apply Hni.
    destruct E as (_ & _ & _ & <-). now apply in_map.
  - apply (IH (upsert rf_same_key x tbl) Hnd').
Qed.

(** The aggregates of [repo] in the store are those its unit records give:
    saving them again changes nothing. *)
Definition aggregated (repo : Repo) (db : Database) : Prop :=
  Forall (stored (repo_feature_tbl db)) (aggregate_rows (selected_rows repo db)).

Lemma selected_rows_same db db' repo :
  same_tables db db' -> selected_rows repo db' = selected_rows repo db.
Proof. intros [_ E]. unfold selected_rows. now rewrite E. Qed.

Lemma aggregated_same db db' repo :
  same_tables db db' -> aggregated repo db -> aggregated repo db'.
Proof.
  intros Hs. unfold aggregated. rewrite (selected_rows_same _ _ _ Hs).
  destruct Hs as [-> _]. auto.
Qed.

Lemma aggregated_resave repo db :
  aggregated repo db -> same_tables db (save_repo_features repo true db).
Proof.
  intros H. split; simpl; [|reflexivity]. now apply upsert_many_stored.
Qed.

Lemma distinct_In l x : In x (distinct l) -> In x l.
Proof.
  revert x. induction l as [|y l IH]; simpl; intros x; [tauto|].
  intros [->|H]; [now left|]. apply filter_In in H. right. apply IH. tauto.
Qed.

Lemma distinct_NoDup l : NoDup (distinct l).
Proof.
  induction l as [|y l IH]; simpl; constructor.
  - rewrite filter_In, String.eqb_refl. simpl. intros [_ H]. discriminate.
  - now apply NoDup_filter.
Qed.

Lemma aggregate_features_NoDup rows :
  NoDup (map rf_feature_name (aggregate_rows rows)).
Proof.
  unfold aggregate_rows.
  assert (G : forall l, NoDup l ->
            NoDup (map rf_feature_name
                     (flat_map (fun feature_name =>
                                  match group_of feature_name rows with
                                  | [] => []
                                  | first :: rest => [aggregate_group first rest]
                                  end) l)) /\
            forall f, In f (map rf_feature_name
                     (flat_map (fun feature_name =>
                                  match group_of feature_name rows with
                                  | [] => []
                                  | first :: rest => [aggregate_group first rest]
                                  end) l)) -> In f l).
  { induction l as [|x l IH]; intros Hnd; simpl; [split; [constructor | tauto]|].
    inversion Hnd as [|? ? Hni Hnd']; subst. destruct (IH Hnd') as [IH1 IH2].
    destruct (group_of x rows) as [|first rest] eqn:E; simpl.
    - split; [exact IH1 | intros f Hf; right; auto].
    - assert (Ex : cf_feature_name (latest_row first rest) = x).
      { pose proof (latest_row_In rest first) as Hb. rewrite <- E in Hb.
        unfold group_of in Hb. apply filter_In in Hb. destruct Hb as [_ Hb].
        now apply String.eqb_eq in Hb. }
      rewrite Ex. split.
      + constructor; [intros Hin; apply Hni; auto | exact IH1].
      + intros f [<-|Hf]; [now left | right; auto]. }
  apply G, distinct_NoDup.
Qed.

Lemma aggregated_saved repo db : aggregated repo (save_repo_features repo true db).
Proof.
  unfold aggregated.
  assert (E : selected_rows repo (save_repo_features repo true db) = selected_rows repo db)
    by reflexivity.
  rewrite E. simpl. apply stored_upsert_many, aggregate_features_NoDup.
Qed.

(** The key of a repository in the store. *)
Definition key_of (repo : Repo) : string * string := (repo_source repo, repo_key repo).

Lemma repo_code_filter_other repo row s k :
  cf_source_name row = s -> cf_repo_key row = k -> (s, k) <> key_of repo ->
  repo_code_filter repo row = false.
Proof.
  intros <- <- Hne. unfold repo_code_filter.
  destruct (String.eqb (cf_source_name row) (repo_source repo)) eqn:E1; [|reflexivity].
  destruct (String.eqb (cf_repo_key row) (repo_key repo)) eqn:E2; [|reflexivity].
  apply String.eqb_eq in E1, E2. exfalso. apply Hne. unfold key_of. congruence.
Qed.

Lemma filter_upsert {R} (same_key : R -> R -> bool) (p : R -> bool) new tbl :
  p new = false -> (forall old, same_key old new = true -> p old = false) ->
  filter p (upsert same_key new tbl) = filter p tbl.
Proof.
  intros Hn Ho. induction tbl as [|old tbl IH]; simpl; [now rewrite Hn|].
  destruct (same_key old new) eqn:E; simpl.
  - now rewrite Hn, (Ho old E).
  - now rewrite IH.
Qed.

Lemma filter_upsert_many {R} (same_key : R -> R -> bool) (p : R -> bool) news :
  forall tbl,
  (forall new, In new news ->
               p new = false /\ forall old, same_key old new = true -> p old = false) ->
  filter p (upsert_many same_key news tbl) = filter p tbl.
Proof.
  unfold upsert_many. induction news as [|n news IH]; simpl; intros tbl H; [reflexivity|].
  rewrite IH by auto. destruct (H n (or_introl eq_refl)) as [H1 H2].
  now apply filter_upsert.
Qed.

Lemma selected_rows_save_other now so code db repo :
  key_of (code_repo code) <> key_of repo ->
  selected_rows repo (save_code_features now so code db) = selected_rows repo db.
Proof.
  intros Hne. unfold selected_rows. simpl. apply filter_upsert_many.
  intros new Hin. apply in_map_iff in Hin. destruct Hin as (entry & <- & _).
  assert (Hf : repo_code_filter repo (code_row now so code entry) = false).
  { apply (repo_code_filter_other repo _ _ _ eq_refl eq_refl). exact Hne. }
  split; [now rewrite Hf|].
  intros old Hk. apply cf_same_key_true in Hk. destruct Hk as (K1 & K2 & _).
  rewrite (repo_code_filter_other repo old _ _ K1 K2); [reflexivity|exact Hne].
Qed.

Lemma aggregated_save_code_other now so code db repo :
  key_of (code_repo code) <> key_of repo ->
  aggregated repo db -> aggregated repo (save_code_features now so code db).
Proof.
  intros Hne. unfold aggregated. rewrite selected_rows_save_other by exact Hne. auto.
Qed.

Lemma aggregated_save_repo_other other db repo :
  key_of other <> key_of repo ->
  aggregated repo db -> aggregated repo (save_repo_features other true db).
Proof.
  intros Hne. unfold aggregated.
  assert (E : selected_rows repo (save_repo_features other true db) = selected_rows repo db)
    by reflexivity.
  rewrite E. simpl. intros H. rewrite Forall_forall in *. intros row Hrow.
  apply stored_upsert_many_other; [|now apply H].
  intros r Hr. destruct (rf_same_key r row) eqn:Ek; [|reflexivity].
  apply rf_same_key_true in Ek. destruct Ek as (K1 & K2 & _).
  destruct (aggregate_rows_spec other db r Hr) as (A1 & A2 & _).
  destruct (aggregate_rows_spec repo db row Hrow) as (B1 & B2 & _).
  exfalso. apply Hne. unfold key_of. congruence.
Qed.




(** *** Handles counted by key *)

Definition key_eqb (a b : string * string) : bool :=
  String.eqb (fst a) (fst b) && String.eqb (snd a) (snd b).

Lemma key_eqb_eq a b : key_eqb a b = true <-> a = b.
Proof.
  destruct a as [a1 a2], b as [b1 b2]. unfold key_eqb. simpl.
  rewrite Bool.andb_true_iff, !String.eqb_eq. split; [intros [-> ->]; reflexivity|].
  intros [= -> ->]. auto.
Qed.

Lemma key_eqb_refl a : key_eqb a a = true.
Proof. now apply key_eqb_eq. Qed.

(** How many handles of a list have the key [k]. *)
Definition kc (k : string * string) (l : list Repo) : nat :=
  List.length (filter (fun r => key_eqb (key_of r) k) l).

Lemma kc_app k a b : kc k (a ++ b) = (kc k a + kc k b)%nat.
Proof. unfold kc. now rewrite filter_app, length_app. Qed.

Lemma kc_cons k x l : kc k (x :: l) = ((if key_eqb (key_of x) k then 1 else 0) + kc k l)%nat.
Proof. unfold kc. simpl. destruct (key_eqb (key_of x) k); reflexivity. Qed.

Lemma kc_nil k : kc k [] = O.
Proof. reflexivity. Qed.

Lemma kc_In r l : In r l -> (1 <= kc (key_of r) l)%nat.
Proof.
  induction l as [|x l IH]; [intros []|]. rewrite kc_cons. intros [->|H].
  - rewrite key_eqb_refl. lia.
  - specialize (IH H). lia.
Qed.

Lemma kc_unique l a b :
  (kc (key_of a) l <= 1)%nat -> In a l -> In b l -> key_of a = key_of b -> a = b.
Proof.
  intros Hle Ha Hb E. induction l as [|x l IH]; [destruct Ha|].
  rewrite kc_cons in Hle.
  destruct Ha as [->|Ha], Hb as [->|Hb]; auto.
  - rewrite key_eqb_refl in Hle. pose proof (kc_In b l Hb) as H. rewrite <- E in H. lia.
  - rewrite <- E, key_eqb_refl in Hle. pose proof (kc_In a l Ha) as H. lia.
  - apply IH; auto. lia.
Qed.

Lemma kc_zero k l : ~ In k (map key_of l) -> kc k l = O.
Proof.
  induction l as [|x l IH]; [reflexivity|]. rewrite kc_cons. simpl. intros H.
  destruct (key_eqb (key_of x) k) eqn:E.
  - apply key_eqb_eq in E. exfalso. auto.
  - rewrite IH; auto.
Qed.

Lemma NoDup_kc l : NoDup (map key_of l) -> forall k, (kc k l <= 1)%nat.
Proof.
  induction l as [|x l IH]; simpl; intros Hnd k; [rewrite kc_nil; lia|].
  inversion Hnd as [|? ? Hni Hnd']; subst. rewrite kc_cons.
  destruct (key_eqb (key_of x) k) eqn:E.
  - apply key_eqb_eq in E. subst k. rewrite (kc_zero _ _ Hni). lia.
  - specialize (IH Hnd' k). lia.
Qed.

Lemma kc_NoDup l : (forall k, (kc k l <= 1)%nat) -> NoDup (map key_of l).
Proof.
  induction l as [|x l IH]; simpl; intros H; constructor.
  - intros Hin. apply in_map_iff in Hin. destruct Hin as (y & E & Hy).
    specialize (H (key_of x)). rewrite kc_cons, key_eqb_refl in H.
    pose proof (kc_In y l Hy) as Hk. rewrite E in Hk. lia.
  - apply IH. intros k. specialize (H k). rewrite kc_cons in H. lia.
Qed.

Lemma kc_filter k p l : (kc k (filter p l) <= kc k l)%nat.
Proof.
  induction l as [|x l IH]; [reflexivity|]. cbn [filter].
  destruct (p x); rewrite !kc_cons; lia.
Qed.

Lemma repo_eqb_key a b : repo_eqb a b = true -> key_of a = key_of b.
Proof. rewrite repo_eqb_true. unfold key_of. intros (-> & -> & _). reflexivity. Qed.

Lemma kc_remove k r l : (kc k (remove_repo r l) <= kc k l)%nat.
Proof.
  induction l as [|x l IH]; simpl; [lia|].
  destruct (repo_eqb x r); rewrite !kc_cons; lia.
Qed.

Lemma remove_repo_In x r l : In x (remove_repo r l) -> In x l.
Proof.
  induction l as [|y l IH]; simpl; [tauto|].
  destruct (repo_eqb y r); simpl; intuition.
Qed.

Lemma remove_repo_keeps x r l : In x l -> repo_eqb x r = false -> In x (remove_repo r l).
Proof.
  intros Hin Hne. induction l as [|y l IH]; [destruct Hin|]. simpl.
  destruct Hin as [->|Hin].
  - rewrite Hne. now left.
  - destruct (repo_eqb y r); [exact Hin | right; auto].
Qed.

Lemma remove_repo_gone r l :
  (kc (key_of r) l <= 1)%nat -> ~ In r (remove_repo r l).
Proof.
  induction l as [|x l IH]; simpl; [tauto|]. rewrite kc_cons. intros Hle.
  destruct (repo_eqb x r) eqn:E.
  - intros Hin. apply repo_eqb_key in E. rewrite E, key_eqb_refl in Hle.
    pose proof (kc_In r l Hin). lia.
  - intros [->|Hin]; [rewrite repo_eqb_refl in E; discriminate|].
    apply IH; [lia | exact Hin].
Qed.

(** *** The handles of pending repository jobs *)

Lemma handles_in_In r d l :
  In r (handles_in d l) <->
  exists f job, In (f, job) l /\ ~ In f d /\ In r (job_handles job).
Proof.
  unfold handles_in. rewrite in_flat_map. split.
  - intros ([f job] & Hin & Hr). apply filter_In in Hin. destruct Hin as [Hin Hd].
    exists f, job. simpl in *. rewrite Bool.negb_true_iff, mem_nat_false in Hd. auto.
  - intros (f & job & Hin & Hd & Hr). exists (f, job). split; [|exact Hr].
    apply filter_In. split; [exact Hin|]. simpl.
    now rewrite Bool.negb_true_iff, mem_nat_false.
Qed.

Lemma kc_handles_more_delivered k f d l :
  (kc k (handles_in (f :: d) l) <= kc k (handles_in d l))%nat.
Proof.
  induction l as [|[g j] l IH]; [reflexivity|].
  rewrite !handles_in_cons, !kc_app, mem_nat_cons.
  destruct (Nat.eqb g f), (mem_nat g d); simpl; rewrite ?kc_nil; lia.
Qed.

Lemma kc_handles_deliver k f d l job :
  In (f, job) l -> ~ In f d ->
  (kc k (handles_in (f :: d) l) + kc k (job_handles job) <= kc k (handles_in d l))%nat.
Proof.
  intros Hin Hnd.
  induction l as [|[g j] l IH]; [destruct Hin|].
  rewrite !handles_in_cons, !kc_app, mem_nat_cons.
  pose proof (kc_handles_more_delivered k f d l) as Hle.
  destruct Hin as [Heq|Hin].
  - inversion Heq; subst. rewrite Nat.eqb_refl. simpl.
    apply mem_nat_false in Hnd. rewrite Hnd. simpl. rewrite ?kc_nil. lia.
  - specialize (IH Hin).
    destruct (Nat.eqb g f), (mem_nat g d); simpl; rewrite ?kc_nil; lia.
Qed.

Lemma job_unique (l : list (nat * Job)) f j1 j2 :
  NoDup (map fst l) -> In (f, j1) l -> In (f, j2) l -> j1 = j2.
Proof.
  induction l as [|[g j] l IH]; simpl; [tauto|]. intros Hnd H1 H2.
  inversion Hnd as [|? ? Hni Hnd']; subst.
  destruct H1 as [E1|H1], H2 as [E2|H2]; auto.
  - congruence.
  - inversion E1; subst. exfalso. apply Hni. apply in_map_iff. exists (f, j2). auto.
  - inversion E2; subst. exfalso. apply Hni. apply in_map_iff. exists (f, j1). auto.
Qed.

(** *** Properties kept round by round

    [I] is a property of the generator and the state that is kept by what
    [consume_repos] does with each candidate, by each callback and by the
    end of each round, as long as these end normally; [E] is what they leave
    when they end by an exception.  [E] holds wherever [run_loop] stops, and
    [I] unless it stopped by an exception. *)
Section Rounds.
Variable cfg : Config.
Variables I E : list FeedEvent -> State -> Prop.

Hypothesis I_E : forall gen st, I gen st -> E gen st.
Hypothesis I_raise : forall gen e st, I (FeedRaise e :: gen) st -> I gen st.
Hypothesis I_skip : forall gen source c msg st,
    I (FeedYield source c :: gen) st -> delivered st = [] ->
    in_progress c st = true \/ (len (repo_analyzer_features cfg c st) =? 0) = true ->
    I gen (log msg st).
Hypothesis I_fetch : forall gen source thunk st,
    I (FeedYield source (GotRepoThunk thunk) :: gen) st ->
    futures_ok st -> delivered st = [] ->
    (len (repo_analyzer_features cfg (GotRepoThunk thunk) st) =? 0) = false ->
    I gen (submit (fun f => EvFetchRepo f (rt_source thunk) (rt_key thunk))
                  (RepoJob (rt_source thunk)
                           (repo_analyzer_features cfg (GotRepoThunk thunk) st)
                           (rt_thunk thunk)) st).
Hypothesis I_handle : forall gen source repo st,
    I (FeedYield source (GotRepo repo) :: gen) st ->
    futures_ok st -> delivered st = [] ->
    (len (repo_analyzer_features cfg (GotRepo repo) st) =? 0) = false ->
    let r := handle_repo cfg repo (repo_analyzer_features cfg (GotRepo repo) st) st in
    (snd r = Normal -> I gen (fst r)) /\ E gen (fst r).
Hypothesis I_callback : forall gen future job st,
    I gen st -> futures_ok st ->
    job_of future (future_to_job st) = Some job -> ~ In future (delivered st) ->
    let r := callback cfg job (deliver future st) in
    (snd r = Normal -> I gen (fst r)) /\ E gen (fst r).
Hypothesis I_round : forall gen done st,
    I gen st -> futures_ok st -> NoDup done ->
    (forall f, In f done <-> In f (delivered st)) ->
    (forall f, In f done -> In f (map fst (future_to_job st))) ->
    let r := check_repo_completion cfg (remove_done done st) in
    (snd r = Normal -> I gen (fst r)) /\ E gen (fst r).

Lemma consume_repos_rounds gen : forall st,
  I gen st -> futures_ok st -> delivered st = [] ->
  let r := consume_repos cfg gen st in
  (snd r = Normal -> I (fst (fst r)) (snd (fst r))) /\
  E (fst (fst r)) (snd (fst r)) /\ futures_ok (snd (fst r)) /\
  delivered (snd (fst r)) = [] /\
  (snd r = Normal -> fst (fst r) = [] \/ may_admit cfg (snd (fst r)) = false).
Proof.
  induction gen as [|ev gen' IH]; intros st H Hok Hd; simpl.
  { split; [auto|]. split; [auto|]. split; [auto|]. split; auto. }
  destruct (may_admit cfg st) eqn:Hadm; simpl.
  2: { split; [auto|]. split; [auto|]. split; [auto|]. split; auto. }
  destruct ev as [source c|e]; simpl.
  2: { split; [discriminate|]. split; [apply I_E; eapply I_raise; eauto|].
       split; [exact Hok|]. split; [exact Hd|discriminate]. }
  destruct (in_progress c st) eqn:Hip.
  { apply (IH (log _ st)); auto. eapply I_skip; eauto. }
  destruct (len (repo_analyzer_features cfg c st) =? 0) eqn:Hlen.
  { apply (IH (log _ st)); auto. eapply I_skip; eauto. }
  destruct c as [repo|thunk].
  - pose proof (I_handle gen' source repo st H Hok Hd Hlen) as [Hk HE].
    pose proof (handle_repo_futures_ok cfg repo
                  (repo_analyzer_features cfg (GotRepo repo) st) st Hok) as Hok1.
    pose proof (handle_repo_extends cfg repo
                  (repo_analyzer_features cfg (GotRepo repo) st) st (proj1 Hok)) as Hext.
    destruct (handle_repo cfg repo _ st) as [st1 o]. simpl in Hk, HE, Hok1, Hext.
    destruct Hext as (_ & _ & _ & Hdel).
    destruct o; simpl;
      try (split; [discriminate|]; split; [exact HE|]; split; [exact Hok1|];
           split; [congruence|discriminate]).
    apply IH; auto. congruence.
  - match goal with |- context [consume_repos cfg gen' ?s] =>
      apply (IH s)
    end.
    + eapply I_fetch; eauto.
    + now apply futures_ok_submit.
    + exact Hd.
Qed.

Lemma process_done_rounds gen done : forall st,
  I gen st -> futures_ok st -> NoDup done ->
  (forall f, In f done -> In f (map fst (future_to_job st))) ->
  (forall f, In f done -> ~ In f (delivered st)) ->
  let r := process_done cfg done st in
  (snd r = Normal -> I gen (fst r)) /\ E gen (fst r) /\ futures_ok (fst r) /\
  (forall f, In f (map fst (future_to_job st)) -> In f (map fst (future_to_job (fst r)))) /\
  (snd r = Normal -> delivered (fst r) = rev done ++ delivered st).
Proof.
  induction done as [|f rest IH]; intros st H Hok Hnd Hin Hnot; simpl.
  - split; [|split; [|split; [|split]]]; auto.
  - destruct (job_of_Some f (future_to_job st)) as [job Hjob]; [apply Hin; now left|].
    rewrite Hjob.
    pose proof (I_callback gen f job st H Hok Hjob (Hnot f (or_introl eq_refl))) as [Hk HE].
    assert (Hokd : futures_ok (deliver f st)) by (now apply (futures_ok_frame st)).
    pose proof (callback_futures_ok cfg job _ Hokd) as Hok1.
    pose proof (callback_extends cfg job _ (proj1 Hokd)) as Hext.
    destruct (callback cfg job (deliver f st)) as [st1 o]. simpl in Hk, HE, Hok1, Hext.
    destruct Hext as ((new & Hnew & _) & _ & _ & Hdel). simpl in Hnew, Hdel.
    assert (Hkeys : forall g, In g (map fst (future_to_job st)) ->
                              In g (map fst (future_to_job st1))).
    { intros g Hg. rewrite Hnew, map_app, in_app_iff. now left. }
    inversion Hnd as [|? ? Hnf Hnd']; subst.
    destruct o; simpl;
      try (split; [discriminate|]; split; [exact HE|]; split; [exact Hok1|];
           split; [exact Hkeys | discriminate]).
    specialize (IH st1 (Hk eq_refl) Hok1 Hnd').
    destruct IH as (IH1 & IHE & IH2 & IH3 & IH4).
    + intros g Hg. apply Hkeys, Hin. now right.
    + intros g Hg. rewrite Hdel. intros [<-|Hd]; [contradiction|].
      apply (Hnot g); [now right | assumption].
    + split; [exact IH1|]. split; [exact IHE|]. split; [exact IH2|]. split; [auto|].
      intros Hn. rewrite (IH4 Hn), Hdel, <- app_assoc. reflexivity.
Qed.

Lemma run_loop_rounds fuel : forall round gen st,
  I gen st -> futures_ok st -> delivered st = [] ->
  exists gen',
    E gen' (result_state (run_loop cfg fuel round gen st)) /\
    (undisturbed (run_loop cfg fuel round gen st) ->
     I gen' (result_state (run_loop cfg fuel round gen st))) /\
    forall st', run_loop cfg fuel round gen st = Finished st' Normal ->
                future_to_job st' = [] /\ (gen' = [] \/ may_admit cfg st' = false).
Proof.
  induction fuel as [|fuel IH]; intros round gen st H Hok Hd; simpl.
  - exists gen. split; [auto|]. split; [auto | discriminate].
  - pose proof (consume_repos_rounds gen st H Hok Hd) as Hc.
    destruct (consume_repos cfg gen st) as [[gen1 st1] o1]. simpl in Hc.
    destruct Hc as (H1 & HE1 & Hok1 & Hd1 & Hend).
    destruct o1; simpl;
      try (exists gen1; split; [exact HE1|]; split; [intros [] | discriminate]).
    destruct (len (future_to_job st1) =? 0) eqn:Hlen; simpl.
    { exists gen1. split; [exact HE1|]. split; [auto|]. intros st' [= <-]. split; [|auto].
      destruct (future_to_job st1); [reflexivity | discriminate Hlen]. }
    destruct (wait_spec cfg round st1) as (Wn & Wi & _).
    assert (Hnot : forall f, In f (wait cfg round st1) -> ~ In f (delivered st1)).
    { intros f _. rewrite Hd1. intros []. }
    pose proof (process_done_rounds gen1 (wait cfg round st1) st1 (H1 eq_refl) Hok1 Wn Wi Hnot)
      as Hp.
    destruct (process_done cfg (wait cfg round st1) st1) as [st2 o2]. simpl in Hp.
    destruct Hp as (H2 & HE2 & Hok2 & Hkeys & Hdel).
    destruct o2; simpl;
      try (exists gen1; split; [exact HE2|]; split; [intros [] | discriminate]).
    pose proof (I_round gen1 (wait cfg round st1) st2 (H2 eq_refl) Hok2 Wn) as Hr.
    cbv zeta in Hr. destruct Hr as [H3 HE3].
    { intros f. rewrite (Hdel eq_refl), Hd1, app_nil_r, <- in_rev. tauto. }
    { intros f Hf. apply Hkeys. now apply Wi. }
    pose proof (check_repo_completion_frame cfg (remove_done (wait cfg round st1) st2))
      as (F1 & F2 & F3 & _).
    destruct (check_repo_completion cfg (remove_done (wait cfg round st1) st2))
      as [st3 o3]. simpl in H3, HE3, F1, F2, F3.
    destruct o3; simpl;
      try (exists gen1; split; [exact HE3|]; split; [intros [] | discriminate]).
    apply IH.
    + exact (H3 eq_refl).
    + apply (futures_ok_frame (remove_done (wait cfg round st1) st2)); auto.
      now apply remove_done_futures_ok.
    + rewrite F3. reflexivity.
Qed.
End Rounds.

(** *** Surveys of file analyzers that keep and use saved features *)

Definition feature_names (fa : FileAnalyzer) : list string :=
  map ff_name (fa_feature_finders fa).

(** No failure has been logged. *)
Definition no_failures (st : State) : bool :=
  forallb (fun ev => match ev with EvLog (Failed _) => false | _ => true end)
          (events st).

(** No unit analysis was started or saved. *)
Definition no_unit_analysis (st : State) : bool :=
  forallb (fun ev => match ev with
                     | EvCodeJob _ _ _ => false
                     | EvCodeSaved _ => false
                     | _ => true
                     end)
          (events st).

Lemma analyze_code_ok fa repo file fs code :
  analyze_code fa repo file fs = Ok code ->
  code_repo code = repo /\ code_analyzer code = fa_name fa /\ code_key code = file /\
  map fst (code_features code) = fs.
Proof.
  unfold analyze_code. destruct (fa_prepare_file fa repo file) as [[r|]|e]; [| |discriminate].
  - assert (G : forall l res, feature_results fa r l = Ok res -> map fst res = l).
    { induction l as [|x l IH]; simpl; intros res.
      - now intros [= <-].
      - destruct (find_finder fa x); [|discriminate].
        destruct (ff_call f r); [|discriminate].
        destruct (feature_results fa r l) as [res'|]; [|discriminate].
        intros [= <-]. simpl. f_equal. now apply IH. }
    destruct (feature_results fa r fs) as [res|] eqn:E; [|discriminate].
    intros [= <-]. simpl. repeat split. now apply G.
  - intros [= <-]. simpl. repeat split. rewrite map_map. simpl. apply map_id.
Qed.

Lemma dict_get_None name d : ~ In name (map fst d) -> dict_get name d = None.
Proof.
  induction d as [|[k v] d IH]; simpl; [reflexivity|].
  intros H. destruct (String.eqb k name) eqn:E.
  - apply String.eqb_eq in E. exfalso. auto.
  - apply IH. auto.
Qed.

Lemma get_repo_missing_names db s k afs name :
  In name (map fst (get_repo_missing_analyzer_features db s k afs)) ->
  In name (map fst afs).
Proof.
  unfold get_repo_missing_analyzer_features.
  induction afs as [|[a fs] afs IH]; simpl; [tauto|].
  destruct (0 <? _); simpl; intuition.
Qed.

Lemma get_repo_missing_nil db s k afs :
  get_repo_missing_analyzer_features db s k afs = [] <->
  forall a fs, In (a, fs) afs -> missing_of (existing_repo_features db s k a) fs = [].
Proof.
  unfold get_repo_missing_analyzer_features.
  induction afs as [|[a fs] afs IH]; simpl; [tauto|].
  destruct (missing_of (existing_repo_features db s k a) fs) as [|m ms] eqn:E.
  - simpl. rewrite IH. split.
    + intros H a' fs' [[= <- <-]|Hin]; auto.
    + intros H a' fs' Hin. apply H. now right.
  - simpl. split; [discriminate|]. intros H.
    specialize (H a fs (or_introl eq_refl)). congruence.
Qed.

Section Survey.
Variable fas : list FileAnalyzer.
Variable sv : CodeSurvey.
Hypothesis sv_analyzers : analyzers sv = map to_analyzer fas.
Hypothesis sv_features :
  analyzer_features sv = map (fun a => (analyzer_name a, get_feature_names a)) (analyzers sv).
Hypothesis sv_names : NoDup (map fa_name fas).
Hypothesis sv_save : keeps_code_features sv = true.
Hypothesis sv_use : use_saved_features sv = true.

Lemma sv_features_fas :
  analyzer_features sv = map (fun fa => (fa_name fa, feature_names fa)) fas.
Proof. rewrite sv_features, sv_analyzers, map_map. reflexivity. Qed.

(** The features [get_repo_missing_analyzer_features] returns for an
    analyzer are those of its features without an aggregate. *)
Lemma dict_get_missing db s k fa :
  In fa fas ->
  dict_get (fa_name fa)
    (get_repo_missing_analyzer_features db s k (analyzer_features sv))
  = let m := missing_of (existing_repo_features db s k (fa_name fa)) (feature_names fa) in
    if 0 <? Z.of_nat (List.length m) then Some m else None.
Proof.
  rewrite sv_features_fas. unfold get_repo_missing_analyzer_features.
  clear sv_analyzers sv_features. revert sv_names.
  induction fas as [|x l IH]; simpl; intros Hnd Hin; [contradiction|].
  inversion Hnd as [|? ? Hni Hnd']; subst.
  destruct Hin as [->|Hin].
  - destruct (0 <? _) eqn:E; simpl.
    + now rewrite String.eqb_refl.
    + apply dict_get_None. intros H.
      apply (get_repo_missing_names db s k) in H. rewrite map_map in H. simpl in H.
      contradiction.
  - assert (Hne : String.eqb (fa_name x) (fa_name fa) = false).
    { apply String.eqb_neq. intros E. apply Hni. rewrite E. now apply in_map. }
    specialize (IH Hnd' Hin). simpl in IH.
    destruct (0 <? Z.of_nat (List.length
                (missing_of (existing_repo_features db s k (fa_name x))
                            (feature_names x)))); simpl; [rewrite Hne|]; exact IH.
Qed.

Lemma dict_get_requested db s k fa fs f :
  In fa fas ->
  dict_get (fa_name fa)
    (get_repo_missing_analyzer_features db s k (analyzer_features sv)) = Some fs ->
  In f fs -> In f (feature_names fa) /\ has_repo_row db s k (fa_name fa) f = false.
Proof.
  intros Hfa. rewrite (dict_get_missing db s k fa Hfa). simpl.
  destruct (0 <? _); [|discriminate]. intros [= <-]. unfold missing_of.
  rewrite filter_In, Bool.negb_true_iff. tauto.
Qed.

Lemma requested_missing db s k fa f :
  In fa fas -> In f (feature_names fa) -> has_repo_row db s k (fa_name fa) f = false ->
  exists fs,
    dict_get (fa_name fa)
      (get_repo_missing_analyzer_features db s k (analyzer_features sv)) = Some fs /\
    In f fs.
Proof.
  intros Hfa Hf Hrow. rewrite (dict_get_missing db s k fa Hfa). simpl.
  assert (Hin : In f (missing_of (existing_repo_features db s k (fa_name fa))
                                 (feature_names fa))).
  { unfold missing_of. rewrite filter_In, Bool.negb_true_iff. tauto. }
  destruct (missing_of _ _) as [|m ms] eqn:E; [destruct Hin|].
  simpl. eexists. split; [reflexivity | exact Hin].
Qed.

(** Every feature of every analyzer has an aggregate for the repository. *)
Definition complete (s k : string) (db : Database) : Prop :=
  forall fa f, In fa fas -> In f (feature_names fa) ->
               has_repo_row db s k (fa_name fa) f = true.

Lemma complete_iff db s k :
  (len (get_repo_missing_analyzer_features db s k (analyzer_features sv)) =? 0) = true <->
  complete s k db.
Proof.
  assert (E : (len (get_repo_missing_analyzer_features db s k (analyzer_features sv)) =? 0)
              = true <->
              get_repo_missing_analyzer_features db s k (analyzer_features sv) = []).
  { destruct (get_repo_missing_analyzer_features db s k (analyzer_features sv));
      unfold len; simpl; split; auto; try discriminate. }
  rewrite E, get_repo_missing_nil, sv_features_fas. unfold complete. split.
  - intros H fa f Hfa Hf.
    specialize (H (fa_name fa) (feature_names fa)).
    rewrite in_map_iff in H. specialize (H (ex_intro _ fa (conj eq_refl Hfa))).
    unfold missing_of in H. rewrite filter_nil in H. specialize (H f Hf).
    now apply Bool.negb_false_iff in H.
  - intros H a fs Hin. apply in_map_iff in Hin. destruct Hin as (fa & [= <- <-] & Hfa).
    unfold missing_of. apply filter_nil. intros f Hf. apply Bool.negb_false_iff.
    now apply H.
Qed.

(** Every unit of the repository has a record for each feature without an
    aggregate. *)
Definition units_covered (repo : Repo) (db : Database) : Prop :=
  forall fa file f,
    In fa fas -> In file (fa_file_keys fa repo) -> In f (feature_names fa) ->
    has_repo_row db (repo_source repo) (repo_key repo) (fa_name fa) f = false ->
    has_code_row db (repo_source repo) (repo_key repo) (fa_name fa) file f = true.

(** Nothing is left to do for the repository. *)
Definition closed (repo : Repo) (db : Database) : Prop :=
  units_covered repo db /\
  (aggregated repo db \/ complete (repo_source repo) (repo_key repo) db).

Lemma complete_same db db' s k : same_tables db db' -> complete s k db -> complete s k db'.
Proof.
  intros Hs H fa f Hfa Hf. rewrite (has_repo_row_same _ _ _ _ _ _ Hs). auto.
Qed.

Lemma units_covered_same db db' repo :
  same_tables db db' -> units_covered repo db -> units_covered repo db'.
Proof.
  intros Hs H fa file f Hfa Hfile Hf.
  rewrite (has_repo_row_same _ _ _ _ _ _ Hs), (has_code_row_same _ _ _ _ _ _ _ Hs). auto.
Qed.

Lemma closed_same db db' repo : same_tables db db' -> closed repo db -> closed repo db'.
Proof.
  intros Hs [H1 H2]. split; [now apply (units_covered_same db)|].
  destruct H2; [left; now apply (aggregated_same db) | right; now apply (complete_same db)].
Qed.

Lemma closed_complete repo db :
  complete (repo_source repo) (repo_key repo) db -> closed repo db.
Proof.
  intros H. split; [|now right]. intros fa file f Hfa _ Hf Hrow.
  rewrite (H fa f Hfa Hf) in Hrow. discriminate.
Qed.

Lemma closed_save_code_other now so code db repo :
  key_of (code_repo code) <> key_of repo ->
  closed repo db -> closed repo (save_code_features now so code db).
Proof.
  intros Hne [H1 H2]. split.
  - intros fa file f Hfa Hfile Hf Hrow. apply has_code_row_kept. now apply H1.
  - destruct H2; [left; now apply aggregated_save_code_other | right; exact H].
Qed.

Lemma complete_save_repo other db s k :
  complete s k db -> complete s k (save_repo_features other true db).
Proof. intros H fa f Hfa Hf. apply has_repo_row_kept. auto. Qed.

Lemma units_covered_save_repo other db repo :
  units_covered repo db -> units_covered repo (save_repo_features other true db).
Proof.
  intros H fa file f Hfa Hfile Hf Hrow.
  assert (E : has_code_row (save_repo_features other true db) (repo_source repo)
                (repo_key repo) (fa_name fa) file f
              = has_code_row db (repo_source repo) (repo_key repo) (fa_name fa) file f)
    by reflexivity.
  rewrite E. apply H; auto.
  destruct (has_repo_row db (repo_source repo) (repo_key repo) (fa_name fa) f) eqn:Er;
    [|reflexivity].
  rewrite (has_repo_row_kept other true db _ _ _ _ Er) in Hrow. discriminate.
Qed.

Lemma closed_save_repo_other other db repo :
  key_of other <> key_of repo ->
  closed repo db -> closed repo (save_repo_features other true db).
Proof.
  intros Hne [H1 H2]. split; [now apply units_covered_save_repo|].
  destruct H2; [left; now apply aggregated_save_repo_other
               | right; now apply complete_save_repo].
Qed.

Lemma closed_saved repo db :
  units_covered repo db -> closed repo (save_repo_features repo true db).
Proof.
  intros H. split; [now apply units_covered_save_repo | left; apply aggregated_saved].
Qed.


(** *** One run of such a survey *)

Section OneRun.
Variable cfg : Config.
Hypothesis cfg_survey : survey cfg = sv.

Lemma lookup_analyzer_fa fa :
  In fa fas -> lookup_analyzer cfg (fa_name fa) = Some (to_analyzer fa).
Proof.
  intros Hin. unfold lookup_analyzer. rewrite cfg_survey, sv_analyzers.
  apply (find_by_name_NoDup Analyzer analyzer_name (map to_analyzer fas) (to_analyzer fa)).
  - rewrite map_map. exact sv_names.
  - now apply in_map.
Qed.

Lemma get_code_features_saved repo analyzer fs st file :
  get_code_features cfg repo analyzer fs st file
  = get_code_missing_features (db st) (repo_source repo) (repo_key repo) file
      (analyzer_name analyzer) fs.
Proof. unfold get_code_features. rewrite cfg_survey, sv_use. reflexivity. Qed.

(** When every unit has its records the generator yields nothing. *)
Lemma codes_loop_skip fa repo fs files : forall st,
  (forall file, In file files ->
     get_code_missing_features (db st) (repo_source repo) (repo_key repo) file
       (fa_name fa) fs = []) ->
  codes_loop cfg repo (to_analyzer fa) fs (map (file_step fa repo) files) st
  = (st, Normal).
Proof.
  induction files as [|file files IH]; intros st H; simpl; [reflexivity|].
  unfold file_step at 1. rewrite get_code_features_saved. simpl.
  rewrite (H file (or_introl eq_refl)). simpl. apply IH. intros f Hf. apply H. now right.
Qed.

(** **** The second run: nothing is analysed, no aggregate changes *)

Section Second.
Variable db1 : Database.

(** Handling [repo] for the features [feats] finds every unit recorded and
    the aggregates up to date. *)
Definition settled_for (feats : list (string * list string)) (repo : Repo) : Prop :=
  aggregated repo db1 /\
  forall fa fs file f,
    In fa fas -> dict_get (fa_name fa) feats = Some fs ->
    In file (fa_file_keys fa repo) -> In f fs ->
    has_code_row db1 (repo_source repo) (repo_key repo) (fa_name fa) file f = true.

Definition quiet_job (job : Job) : Prop :=
  match job with
  | RepoJob _ feats (Ok repo) => settled_for feats repo
  | RepoJob _ _ (Err _) => True
  | CodeJob _ _ _ => False
  end.

Definition quiet (st : State) : Prop :=
  same_tables db1 (db st) /\
  no_unit_analysis st = true /\
  (forall f job, In (f, job) (future_to_job st) -> quiet_job job) /\
  (forall repo, In repo (current_repos st) -> aggregated repo db1).

Lemma quiet_log msg st : quiet st -> quiet (log msg st).
Proof. intros (A & B & C & D). repeat split; auto; apply A. Qed.

Lemma quiet_deliver f st : quiet st -> quiet (deliver f st).
Proof. intros (A & B & C & D). repeat split; auto; apply A. Qed.

Lemma quiet_start repo st :
  quiet st -> aggregated repo db1 -> quiet (start_repo cfg repo st).
Proof.
  intros (A & B & C & D) Ha. repeat split; auto; try apply A.
  simpl. intros r Hr. apply in_app_iff in Hr. destruct Hr as [Hr|[<-|[]]]; auto.
Qed.

Lemma quiet_count_repo r st :
  aggregated r db1 -> quiet st -> quiet (count_repo cfg r st).
Proof.
  intros Ha (A & B & C & D).
  assert (Hr : aggregated r (db st)) by (apply (aggregated_same db1); assumption).
  split; [|split; [|split]].
  - simpl. rewrite cfg_survey, sv_save.
    apply (same_tables_trans _ (db st)); [exact A | now apply aggregated_resave].
  - exact B.
  - exact C.
  - exact D.
Qed.

Lemma quiet_complete_all todo : forall st,
  (forall r, In r todo -> aggregated r db1) -> quiet st ->
  quiet (fold_left (fun s r => finish_repo cfg r s) todo st).
Proof.
  induction todo as [|r todo IH]; intros st Hall H; simpl; [exact H|].
  apply IH; [intros x Hx; apply Hall; now right|].
  destruct H as (A & B & C & D).
  assert (Hr : aggregated r (db st)).
  { apply (aggregated_same db1); [exact A | apply Hall; now left]. }
  split; [|split; [|split]].
  - simpl. rewrite cfg_survey, sv_save.
    apply (same_tables_trans _ (db st)); [exact A | now apply aggregated_resave].
  - exact B.
  - exact C.
  - simpl. intros x Hx. apply D. eapply remove_repo_In; eauto.
Qed.

Lemma quiet_check st : quiet st -> quiet (fst (check_repo_completion cfg st)).
Proof.
  intros H.
  assert (Hall : forall r, In r (completed_repos st) -> aggregated r db1).
  { intros r Hr. unfold completed_repos in Hr. apply filter_In in Hr.
    destruct H as (_ & _ & _ & D). apply D. tauto. }
  destruct (check_repo_completion_cases cfg st)
    as [[_ ->]|(done & repo & rest & key & E & -> & _)].
  - now apply quiet_complete_all.
  - rewrite E in Hall. apply quiet_count_repo.
    + apply Hall. apply in_app_iff. right. now left.
    + apply quiet_complete_all; [|exact H].
      intros r Hr. apply Hall. apply in_app_iff. now left.
Qed.

Lemma analyzers_loop_quiet repo feats todo : forall st,
  (forall fa, In fa todo -> In fa fas) -> settled_for feats repo -> quiet st ->
  quiet (fst (analyzers_loop cfg repo feats (map to_analyzer todo) st)).
Proof.
  induction todo as [|fa todo IH]; intros st Hsub Hset H; simpl; [exact H|].
  assert (Hfa : In fa fas) by (apply Hsub; now left).
  assert (Hsub' : forall x, In x todo -> In x fas) by (intros x Hx; apply Hsub; now right).
  destruct (dict_get (fa_name fa) feats) as [fs|] eqn:Ed.
  - rewrite (lookup_analyzer_fa fa Hfa). simpl.
    rewrite codes_loop_skip; [now apply IH|].
    intros file Hfile. apply code_missing_nil. intros f Hf.
    destruct H as (A & _). rewrite (has_code_row_same _ _ _ _ _ _ _ A).
    destruct Hset as [_ Hu]. eapply Hu; eauto.
  - apply IH; auto.
Qed.

Lemma handle_repo_quiet repo feats st :
  settled_for feats repo -> quiet st -> quiet (fst (handle_repo cfg repo feats st)).
Proof.
  intros Hset H. unfold handle_repo.
  assert (H1 : quiet (start_repo cfg repo st)) by (apply quiet_start; [exact H | apply Hset]).
  destruct (reached_max_codes cfg (start_repo cfg repo st)).
  - rewrite finally_fst. apply quiet_check. now apply quiet_log.
  - rewrite cfg_survey, sv_analyzers.
    pose proof (analyzers_loop_quiet repo feats fas (start_repo cfg repo st)
                  (fun fa Hfa => Hfa) Hset H1) as H2.
    destruct (analyzers_loop cfg repo feats (map to_analyzer fas) (start_repo cfg repo st))
      as [st2 o]. simpl in H2.
    destruct o; rewrite finally_fst; apply quiet_check; auto.
Qed.

Lemma quiet_failure ex st : quiet st -> quiet (fst (handle_failure cfg ex st)).
Proof.
  intros H. unfold handle_failure. destruct (continue_on_failure (survey cfg)); simpl;
    now apply quiet_log.
Qed.

Lemma callback_quiet f job st :
  quiet st -> In (f, job) (future_to_job st) ->
  quiet (fst (callback cfg job (deliver f st))).
Proof.
  intros H Hin. pose proof (quiet_deliver f st H) as Hd.
  destruct H as (_ & _ & C & _). specialize (C f job Hin).
  destruct job as [src feats [repo|ex] | a r res]; simpl in *.
  - now apply handle_repo_quiet.
  - now apply quiet_failure.
  - contradiction.
Qed.

Lemma closed_settled repo st :
  quiet st -> closed repo db1 ->
  (len (get_repo_missing_analyzer_features (db st) (repo_source repo) (repo_key repo)
          (analyzer_features sv)) =? 0) = false ->
  settled_for (get_repo_missing_analyzer_features (db st) (repo_source repo)
                 (repo_key repo) (analyzer_features sv)) repo.
Proof.
  intros (A & _) [Hu Ha]. rewrite (get_repo_missing_same _ _ _ _ _ A). intros Hlen. split.
  - destruct Ha as [Ha|Hc]; [exact Ha|].
    apply complete_iff in Hc. congruence.
  - intros fa fs file f Hfa Hd Hfile Hf.
    destruct (dict_get_requested _ _ _ _ _ _ Hfa Hd Hf) as [H1 H2]. now apply Hu.
Qed.

(** What the first run has left for a candidate of the feed. *)
Definition candidate_closed (c : RepoOrThunk) : Prop :=
  match c with
  | GotRepo repo => closed repo db1
  | GotRepoThunk thunk =>
      match rt_thunk thunk with
      | Ok repo =>
          repo_source repo = rt_source thunk /\ repo_key repo = rt_key thunk /\
          closed repo db1
      | Err _ => True
      end
  end.

Definition resumed (gen : list FeedEvent) (st : State) : Prop :=
  (forall source c, In (FeedYield source c) gen -> candidate_closed c) /\ quiet st.

Lemma resumed_tail ev gen st st' : resumed (ev :: gen) st -> quiet st' -> resumed gen st'.
Proof. intros [H _] Hq. split; [|exact Hq]. intros s c Hin. apply (H s). now right. Qed.

Lemma run_loop_quiet fuel gen st :
  resumed gen st -> futures_ok st -> delivered st = [] ->
  quiet (result_state (run_loop cfg fuel O gen st)).
Proof.
  intros H Hok Hd.
  assert (Hany : forall g (r : State * Outcome),
            resumed g (fst r) -> (snd r = Normal -> resumed g (fst r)) /\ resumed g (fst r))
    by (intros g r Hr; split; auto).
  destruct (run_loop_rounds cfg resumed resumed) with
    (fuel := fuel) (round := O) (gen := gen) (st := st)
    as (gen' & [_ Hq] & _); auto.
  - intros g e s Hr. eapply resumed_tail; eauto. apply Hr.
  - intros g source c msg s Hr _ _. eapply resumed_tail; eauto. apply quiet_log, Hr.
  - intros g source thunk s Hr _ _ Hlen. eapply resumed_tail; eauto.
    destruct Hr as [Hc (A & B & C & D)].
    specialize (Hc source (GotRepoThunk thunk) (or_introl eq_refl)). simpl in Hc.
    split; [|split; [|split]]; auto.
    simpl. intros f job Hin. apply in_app_iff in Hin. destruct Hin as [Hin|[[= <- <-]|[]]].
    + eapply C; eauto.
    + simpl. destruct (rt_thunk thunk) as [repo|ex]; [|exact I].
      destruct Hc as (E1 & E2 & Hcl). unfold repo_analyzer_features in *.
      rewrite cfg_survey, sv_use in *. simpl in *. rewrite <- E1, <- E2 in *.
      apply closed_settled; auto. repeat split; auto; apply A.
  - intros g source repo s Hr _ _ Hlen. apply Hany. eapply resumed_tail; eauto.
    destruct Hr as [Hc Hq].
    specialize (Hc source (GotRepo repo) (or_introl eq_refl)). simpl in Hc.
    apply handle_repo_quiet; [|exact Hq].
    unfold repo_analyzer_features in *. rewrite cfg_survey, sv_use in *. simpl in *.
    now apply closed_settled.
  - intros g f job s [Hc Hq] _ Hjob _. apply Hany. split; [exact Hc|].
    apply callback_quiet; [exact Hq | now apply job_of_In].
  - intros g done s [Hc Hq] _ _ _ _. apply Hany. split; [exact Hc|]. apply quiet_check.
    destruct Hq as (A & B & C & D). repeat split; auto; try apply A.
    simpl. intros f job Hin. apply filter_In in Hin. eapply C. apply Hin.
Qed.

End Second.

(** **** The first run: what it leaves in the store *)

Section First.
Hypothesis cfg_codes : max_codes cfg = None.
Hypothesis cfg_repos : max_repos cfg = None.
Hypothesis sv_workers : 0 < max_workers sv.

Lemma not_reached st : reached_max_codes cfg st = false.
Proof. unfold reached_max_codes. now rewrite cfg_codes. Qed.

(** A pending job whose result, if it is one, records [feature] for the
    unit [file] of [repo]. *)
Definition job_covers (job : Job) (repo : Repo) (analyzer file feature : string) : Prop :=
  exists res,
    job = CodeJob analyzer repo res /\
    forall code, res = Ok code ->
                 code_repo code = repo /\ code_analyzer code = analyzer /\
                 code_key code = file /\ In feature (map fst (code_features code)).

Definition unit_pending (st : State) (repo : Repo) (analyzer file feature : string)
  : Prop :=
  exists f job, In (f, job) (future_to_job st) /\ ~ In f (delivered st) /\
                job_covers job repo analyzer file feature.

(** The unit has its record, or a job that will bring it. *)
Definition covered (st : State) (repo : Repo) (analyzer file feature : string) : Prop :=
  has_code_row (db st) (repo_source repo) (repo_key repo) analyzer file feature = true \/
  unit_pending st repo analyzer file feature.

(** From [st] to [st'] only jobs for units of [repo] were submitted. *)
Definition grew (repo : Repo) (st st' : State) : Prop :=
  db st' = db st /\ current_repos st' = current_repos st /\
  delivered st' = delivered st /\ (next_future st <= next_future st')%nat /\
  no_failures st' = no_failures st /\
  exists new,
    future_to_job st' = future_to_job st ++ new /\
    forall f job, In (f, job) new ->
      (next_future st <= f)%nat /\
      exists a res, job = CodeJob a repo res /\
                    forall code, res = Ok code -> code_repo code = repo.

Lemma grew_refl repo st : grew repo st st.
Proof.
  split; [reflexivity|]. split; [reflexivity|]. split; [reflexivity|].
  split; [lia|]. split; [reflexivity|].
  exists []. rewrite app_nil_r. split; [reflexivity | intros ? ? []].
Qed.

Lemma grew_trans repo a b c : grew repo a b -> grew repo b c -> grew repo a c.
Proof.
  intros (A1 & A2 & A3 & A4 & A5 & n1 & A6 & A7) (B1 & B2 & B3 & B4 & B5 & n2 & B6 & B7).
  split; [congruence|]. split; [congruence|]. split; [congruence|]. split; [lia|].
  split; [congruence|]. exists (n1 ++ n2). split; [rewrite B6, A6, app_assoc; reflexivity|].
  intros f job Hin. apply in_app_iff in Hin. destruct Hin as [Hin|Hin]; [auto|].
  destruct (B7 f job Hin) as (H1 & H2). split; [lia | exact H2].
Qed.

Lemma grew_submit repo a res st :
  (forall code, res = Ok code -> code_repo code = repo) ->
  grew repo st (submit (fun f => EvCodeJob f repo a) (CodeJob a repo res) st).
Proof.
  intros H. split; [reflexivity|]. split; [reflexivity|]. split; [reflexivity|].
  split; [simpl; lia|]. split; [reflexivity|].
  exists [(next_future st, CodeJob a repo res)].
  split; [reflexivity|]. intros f job [[= <- <-]|[]]. split; [lia|]. eauto.
Qed.

Lemma covered_grew r0 st st' repo a file f :
  grew r0 st st' -> covered st repo a file f -> covered st' repo a file f.
Proof.
  intros (A1 & A2 & A3 & A4 & A5 & new & A6 & A7) [H|(g & job & H1 & H2 & H3)].
  - left. now rewrite A1.
  - right. exists g, job. rewrite A6, A3, in_app_iff. auto.
Qed.

Definition delivered_old (st : State) : Prop :=
  forall g, In g (delivered st) -> (g < next_future st)%nat.

Lemma delivered_old_grew r st st' : grew r st st' -> delivered_old st -> delivered_old st'.
Proof.
  intros (_ & _ & A3 & A4 & _) H g Hg. rewrite A3 in Hg. specialize (H g Hg). lia.
Qed.

(** Without a cap on codes, the loop over the units of a file analyzer
    submits a job for every unit that lacks a record. *)
Lemma codes_loop_submits fa repo fs files : forall st,
  delivered_old st ->
  exists st',
    codes_loop cfg repo (to_analyzer fa) fs (map (file_step fa repo) files) st
    = (st', Normal) /\
    grew repo st st' /\
    forall file f, In file files -> In f fs -> covered st' repo (fa_name fa) file f.
Proof.
  induction files as [|file files IH]; intros st Hold; simpl.
  - exists st. split; [reflexivity|]. split; [apply grew_refl | intros ? ? []].
  - unfold file_step at 1. rewrite get_code_features_saved. simpl.
    destruct (Z.of_nat (List.length
                (get_code_missing_features (db st) (repo_source repo) (repo_key repo)
                   file (fa_name fa) fs)) =? 0) eqn:E.
    + destruct (IH st Hold) as (st' & E' & G & C). exists st'.
      split; [exact E'|]. split; [exact G|].
      intros file' f [<-|Hin] Hf; [|auto]. left.
      destruct G as (-> & _).
      destruct (has_code_row (db st) (repo_source repo) (repo_key repo) (fa_name fa)
                  file f) eqn:Er; [reflexivity|].
      assert (Hm : In f (get_code_missing_features (db st) (repo_source repo)
                           (repo_key repo) file (fa_name fa) fs))
        by (apply code_missing_In; auto).
      destruct (get_code_missing_features _ _ _ _ _ _); [destruct Hm | discriminate E].
    + rewrite not_reached.
      match goal with |- context [codes_loop _ _ _ _ _ ?s] => set (st1 := s) end.
      assert (G1 : grew repo st st1).
      { apply grew_submit. intros code Hc. now apply analyze_code_ok in Hc. }
      destruct (IH st1 (delivered_old_grew _ _ _ G1 Hold)) as (st' & E' & G & C).
      exists st'. split; [exact E'|]. split; [exact (grew_trans _ _ _ _ G1 G)|].
      intros file' f [<-|Hin] Hf; [|auto].
      apply (covered_grew repo st1); [exact G|].
      destruct (has_code_row (db st) (repo_source repo) (repo_key repo) (fa_name fa)
                  file f) eqn:Er; [left; exact Er|].
      right. eexists (next_future st), _. split; [|split].
      * simpl. apply in_app_iff. right. left. reflexivity.
      * simpl. intros Hd. specialize (Hold _ Hd). lia.
      * eexists. split; [reflexivity|]. intros code Hc.
        apply analyze_code_ok in Hc. destruct Hc as (H1 & H2 & H3 & H4).
        rewrite H4. repeat split; auto. apply code_missing_In. auto.
Qed.

Lemma grew_log repo analyzer r st :
  grew repo st (log (SkipCompletedAnalyzer analyzer r) st).
Proof.
  split; [reflexivity|]. split; [reflexivity|]. split; [reflexivity|].
  split; [simpl; lia|]. split; [reflexivity|].
  exists []. rewrite app_nil_r. split; [reflexivity | intros ? ? []].
Qed.

Lemma analyzers_loop_submits repo feats todo : forall st,
  (forall fa, In fa todo -> In fa fas) -> delivered_old st ->
  exists st',
    analyzers_loop cfg repo feats (map to_analyzer todo) st = (st', Normal) /\
    grew repo st st' /\
    forall fa fs file f,
      In fa todo -> dict_get (fa_name fa) feats = Some fs ->
      In file (fa_file_keys fa repo) -> In f fs ->
      covered st' repo (fa_name fa) file f.
Proof.
  induction todo as [|fa todo IH]; intros st Hsub Hold; simpl.
  - exists st. split; [reflexivity|]. split; [apply grew_refl | intros ? ? ? ? []].
  - assert (Hfa : In fa fas) by (apply Hsub; now left).
    assert (Hsub' : forall x, In x todo -> In x fas) by (intros x Hx; apply Hsub; now right).
    destruct (dict_get (fa_name fa) feats) as [fs|] eqn:Ed.
    + rewrite (lookup_analyzer_fa fa Hfa). simpl.
      destruct (codes_loop_submits fa repo fs (fa_file_keys fa repo) st Hold)
        as (st1 & E1 & G1 & C1).
      rewrite E1.
      destruct (IH st1 Hsub' (delivered_old_grew _ _ _ G1 Hold)) as (st' & E' & G & C).
      exists st'. split; [exact E'|]. split; [exact (grew_trans _ _ _ _ G1 G)|].
      intros fa' fs' file f [<-|Hin] Hd Hfile Hf.
      * rewrite Ed in Hd. inversion Hd; subst fs'.
        apply (covered_grew repo st1); auto.
      * eapply C; eauto.
    + match goal with |- context [analyzers_loop _ _ _ _ ?s] => set (st1 := s) end.
      assert (G1 : grew repo st st1) by apply grew_log.
      destruct (IH st1 Hsub' (delivered_old_grew _ _ _ G1 Hold)) as (st' & E' & G & C).
      exists st'. split; [exact E'|]. split; [exact (grew_trans _ _ _ _ G1 G)|].
      intros fa' fs' file f [<-|Hin] Hd Hfile Hf; [congruence|].
      eapply C; eauto.
Qed.

Lemma handle_repo_submits repo feats st :
  delivered_old st ->
  exists st2,
    fst (handle_repo cfg repo feats st) = fst (check_repo_completion cfg st2) /\
    snd (handle_repo cfg repo feats st) = snd (check_repo_completion cfg st2) /\
    grew repo (start_repo cfg repo st) st2 /\
    forall fa fs file f,
      In fa fas -> dict_get (fa_name fa) feats = Some fs ->
      In file (fa_file_keys fa repo) -> In f fs ->
      covered st2 repo (fa_name fa) file f.
Proof.
  intros Hold. unfold handle_repo. rewrite not_reached, cfg_survey, sv_analyzers.
  destruct (analyzers_loop_submits repo feats fas (start_repo cfg repo st)
              (fun fa H => H)) as (st2 & E & G & C).
  { intros g Hg. simpl in *. auto. }
  rewrite E. exists st2. rewrite finally_fst, finally_snd.
  split; [reflexivity|]. split; [|auto].
  destruct (snd (check_repo_completion cfg st2)); reflexivity.
Qed.


(** Records and aggregates are only added. *)
Definition store_grows (db db' : Database) : Prop :=
  (forall s k a f, has_repo_row db s k a f = true -> has_repo_row db' s k a f = true) /\
  (forall s k a c f, has_code_row db s k a c f = true -> has_code_row db' s k a c f = true).

Lemma store_grows_same db db' : same_tables db db' -> store_grows db db'.
Proof.
  intros Hs. split; intros.
  - now rewrite (has_repo_row_same _ _ _ _ _ _ Hs).
  - now rewrite (has_code_row_same _ _ _ _ _ _ _ Hs).
Qed.

Lemma store_grows_save_code now so code db :
  store_grows db (save_code_features now so code db).
Proof. split; intros; [assumption | now apply has_code_row_kept]. Qed.

Lemma store_grows_save_repo repo db : store_grows db (save_repo_features repo true db).
Proof. split; intros; [now apply has_repo_row_kept | assumption]. Qed.

Lemma still_missing db db' s k a f :
  store_grows db db' -> has_repo_row db' s k a f = false -> has_repo_row db s k a f = false.
Proof.
  intros [H _] Hn. destruct (has_repo_row db s k a f) eqn:E; [|reflexivity].
  rewrite (H _ _ _ _ E) in Hn. discriminate.
Qed.

(** The features asked of a repository include those without an aggregate. *)
Definition wanted (feats : list (string * list string)) (repo : Repo) (db : Database)
  : Prop :=
  forall fa f,
    In fa fas -> In f (feature_names fa) ->
    has_repo_row db (repo_source repo) (repo_key repo) (fa_name fa) f = false ->
    exists fs, dict_get (fa_name fa) feats = Some fs /\ In f fs.

Lemma wanted_mono feats repo db db' :
  store_grows db db' -> wanted feats repo db -> wanted feats repo db'.
Proof.
  intros Hg H fa f Hfa Hf Hrow. apply (H fa f Hfa Hf). eapply still_missing; eauto.
Qed.

(** Every unit of a repository being analysed has its record or a job that
    will bring it. *)
Definition in_hand (st : State) (repo : Repo) : Prop :=
  forall fa file f,
    In fa fas -> In file (fa_file_keys fa repo) -> In f (feature_names fa) ->
    has_repo_row (db st) (repo_source repo) (repo_key repo) (fa_name fa) f = false ->
    covered st repo (fa_name fa) file f.

Lemma in_hand_step st st' repo :
  store_grows (db st) (db st') ->
  (forall a file f g job,
      In (g, job) (future_to_job st) -> ~ In g (delivered st) ->
      job_covers job repo a file f -> covered st' repo a file f) ->
  in_hand st repo -> in_hand st' repo.
Proof.
  intros Hg Hp H fa file f Hfa Hfile Hf Hrow.
  destruct (H fa file f Hfa Hfile Hf (still_missing _ _ _ _ _ _ Hg Hrow))
    as [Hc|(g & job & H1 & H2 & H3)].
  - left. now apply Hg.
  - eapply Hp; eauto.
Qed.

Lemma in_hand_kept st st' repo :
  store_grows (db st) (db st') ->
  (forall g job, In (g, job) (future_to_job st) -> ~ In g (delivered st) ->
                 In (g, job) (future_to_job st') /\ ~ In g (delivered st')) ->
  in_hand st repo -> in_hand st' repo.
Proof.
  intros Hg Hp. apply in_hand_step; [exact Hg|].
  intros a file f g job H1 H2 H3. right. exists g, job.
  destruct (Hp g job H1 H2). auto.
Qed.

(** No CodeJob of the repository is in [future_to_job]. *)
Definition idle (st : State) (repo : Repo) : bool :=
  len (filter (is_code_job_of repo) (jobs st)) =? 0.

Lemma idle_no_job st repo f a res :
  idle st repo = true -> ~ In (f, CodeJob a repo res) (future_to_job st).
Proof.
  unfold idle. intros Hi Hin.
  assert (Hj : In (CodeJob a repo res) (filter (is_code_job_of repo) (jobs st))).
  { apply filter_In. split.
    - unfold jobs. apply in_map_iff. exists (f, CodeJob a repo res). auto.
    - simpl. unfold repo_is. apply Nat.eqb_refl. }
  destruct (filter (is_code_job_of repo) (jobs st)); [destruct Hj | discriminate Hi].
Qed.

Lemma busy_job st repo :
  idle st repo = false ->
  exists job, In job (jobs st) /\ is_code_job_of repo job = true.
Proof.
  unfold idle. destruct (filter (is_code_job_of repo) (jobs st)) as [|job l] eqn:E;
    [discriminate|].
  intros _. exists job. apply filter_In. rewrite E. now left.
Qed.

Variable feed : list FeedEvent.
Hypothesis feed_distinct : NoDup (map key_of (feed_handles feed)).
Hypothesis feed_faithful : forall source thunk repo,
    In (FeedYield source (GotRepoThunk thunk)) feed -> rt_thunk thunk = Ok repo ->
    repo_source repo = rt_source thunk /\ repo_key repo = rt_key thunk.

Lemma same_key_same a b :
  In a (feed_handles feed) -> In b (feed_handles feed) -> key_of a = key_of b -> a = b.
Proof.
  intros Ha Hb E. apply (kc_unique (feed_handles feed)); auto. now apply NoDup_kc.
Qed.

(** The state of the first run between two steps of the coordinator.
    [transit] is the handle on its way into [handle_repo], if any. *)
Record steady (transit : list Repo) (gen : list FeedEvent) (st : State) : Prop := {
  st_feed : forall ev, In ev gen -> In ev feed;
  st_once : forall k,
      (kc k (feed_handles gen) + kc k transit + kc k (fetching_handles st)
       + kc k (current_repos st) <= 1)%nat;
  st_known : forall r,
      In r transit \/ In r (fetching_handles st) \/ In r (current_repos st) ->
      In r (feed_handles feed);
  st_delivered : forall g, In g (delivered st) -> In g (map fst (future_to_job st));
  st_code_jobs : forall f a r res,
      In (f, CodeJob a r res) (future_to_job st) -> ~ In f (delivered st) ->
      In r (current_repos st) /\ forall code, res = Ok code -> code_repo code = r;
  st_repo_jobs : forall f src feats r,
      In (f, RepoJob src feats (Ok r)) (future_to_job st) -> ~ In f (delivered st) ->
      wanted feats r (db st);
  st_units : forall r, In r (current_repos st) -> in_hand st r;
  st_closed : forall r,
      In r (feed_handles feed) ->
      In r (feed_handles gen) \/ In r transit \/ In r (fetching_handles st) \/
      In r (current_repos st) \/ closed r (db st)
}.

(** Every repository being analysed waits for a job. *)
Definition busy (st : State) : Prop :=
  forall r, In r (current_repos st) -> idle st r = false.


Lemma db_complete r st :
  db (finish_repo cfg r st) = save_repo_features r true (db st).
Proof. simpl. now rewrite cfg_survey, sv_save. Qed.

Lemma idle_units_covered st r :
  in_hand st r -> idle st r = true -> units_covered r (db st).
Proof.
  intros Hh Hi fa file f Hfa Hfile Hf Hrow.
  destruct (Hh fa file f Hfa Hfile Hf Hrow) as [H|(g & job & H1 & _ & res & -> & _)];
    [exact H|].
  exfalso. eapply idle_no_job; eauto.
Qed.

(** Completing an idle repository closes it. *)
Lemma steady_complete gen st r :
  steady [] gen st -> In r (current_repos st) -> idle st r = true ->
  steady [] gen (finish_repo cfg r st).
Proof.
  intros [F O K D CJ RJ U C] Hin Hidle.
  assert (Hr : In r (feed_handles feed)) by (apply K; auto).
  assert (Hcov : units_covered r (db st)) by (apply idle_units_covered; auto).
  assert (Hg : store_grows (db st) (db (finish_repo cfg r st))).
  { rewrite db_complete. apply store_grows_save_repo. }
  constructor.
  - exact F.
  - intros k. specialize (O k).
    change (fetching_handles (finish_repo cfg r st)) with (fetching_handles st).
    change (current_repos (finish_repo cfg r st))
      with (remove_repo r (current_repos st)).
    pose proof (kc_remove k r (current_repos st)). lia.
  - intros x [[]|[Hx|Hx]]; apply K; auto.
    right. right. eapply remove_repo_In; exact Hx.
  - exact D.
  - intros f a x res Hj Hd. destruct (CJ f a x res Hj Hd) as [Hc Hcode].
    split; [|exact Hcode].
    change (current_repos (finish_repo cfg r st))
      with (remove_repo r (current_repos st)).
    apply remove_repo_keeps; [exact Hc|].
    destruct (repo_eqb x r) eqn:E; [|reflexivity].
    exfalso. apply repo_eqb_key in E.
    assert (x = r) by (apply same_key_same; auto).
    subst x. eapply idle_no_job; eauto.
  - intros f src feats x Hj Hd. eapply wanted_mono; [exact Hg|]. eapply RJ; eauto.
  - intros x Hx. apply (in_hand_kept st); [exact Hg | auto |].
    apply U. eapply remove_repo_In; exact Hx.
  - intros x Hx.
    assert (Hsame : key_of r = key_of x -> closed x (db (finish_repo cfg r st))).
    { intros E. assert (x = r) by (apply same_key_same; auto). subst x.
      rewrite db_complete. now apply closed_saved. }
    destruct (C x Hx) as [H|[[]|[H|[H|H]]]]; auto.
    + destruct (repo_eqb x r) eqn:E.
      * apply repo_eqb_key in E. symmetry in E. auto 6.
      * right. right. right. left.
        change (current_repos (finish_repo cfg r st))
          with (remove_repo r (current_repos st)).
        now apply remove_repo_keeps.
    + destruct (key_eqb (key_of r) (key_of x)) eqn:E.
      * apply key_eqb_eq in E. auto 6.
      * right. right. right. right. rewrite db_complete.
        apply closed_save_repo_other; [|exact H].
        intros E'. rewrite E', key_eqb_refl in E. discriminate.
Qed.

Lemma steady_complete_all gen todo : forall st,
  steady [] gen st -> NoDup (map key_of todo) ->
  (forall r, In r todo -> In r (current_repos st) /\ idle st r = true) ->
  let st' := fold_left (fun s r => finish_repo cfg r s) todo st in
  steady [] gen st' /\ jobs st' = jobs st /\
  (forall x, In x (current_repos st') -> In x (current_repos st) /\ ~ In x todo).
Proof.
  induction todo as [|r todo IH]; intros st H Hnd Hall; simpl.
  - split; [exact H|]. split; [reflexivity|]. intros x Hx. split; [exact Hx | intros []].
  - simpl in Hnd. apply NoDup_cons_iff in Hnd. destruct Hnd as [Hni Hnd'].
    destruct (Hall r (or_introl eq_refl)) as [Hr Hi].
    pose proof (steady_complete gen st r H Hr Hi) as H1.
    destruct (IH (finish_repo cfg r st) H1 Hnd') as (A & B & Cx).
    { intros x Hx. destruct (Hall x (or_intror Hx)) as [Hc Hix]. split; [|exact Hix].
      change (current_repos (finish_repo cfg r st))
        with (remove_repo r (current_repos st)).
      apply remove_repo_keeps; [exact Hc|].
      destruct (repo_eqb x r) eqn:E; [|reflexivity].
      exfalso. apply Hni. apply repo_eqb_key in E. rewrite <- E. now apply in_map. }
    split; [exact A|]. split; [exact B|].
    intros x Hx. destruct (Cx x Hx) as [Hc Hn].
    change (current_repos (finish_repo cfg r st))
      with (remove_repo r (current_repos st)) in Hc.
    split; [eapply remove_repo_In; exact Hc|].
    intros [<-|Hin]; [|contradiction].
    revert Hc. apply remove_repo_gone.
    pose proof (st_once _ _ _ H (key_of r)). lia.
Qed.

Lemma steady_check gen st :
  steady [] gen st -> snd (check_repo_completion cfg st) = Normal ->
  steady [] gen (fst (check_repo_completion cfg st)) /\
  busy (fst (check_repo_completion cfg st)).
Proof.
  intros H Hn.
  destruct (check_repo_completion_cases cfg st)
    as [[_ ->]|(d & x & t & key & _ & _ & E)]; [|congruence].
  destruct (steady_complete_all gen (completed_repos st) st H) as (A & B & Cx).
  - unfold completed_repos. apply kc_NoDup. intros k.
    pose proof (st_once _ _ _ H k) as Hk.
    pose proof (kc_filter k (fun repo => len (filter (is_code_job_of repo) (jobs st)) =? 0)
                  (current_repos st)).
    lia.
  - intros r Hr. unfold completed_repos in Hr. apply filter_In in Hr. exact Hr.
  - split; [exact A|]. intros r Hr. destruct (Cx r Hr) as [Hc Hn'].
    unfold idle. rewrite B.
    destruct (len (filter (is_code_job_of r) (jobs st)) =? 0) eqn:E; [|reflexivity].
    exfalso. apply Hn'. unfold completed_repos. apply filter_In. auto.
Qed.


Lemma handles_in_codes d new :
  (forall f job, In (f, job) new -> job_handles job = []) -> handles_in d new = [].
Proof.
  induction new as [|[g j] new IH]; intros H; [reflexivity|].
  rewrite handles_in_cons, (H g j (or_introl eq_refl)), IH.
  - now destruct (mem_nat g d).
  - intros f job Hin. apply (H f job). now right.
Qed.

Lemma event_handles_feed ev x :
  In ev feed -> In x (event_handles ev) -> In x (feed_handles feed).
Proof. intros H1 H2. unfold feed_handles. apply in_flat_map. eauto. Qed.

Lemma event_handles_key source c x :
  In (FeedYield source c) feed -> In x (event_handles (FeedYield source c)) ->
  repo_source x = candidate_source c /\ repo_key x = candidate_key c.
Proof.
  intros Hin Hx. destruct c as [repo|thunk]; simpl in *.
  - destruct Hx as [<-|[]]. auto.
  - destruct (rt_thunk thunk) as [repo|ex] eqn:E; [|destruct Hx].
    destruct Hx as [<-|[]]. eapply feed_faithful; eauto.
Qed.

(** A handle enters [handle_repo]: jobs are submitted for its units. *)
Lemma steady_admit gen st repo feats st2 :
  steady [repo] gen st -> wanted feats repo (db st) ->
  grew repo (start_repo cfg repo st) st2 ->
  (forall fa fs file f,
      In fa fas -> dict_get (fa_name fa) feats = Some fs ->
      In file (fa_file_keys fa repo) -> In f fs ->
      covered st2 repo (fa_name fa) file f) ->
  steady [] gen st2.
Proof.
  intros [F O K D CJ RJ U C] Hw (G1 & G2 & G3 & G4 & G5 & new & G6 & G7) Hcov.
  simpl in G1, G2, G3, G6.
  assert (Hs : same_tables (db st) (db st2)).
  { rewrite G1. apply same_tables_metadata. }
  assert (Hf : fetching_handles st2 = fetching_handles st).
  { unfold fetching_handles. rewrite G3, G6, handles_in_app, (handles_in_codes (delivered st) new).
    - apply app_nil_r.
    - intros f job Hin. destruct (G7 f job Hin) as (_ & a & res & -> & _). reflexivity. }
  assert (Hp : forall g job, In (g, job) (future_to_job st) -> ~ In g (delivered st) ->
                             In (g, job) (future_to_job st2) /\ ~ In g (delivered st2)).
  { intros g job H1 H2. rewrite G6, G3, in_app_iff. auto. }
  constructor.
  - exact F.
  - intros k. specialize (O k). rewrite Hf, G2, kc_app. rewrite kc_nil. lia.
  - intros x [[]|[Hx|Hx]]; apply K.
    + rewrite Hf in Hx. auto.
    + rewrite G2 in Hx. apply in_app_iff in Hx. destruct Hx as [Hx|[<-|[]]]; auto.
      left. now left.
  - intros g Hg. rewrite G3 in Hg. rewrite G6, map_app, in_app_iff. left. auto.
  - intros f a r res Hj Hd. rewrite G6 in Hj. rewrite G3 in Hd. rewrite G2.
    apply in_app_iff in Hj. destruct Hj as [Hj|Hj].
    + destruct (CJ f a r res Hj Hd) as [H1 H2]. split; [|exact H2].
      apply in_app_iff. now left.
    + destruct (G7 _ _ Hj) as (_ & a' & res' & E & Hc). inversion E; subst a' r res'.
      split; [|exact Hc]. apply in_app_iff. right. now left.
  - intros f src fs r Hj Hd. rewrite G6 in Hj. rewrite G3 in Hd.
    apply in_app_iff in Hj. destruct Hj as [Hj|Hj].
    + apply (wanted_mono _ _ (db st)); [now apply store_grows_same | eauto].
    + destruct (G7 _ _ Hj) as (_ & a' & res' & E & _). discriminate E.
  - intros r Hr. rewrite G2 in Hr. apply in_app_iff in Hr. destruct Hr as [Hr|[<-|[]]].
    + apply (in_hand_kept st); auto. now apply store_grows_same.
    + intros fa file f Hfa Hfile Hff Hrow.
      rewrite (has_repo_row_same _ _ _ _ _ _ Hs) in Hrow.
      destruct (Hw fa f Hfa Hff Hrow) as (fs & Hd & Hin). eapply Hcov; eauto.
  - intros x Hx. destruct (C x Hx) as [H|[[<-|[]]|[H|[H|H]]]]; auto.
    + right. right. right. left. rewrite G2. apply in_app_iff. right. now left.
    + right. right. left. now rewrite Hf.
    + right. right. right. left. rewrite G2. apply in_app_iff. now left.
    + right. right. right. right. now apply (closed_same (db st)).
Qed.

Lemma no_failures_complete_all todo : forall st,
  no_failures (fold_left (fun s r => finish_repo cfg r s) todo st) = no_failures st.
Proof.
  induction todo as [|r todo IH]; intros st; simpl; [reflexivity|]. now rewrite IH.
Qed.

Lemma no_failures_check st :
  no_failures (fst (check_repo_completion cfg st)) = no_failures st.
Proof.
  destruct (check_repo_completion_cases cfg st)
    as [[_ ->]|(done & repo & rest & key & _ & -> & _)].
  - apply no_failures_complete_all.
  - exact (no_failures_complete_all done st).
Qed.

Lemma no_failures_log msg st : no_failures (log msg st) = true -> no_failures st = true.
Proof.
  unfold no_failures. simpl. rewrite Bool.andb_true_iff. tauto.
Qed.

(** [handle_repo] on a handle in transit. *)
Lemma steady_handle gen st repo feats :
  steady [repo] gen st -> wanted feats repo (db st) -> futures_ok st ->
  snd (handle_repo cfg repo feats st) = Normal ->
  let st' := fst (handle_repo cfg repo feats st) in
  no_failures st' = no_failures st /\ steady [] gen st' /\ busy st'.
Proof.
  intros H Hw Hok Hn.
  destruct (handle_repo_submits repo feats st) as (st2 & E1 & E2 & G & Hcov).
  { intros g Hg. apply (proj1 Hok). now apply (st_delivered _ _ _ H). }
  cbv zeta. rewrite E1. rewrite E2 in Hn. split.
  - rewrite no_failures_check. destruct G as (_ & _ & _ & _ & -> & _). reflexivity.
  - apply steady_check; [|exact Hn]. eapply steady_admit; eauto.
Qed.


(** The callback of a repository job is entered: its handle is in transit. *)
Lemma steady_deliver_repo gen st f src feats repo :
  steady [] gen st -> futures_ok st ->
  In (f, RepoJob src feats (Ok repo)) (future_to_job st) -> ~ In f (delivered st) ->
  steady [repo] gen (deliver f st).
Proof.
  intros [F O K D CJ RJ U C] [_ Hnd] Hj Hd.
  assert (Hother : forall g job, In (g, job) (future_to_job st) -> ~ In g (delivered st) ->
                     g = f /\ job = RepoJob src feats (Ok repo) \/
                     ~ In g (delivered (deliver f st))).
  { intros g job H1 H2. destruct (Nat.eq_dec g f) as [->|Hne].
    - left. split; [reflexivity|]. eapply job_unique; eauto.
    - right. simpl. intros [E|E]; [congruence | contradiction]. }
  constructor.
  - exact F.
  - intros k. specialize (O k).
    pose proof (kc_handles_deliver k f (delivered st) (future_to_job st) _ Hj Hd) as Hk.
    change (fetching_handles (deliver f st))
      with (handles_in (f :: delivered st) (future_to_job st)).
    change (current_repos (deliver f st)) with (current_repos st).
    unfold fetching_handles in O. simpl job_handles in Hk. rewrite kc_nil in O. lia.
  - intros x Hx. apply K. right.
    destruct Hx as [[<-|[]]|[Hx|Hx]]; [left|left|right; exact Hx].
    + apply handles_in_In. exists f, (RepoJob src feats (Ok repo)). simpl. auto.
    + apply handles_in_In in Hx. destruct Hx as (g & job & H1 & H2 & H3).
      apply handles_in_In. exists g, job. simpl in H2. tauto.
  - simpl. intros g [<-|Hg]; [|auto]. apply in_map_iff. exists (f, RepoJob src feats (Ok repo)).
    auto.
  - intros g a r res H1 H2. apply (CJ g a r res H1). simpl in H2. tauto.
  - intros g s' fs r H1 H2. apply (RJ g s' fs r H1). simpl in H2. tauto.
  - intros r Hr. apply (in_hand_step st); [apply store_grows_same, same_tables_refl | | auto].
    intros a file ft g job H1 H2 H3.
    destruct (Hother g job H1 H2) as [[-> ->]|Hn].
    + destruct H3 as (res & E & _). discriminate E.
    + right. exists g, job. auto.
  - intros x Hx. destruct (C x Hx) as [H|[[]|[H|[H|H]]]]; auto.
    apply handles_in_In in H. destruct H as (g & job & H1 & H2 & H3).
    destruct (Hother g job H1 H2) as [[-> ->]|Hn].
    + simpl in H3. destruct H3 as [<-|[]]. right. left. now left.
    + right. right. left. apply handles_in_In. exists g, job. auto.
Qed.

(** The result of a unit analysis is saved. *)
Lemma steady_save_code gen st f a repo code :
  steady [] gen st -> futures_ok st ->
  In (f, CodeJob a repo (Ok code)) (future_to_job st) -> ~ In f (delivered st) ->
  steady [] gen (save_code cfg code (deliver f st)).
Proof.
  intros [F O K D CJ RJ U C] [_ Hnd] Hj Hd.
  destruct (CJ f a repo (Ok code) Hj Hd) as [Hcur Hcode].
  specialize (Hcode code eq_refl).
  assert (Hother : forall g job, In (g, job) (future_to_job st) -> ~ In g (delivered st) ->
                     g = f /\ job = CodeJob a repo (Ok code) \/
                     ~ In g (f :: delivered st)).
  { intros g job H1 H2. destruct (Nat.eq_dec g f) as [->|Hne].
    - left. split; [reflexivity|]. eapply job_unique; eauto.
    - right. simpl. intros [E|E]; [congruence | contradiction]. }
  set (st' := save_code cfg code (deliver f st)).
  assert (Hg : store_grows (db st) (db st')) by apply store_grows_save_code.
  constructor.
  - exact F.
  - intros k. specialize (O k).
    pose proof (kc_handles_more_delivered k f (delivered st) (future_to_job st)) as Hk.
    change (fetching_handles st')
      with (handles_in (f :: delivered st) (future_to_job st)).
    change (current_repos st') with (current_repos st).
    unfold fetching_handles in O. lia.
  - intros x Hx. apply K. destruct Hx as [[]|[Hx|Hx]]; [|auto].
    right. left. apply handles_in_In in Hx. destruct Hx as (g & job & H1 & H2 & H3).
    apply handles_in_In. exists g, job. simpl in H2. tauto.
  - simpl. intros g [<-|Hg']; [|auto]. apply in_map_iff.
    exists (f, CodeJob a repo (Ok code)). auto.
  - intros g a' r res H1 H2. apply (CJ g a' r res H1). simpl in H2. tauto.
  - intros g s' fs r H1 H2. apply (wanted_mono _ _ (db st)); [exact Hg|].
    apply (RJ g s' fs r H1). simpl in H2. tauto.
  - intros r Hr. apply (in_hand_step st); [exact Hg | | auto].
    intros a' file ft g job H1 H2 H3.
    destruct (Hother g job H1 H2) as [[-> ->]|Hn].
    + left. destruct H3 as (res & E & Hres). inversion E; subst a' r res.
      destruct (Hres code eq_refl) as (E1 & E2 & E3 & E4).
      pose proof (has_code_row_saved (now cfg (clock st)) (save_occurrences (survey cfg))
                    code (db st) ft E4) as Hrow.
      rewrite E1, E2, E3 in Hrow. exact Hrow.
    + right. exists g, job. auto.
  - intros x Hx. destruct (C x Hx) as [H|[[]|[H|[H|H]]]]; auto.
    + apply handles_in_In in H. destruct H as (g & job & H1 & H2 & H3).
      destruct (Hother g job H1 H2) as [[-> ->]|Hn]; [destruct H3|].
      right. right. left. apply handles_in_In. exists g, job. auto.
    + destruct (key_eqb (key_of repo) (key_of x)) eqn:E.
      * apply key_eqb_eq in E.
        assert (repo = x) by (apply same_key_same; auto).
        subst x. auto.
      * right. right. right. right. apply closed_save_code_other; [|exact H].
        rewrite Hcode. intros E'. rewrite E', key_eqb_refl in E. discriminate.
Qed.

(** A candidate is skipped. *)
Lemma steady_skip gen source c st :
  steady [] (FeedYield source c :: gen) st ->
  in_progress c st = true \/ (len (repo_analyzer_features cfg c st) =? 0) = true ->
  steady [] gen st.
Proof.
  intros [F O K D CJ RJ U C] Hskip.
  assert (Hev : In (FeedYield source c) feed) by (apply F; now left).
  constructor; auto.
  - intros ev Hin. apply F. now right.
  - intros k. specialize (O k). unfold feed_handles in *. simpl in O.
    rewrite kc_app in O. lia.
  - intros x Hx. destruct (C x Hx) as [H|H]; [|auto].
    unfold feed_handles in H. simpl in H. apply in_app_iff in H.
    destruct H as [H|H]; [|left; exact H].
    destruct (event_handles_key source c x Hev H) as [E1 E2].
    destruct Hskip as [Hip|Hlen].
    + exfalso. unfold in_progress in Hip. apply existsb_exists in Hip.
      destruct Hip as (r & Hr & Hk). rewrite Bool.andb_true_iff, !String.eqb_eq in Hk.
      specialize (O (key_of x)). unfold feed_handles in O. simpl in O.
      rewrite kc_app in O. pose proof (kc_In x _ H) as H1.
      pose proof (kc_In r _ Hr) as H2.
      assert (E : key_of r = key_of x) by (unfold key_of; destruct Hk; congruence).
      rewrite E in H2. lia.
    + right. right. right. right. apply closed_complete.
      unfold repo_analyzer_features in Hlen. rewrite cfg_survey, sv_use in Hlen.
      rewrite E1, E2. now apply complete_iff.
Qed.

Lemma steady_log transit gen ev st :
  steady transit gen st -> steady transit gen (log_event ev st).
Proof.
  intros [F O K D CJ RJ U C].
  constructor; [exact F|exact O|exact K|exact D|exact CJ|exact RJ|exact U|exact C].
Qed.

Lemma steady_raise gen e st : steady [] (FeedRaise e :: gen) st -> steady [] gen st.
Proof.
  intros [F O K D CJ RJ U C]. constructor; auto. intros ev Hin. apply F. now right.
Qed.

(** A candidate leaves the feed as a handle in transit. *)
Lemma steady_take gen source repo st :
  steady [] (FeedYield source (GotRepo repo) :: gen) st -> steady [repo] gen st.
Proof.
  intros [F O K D CJ RJ U C].
  assert (Hev : In (FeedYield source (GotRepo repo)) feed) by (apply F; now left).
  constructor; auto.
  - intros ev Hin. apply F. now right.
  - intros k. specialize (O k). unfold feed_handles in *. simpl in O.
    rewrite !kc_cons in *. rewrite kc_nil in *. lia.
  - intros x [[<-|[]]|Hx]; [|apply K; auto].
    eapply event_handles_feed; eauto. now left.
  - intros x Hx. destruct (C x Hx) as [H|[[]|H]]; auto.
    unfold feed_handles in H. simpl in H. destruct H as [<-|H]; auto.
    right. left. now left.
Qed.

(** A repository job is submitted. *)
Lemma steady_fetch gen source thunk st :
  steady [] (FeedYield source (GotRepoThunk thunk) :: gen) st ->
  delivered st = [] ->
  steady [] gen
    (submit (fun f => EvFetchRepo f (rt_source thunk) (rt_key thunk))
            (RepoJob (rt_source thunk)
                     (repo_analyzer_features cfg (GotRepoThunk thunk) st)
                     (rt_thunk thunk)) st).
Proof.
  intros [F O K D CJ RJ U C] Hd.
  assert (Hev : In (FeedYield source (GotRepoThunk thunk)) feed) by (apply F; now left).
  set (job := RepoJob (rt_source thunk)
                (repo_analyzer_features cfg (GotRepoThunk thunk) st) (rt_thunk thunk)).
  set (st' := submit _ job st).
  assert (Hf : fetching_handles st'
               = fetching_handles st ++ event_handles (FeedYield source (GotRepoThunk thunk))).
  { unfold fetching_handles. simpl. rewrite Hd, handles_in_app, handles_in_cons. simpl.
    now rewrite app_nil_r. }
  constructor.
  - intros ev Hin. apply F. now right.
  - intros k. specialize (O k). rewrite Hf, kc_app.
    change (current_repos st') with (current_repos st).
    unfold feed_handles in *. cbn [flat_map] in O. rewrite kc_app in O. lia.
  - intros x [[]|[Hx|Hx]]; [|apply K; auto].
    rewrite Hf in Hx. apply in_app_iff in Hx. destruct Hx as [Hx|Hx]; [apply K; auto|].
    eapply event_handles_feed; eauto.
  - simpl. rewrite Hd. intros g [].
  - simpl. rewrite Hd. intros f a r res Hj _. apply in_app_iff in Hj.
    destruct Hj as [Hj|[E|[]]]; [|discriminate E].
    apply (CJ f a r res Hj). rewrite Hd. intros [].
  - simpl. rewrite Hd. intros f src fs r Hj _. apply in_app_iff in Hj.
    destruct Hj as [Hj|[E|[]]].
    + apply (RJ f src fs r Hj). rewrite Hd. intros [].
    + inversion E as [[E1 E2 E3 E4]]. clear E.
      destruct (feed_faithful source thunk r Hev E4) as [K1 K2].
      unfold repo_analyzer_features. rewrite cfg_survey, sv_use. simpl.
      intros fa ft Hfa Hft Hrow. rewrite K1, K2 in Hrow.
      now apply requested_missing.
  - intros r Hr. apply (in_hand_kept st); [apply store_grows_same, same_tables_refl | | auto].
    intros g j H1 H2. split; [simpl; apply in_app_iff; now left | exact H2].
  - intros x Hx. destruct (C x Hx) as [H|[[]|[H|[H|H]]]]; auto.
    + unfold feed_handles in H. cbn [flat_map] in H. apply in_app_iff in H.
      destruct H as [H|H]; [|left; exact H].
      right. right. left. rewrite Hf. apply in_app_iff. now right.
    + right. right. left. rewrite Hf. apply in_app_iff. now left.
Qed.

(** The end of a round: the delivered futures are forgotten. *)
Lemma steady_remove_done gen done st :
  steady [] gen st -> (forall f, In f done <-> In f (delivered st)) ->
  steady [] gen (remove_done done st).
Proof.
  intros [F O K D CJ RJ U C] Hdone.
  assert (Hf : fetching_handles (remove_done done st) = fetching_handles st)
    by (now apply fetching_handles_remove_done).
  assert (Hin : forall g job, In (g, job) (future_to_job (remove_done done st)) ->
                              In (g, job) (future_to_job st) /\ ~ In g (delivered st)).
  { simpl. intros g job H. apply filter_In in H. destruct H as [H1 H2]. split; [exact H1|].
    simpl in H2. rewrite Bool.negb_true_iff, mem_nat_false in H2.
    intros Hd. apply H2. now apply Hdone. }
  constructor.
  - exact F.
  - intros k. rewrite Hf. apply O.
  - intros x Hx. apply K. rewrite Hf in Hx. exact Hx.
  - simpl. intros g [].
  - intros f a r res Hj _. destruct (Hin _ _ Hj). now apply (CJ f a r res).
  - intros f src fs r Hj _. destruct (Hin _ _ Hj). now apply (RJ f src fs r).
  - intros r Hr. apply (in_hand_kept st); [apply store_grows_same, same_tables_refl | | auto].
    intros g job H1 H2. split; [|simpl; tauto]. simpl. apply filter_In. split; [exact H1|].
    simpl. rewrite Bool.negb_true_iff, mem_nat_false. intros Hd. apply H2. now apply Hdone.
  - intros x Hx. rewrite Hf. apply C. exact Hx.
Qed.


Lemma busy_more st st' :
  current_repos st' = current_repos st ->
  (forall job, In job (jobs st) -> In job (jobs st')) ->
  busy st -> busy st'.
Proof.
  intros Ec Hj Hb r Hr. rewrite Ec in Hr.
  destruct (busy_job st r (Hb r Hr)) as (job & H1 & H2).
  unfold idle.
  assert (Hin : In job (filter (is_code_job_of r) (jobs st')))
    by (apply filter_In; auto).
  destruct (filter (is_code_job_of r) (jobs st')); [destruct Hin | reflexivity].
Qed.

(** What the first run keeps, as long as it logs no failure. *)
Definition first (gen : list FeedEvent) (st : State) : Prop :=
  no_failures st = true -> steady [] gen st /\ busy st.

Lemma failure_logged ex st : no_failures (fst (handle_failure cfg ex st)) = false.
Proof. unfold handle_failure. now destruct (continue_on_failure (survey cfg)). Qed.

Lemma no_failures_handle repo feats st :
  no_failures (fst (handle_repo cfg repo feats st)) = true -> no_failures st = true.
Proof.
  apply (handle_repo_keeps cfg (fun s => no_failures s = true -> no_failures st = true)).
  - intros msg s H NF. apply H. now apply no_failures_log in NF.
  - intros code s H _ NF. apply H. exact NF.
  - intros a r res s H _ NF. apply H. exact NF.
  - intros s H NF. apply H. now rewrite no_failures_check in NF.
  - intros NF. exact NF.
Qed.

Lemma first_callback gen f job st :
  first gen st -> futures_ok st ->
  job_of f (future_to_job st) = Some job -> ~ In f (delivered st) ->
  snd (callback cfg job (deliver f st)) = Normal ->
  first gen (fst (callback cfg job (deliver f st))).
Proof.
  intros H Hok Hjob Hd. apply job_of_In in Hjob.
  destruct job as [src feats [repo|ex] | a r [code|ex]]; simpl.
  - intros Hn NF. destruct (H (no_failures_handle _ _ _ NF)) as [S B].
    destruct (steady_handle gen (deliver f st) repo feats) as (_ & S' & B').
    + eapply steady_deliver_repo; eauto.
    + apply (st_repo_jobs _ _ _ S f src feats repo Hjob Hd).
    + now apply (futures_ok_frame st).
    + exact Hn.
    + split; assumption.
  - intros _ NF. rewrite failure_logged in NF. discriminate.
  - unfold handle_code. rewrite not_reached. intros _ NF.
    assert (NF0 : no_failures st = true) by exact NF.
    destruct (H NF0) as [S B]. split.
    + eapply steady_save_code; eauto.
    + apply (busy_more st); auto.
  - intros _ NF. rewrite failure_logged in NF. discriminate.
Qed.

Lemma first_initial db0 : first feed (initial_state db0).
Proof.
  intros _. split.
  - constructor; simpl; try tauto.
    intros k. unfold fetching_handles. simpl. rewrite !kc_nil.
    pose proof (NoDup_kc _ feed_distinct k). lia.
  - intros r [].
Qed.

(** When the first run has ended normally and without a logged failure,
    nothing is left to do for any handle of the feed. *)
Lemma first_run_closes fuel db0 st :
  run_loop cfg fuel O feed (initial_state db0) = Finished st Normal ->
  no_failures st = true ->
  forall r, In r (feed_handles feed) -> closed r (db st).
Proof.
  intros Hrun NF r Hr.
  destruct (run_loop_rounds cfg first (fun _ _ => True)) with
    (fuel := fuel) (round := O) (gen := feed)
    (st := initial_state db0) as (gen' & _ & Hfirst & Hend).
  - intros g s _. exact I.
  - intros g e s H NF'. destruct (H NF') as [S B]. split; [|exact B].
    eapply steady_raise; eauto.
  - intros g source c msg s H _ Hskip NF'. apply no_failures_log in NF'.
    destruct (H NF') as [S B]. split; [|exact B].
    apply steady_log. exact (steady_skip g source c s S Hskip).
  - intros g source thunk s H _ Hd _ NF'.
    assert (NF0 : no_failures s = true) by exact NF'.
    destruct (H NF0) as [S B]. split; [now apply (steady_fetch g source)|].
    apply (busy_more s); [reflexivity | | exact B].
    intros job Hj. unfold jobs in *. simpl. rewrite map_app, in_app_iff. now left.
  - intros g source repo s H Hok _ _. split; [|exact I]. intros Hn NF'.
    destruct (H (no_failures_handle _ _ _ NF')) as [S B].
    destruct (steady_handle g s repo (repo_analyzer_features cfg (GotRepo repo) s))
      as (_ & S' & B').
    + eapply steady_take; eauto.
    + unfold repo_analyzer_features. rewrite cfg_survey, sv_use. simpl.
      intros fa f Hfa Hf Hrow. now apply requested_missing.
    + exact Hok.
    + exact Hn.
    + split; assumption.
  - intros g f job s H Hok Hjob Hd. split; [|exact I]. now apply first_callback.
  - intros g done s H _ _ Hdone _. split; [|exact I]. intros Hn NF'.
    rewrite no_failures_check in NF'.
    assert (NF0 : no_failures s = true) by exact NF'.
    destruct (H NF0) as [S B]. apply steady_check; [|exact Hn].
    now apply steady_remove_done.
  - apply first_initial.
  - apply initial_futures_ok.
  - reflexivity.
  - rewrite Hrun in Hfirst. simpl in Hfirst. destruct (Hfirst I NF) as [S B].
    destruct (Hend st Hrun) as [Hftj Hgen].
    assert (Hg : gen' = []).
    { destruct Hgen as [Hg|Hg]; [exact Hg|]. exfalso.
      unfold may_admit, reached_max_repos, reached_max_codes in Hg.
      rewrite cfg_repos, cfg_codes, Hftj, cfg_survey in Hg. simpl in Hg.
      apply Z.ltb_lt in sv_workers. unfold len in Hg. simpl in Hg.
      rewrite sv_workers in Hg. discriminate. }
    destruct (st_closed _ _ _ S r Hr) as [H|[[]|[H|[H|H]]]].
    + rewrite Hg in H. destruct H.
    + unfold fetching_handles in H. rewrite Hftj in H. destruct H.
    + specialize (B r H). unfold idle, jobs in B. rewrite Hftj in B. discriminate.
    + exact H.
Qed.

End First.
End OneRun.
End Survey.

(** *** Two runs on one store *)

Fixpoint distinct_keys (l : list (string * string)) : bool :=
  match l with
  | [] => true
  | k :: rest => negb (existsb (key_eqb k) rest) && distinct_keys rest
  end.

Lemma distinct_keys_NoDup l : distinct_keys l = true -> NoDup l.
Proof.
  induction l as [|k l IH]; simpl; [constructor|].
  rewrite Bool.andb_true_iff, Bool.negb_true_iff. intros [H1 H2].
  constructor; [|auto]. intros Hin.
  assert (E : existsb (key_eqb k) l = true).
  { apply existsb_exists. exists k. split; [exact Hin | apply key_eqb_refl]. }
  congruence.
Qed.

(** A repository that is fetched carries the source name and the key its
    thunk announced. *)
Definition faithful (ev : FeedEvent) : bool :=
  match ev with
  | FeedYield _ (GotRepoThunk thunk) =>
      match rt_thunk thunk with
      | Ok repo => String.eqb (repo_source repo) (rt_source thunk) &&
                   String.eqb (repo_key repo) (rt_key thunk)
      | Err _ => true
      end
  | _ => true
  end.

(** Every repository comes once: the handles the feed gives differ
    pairwise in (source name, key). *)
Definition each_repo_once (feed : list FeedEvent) : bool :=
  forallb faithful feed && distinct_keys (map key_of (feed_handles feed)).

Lemma each_repo_once_spec feed :
  each_repo_once feed = true ->
  NoDup (map key_of (feed_handles feed)) /\
  forall source thunk repo,
    In (FeedYield source (GotRepoThunk thunk)) feed -> rt_thunk thunk = Ok repo ->
    repo_source repo = rt_source thunk /\ repo_key repo = rt_key thunk.
Proof.
  unfold each_repo_once. rewrite Bool.andb_true_iff. intros [H1 H2].
  split; [now apply distinct_keys_NoDup|].
  intros source thunk repo Hin E. rewrite forallb_forall in H1.
  specialize (H1 _ Hin). simpl in H1. rewrite E in H1.
  now rewrite Bool.andb_true_iff, !String.eqb_eq in H1.
Qed.

Lemma final_cleanup_same st :
  db (final_cleanup st) = db st /\
  no_failures (final_cleanup st) = no_failures st /\
  no_unit_analysis (final_cleanup st) = no_unit_analysis st.
Proof.
  unfold final_cleanup. generalize (current_repos st) as l. intros l. revert st.
  induction l as [|r l IH]; intros st; simpl; [auto|].
  destruct (IH (log_event (EvCleanup r) st)) as (E1 & E2 & E3).
  rewrite E1, E2, E3. auto.
Qed.

Lemma init_file_analyzers srcs fas mw cpu cont occ sv :
  CodeSurvey_init srcs (map to_analyzer fas) mw cpu cont true occ true = Ok sv ->
  analyzers sv = map to_analyzer fas /\
  analyzer_features sv
  = map (fun a => (analyzer_name a, get_feature_names a)) (analyzers sv) /\
  NoDup (map fa_name fas) /\
  keeps_code_features sv = true /\ use_saved_features sv = true.
Proof.
  unfold CodeSurvey_init.
  destruct (Utils.get_duplicates (map source_name srcs)); [|discriminate].
  destruct (Utils.get_duplicates (map analyzer_name (map to_analyzer fas))) eqn:E;
    [|discriminate].
  intros [= <-]. simpl. repeat split.
  apply Utils.get_duplicates_nil in E. now rewrite map_map in E.
Qed.

(** The second of two runs of a survey of file analyzers. *)
Lemma rerun_quiet fas sv cfg1 cfg2 db0 fuel1 fuel2 st1 :
  analyzers sv = map to_analyzer fas ->
  analyzer_features sv
  = map (fun a => (analyzer_name a, get_feature_names a)) (analyzers sv) ->
  NoDup (map fa_name fas) ->
  keeps_code_features sv = true -> use_saved_features sv = true ->
  0 < max_workers sv ->
  survey cfg1 = sv -> max_repos cfg1 = None -> max_codes cfg1 = None ->
  survey cfg2 = sv ->
  each_repo_once (get_repo_generator (continue_on_failure sv) (sources sv)) = true ->
  run cfg1 fuel1 db0 = Finished st1 Normal ->
  no_failures st1 = true ->
  let st2 := result_state (run cfg2 fuel2 (db st1)) in
  no_unit_analysis st2 = true /\
  repo_feature_tbl (db st2) = repo_feature_tbl (db st1).
Proof.
  intros A1 A2 A3 A4 A5 Hw C1 C2 C3 C4 Honce Hrun NF.
  destruct (each_repo_once_spec _ Honce) as [Hnd Hfaith].
  unfold run in Hrun. rewrite C1 in Hrun.
  destruct (run_loop cfg1 fuel1 0 _ (initial_state db0)) as [s o|s] eqn:E1;
    [|discriminate].
  injection Hrun as Es Eo. subst o. subst st1.
  destruct (final_cleanup_same s) as (D1 & D2 & _).
  rewrite D2 in NF.
  pose proof (first_run_closes fas sv A1 A2 A3 A4 A5 cfg1 C1 C3 C2 Hw _ Hnd Hfaith
                fuel1 db0 s E1 NF) as Hclosed.
  rewrite <- D1 in Hclosed.
  assert (Hres : resumed fas (db (final_cleanup s))
                   (get_repo_generator (continue_on_failure sv) (sources sv))
                   (initial_state (db (final_cleanup s)))).
  { split.
    - intros source c Hin. destruct c as [repo|thunk]; simpl.
      + apply Hclosed. unfold feed_handles. apply in_flat_map.
        exists (FeedYield source (GotRepo repo)). split; [exact Hin | now left].
      + destruct (rt_thunk thunk) as [repo|ex] eqn:Et; [|exact I].
        destruct (Hfaith source thunk repo Hin Et) as [K1 K2].
        split; [exact K1|]. split; [exact K2|].
        apply Hclosed. unfold feed_handles. apply in_flat_map.
        exists (FeedYield source (GotRepoThunk thunk)). split; [exact Hin|].
        simpl. rewrite Et. now left.
    - split; [apply same_tables_refl|]. split; [reflexivity|].
      split; [intros ? ? [] | intros ? []]. }
  pose proof (run_loop_quiet fas sv A1 A2 A3 A4 A5 cfg2 C4 (db (final_cleanup s)) fuel2 _ _ Hres
                (initial_futures_ok (db (final_cleanup s))) eq_refl) as Q.
  cbv zeta. unfold run. rewrite C4.
  destruct (run_loop cfg2 fuel2 0 _ (initial_state (db (final_cleanup s)))) as [s2 o2|s2];
    cbn [result_state] in *; destruct Q as ([Q1 _] & Q2 & _).
  - destruct (final_cleanup_same s2) as (F1 & _ & F3). rewrite F1, F3. auto.
  - auto.
Qed.

End Resume.

(** ** Claim about resumption *)

(** C4 as stated fails: a survey in the default configuration whose only
    unit analysis raises.  The first run logs the failure
    ([continue_on_failure] is on), records nothing for the unit and ends; the
    second run, on the same sources, analyzers and store, finds the
    repository without aggregates and submits the unit-analysis job again. *)
Lemma C4_counterexample :
  let fa := Scenario.failing_analyzer ["u1"] in
  let sv := Scenario.survey_of [Scenario.local [Scenario.r1]]
                               [Analyzers.to_analyzer fa] 1 true true in
  let cfg := Scenario.config sv None None Scenario.fifo in
  let first := Runner.run cfg 10 Db.empty in
  let second := Runner.run cfg 10 (Runner.db (Scenario.final_state first)) in
  CodeSurvey_init [Scenario.local [Scenario.r1]] [Analyzers.to_analyzer fa]
                  (Some 1) None true true true true = Ok sv /\
  Scenario.finished_normally first = true /\
  Scenario.code_jobs_submitted (Scenario.final_state first) = 1 /\
  Resume.no_failures (Scenario.final_state first) = false /\
  Scenario.finished_normally second = true /\
  Scenario.code_jobs_submitted (Scenario.final_state second) = 1.
Proof. vm_compute. repeat split; reflexivity. Qed.

(** C4 (as amended). A survey of file analyzers built by
    [CodeSurvey.__init__] with [save_code_features] and [use_saved_features]
    on (the defaults) and at least one worker, whose sources give every
    repository once, is run without caps and ends normally without having
    logged a failure.  Then a second run with the same survey on the store the
    first one left (whatever its caps, its clock and the order in which its
    futures complete) ends, given enough rounds; it submits no unit-analysis
    job and saves no unit result; and the table of aggregates is the one the
    first run left. *)
Theorem C4_resumed_run_repeats_no_unit_analysis :
  forall (srcs : list Source) (fas : list Analyzers.FileAnalyzer) (mw cpu : option Z)
         (cont occ : bool) (sv : CodeSurvey) (cfg1 cfg2 : Runner.Config)
         (db0 : Db.Database) (fuel1 fuel2 : nat) (st1 : Runner.State),
    CodeSurvey_init srcs (map Analyzers.to_analyzer fas) mw cpu cont true occ true
    = Ok sv ->
    0 < max_workers sv ->
    Runner.survey cfg1 = sv ->
    Runner.max_repos cfg1 = None -> Runner.max_codes cfg1 = None ->
    Runner.survey cfg2 = sv ->
    Resume.each_repo_once
      (Feed.get_repo_generator (continue_on_failure sv) (sources sv)) = true ->
    Runner.run cfg1 fuel1 db0 = Runner.Finished st1 Runner.Normal ->
    Resume.no_failures st1 = true ->
    (Termination.enough_rounds cfg2 <= fuel2)%nat ->
    exists st2 o2,
      Runner.run cfg2 fuel2 (Runner.db st1) = Runner.Finished st2 o2 /\
      Resume.no_unit_analysis st2 = true /\
      Db.repo_feature_tbl (Runner.db st2) = Db.repo_feature_tbl (Runner.db st1).
Proof.
  intros srcs fas mw cpu cont occ sv cfg1 cfg2 db0 fuel1 fuel2 st1
         Hinit Hw C1 C2 C3 C4 Honce Hrun NF Hfuel.
  destruct (Resume.init_file_analyzers _ _ _ _ _ _ _ Hinit) as (A1 & A2 & A3 & A4 & A5).
  destruct (Termination.run_finishes cfg2 fuel2 (Runner.db st1) Hfuel) as (st2 & o2 & E2).
  pose proof (Resume.rerun_quiet fas sv cfg1 cfg2 db0 fuel1 fuel2 st1
                A1 A2 A3 A4 A5 Hw C1 C2 C3 C4 Honce Hrun NF) as Q.
  rewrite E2 in Q. exists st2, o2. split; [exact E2 | exact Q].
Qed.

(** C4 (as amended) at two sources of one repository each, three files per
    repository, one analyzer with one feature, two workers: the first run
    analyses six units, the second none, and the aggregates are the same. *)
Lemma C4_witness :
  let fa := Scenario.file_analyzer 1 Scenario.three_files in
  let sv := Scenario.survey_of Scenario.two_sources [Analyzers.to_analyzer fa]
                               2 true true in
  let cfg := Scenario.config sv None None Scenario.lifo in
  let st1 := Scenario.final_state (Runner.run cfg 20 Db.empty) in
  Scenario.code_jobs_submitted st1 = 6 /\
  Scenario.aggregates st1 = [(3, 3, 3); (3, 3, 3)] /\
  exists st2 o2,
    Runner.run cfg 20 (Runner.db st1) = Runner.Finished st2 o2 /\
    Resume.no_unit_analysis st2 = true /\
    Db.repo_feature_tbl (Runner.db st2) = Db.repo_feature_tbl (Runner.db st1).
Proof.
  intros fa sv cfg st1.
  split; [vm_compute; reflexivity|]. split; [vm_compute; reflexivity|].
  apply (C4_resumed_run_repeats_no_unit_analysis
           Scenario.two_sources [fa] (Some 2) None true true sv cfg cfg Db.empty
           20%nat 20%nat st1).
  - reflexivity.
  - reflexivity.
  - reflexivity.
  - reflexivity.
  - reflexivity.
  - reflexivity.
  - vm_compute. reflexivity.
  - vm_compute. reflexivity.
  - vm_compute. reflexivity.
  - vm_compute. lia.
Defined.

(** * Further properties of the code *)

(** ** codesurvey/utils.py: [get_duplicates] *)

Module UtilsFacts.

Import Utils.

(** How often [x] occurs in [items]. *)
Definition occurrences_of (x : string) (items : list string) : nat :=
  count_occ string_dec items x.

Lemma occurrences_of_In x items : In x items <-> (1 <= occurrences_of x items)%nat.
Proof. unfold occurrences_of. rewrite (count_occ_In string_dec). lia. Qed.

Lemma occurrences_of_same x rest :
  occurrences_of x (x :: rest) = S (occurrences_of x rest).
Proof. unfold occurrences_of. now rewrite count_occ_cons_eq. Qed.

Lemma occurrences_of_other x i rest :
  i <> x -> occurrences_of x (i :: rest) = occurrences_of x rest.
Proof. intros H. unfold occurrences_of. now rewrite count_occ_cons_neq. Qed.

(** The loop, started with duplicates that are pairwise different: it
    returns the duplicates it started with, the items already seen that come
    again, and the items that come twice, each once. *)
Lemma get_duplicates_loop_spec items : forall seen dups,
  NoDup dups ->
  let result := get_duplicates_loop items seen dups in
  NoDup result /\
  forall x, In x result <->
            In x dups \/ (In x seen /\ In x items) \/ (2 <= occurrences_of x items)%nat.
Proof.
  induction items as [|i rest IH]; intros seen dups Hnd; cbn zeta.
  - simpl. split; [exact Hnd|]. intros x. unfold occurrences_of. simpl.
    split; [auto|]. intros [H|[[_ []]|H]]; [exact H | lia].
  - simpl get_duplicates_loop.
    destruct (mem i seen) eqn:Hs; [destruct (mem i dups) eqn:Hd|].
    + apply mem_In in Hs, Hd. destruct (IH seen dups Hnd) as [N E]. split; [exact N|].
      intros x.
      destruct (string_dec i x) as [->|Hne];
        [rewrite E, occurrences_of_same | rewrite E, occurrences_of_other by exact Hne];
        simpl; intuition; lia.
    + apply mem_In in Hs. apply mem_false in Hd.
      assert (Hnd' : NoDup (dups ++ [i])).
      { apply NoDup_app; [exact Hnd | repeat constructor; simpl; tauto|].
        intros y Hy [<-|[]]. contradiction. }
      destruct (IH seen (dups ++ [i]) Hnd') as [N E]. split; [exact N|].
      intros x.
      destruct (string_dec i x) as [->|Hne];
        [rewrite E, in_app_iff, occurrences_of_same
        | rewrite E, in_app_iff, occurrences_of_other by exact Hne];
        simpl; intuition; lia.
    + apply mem_false in Hs. destruct (IH (i :: seen) dups Hnd) as [N E]. split; [exact N|].
      intros x.
      pose proof (occurrences_of_In x rest) as Hc.
      destruct (string_dec i x) as [->|Hne];
        [rewrite E, occurrences_of_same
        | rewrite E, occurrences_of_other by exact Hne]; simpl.
      * split.
        -- intros [H|[[_ H]|H]]; [now left | right; right; apply Hc in H; lia
                                 | right; right; lia].
        -- intros [H|[[H _]|H]]; [now left | contradiction|].
           right. left. split; [now left | apply Hc; lia].
      * intuition.
Qed.

(** X1. [get_duplicates] returns exactly the items that occur at least twice,
    each of them once. *)
Theorem get_duplicates_lists_repeated_items_once (items : list string) :
  NoDup (get_duplicates items) /\
  forall x, In x (get_duplicates items) <-> (2 <= occurrences_of x items)%nat.
Proof.
  destruct (get_duplicates_loop_spec items [] [] (NoDup_nil _)) as [N E].
  split; [exact N|]. intros x. unfold get_duplicates. rewrite E. simpl. tauto.
Qed.

End UtilsFacts.

(** ** codesurvey/utils.py: [recursive_update] *)

Module Tree.

#[local] Set Warnings "-register-all".

(** The values of a nested dictionary: a dict, in insertion order, or
    anything else (its payload is opaque). *)
Inductive Value : Type :=
| Atom (a : string)
| Dict (items : list (string * Value)).

(** [dict_a[key]], if [key in dict_a] *)
Fixpoint lookup (key : string) (items : list (string * Value)) : option Value :=
  match items with
  | [] => None
  | (k, v) :: rest => if String.eqb k key then Some v else lookup key rest
  end.

(** The dict after the value under an existing [key] has been updated in
    place: the key keeps its position. *)
Fixpoint set_item (key : string) (value : Value) (items : list (string * Value))
  : list (string * Value) :=
  match items with
  | [] => []
  | (k, v) :: rest =>
      if String.eqb k key then (k, value) :: rest else (k, v) :: set_item key value rest
  end.

Section RecursiveUpdate.

(** What happens when the value to be updated is not a dict and the items
    of a non-empty dict are to be merged into it depends on its type (an
    [int] raises [TypeError] on [key not in dict_a]; a [str] or a [list]
    passes the items whose key it contains and whose value is not a dict, and
    raises on the others).  Whatever the type, the value is not changed:
    [atom_accepts] says whether the loop ends without raising. *)
Variable atom_accepts : string -> list (string * Value) -> bool.

(** [recursive_update(dict_a, dict_b)]: the value of [dict_a] when the call
    returns, or [None] when it raises. *)
Fixpoint recursive_update (dict_a dict_b : Value) {struct dict_b} : option Value :=
  match dict_b with
  | Atom _ => None
  | Dict b_items =>
      (fix loop (items : list (string * Value)) (dict_a : Value) {struct items}
         : option Value :=
         match items with
         | [] => Some dict_a
         | (key, b_value) :: rest =>
             match dict_a with
             | Atom a => if atom_accepts a items then Some dict_a else None
             | Dict a_items =>
                 match lookup key a_items with
                 | None => loop rest (Dict (a_items ++ [(key, b_value)]))
                 | Some a_value =>
                     match b_value with
                     | Dict _ =>
                         match recursive_update a_value b_value with
                         | Some a_value' => loop rest (Dict (set_item key a_value' a_items))
                         | None => None
                         end
                     | Atom _ => loop rest dict_a
                     end
                 end
             end
         end) b_items dict_a
  end.

End RecursiveUpdate.

(** Every dict, at every depth, has each key once. *)
Inductive well_formed : Value -> Prop :=
| well_formed_atom a : well_formed (Atom a)
| well_formed_dict items :
    NoDup (map fst items) -> Forall (fun kv => well_formed (snd kv)) items ->
    well_formed (Dict items).

End Tree.

Module TreeFacts.

Import Tree.

Section Merge.
Variable atom_accepts : string -> list (string * Value) -> bool.

Local Abbreviation update := (recursive_update atom_accepts).

(** Induction on nested dictionaries. *)
Lemma Value_nested_ind (P : Value -> Prop) :
  (forall a, P (Atom a)) ->
  (forall items, Forall (fun kv => P (snd kv)) items -> P (Dict items)) ->
  forall v, P v.
Proof.
  intros HA HD. fix IH 1. intros [a|items]; [apply HA|]. apply HD.
  induction items as [|[k v] items IHitems]; constructor; [apply IH | exact IHitems].
Qed.

(** The loop of [recursive_update], one item at a time. *)
Lemma update_nil dict_a : update dict_a (Dict []) = Some dict_a.
Proof. reflexivity. Qed.

Lemma update_atom a key b_value rest :
  update (Atom a) (Dict ((key, b_value) :: rest))
  = if atom_accepts a ((key, b_value) :: rest) then Some (Atom a) else None.
Proof. reflexivity. Qed.

Lemma update_cons a_items key b_value rest :
  update (Dict a_items) (Dict ((key, b_value) :: rest))
  = match lookup key a_items with
    | None => update (Dict (a_items ++ [(key, b_value)])) (Dict rest)
    | Some a_value =>
        match b_value with
        | Dict _ =>
            match update a_value b_value with
            | Some a_value' => update (Dict (set_item key a_value' a_items)) (Dict rest)
            | None => None
            end
        | Atom _ => update (Dict a_items) (Dict rest)
        end
    end.
Proof. reflexivity. Qed.

Lemma update_of_atom a dict_b v : update (Atom a) dict_b = Some v -> v = Atom a.
Proof.
  destruct dict_b as [b|[|[key b_value] rest]]; [discriminate| |].
  - now intros [= <-].
  - rewrite update_atom. destruct (atom_accepts a _); [now intros [= <-] | discriminate].
Qed.

Lemma item_app_old key items extra v :
  lookup key items = Some v -> lookup key (items ++ extra) = Some v.
Proof.
  induction items as [|[k x] items IH]; simpl; [discriminate|].
  destruct (String.eqb k key); auto.
Qed.

Lemma item_app_new key items v :
  lookup key items = None -> lookup key (items ++ [(key, v)]) = Some v.
Proof.
  induction items as [|[k x] items IH]; simpl; [now rewrite String.eqb_refl|].
  destruct (String.eqb k key); [discriminate | auto].
Qed.

Lemma item_app_other key k v items :
  k <> key -> lookup key (items ++ [(k, v)]) = lookup key items.
Proof.
  intros Hne. induction items as [|[k' x] items IH]; simpl.
  - apply String.eqb_neq in Hne. now rewrite Hne.
  - destruct (String.eqb k' key); auto.
Qed.

Lemma lookup_set_item_same key v items old :
  lookup key items = Some old -> lookup key (set_item key v items) = Some v.
Proof.
  induction items as [|[k x] items IH]; simpl; [discriminate|].
  destruct (String.eqb k key) eqn:E; simpl; rewrite E; auto.
Qed.

Lemma lookup_set_item_other key k v items :
  k <> key -> lookup key (set_item k v items) = lookup key items.
Proof.
  intros Hne. induction items as [|[k' x] items IH]; simpl; [reflexivity|].
  destruct (String.eqb k' k) eqn:E; simpl.
  - apply String.eqb_eq in E. subst k'. apply String.eqb_neq in Hne. now rewrite Hne.
  - destruct (String.eqb k' key); auto.
Qed.

Lemma set_item_same key v items : lookup key items = Some v -> set_item key v items = items.
Proof.
  induction items as [|[k x] items IH]; simpl; [reflexivity|].
  destruct (String.eqb k key) eqn:E.
  - now intros [= ->].
  - intros H. now rewrite IH.
Qed.

Lemma keys_set_item key v items : map fst (set_item key v items) = map fst items.
Proof.
  induction items as [|[k x] items IH]; simpl; [reflexivity|].
  destruct (String.eqb k key); simpl; congruence.
Qed.

Lemma In_lookup key v items :
  NoDup (map fst items) -> In (key, v) items -> lookup key items = Some v.
Proof.
  induction items as [|[k x] items IH]; simpl; [intros _ []|].
  intros Hnd. inversion Hnd as [|? ? Hni Hnd']; subst. intros [[= -> ->]|Hin].
  - now rewrite String.eqb_refl.
  - destruct (String.eqb k key) eqn:E; [|auto].
    apply String.eqb_eq in E. subst k. exfalso. apply Hni.
    apply in_map_iff. exists (key, v). auto.
Qed.

(** What the loop over [b_items] keeps of a dict: it is still a dict, its
    keys are followed by new ones, an entry that is not a dict is what it
    was, and an entry whose key is not among [b_items] is what it was. *)
Lemma update_keeps b_items : forall a_items result,
  update (Dict a_items) (Dict b_items) = Some result ->
  exists r_items,
    result = Dict r_items /\
    (exists added, map fst r_items = map fst a_items ++ added /\
                   forall key, In key added -> In key (map fst b_items)) /\
    (forall key a, lookup key a_items = Some (Atom a) ->
                   lookup key r_items = Some (Atom a)) /\
    (forall key, ~ In key (map fst b_items) -> lookup key r_items = lookup key a_items).
Proof.
  induction b_items as [|[k bv] rest IH]; intros a_items result.
  - rewrite update_nil. intros [= <-]. exists a_items. split; [reflexivity|].
    split; [exists []; split; [now rewrite app_nil_r | intros ? []]|]. auto.
  - rewrite update_cons.
    destruct (lookup k a_items) as [av|] eqn:El.
    + assert (Hstep : forall a1,
                 map fst a1 = map fst a_items ->
                 (forall key a, lookup key a_items = Some (Atom a) ->
                                lookup key a1 = Some (Atom a)) ->
                 (forall key, key <> k -> lookup key a1 = lookup key a_items) ->
                 update (Dict a1) (Dict rest) = Some result ->
                 exists r_items,
                   result = Dict r_items /\
                   (exists added, map fst r_items = map fst a_items ++ added /\
                                  forall key, In key added ->
                                              In key (map fst ((k, bv) :: rest))) /\
                   (forall key a, lookup key a_items = Some (Atom a) ->
                                  lookup key r_items = Some (Atom a)) /\
                   (forall key, ~ In key (map fst ((k, bv) :: rest)) ->
                                lookup key r_items = lookup key a_items)).
      { intros a1 Hk Ha Ho Hu.
        destruct (IH a1 result Hu) as (r & -> & (added & Hkeys & Hadded) & Hatoms & Hother).
        exists r. split; [reflexivity|]. split; [|split].
        - exists added. split; [now rewrite Hkeys, Hk|]. intros key Hin. right. auto.
        - intros key a H. apply Hatoms. auto.
        - intros key Hn. simpl in Hn. rewrite Hother by tauto. apply Ho.
          intros ->. tauto. }
      destruct bv as [b|bi].
      * apply Hstep; auto.
      * destruct (update av (Dict bi)) as [av'|] eqn:Eu; [|discriminate].
        apply Hstep.
        -- apply keys_set_item.
        -- intros key a H. destruct (string_dec k key) as [->|Hne].
           ++ rewrite El in H. injection H as ->. apply update_of_atom in Eu. subst av'.
              now apply (lookup_set_item_same key _ a_items (Atom a)).
           ++ now rewrite lookup_set_item_other.
        -- intros key Hne. apply lookup_set_item_other. congruence.
    + intros Hu.
      destruct (IH _ result Hu) as (r & -> & (added & Hkeys & Hadded) & Hatoms & Hother).
      exists r. split; [reflexivity|]. split; [|split].
      * exists (k :: added). split.
        -- rewrite Hkeys, map_app. simpl. now rewrite <- app_assoc.
        -- intros key [<-|Hin]; [now left | right; auto].
      * intros key a H. apply Hatoms. now apply item_app_old.
      * intros key Hn. simpl in Hn. rewrite Hother by tauto.
        apply item_app_other. intros ->. tauto.
Qed.

(** A key of [dict_b] that [dict_a] does not have gets the value [dict_b]
    has for it. *)
Lemma update_adds b_items : forall a_items r_items key value,
  NoDup (map fst b_items) ->
  update (Dict a_items) (Dict b_items) = Some (Dict r_items) ->
  lookup key a_items = None -> lookup key b_items = Some value ->
  lookup key r_items = Some value.
Proof.
  induction b_items as [|[k bv] rest IH]; intros a_items r_items key value Hnd;
    [discriminate|].
  inversion Hnd as [|? ? Hni Hnd']; subst.
  rewrite update_cons. simpl. destruct (String.eqb k key) eqn:E.
  - apply String.eqb_eq in E. subst k. intros Hu Hl [= ->]. rewrite Hl in Hu.
    destruct (update_keeps rest _ _ Hu) as (r & [= <-] & _ & _ & Hother).
    rewrite (Hother key Hni). now apply item_app_new.
  - apply String.eqb_neq in E. intros Hu Hl Hb.
    destruct (lookup k a_items) as [av|] eqn:El.
    + destruct bv as [b|bi].
      * exact (IH _ _ _ _ Hnd' Hu Hl Hb).
      * destruct (update av (Dict bi)) as [av'|]; [|discriminate].
        apply (IH _ _ _ _ Hnd' Hu); [|exact Hb].
        now rewrite lookup_set_item_other.
    + apply (IH _ _ _ _ Hnd' Hu); [|exact Hb].
      now rewrite item_app_other.
Qed.

(** Merging a well-formed dict into itself changes nothing. *)
Lemma update_self : forall v items,
  v = Dict items -> well_formed v -> update v v = Some v.
Proof.
  induction v as [a|full IHfull] using Value_nested_ind; intros items; [discriminate|].
  intros _ Hwf. inversion Hwf as [|? Hnd Hall]; subst.
  assert (G : forall part,
             (forall key value, In (key, value) part -> In (key, value) full) ->
             update (Dict full) (Dict part) = Some (Dict full)).
  { induction part as [|[k bv] part IHpart]; intros Hsub; [reflexivity|].
    rewrite update_cons.
    assert (Hin : In (k, bv) full) by (apply Hsub; now left).
    rewrite (In_lookup k bv full Hnd Hin).
    assert (Hrest : update (Dict full) (Dict part) = Some (Dict full))
      by (apply IHpart; intros key value H; apply Hsub; now right).
    destruct bv as [b|bi]; [exact Hrest|].
    rewrite Forall_forall in IHfull, Hall.
    pose proof (IHfull (k, Dict bi) Hin bi eq_refl (Hall (k, Dict bi) Hin)) as Hself.
    cbn [snd] in Hself. rewrite Hself.
    rewrite (set_item_same k (Dict bi) full (In_lookup k _ full Hnd Hin)). exact Hrest. }
  apply G. auto.
Qed.

(** Merging the same dict a second time changes nothing. *)
Lemma update_again : forall dict_b,
  well_formed dict_b ->
  forall dict_a result,
    update dict_a dict_b = Some result -> update result dict_b = Some result.
Proof.
  induction dict_b as [b|b_items IHb] using Value_nested_ind; intros Hwf; [discriminate|].
  inversion Hwf as [|? Hnd Hall]; subst. clear Hwf.
  induction b_items as [|[k bv] rest IHrest]; intros dict_a result.
  - simpl. now intros [= <-].
  - inversion Hnd as [|? ? Hni Hnd']; subst.
    inversion Hall as [|? ? Hbv Hall']; subst. simpl in Hbv.
    inversion IHb as [|? ? IHbv IHb']; subst. simpl in IHbv.
    specialize (IHrest IHb' Hnd' Hall').
    destruct dict_a as [a|a_items].
    { intros H. pose proof (update_of_atom _ _ _ H) as ->. exact H. }
    rewrite update_cons.
    (* after the first item the dict is [a1] with [value] under [k]; the rest
       of the loop leaves that entry alone *)
    assert (Hdone : forall a1 value,
               lookup k a1 = Some value ->
               (forall bi, bv = Dict bi -> update value bv = Some value) ->
               update (Dict a1) (Dict rest) = Some result ->
               update result (Dict ((k, bv) :: rest)) = Some result).
    { intros a1 value Hl Hv Hu.
      destruct (update_keeps rest a1 result Hu) as (r & -> & _ & _ & Hother).
      rewrite update_cons, (Hother k Hni), Hl.
      pose proof (IHrest _ _ Hu) as Hr.
      destruct bv as [b|bi]; [exact Hr|].
      rewrite (Hv bi eq_refl), set_item_same; [exact Hr|].
      now rewrite (Hother k Hni). }
    destruct (lookup k a_items) as [av|] eqn:El.
    + destruct bv as [b|bi].
      * apply (Hdone a_items av El). discriminate.
      * destruct (update av (Dict bi)) as [av'|] eqn:Eu; [|discriminate].
        apply (Hdone _ av' (lookup_set_item_same k av' a_items av El)).
        intros bi' _. exact (IHbv Hbv av av' Eu).
    + apply (Hdone _ bv (item_app_new k a_items bv El)).
      intros bi ->. exact (update_self (Dict bi) bi eq_refl Hbv).
Qed.

End Merge.

(** X2. [recursive_update] only adds.  When the call returns, [dict_a] still
    has its keys, in their order, followed by the keys it did not have; an
    entry of [dict_a] that is not a dict is never overwritten, even when
    [dict_b] has another value for its key; and a key [dict_a] did not have
    holds the value [dict_b] has for it. *)
Theorem recursive_update_only_adds :
  forall atom_accepts a_items b_items result,
    recursive_update atom_accepts (Dict a_items) (Dict b_items) = Some result ->
    exists r_items,
      result = Dict r_items /\
      (exists added, map fst r_items = map fst a_items ++ added /\
                     forall key, In key added -> In key (map fst b_items)) /\
      (forall key a, lookup key a_items = Some (Atom a) ->
                     lookup key r_items = Some (Atom a)) /\
      (forall key, ~ In key (map fst b_items) -> lookup key r_items = lookup key a_items) /\
      (NoDup (map fst b_items) ->
       forall key value,
         lookup key a_items = None -> lookup key b_items = Some value ->
         lookup key r_items = Some value).
Proof.
  intros atom_accepts a_items b_items result H.
  destruct (update_keeps atom_accepts b_items a_items result H)
    as (r & -> & Hkeys & Hatoms & Hother).
  exists r. split; [reflexivity|]. split; [exact Hkeys|]. split; [exact Hatoms|].
  split; [exact Hother|].
  intros Hnd key value. now apply (update_adds atom_accepts b_items a_items r).
Qed.

(** X3. [recursive_update] is idempotent: once a dict (whose dicts, at every
    depth, have each key once, as Python dicts do) has been merged into
    [dict_a], merging it again changes nothing. *)
Theorem recursive_update_twice_is_once :
  forall atom_accepts dict_a dict_b result,
    well_formed dict_b ->
    recursive_update atom_accepts dict_a dict_b = Some result ->
    recursive_update atom_accepts result dict_b = Some result.
Proof.
  intros atom_accepts dict_a dict_b result Hwf. now apply update_again.
Qed.

(** Two steps of [get_survey_tree]: the results of two repositories of one
    source are merged into the tree, the second one twice. *)
Definition never : string -> list (string * Value) -> bool := fun _ _ => false.

Definition result_of (repo_key stars : string) : Value :=
  Dict [("sources",
         Dict [("local",
                Dict [("repos",
                       Dict [(repo_key,
                              Dict [("repo_metadata", Dict [("stars", Atom stars)])])])])])].

Definition merged_tree : Value :=
  Dict [("sources",
         Dict [("local",
                Dict [("repos",
                       Dict [("r1", Dict [("repo_metadata", Dict [("stars", Atom "1")])]);
                             ("r2", Dict [("repo_metadata", Dict [("stars", Atom "2")])])])])])].

Lemma well_formed_result_of repo_key stars : well_formed (result_of repo_key stars).
Proof.
  unfold result_of.
  repeat (first [ apply well_formed_atom
                | apply well_formed_dict
                | apply Forall_cons
                | apply Forall_nil
                | apply NoDup_cons
                | apply NoDup_nil
                | (simpl; tauto) ]).
Qed.

(** X2 at an instance. The result of ["r2"] merged into a tree that holds ["r1"]. *)
Lemma recursive_update_only_adds_witness :
  recursive_update never (result_of "r1" "1") (result_of "r2" "2") = Some merged_tree /\
  exists r_items,
    merged_tree = Dict r_items /\
    (exists added, map fst r_items = ["sources"] ++ added /\
                   forall key, In key added -> In key ["sources"]) /\
    (forall key a, lookup key [("sources", Dict [("local",
                Dict [("repos",
                       Dict [("r1",
                              Dict [("repo_metadata", Dict [("stars", Atom "1")])])])])])]
                   = Some (Atom a) ->
                   lookup key r_items = Some (Atom a)).
Proof.
  split; [reflexivity|].
  destruct (recursive_update_only_adds never _ _ merged_tree
              (eq_refl : recursive_update never (result_of "r1" "1") (result_of "r2" "2")
                         = Some merged_tree))
    as (r & E & Hkeys & Hatoms & _).
  exists r. split; [exact E|]. split; [exact Hkeys | exact Hatoms].
Defined.

(** X3 at an instance. The same result merged a second time. *)
Lemma recursive_update_twice_is_once_witness :
  recursive_update never merged_tree (result_of "r2" "2") = Some merged_tree.
Proof.
  apply (recursive_update_twice_is_once never (result_of "r1" "1") (result_of "r2" "2")).
  - apply well_formed_result_of.
  - reflexivity.
Defined.

End TreeFacts.

(** ** codesurvey/database.py: what is written can be read back *)

Module StoreFacts.

Import Db DbFacts Resume.

(** *** Unit records *)

Lemma code_missing_filter db s k c a fs :
  get_code_missing_features db s k c a fs
  = filter (fun f => negb (has_code_row db s k a c f)) fs.
Proof.
  pose proof (fun f => code_missing_In db s k c a fs f) as H.
  unfold get_code_missing_features, missing_of in *.
  apply filter_ext_in. intros f Hf. specialize (H f). rewrite filter_In in H.
  destruct (Utils.mem f (existing_code_features db s k a c fs));
    destruct (has_code_row db s k a c f); simpl in *; intuition congruence.
Qed.

(** X4. [get_code_missing_features] returns the requested features for which
    the table holds no row of the unit (source, repo, analyzer, code), in the
    order they were requested. *)
Theorem get_code_missing_features_lists_features_without_row :
  forall db source_name repo_key code_key analyzer_name features,
    get_code_missing_features db source_name repo_key code_key analyzer_name features
    = filter (fun feature =>
                negb (has_code_row db source_name repo_key analyzer_name code_key feature))
             features.
Proof.
  intros db s k c a fs. rewrite code_missing_filter. apply filter_ext.
  intros f. reflexivity.
Qed.

(** X5. After [save_code_features] none of the features of the saved unit is
    missing for it, whatever the store held before; and the write makes no
    feature missing, for any unit, that was not missing before. *)
Theorem saved_code_features_are_no_longer_missing :
  forall now save_occurrences code db,
    get_code_missing_features (save_code_features now save_occurrences code db)
      (repo_source (code_repo code)) (repo_key (code_repo code)) (code_key code)
      (code_analyzer code) (map fst (code_features code)) = [] /\
    forall source_name repo_key code_key analyzer_name features feature,
      In feature (get_code_missing_features (save_code_features now save_occurrences code db)
                    source_name repo_key code_key analyzer_name features) ->
      In feature (get_code_missing_features db source_name repo_key code_key
                    analyzer_name features).
Proof.
  intros now so code db. split.
  - apply code_missing_nil. intros f Hf. now apply has_code_row_saved.
  - intros s k c a fs f. rewrite !code_missing_In. intros [Hf Hrow]. split; [exact Hf|].
    destruct (has_code_row db s k a c f) eqn:E; [|reflexivity].
    rewrite (has_code_row_kept now so code db _ _ _ _ _ E) in Hrow. discriminate.
Qed.

(** *** The aggregates of a repository *)

Lemma repo_missing_listed db s k afs : forall a m,
  In (a, m) (get_repo_missing_analyzer_features db s k afs) ->
  m <> [] /\
  exists fs, In (a, fs) afs /\
             m = filter (fun f => negb (has_repo_row db s k a f)) fs.
Proof.
  unfold get_repo_missing_analyzer_features.
  induction afs as [|[a fs] afs IH]; simpl; [intros ? ? []|].
  intros a' m Hin.
  destruct (missing_of (existing_repo_features db s k a) fs) as [|x l] eqn:E; simpl in Hin.
  - destruct (IH a' m Hin) as (H1 & fs' & H2 & H3). split; [exact H1|]. eauto.
  - destruct Hin as [[= <- <-]|Hin].
    + split; [discriminate|]. exists fs. split; [now left|]. symmetry. exact E.
    + destruct (IH a' m Hin) as (H1 & fs' & H2 & H3). split; [exact H1|]. eauto.
Qed.

(** X6. [get_repo_missing_analyzer_features] returns nothing exactly when every
    feature of every analyzer it is asked about has a row for the repository;
    an analyzer it returns is one it was asked about, and comes with those of
    its features that have no row, never with an empty list. *)
Theorem get_repo_missing_analyzer_features_lists_features_without_row :
  forall db source_name repo_key analyzer_features,
    let missing :=
      get_repo_missing_analyzer_features db source_name repo_key analyzer_features in
    (missing = [] <->
     forall analyzer_name features feature,
       In (analyzer_name, features) analyzer_features -> In feature features ->
       exists row, In row (repo_feature_tbl db) /\
                   rf_source_name row = source_name /\ rf_repo_key row = repo_key /\
                   rf_analyzer_name row = analyzer_name /\ rf_feature_name row = feature) /\
    (forall analyzer_name missing_features,
       In (analyzer_name, missing_features) missing ->
       missing_features <> [] /\
       exists features,
         In (analyzer_name, features) analyzer_features /\
         missing_features
         = filter (fun feature =>
                     negb (has_repo_row db source_name repo_key analyzer_name feature))
                  features).
Proof.
  intros db s k afs missing. subst missing. split.
  - rewrite get_repo_missing_nil. split.
    + intros H a fs f Hin Hf. apply has_repo_row_true.
      specialize (H a fs Hin). unfold missing_of in H. rewrite filter_nil in H.
      specialize (H f Hf). now apply Bool.negb_false_iff in H.
    + intros H a fs Hin. unfold missing_of. apply filter_nil. intros f Hf.
      apply Bool.negb_false_iff. apply has_repo_row_true. eauto.
  - apply repo_missing_listed.
Qed.

Lemma database_eq (a b : Database) :
  repo_metadata_tbl a = repo_metadata_tbl b ->
  repo_feature_tbl a = repo_feature_tbl b ->
  code_feature_tbl a = code_feature_tbl b -> a = b.
Proof. destruct a, b. simpl. intros -> -> ->. reflexivity. Qed.

(** X7. Aggregating a repository a second time, with no unit record written in
    between, leaves the store as it is. *)
Theorem save_repo_features_twice_is_once :
  forall repo db,
    save_repo_features repo true (save_repo_features repo true db)
    = save_repo_features repo true db.
Proof.
  intros repo db.
  destruct (aggregated_resave repo _ (aggregated_saved repo db)) as [E1 E2].
  apply database_eq; [reflexivity | exact E1 | exact E2].
Qed.

(** X8. With [keep_code_features=False] the unit records of the repository, and
    only they, are deleted; afterwards every feature asked about is missing
    again for every unit of the repository. *)
Theorem save_repo_features_can_drop_the_unit_records :
  forall repo db,
    let db' := save_repo_features repo false db in
    (forall row,
       In row (code_feature_tbl db') <->
       In row (code_feature_tbl db) /\
       ~ (cf_source_name row = repo_source repo /\ cf_repo_key row = repo_key repo)) /\
    (forall code_key analyzer_name features,
       get_code_missing_features db' (repo_source repo) (repo_key repo) code_key
         analyzer_name features = features).
Proof.
  intros repo db db'. split.
  - intros row. subst db'. simpl. rewrite filter_In. unfold repo_code_filter.
    rewrite Bool.negb_true_iff, Bool.andb_false_iff, <- !Bool.not_true_iff_false,
      !String.eqb_eq.
    split; [intros [H1 H2]; split; [exact H1|tauto]|].
    intros [H1 H2]. split; [exact H1|].
    destruct (string_dec (cf_source_name row) (repo_source repo)); [|now left].
    destruct (string_dec (cf_repo_key row) (repo_key repo)); [|now right]. tauto.
  - intros c a fs. rewrite code_missing_filter.
    rewrite (filter_ext_in _ (fun _ => true)).
    + induction fs as [|f fs IH]; simpl; congruence.
    + intros f _. apply Bool.negb_true_iff.
      destruct (has_code_row db' (repo_source repo) (repo_key repo) a c f) eqn:E;
        [|reflexivity].
      apply has_code_row_true in E. destruct E as (row & Hin & E1 & E2 & _).
      subst db'. simpl in Hin. apply filter_In in Hin. destruct Hin as [_ Hf].
      unfold repo_code_filter in Hf. rewrite E1, E2, !String.eqb_refl in Hf. discriminate.
Qed.

Lemma In_distinct l x : In x l -> In x (distinct l).
Proof.
  induction l as [|y l IH]; simpl; [tauto|].
  destruct (string_dec y x) as [->|Hne]; [now left|].
  intros [H|H]; [contradiction|]. right. apply filter_In. split; [now apply IH|].
  apply Bool.negb_true_iff, String.eqb_neq. congruence.
Qed.

(** The rows upserted for one feature name: the aggregate of its group, if
    the group is not empty. *)
Lemma aggregate_rows_of_feature rows feature :
  filter (fun agg => String.eqb (rf_feature_name agg) feature) (aggregate_rows rows)
  = match group_of feature rows with
    | [] => []
    | first :: rest => [aggregate_group first rest]
    end.
Proof.
  unfold aggregate_rows.
  assert (Hname : forall name first rest,
             group_of name rows = first :: rest ->
             rf_feature_name (aggregate_group first rest) = name).
  { intros name first rest E. simpl.
    pose proof (latest_row_In rest first) as Hb. rewrite <- E in Hb.
    unfold group_of in Hb. apply filter_In in Hb. now apply String.eqb_eq. }
  assert (G : forall l, NoDup l ->
            filter (fun agg => String.eqb (rf_feature_name agg) feature)
              (flat_map (fun feature_name =>
                           match group_of feature_name rows with
                           | [] => []
                           | first :: rest => [aggregate_group first rest]
                           end) l)
            = if Utils.mem feature l
              then match group_of feature rows with
                   | [] => []
                   | first :: rest => [aggregate_group first rest]
                   end
              else []).
  { induction l as [|x l IH]; intros Hnd; [reflexivity|].
    inversion Hnd as [|? ? Hni Hnd']; subst.
    cbn [flat_map]. rewrite filter_app, (IH Hnd'). unfold Utils.mem. cbn [existsb].
    fold (Utils.mem feature l).
    destruct (String.eqb feature x) eqn:Ex.
    - apply String.eqb_eq in Ex. subst x. apply Utils.mem_false in Hni. rewrite Hni.
      rewrite app_nil_r. simpl.
      destruct (group_of feature rows) as [|first rest] eqn:Eg; [reflexivity|].
      cbn [filter]. rewrite (Hname _ _ _ Eg), String.eqb_refl. reflexivity.
    - simpl. destruct (group_of x rows) as [|first rest] eqn:Eg; [reflexivity|].
      cbn [filter]. rewrite (Hname _ _ _ Eg).
      rewrite String.eqb_sym in Ex. rewrite Ex. reflexivity. }
  rewrite (G _ (distinct_NoDup _)).
  destruct (Utils.mem feature (distinct (map cf_feature_name rows))) eqn:Em; [reflexivity|].
  destruct (group_of feature rows) as [|first rest] eqn:Eg; [reflexivity|].
  exfalso. apply Utils.mem_false in Em. apply Em. apply In_distinct.
  assert (Hin : In first (group_of feature rows)) by (rewrite Eg; now left).
  unfold group_of in Hin. apply filter_In in Hin. destruct Hin as [Hin He].
  apply String.eqb_eq in He. rewrite <- He. now apply in_map.
Qed.

(** X9. [save_repo_features] upserts one row for each feature name that has a
    unit record of the repository with a count, and none for a feature name
    whose records are all ignored ones: the query groups by the feature name
    alone, so the records of all analyzers with that feature name are counted
    together, under the analyzer name of one of them. *)
Theorem save_repo_features_writes_one_row_per_counted_feature :
  forall repo db feature,
    let units := unit_rows db (repo_source repo) (repo_key repo) feature in
    let written :=
      filter (fun agg => String.eqb (rf_feature_name agg) feature)
             (aggregate_rows (selected_rows repo db)) in
    (units = [] -> written = []) /\
    (units <> [] ->
     exists agg,
       written = [agg] /\
       rf_source_name agg = repo_source repo /\ rf_repo_key agg = repo_key repo /\
       In (rf_analyzer_name agg) (map cf_analyzer_name units) /\
       rf_code_total_count agg = Z.of_nat (List.length units)).
Proof.
  intros repo db feature units written. subst written.
  rewrite aggregate_rows_of_feature, group_of_selected. fold units.
  split; [intros ->; reflexivity|]. intros Hne.
  destruct units as [|first rest] eqn:E; [contradiction|].
  exists (aggregate_group first rest). split; [reflexivity|].
  pose proof (latest_row_In rest first) as Hb.
  assert (Hu : In (latest_row first rest) (unit_rows db (repo_source repo) (repo_key repo) feature))
    by (unfold units in E; rewrite E; exact Hb).
  destruct (unit_rows_In _ _ _ _ _ Hu) as (H1 & H2 & _).
  simpl. repeat split; auto.
  destruct Hb as [<-|Hb]; [now left|]. right. now apply in_map.
Qed.

(** Two analyzers with a feature of the same name, one file. *)
Definition shared_feature_store : Database :=
  let code_by (analyzer : string) (n : nat) :=
    {| code_analyzer := analyzer; code_repo := Scenario.r1; code_key := "u1";
       code_features := [("f", {| feat_name := "f"; feat_occurrences := repeat "o" n;
                                  feat_ignore := false |})] |} in
  save_code_features 2 true (code_by "second" 3%nat)
    (save_code_features 1 true (code_by "first" 2%nat) empty).

(** X9 at an instance. The two unit records of [shared_feature_store] are counted together,
    under the analyzer of the later one. *)
Lemma save_repo_features_writes_one_row_per_counted_feature_witness :
  map (fun agg => (rf_analyzer_name agg, rf_occurrence_count agg, rf_code_total_count agg))
      (repo_feature_tbl (save_repo_features Scenario.r1 true shared_feature_store))
  = [("second", 5, 2)] /\
  exists agg,
    filter (fun agg => String.eqb (rf_feature_name agg) "f")
           (aggregate_rows (selected_rows Scenario.r1 shared_feature_store)) = [agg] /\
    rf_source_name agg = "local" /\ rf_repo_key agg = "r1" /\
    In (rf_analyzer_name agg) ["first"; "second"] /\
    rf_code_total_count agg = 2.
Proof.
  split; [reflexivity|].
  refine (proj2 (save_repo_features_writes_one_row_per_counted_feature
                   Scenario.r1 shared_feature_store "f") _).
  discriminate.
Defined.

(** X10. A feature whose unit records of the repository are all ignored ones
    gets no aggregate: when the repository is completed the rows of that
    feature name are what they were, and a feature that was missing for the
    repository is still reported missing. *)
Theorem ignored_features_stay_missing :
  forall repo keep db analyzer_features analyzer_name features feature,
    (forall row, In row (code_feature_tbl db) ->
                 cf_source_name row = repo_source repo ->
                 cf_repo_key row = repo_key repo ->
                 cf_feature_name row = feature ->
                 cf_occurrence_count row = None) ->
    In (analyzer_name, features) analyzer_features -> In feature features ->
    has_repo_row db (repo_source repo) (repo_key repo) analyzer_name feature = false ->
    let db' := save_repo_features repo keep db in
    has_repo_row db' (repo_source repo) (repo_key repo) analyzer_name feature = false /\
    get_repo_missing_analyzer_features db' (repo_source repo) (repo_key repo)
      analyzer_features <> [].
Proof.
  intros repo keep db afs a fs f Hign Ha Hf Hrow db'.
  assert (Hu : unit_rows db (repo_source repo) (repo_key repo) f = []).
  { unfold unit_rows. apply filter_nil. intros row Hin.
    destruct (String.eqb (cf_source_name row) (repo_source repo)) eqn:E1; [|reflexivity].
    destruct (String.eqb (cf_repo_key row) (repo_key repo)) eqn:E2; [|reflexivity].
    destruct (String.eqb (cf_feature_name row) f) eqn:E3; [|now rewrite Bool.andb_false_r].
    apply String.eqb_eq in E1, E2, E3. now rewrite (Hign row Hin E1 E2 E3). }
  subst db'.
  assert (Hnew : has_repo_row (save_repo_features repo keep db)
                   (repo_source repo) (repo_key repo) a f = false).
  { destruct (has_repo_row (save_repo_features repo keep db)
                (repo_source repo) (repo_key repo) a f) eqn:E; [|reflexivity].
    apply has_repo_row_true in E. destruct E as (row & Hin & E1 & E2 & E3 & E4).
    simpl in Hin.
    apply (upsert_many_In_old _ rf_same_key) in Hin. destruct Hin as [Hin|Hin].
    - destruct (aggregate_rows_spec repo db row Hin) as (_ & _ & Hne & _).
      rewrite E4, Hu in Hne. contradiction.
    - assert (Ht : has_repo_row db (repo_source repo) (repo_key repo) a f = true)
        by (apply has_repo_row_true; eauto 10).
      congruence. }
  split; [exact Hnew|]. intros Hnil.
  pose proof (proj1 (get_repo_missing_nil _ _ _ _) Hnil a fs Ha) as Hm. clear Hnil.
  rename Hm into Hnil.
  unfold missing_of in Hnil. rewrite filter_nil in Hnil. specialize (Hnil f Hf).
  apply Bool.negb_false_iff in Hnil. unfold has_repo_row in Hnew. congruence.
Qed.

(** *** Primary keys *)

(** No two rows of the table have the same primary key. *)
Definition unique_keys {R : Type} (same_key : R -> R -> bool) (tbl : list R) : Prop :=
  ForallOrdPairs (fun a b => same_key a b = false) tbl.

Lemma rm_same_key_true a b :
  rm_same_key a b = true <->
  rm_source_name a = rm_source_name b /\ rm_repo_key a = rm_repo_key b /\
  rm_metadata_key a = rm_metadata_key b.
Proof. unfold rm_same_key. rewrite !Bool.andb_true_iff, !String.eqb_eq. tauto. Qed.

Section UniqueKeys.
Variable R : Type.
Variable same_key : R -> R -> bool.
Hypothesis same_key_refl : forall a, same_key a a = true.
Hypothesis same_key_sym : forall a b, same_key a b = same_key b a.
Hypothesis same_key_trans : forall a b c,
    same_key a b = true -> same_key b c = true -> same_key a c = true.

Lemma same_key_false_l a b c :
  same_key a b = true -> same_key a c = false -> same_key b c = false.
Proof.
  intros Hab Hac. destruct (same_key b c) eqn:E; [|reflexivity].
  rewrite (same_key_trans _ _ _ Hab E) in Hac. discriminate.
Qed.

Lemma unique_keys_upsert new tbl :
  unique_keys same_key tbl -> unique_keys same_key (upsert same_key new tbl).
Proof.
  unfold unique_keys. induction 1 as [|old tbl Hold Hrest IH]; simpl.
  - repeat constructor.
  - destruct (same_key old new) eqn:E.
    + constructor; [|exact Hrest]. rewrite Forall_forall in *. intros x Hx.
      apply (same_key_false_l old); auto.
    + constructor; [|exact IH]. rewrite Forall_forall in *. intros x Hx.
      destruct (upsert_In_old _ _ _ _ _ Hx) as [->|Hin]; auto.
Qed.

Lemma unique_keys_upsert_many news : forall tbl,
  unique_keys same_key tbl -> unique_keys same_key (upsert_many same_key news tbl).
Proof.
  unfold upsert_many. induction news as [|n news IH]; simpl; intros tbl H; [exact H|].
  apply IH. now apply unique_keys_upsert.
Qed.

Lemma unique_keys_filter p tbl :
  unique_keys same_key tbl -> unique_keys same_key (filter p tbl).
Proof.
  unfold unique_keys. induction 1 as [|x tbl Hx Hrest IH]; simpl; [constructor|].
  destruct (p x); [|exact IH]. constructor; [|exact IH].
  rewrite Forall_forall in *. intros y Hy. apply filter_In in Hy. apply Hx. tauto.
Qed.

(** With unique keys a key names one row. *)
Lemma unique_keys_same a b tbl :
  unique_keys same_key tbl -> In a tbl -> In b tbl -> same_key a b = true -> a = b.
Proof.
  unfold unique_keys. induction 1 as [|x tbl Hx Hrest IH]; simpl; [tauto|].
  rewrite Forall_forall in Hx. intros [->|Ha] [->|Hb] E; auto.
  - rewrite (Hx b Hb) in E. discriminate.
  - rewrite same_key_sym, (Hx a Ha) in E. discriminate.
Qed.

(** Rows with pairwise different keys are all in the table after they were
    inserted together. *)
Lemma upsert_many_In_new news : forall tbl new,
  unique_keys same_key news -> In new news ->
  In new (upsert_many same_key news tbl).
Proof.
  induction news as [|n news IH]; intros tbl new Hu Hin; [destruct Hin|].
  inversion Hu as [|? ? Hn Hrest]; subst.
  change (upsert_many same_key (n :: news) tbl)
    with (upsert_many same_key news (upsert same_key n tbl)).
  destruct Hin as [->|Hin]; [|now apply IH].
  destruct (upsert_many_keeps R same_key same_key_refl same_key_trans news
              (upsert same_key new tbl) new (upsert_In_new R same_key new tbl))
    as (row & H1 & H2 & [->|H3]); [exact H1|].
  rewrite Forall_forall in Hn. rewrite (Hn row H3) in H2. discriminate.
Qed.
End UniqueKeys.

Lemma rm_same_key_refl a : rm_same_key a a = true.
Proof. apply rm_same_key_true. auto. Qed.

Lemma rm_same_key_sym a b : rm_same_key a b = rm_same_key b a.
Proof.
  unfold rm_same_key.
  now rewrite (String.eqb_sym (rm_source_name a)), (String.eqb_sym (rm_repo_key a)),
    (String.eqb_sym (rm_metadata_key a)).
Qed.

Lemma rm_same_key_trans a b c :
  rm_same_key a b = true -> rm_same_key b c = true -> rm_same_key a c = true.
Proof. rewrite !rm_same_key_true. intuition congruence. Qed.

Lemma cf_same_key_sym a b : cf_same_key a b = cf_same_key b a.
Proof.
  unfold cf_same_key.
  now rewrite (String.eqb_sym (cf_source_name a)), (String.eqb_sym (cf_repo_key a)),
    (String.eqb_sym (cf_analyzer_name a)), (String.eqb_sym (cf_code_key a)),
    (String.eqb_sym (cf_feature_name a)).
Qed.

(** *** Reading back what was written *)

(** A finished analysis of one file of [Scenario.r1]: one occurrence of
    ["f"], and ["g"] ignored. *)
Definition sample_code (key : string) : Code :=
  {| code_analyzer := "python"; code_repo := Scenario.r1; code_key := key;
     code_features :=
       [("f", {| feat_name := "f"; feat_occurrences := ["o"]; feat_ignore := false |});
        ("g", {| feat_name := "g"; feat_occurrences := []; feat_ignore := true |})] |}.

Definition sample_store : Database :=
  save_code_features 2 true (sample_code "u2") (save_code_features 1 true (sample_code "u1") empty).

(** X10 at an instance. A repository of two files in which ["g"] was ignored. *)
Lemma ignored_features_stay_missing_witness :
  has_repo_row (save_repo_features Scenario.r1 true sample_store) "local" "r1" "python" "f"
  = true /\
  has_repo_row (save_repo_features Scenario.r1 true sample_store) "local" "r1" "python" "g"
  = false /\
  get_repo_missing_analyzer_features (save_repo_features Scenario.r1 true sample_store)
    "local" "r1" [("python", ["f"; "g"])] <> [].
Proof.
  split; [reflexivity|].
  apply (ignored_features_stay_missing Scenario.r1 true sample_store
           [("python", ["f"; "g"])] "python" ["f"; "g"] "g").
  - intros row Hin _ _ Hg. simpl in Hin.
    destruct Hin as [<-|[<-|[<-|[<-|[]]]]]; simpl in *; try reflexivity; discriminate.
  - now left.
  - right. now left.
  - reflexivity.
Defined.

(** X12. [save_code_features] stores the result of a unit: for each feature of
    the code the table then holds the row of the unit and the feature, with
    the time of the write, the number of occurrences (null for an ignored
    feature) and, if [save_occurrences] is on and the feature is not ignored,
    the occurrences; when the keys of the table were unique it holds no other
    row for the unit and the feature, so a record written before is
    replaced. *)
Theorem save_code_features_stores_the_result :
  forall now save_occurrences code db feature_name feature,
    NoDup (map fst (code_features code)) ->
    In (feature_name, feature) (code_features code) ->
    let db' := save_code_features now save_occurrences code db in
    exists row,
      In row (code_feature_tbl db') /\
      cf_source_name row = repo_source (code_repo code) /\
      cf_repo_key row = repo_key (code_repo code) /\
      cf_analyzer_name row = code_analyzer code /\
      cf_code_key row = code_key code /\
      cf_feature_name row = feature_name /\
      cf_updated row = now /\
      cf_occurrence_count row
      = (if feat_ignore feature then None
         else Some (Z.of_nat (List.length (feat_occurrences feature)))) /\
      cf_occurrences row
      = (if feat_ignore feature || negb save_occurrences then None
         else Some (feat_occurrences feature)) /\
      (unique_keys cf_same_key (code_feature_tbl db) ->
       forall other, In other (code_feature_tbl db') -> cf_same_key other row = true ->
                     other = row).
Proof.
  intros now so code db f feature Hnd Hin db'.
  exists (code_row now so code (f, feature)).
  assert (Hrow : In (code_row now so code (f, feature)) (code_feature_tbl db')).
  { subst db'. simpl. apply upsert_many_In_new.
    - exact cf_same_key_refl.
    - exact cf_same_key_trans.
    - now apply code_rows_pairwise.
    - now apply in_map. }
  split; [exact Hrow|]. simpl. repeat split.
  intros Hu other Hother Hk.
  apply (unique_keys_same _ cf_same_key cf_same_key_sym other _ (code_feature_tbl db'));
    auto.
  subst db'. simpl. apply unique_keys_upsert_many; [exact cf_same_key_trans | exact Hu].
Qed.

(** X12 at an instance. A unit analysed a second time, with one occurrence more: the record of
    ["f"] is replaced. *)
Lemma save_code_features_stores_the_result_witness :
  let again := {| code_analyzer := "python"; code_repo := Scenario.r1; code_key := "u1";
                  code_features :=
                    [("f", {| feat_name := "f"; feat_occurrences := ["o"; "p"];
                              feat_ignore := false |})] |} in
  map (fun row => (cf_code_key row, cf_feature_name row, cf_occurrence_count row))
      (code_feature_tbl (save_code_features 3 false again sample_store))
  = [("u1", "f", Some 2); ("u1", "g", None); ("u2", "f", Some 1); ("u2", "g", None)] /\
  exists row,
    In row (code_feature_tbl (save_code_features 3 false again sample_store)) /\
    cf_code_key row = "u1" /\ cf_feature_name row = "f" /\ cf_updated row = 3 /\
    cf_occurrence_count row = Some 2 /\ cf_occurrences row = None.
Proof.
  intros again. split; [reflexivity|].
  destruct (save_code_features_stores_the_result 3 false again sample_store "f"
              {| feat_name := "f"; feat_occurrences := ["o"; "p"]; feat_ignore := false |})
    as (row & H1 & _ & _ & _ & H2 & H3 & H4 & H5 & H6 & _).
  - simpl. repeat constructor. simpl. tauto.
  - now left.
  - exists row. auto 10.
Defined.

Lemma metadata_rows_unique now source key (l : list (string * string)) :
  NoDup (map fst l) ->
  unique_keys rm_same_key
    (map (fun kv => {| rm_updated := now; rm_source_name := source; rm_repo_key := key;
                       rm_metadata_key := fst kv; rm_metadata_value := snd kv |}) l).
Proof.
  induction l as [|kv l IH]; simpl; intros Hnd; [constructor|].
  inversion Hnd as [|? ? Hni Hnd']; subst. constructor; [|now apply IH].
  apply Forall_forall. intros x Hx. apply in_map_iff in Hx. destruct Hx as (kv' & <- & Hkv').
  unfold rm_same_key. simpl.
  destruct (String.eqb (fst kv) (fst kv')) eqn:E; [|now rewrite Bool.andb_false_r].
  apply String.eqb_eq in E. exfalso. apply Hni. rewrite E. now apply in_map.
Qed.

(** X13. The metadata of a repository, saved by [save_repo_metadata], is what
    [_get_repo_metadata] gives for it afterwards: each key of the metadata
    maps to the new value and to no other, the keys saved earlier and not
    given again keep their value, and other repositories are not touched. *)
Theorem saved_metadata_is_read_back :
  forall now repo db,
    NoDup (map fst (repo_metadata repo)) ->
    unique_keys rm_same_key (repo_metadata_tbl db) ->
    let db' := save_repo_metadata now repo db in
    (forall key value value',
        In (key, value) (repo_metadata repo) ->
        (In (key, value') (get_repo_metadata db' (repo_source repo) (repo_key repo))
         <-> value' = value)) /\
    (forall key value,
        ~ In key (map fst (repo_metadata repo)) ->
        (In (key, value) (get_repo_metadata db' (repo_source repo) (repo_key repo))
         <-> In (key, value) (get_repo_metadata db (repo_source repo) (repo_key repo)))) /\
    (forall source_name key,
        (source_name, key) <> (repo_source repo, repo_key repo) ->
        get_repo_metadata db' source_name key = get_repo_metadata db source_name key).
Proof.
  intros now repo db Hnd Hu db'.
  set (row_of := fun kv : string * string =>
                   {| rm_updated := now; rm_source_name := repo_source repo;
                      rm_repo_key := repo_key repo; rm_metadata_key := fst kv;
                      rm_metadata_value := snd kv |}).
  set (news := map row_of (repo_metadata repo)).
  assert (Etbl : repo_metadata_tbl db' = upsert_many rm_same_key news (repo_metadata_tbl db))
    by reflexivity.
  assert (Hin_get : forall d s k key value,
             In (key, value) (get_repo_metadata d s k) <->
             exists row, In row (repo_metadata_tbl d) /\ rm_source_name row = s /\
                         rm_repo_key row = k /\ rm_metadata_key row = key /\
                         rm_metadata_value row = value).
  { intros d s k key value. unfold get_repo_metadata. rewrite in_map_iff. split.
    - intros (row & [= E1 E2] & Hin). apply filter_In in Hin. destruct Hin as [Hin H].
      rewrite Bool.andb_true_iff, !String.eqb_eq in H. exists row. tauto.
    - intros (row & Hin & E1 & E2 & E3 & E4). exists row. split; [congruence|].
      apply filter_In. split; [exact Hin|].
      rewrite Bool.andb_true_iff, !String.eqb_eq. tauto. }
  assert (Hnews : unique_keys rm_same_key news)
    by (apply metadata_rows_unique; exact Hnd).
  assert (Hu' : unique_keys rm_same_key (repo_metadata_tbl db')).
  { rewrite Etbl. apply unique_keys_upsert_many; [exact rm_same_key_trans | exact Hu]. }
  split; [|split].
  - intros key value value' Hkv.
    assert (Hnew : In (row_of (key, value)) (repo_metadata_tbl db')).
    { rewrite Etbl. apply upsert_many_In_new;
        [exact rm_same_key_refl | exact rm_same_key_trans | exact Hnews |].
      subst news. now apply in_map. }
    rewrite Hin_get. split.
    + intros (row & Hin & E1 & E2 & E3 & E4).
      assert (E : row = row_of (key, value)).
      { apply (unique_keys_same _ rm_same_key rm_same_key_sym row (row_of (key, value))
                 (repo_metadata_tbl db') Hu' Hin Hnew).
        apply rm_same_key_true. simpl. auto. }
      rewrite E in E4. simpl in E4. congruence.
    + intros ->. exists (row_of (key, value)). simpl. auto.
  - intros key value Hkey. rewrite !Hin_get. split.
    + intros (row & Hin & E). exists row. split; [|exact E].
      rewrite Etbl in Hin. apply (upsert_many_In_old _ rm_same_key) in Hin.
      destruct Hin as [Hin|Hin]; [|exact Hin].
      exfalso. apply Hkey. subst news. apply in_map_iff in Hin.
      destruct Hin as (kv & <- & Hkv). destruct E as (_ & _ & <- & _). simpl.
      now apply in_map.
    + intros (row & Hin & E).
      destruct (upsert_many_keeps _ rm_same_key rm_same_key_refl rm_same_key_trans
                  news (repo_metadata_tbl db) row Hin) as (row' & H1 & H2 & [->|H3]).
      * exists row. rewrite Etbl. auto.
      * exfalso. apply Hkey. subst news. apply in_map_iff in H3.
        destruct H3 as (kv & <- & Hkv). apply rm_same_key_true in H2. simpl in H2.
        destruct E as (_ & _ & <- & _). destruct H2 as (_ & _ & ->). now apply in_map.
  - intros s k Hne. unfold get_repo_metadata. f_equal. rewrite Etbl.
    apply filter_upsert_many. intros new Hin. subst news. apply in_map_iff in Hin.
    destruct Hin as (kv & <- & _).
    assert (Hf : forall row, rm_source_name row = repo_source repo ->
                             rm_repo_key row = repo_key repo ->
                             String.eqb (rm_source_name row) s && String.eqb (rm_repo_key row) k
                             = false).
    { intros row E1 E2.
      destruct (String.eqb (rm_source_name row) s) eqn:Es; [|reflexivity].
      destruct (String.eqb (rm_repo_key row) k) eqn:Ek; [|reflexivity].
      apply String.eqb_eq in Es, Ek. exfalso. apply Hne. congruence. }
    split; [now apply Hf|].
    intros old Hk. apply rm_same_key_true in Hk. simpl in Hk. apply Hf; tauto.
Qed.

(** X13 at an instance. Metadata saved twice for one repository: the second value of ["stars"]
    is the one read back, and ["forks"], saved the first time only, stays. *)
Lemma saved_metadata_is_read_back_witness :
  let first := {| repo_id := 1; repo_source := "github"; repo_key := "a/b";
                  repo_path := "/tmp/1"; repo_cleanup := 1;
                  repo_metadata := [("stars", "10"); ("forks", "2")] |} in
  let second := {| repo_id := 2; repo_source := "github"; repo_key := "a/b";
                   repo_path := "/tmp/2"; repo_cleanup := 2;
                   repo_metadata := [("stars", "11")] |} in
  let db := save_repo_metadata 1 first empty in
  get_repo_metadata (save_repo_metadata 2 second db) "github" "a/b"
  = [("stars", "11"); ("forks", "2")] /\
  (In ("stars", "11") (get_repo_metadata (save_repo_metadata 2 second db) "github" "a/b")
   <-> "11" = "11").
Proof.
  intros first second db. split; [reflexivity|].
  refine (proj1 (saved_metadata_is_read_back 2 second db _ _) "stars" "11" "11" _).
  - simpl. repeat constructor. simpl. tauto.
  - apply unique_keys_upsert_many; [exact rm_same_key_trans | constructor].
  - now left.
Defined.

(** X14. The aggregates [save_repo_features] computes for a repository are among
    the rows [get_repo_features] returns for it (as [check_repo_completion]
    asks for them, by source name and repo key), each with the metadata of
    the repository; and when the keys of the table were unique before, no
    other row is returned under the key of such an aggregate. *)
Theorem saved_repo_features_are_read_back :
  forall repo keep db agg,
    In agg (aggregate_rows (selected_rows repo db)) ->
    let db' := save_repo_features repo keep db in
    In (agg, get_repo_metadata db (repo_source repo) (repo_key repo))
       (get_repo_features db' (Some [repo_source repo]) (Some [repo_key repo]) None None) /\
    (unique_keys rf_same_key (repo_feature_tbl db) ->
     forall row metadata,
       In (row, metadata) (get_repo_features db' None None None None) ->
       rf_same_key row agg = true -> row = agg).
Proof.
  intros repo keep db agg Hagg db'.
  assert (Hin : In agg (repo_feature_tbl db')).
  { pose proof (stored_upsert_many (aggregate_rows (selected_rows repo db))
                  (repo_feature_tbl db) (aggregate_features_NoDup _)) as Hs.
    rewrite Forall_forall in Hs. specialize (Hs agg Hagg). unfold stored in Hs.
    apply find_some in Hs. exact (proj1 Hs). }
  destruct (aggregate_rows_spec repo db agg Hagg) as (E1 & E2 & _).
  split.
  - unfold get_repo_features. apply in_map_iff. exists agg. split.
    + rewrite E1, E2. reflexivity.
    + apply filter_In. split; [exact Hin|]. simpl. unfold Utils.mem. simpl.
      now rewrite E1, E2, !String.eqb_refl.
  - intros Hu row md Hrow Hk. unfold get_repo_features in Hrow. apply in_map_iff in Hrow.
    destruct Hrow as (row' & [= -> _] & Hrow). apply filter_In in Hrow.
    apply (unique_keys_same _ rf_same_key rf_same_key_sym row agg (repo_feature_tbl db'));
      [|tauto|exact Hin|exact Hk].
    apply unique_keys_upsert_many; [exact rf_same_key_trans | exact Hu].
Qed.

(** X14 at an instance. The aggregate of ["f"] over the two files of [sample_store]. *)
Lemma saved_repo_features_are_read_back_witness :
  let agg := {| rf_updated := 2; rf_source_name := "local"; rf_repo_key := "r1";
                rf_analyzer_name := "python"; rf_feature_name := "f";
                rf_occurrence_count := 2; rf_code_occurrence_count := 2;
                rf_code_total_count := 2 |} in
  In (agg, []) (get_repo_features (save_repo_features Scenario.r1 false sample_store)
                  (Some ["local"]) (Some ["r1"]) None None).
Proof.
  intros agg.
  refine (proj1 (saved_repo_features_are_read_back Scenario.r1 false sample_store agg _)).
  now left.
Defined.

End StoreFacts.

(** ** codesurvey/analyzers/features.py: feature finders *)

Module Finders.

Import Analyzers.

(** What a user-defined feature finder function may return: a [Feature], a
    dictionary with which to create one (its keys [occurrences] and [ignore]
    are both optional), or something else. *)
Inductive FinderResult : Type :=
| ReturnsFeature (feature : Feature)
| ReturnsDict (occurrences : option (list string)) (ignore : option bool)
| ReturnsOther.

Definition FeatureFinderFunction : Type := string -> Try FinderResult.

(** [_normalize_feature]: a [Feature] is renamed, a dictionary is completed
    with the defaults of the dataclass ([occurrences=[]], [ignore=False]). *)
Definition _normalize_feature (name : string) (feature : FinderResult) : Try Feature :=
  match feature with
  | ReturnsFeature f =>
      Ok {| feat_name := name; feat_occurrences := feat_occurrences f;
            feat_ignore := feat_ignore f |}
  | ReturnsDict occurrences ignore =>
      Ok {| feat_name := name;
            feat_occurrences := match occurrences with Some o => o | None => [] end;
            feat_ignore := match ignore with Some i => i | None => false end |}
  | ReturnsOther =>
      Err (ValueError "Feature finders must either return a Feature object or a dictionary with which to create a Feature.")
  end.

(** The decorator [feature_finder(name)] applied to [func]. *)
Definition feature_finder (name : string) (func : FeatureFinderFunction) : FeatureFinder :=
  {| ff_name := name;
     ff_call := fun code_repr =>
       match func code_repr with
       | Err e => Err e
       | Ok feature => _normalize_feature name feature
       end |}.

(** [partial_feature_finder]; [feature_finder_function] stands for the
    function with the given arguments applied. *)
Definition partial_feature_finder (name : string)
    (feature_finder_function : FeatureFinderFunction) : FeatureFinder :=
  {| ff_name := name;
     ff_call := fun code_repr =>
       match feature_finder_function code_repr with
       | Err e => Err e
       | Ok feature => _normalize_feature name feature
       end |}.

(** The list comprehension of [_union_feature_finder], which calls each
    finder in turn: the first exception ends it. *)
Fixpoint feature_results_of (feature_finders : list FeatureFinder) (code_repr : string)
  : Try (list Feature) :=
  match feature_finders with
  | [] => Ok []
  | finder :: rest =>
      match ff_call finder code_repr with
      | Err e => Err e
      | Ok result =>
          match feature_results_of rest code_repr with
          | Err e => Err e
          | Ok results => Ok (result :: results)
          end
      end
  end.

Definition _union_feature_finder (feature_finders : list FeatureFinder)
  : FeatureFinderFunction :=
  fun code_repr =>
    match feature_results_of feature_finders code_repr with
    | Err e => Err e
    | Ok feature_results =>
        Ok (ReturnsDict
              (Some (flat_map feat_occurrences feature_results))
              (Some (forallb feat_ignore feature_results)))
    end.

Definition union_feature_finder (name : string) (feature_finders : list FeatureFinder)
  : FeatureFinder :=
  partial_feature_finder name (_union_feature_finder feature_finders).

End Finders.

Module FinderFacts.

Import Analyzers Finders Db.

Lemma feature_results_of_all finders code_repr : forall results,
  Forall2 (fun finder result => ff_call finder code_repr = Ok result) finders results ->
  feature_results_of finders code_repr = Ok results.
Proof.
  induction 1 as [|finder result finders results H _ IH]; simpl; [reflexivity|].
  now rewrite H, IH.
Qed.

Lemma feature_results_of_first_failure code_repr before : forall results finder after e,
  Forall2 (fun finder result => ff_call finder code_repr = Ok result) before results ->
  ff_call finder code_repr = Err e ->
  feature_results_of (before ++ finder :: after) code_repr = Err e.
Proof.
  induction before as [|b before IH]; intros results finder after e H He; simpl.
  - now rewrite He.
  - inversion H as [|? r ? rs Hb Hrest]; subst. rewrite Hb.
    now rewrite (IH rs finder after e Hrest He).
Qed.

(** X15. A union of feature finders carries its own name, whatever the results of
    its members are called.  When every member succeeds on a unit, the union
    has the occurrences of all members, in the order of the members, and
    ignores the unit exactly when every member ignores it (so a union of no
    finder ignores every unit); the count saved for the unit is then the sum
    of the members' counts.  When a member raises, the union raises the
    exception of the first member that does. *)
Theorem union_feature_finder_unites_its_members :
  forall name finders code_repr,
    ff_name (union_feature_finder name finders) = name /\
    (forall results,
        Forall2 (fun finder result => ff_call finder code_repr = Ok result)
                finders results ->
        exists union,
          ff_call (union_feature_finder name finders) code_repr = Ok union /\
          feat_name union = name /\
          feat_occurrences union = flat_map feat_occurrences results /\
          (feat_ignore union = true <->
           forall result, In result results -> feat_ignore result = true) /\
          Z.of_nat (List.length (feat_occurrences union))
          = sum_Z (map (fun result => Z.of_nat (List.length (feat_occurrences result)))
                       results)) /\
    (forall before finder after results e,
        finders = before ++ finder :: after ->
        Forall2 (fun finder result => ff_call finder code_repr = Ok result)
                before results ->
        ff_call finder code_repr = Err e ->
        ff_call (union_feature_finder name finders) code_repr = Err e).
Proof.
  intros name finders code_repr. split; [reflexivity|]. split.
  - intros results H. simpl. unfold _union_feature_finder.
    rewrite (feature_results_of_all finders code_repr results H). simpl.
    eexists. split; [reflexivity|]. simpl. split; [reflexivity|]. split; [reflexivity|].
    split.
    + rewrite forallb_forall. tauto.
    + clear H. induction results as [|r results IH]; [reflexivity|].
      simpl. rewrite length_app, Nat2Z.inj_add, IH. reflexivity.
  - intros before finder after results e -> H He. simpl. unfold _union_feature_finder.
    now rewrite (feature_results_of_first_failure code_repr before results finder after e H He).
Qed.

End FinderFacts.

(** ** codesurvey/analyzers/core.py: [Analyzer.analyze_code] *)

Module AnalyzerFacts.

Import Analyzers Finders Db Resume.

Lemma feature_results_ok fa code_repr : forall features results,
  feature_results fa code_repr features = Ok results ->
  map fst results = features /\
  forall feature, In feature features ->
    exists finder result,
      find_finder fa feature = Some finder /\ ff_call finder code_repr = Ok result /\
      In (feature, result) results.
Proof.
  induction features as [|f features IH]; simpl; intros results.
  - intros [= <-]. split; [reflexivity | intros ? []].
  - destruct (find_finder fa f) as [finder|] eqn:Ef; [|discriminate].
    destruct (ff_call finder code_repr) as [result|] eqn:Ec; [|discriminate].
    destruct (feature_results fa code_repr features) as [rest|] eqn:Er; [|discriminate].
    intros [= <-]. destruct (IH rest eq_refl) as [IH1 IH2]. simpl. split; [now rewrite IH1|].
    intros feature [<-|Hin].
    + exists finder, result. auto.
    + destruct (IH2 feature Hin) as (ff & r & H1 & H2 & H3). exists ff, r. auto.
Qed.

Lemma feature_results_succeeds fa code_repr : forall features,
  (forall feature, In feature features ->
     exists finder result,
       find_finder fa feature = Some finder /\ ff_call finder code_repr = Ok result) ->
  exists results, feature_results fa code_repr features = Ok results.
Proof.
  induction features as [|f features IH]; simpl; intros H; [eauto|].
  destruct (H f (or_introl eq_refl)) as (finder & result & -> & ->).
  destruct IH as [rest ->]; [intros; apply H; now right|]. eauto.
Qed.

(** X16. [analyze_code] returns a result exactly when preparing the file does not
    raise and, unless the file is to be ignored, every requested feature has
    a finder and that finder does not raise.  For a file to be ignored no
    finder is asked: the call succeeds whatever the requested features
    are. *)
Theorem analyze_code_succeeds_iff :
  forall fa repo code_key features,
    (exists code, analyze_code fa repo code_key features = Ok code) <->
    (fa_prepare_file fa repo code_key = Ok None \/
     exists code_repr,
       fa_prepare_file fa repo code_key = Ok (Some code_repr) /\
       forall feature, In feature features ->
         exists finder result,
           find_finder fa feature = Some finder /\ ff_call finder code_repr = Ok result).
Proof.
  intros fa repo key fs. unfold analyze_code.
  destruct (fa_prepare_file fa repo key) as [[r|]|e].
  - split.
    + intros [code H]. right. exists r. split; [reflexivity|].
      destruct (feature_results fa r fs) as [results|] eqn:E; [|discriminate].
      intros f Hf. destruct (proj2 (feature_results_ok fa r fs results E) f Hf)
        as (ff & res & H1 & H2 & _). eauto.
    + intros [H|(r' & [= <-] & H)]; [discriminate|].
      destruct (feature_results_succeeds fa r fs H) as [results ->]. eauto.
  - split; [auto | eauto].
  - split; [intros [code H]; discriminate|].
    intros [H|(r & H & _)]; discriminate.
Qed.

(** X17. The result of [analyze_code] is a [Code] of the analyzer for the repo
    and the key given, with a result for exactly the requested features; for
    a file to be ignored every one of them is an empty, ignored [Feature].
    Once the result is saved, none of the requested features is missing for
    the unit any more, whether the file was ignored or not. *)
Theorem analyze_code_answers_the_request :
  forall fa repo file_key features code,
    analyze_code fa repo file_key features = Ok code ->
    code_analyzer code = fa_name fa /\ code_repo code = repo /\
    code_key code = file_key /\
    (forall feature, In feature (map fst (code_features code)) <-> In feature features) /\
    (fa_prepare_file fa repo file_key = Ok None ->
     forall feature result, In (feature, result) (code_features code) ->
       result = {| feat_name := feature; feat_occurrences := []; feat_ignore := true |}) /\
    (forall now save_occurrences db,
        get_code_missing_features (save_code_features now save_occurrences code db)
          (repo_source repo) (repo_key repo) file_key (fa_name fa) features = []).
Proof.
  intros fa repo key fs code H.
  destruct (analyze_code_ok fa repo key fs code H) as (E1 & E2 & E3 & E4).
  split; [exact E2|]. split; [exact E1|]. split; [exact E3|]. split; [|split].
  - intros f. now rewrite E4.
  - intros Hp f res Hin. unfold analyze_code in H. rewrite Hp in H.
    injection H as <-. simpl in Hin. apply in_map_iff in Hin.
    destruct Hin as (x & [= <- <-] & _). reflexivity.
  - intros now so db. apply code_missing_nil. intros f Hf.
    rewrite <- E1, <- E2, <- E3. apply has_code_row_saved. now rewrite E4.
Qed.

(** An analyzer of two features that ignores the files whose key is
    ["skip"]. *)
Definition sample_analyzer : FileAnalyzer :=
  {| fa_name := "python";
     fa_feature_finders :=
       [feature_finder "f" (fun _ => Ok (ReturnsDict (Some ["o1"; "o2"]) None));
        union_feature_finder "g"
          [feature_finder "g1" (fun _ => Ok (ReturnsDict (Some ["o3"]) None));
           feature_finder "g2" (fun _ => Ok (ReturnsDict None (Some true)))]];
     fa_file_keys := fun _ => ["a.py"; "skip"];
     fa_prepare_file := fun _ key => if String.eqb key "skip" then Ok None else Ok (Some key) |}.

(** X17 at an instance. A file analysed for both features of [sample_analyzer], and saved. *)
Lemma analyze_code_answers_the_request_witness :
  let code := {| code_analyzer := "python"; code_repo := Scenario.r1; code_key := "a.py";
                 code_features :=
                   [("f", {| feat_name := "f"; feat_occurrences := ["o1"; "o2"];
                             feat_ignore := false |});
                    ("g", {| feat_name := "g"; feat_occurrences := ["o3"];
                             feat_ignore := false |})] |} in
  analyze_code sample_analyzer Scenario.r1 "a.py" ["f"; "g"] = Ok code /\
  get_code_missing_features (save_code_features 1 true code empty)
    "local" "r1" "a.py" "python" ["f"; "g"] = [].
Proof.
  intros code. split; [reflexivity|].
  exact (proj2 (proj2 (proj2 (proj2 (proj2
           (analyze_code_answers_the_request sample_analyzer Scenario.r1 "a.py" ["f"; "g"]
              code eq_refl))))) 1 true empty).
Defined.

(** *** [FileAnalyzer.code_generator] and the saved results *)

(** X18. A file for which [code_generator] yields a thunk is skipped the next
    time, once the result of the thunk is saved: with [use_saved_features]
    on, the thunk asks for the features missing for the file, its result has
    them all, and after [save_code_features] none of the features of the
    analyzer is missing for the file. *)
Theorem analysed_file_is_skipped_next_time :
  forall cfg fa repo file features st thunk code now save_occurrences st',
    use_saved_features (Runner.survey cfg) = true ->
    file_step fa repo file
      (Runner.get_code_features cfg repo (to_analyzer fa) features st)
    = StepYield (GotCodeThunk thunk) ->
    ct_thunk thunk = Ok code ->
    Runner.db st' = save_code_features now save_occurrences code (Runner.db st) ->
    ct_features thunk
    = get_code_missing_features (Runner.db st) (repo_source repo) (repo_key repo) file
        (fa_name fa) features /\
    file_step fa repo file
      (Runner.get_code_features cfg repo (to_analyzer fa) features st')
    = StepSkip.
Proof.
  intros cfg fa repo file fs st thunk code now so st' Huse Hstep Hthunk Hdb.
  unfold file_step, Runner.get_code_features in *. rewrite Huse in *. simpl in *.
  set (m := get_code_missing_features (Runner.db st) (repo_source repo) (repo_key repo)
              file (fa_name fa) fs) in *.
  destruct (Z.of_nat (List.length m) =? 0); [discriminate|].
  injection Hstep as <-. simpl in Hthunk. simpl. split; [reflexivity|].
  destruct (analyze_code_ok fa repo file m code Hthunk) as (E1 & E2 & E3 & E4).
  rewrite Hdb.
  rewrite (code_missing_nil (save_code_features now so code (Runner.db st))
             (repo_source repo) (repo_key repo) file (fa_name fa) fs); [reflexivity|].
  intros f Hf.
  destruct (has_code_row (Runner.db st) (repo_source repo) (repo_key repo) (fa_name fa)
              file f) eqn:Erow.
  - now apply has_code_row_kept.
  - assert (Hm : In f m) by (apply code_missing_In; auto).
    pose proof (has_code_row_saved now so code (Runner.db st) f) as Hs.
    rewrite E1, E2, E3, E4 in Hs. exact (Hs Hm).
Qed.

(** X18 at an instance. The file ["a.py"] of [sample_analyzer], analysed and saved. *)
Lemma analysed_file_is_skipped_next_time_witness :
  let sv := Scenario.survey_of [Scenario.local [Scenario.r1]] [to_analyzer sample_analyzer]
                               1 true true in
  let cfg := Scenario.config sv None None Scenario.fifo in
  let st := Runner.initial_state empty in
  exists thunk code,
    file_step sample_analyzer Scenario.r1 "a.py"
      (Runner.get_code_features cfg Scenario.r1 (to_analyzer sample_analyzer) ["f"; "g"] st)
    = StepYield (GotCodeThunk thunk) /\
    ct_thunk thunk = Ok code /\
    ct_features thunk = ["f"; "g"] /\
    file_step sample_analyzer Scenario.r1 "a.py"
      (Runner.get_code_features cfg Scenario.r1 (to_analyzer sample_analyzer) ["f"; "g"]
         (Runner.save_code cfg code st))
    = StepSkip.
Proof.
  intros sv cfg st. eexists. eexists.
  split; [reflexivity|]. split; [reflexivity|].
  refine (analysed_file_is_skipped_next_time cfg sample_analyzer Scenario.r1 "a.py"
            ["f"; "g"] st _ _ (Runner.now cfg (Runner.clock st)) true
            (Runner.save_code cfg _ st) eq_refl eq_refl eq_refl eq_refl).
Defined.

End AnalyzerFacts.

(** ** codesurvey/core.py: the feed when failures are not tolerated *)

Module FeedFailFacts.

Import Feed.











End FeedFailFacts.

(** ** codesurvey/core.py: what a run leaves behind *)

Module RunFacts.

(* The field of [CodeSurvey], before [Db]'s function of the same name is imported. *)
Local Abbreviation keeps_unit_records := save_code_features (only parsing).

Import Feed Runner RunnerFacts Bounds Db DbFacts Resume.

(** *** Runs that have nothing to do *)




(** *** Runs that return normally *)

Lemma complete_all_current cfg l : forall st,
  among l (current_repos st) -> List.length l = List.length (current_repos st) ->
  current_repos (fold_left (fun s r => finish_repo cfg r s) l st) = [].
Proof.
  induction l as [|x l IH]; intros st Ha Hl; simpl.
  - destruct (current_repos st); [reflexivity | discriminate].
  - apply IH; simpl.
    + now apply among_tail.
    + pose proof (remove_repo_length x (current_repos st) (among_head _ _ _ Ha)) as E.
      simpl in Hl. lia.
Qed.

(** With no job pending, a [check_repo_completion] that ends normally has
    completed every repository in progress. *)
Lemma check_repo_completion_idle cfg st :
  future_to_job st = [] -> snd (check_repo_completion cfg st) = Normal ->
  current_repos (fst (check_repo_completion cfg st)) = [].
Proof.
  intros H Hn.
  destruct (check_repo_completion_cases cfg st)
    as [[_ ->]|(d & x & t & key & _ & _ & E)]; [|congruence].
  assert (E : completed_repos st = current_repos st).
  { unfold completed_repos, jobs. rewrite H. simpl.
    induction (current_repos st) as [|r l IH]; simpl; congruence. }
  rewrite E. apply complete_all_current; [intros r; lia | reflexivity].
Qed.

(** Nothing is in progress when nothing is pending. *)
Definition settled (st : State) : Prop :=
  future_to_job st = [] -> current_repos st = [].

Lemma settled_handle_repo cfg repo features st :
  snd (handle_repo cfg repo features st) = Normal ->
  settled (fst (handle_repo cfg repo features st)).
Proof.
  unfold handle_repo.
  destruct (if reached_max_codes cfg (start_repo cfg repo st)
            then (start_repo cfg repo st, Break)
            else analyzers_loop cfg repo features (analyzers (survey cfg))
                   (start_repo cfg repo st)) as [st2 o].
  assert (G : forall s o',
            snd (let '(st4, o_finally) := check_repo_completion cfg s in
                 (st4, match o_finally with Normal => o' | _ => o_finally end)) = Normal ->
            settled (fst (let '(st4, o_finally) := check_repo_completion cfg s in
                          (st4, match o_finally with Normal => o' | _ => o_finally end)))).
  { intros s o'. rewrite finally_fst, finally_snd. intros Hn Hs.
    destruct (check_repo_completion_frame cfg s) as (E & _).
    apply check_repo_completion_idle; [now rewrite <- E|].
    destruct (snd (check_repo_completion cfg s)); [reflexivity | discriminate | discriminate]. }
  destruct o; apply G.
Qed.

Lemma run_loop_settled cfg fuel gen db0 st :
  run_loop cfg fuel O gen (initial_state db0) = Finished st Normal ->
  future_to_job st = [] /\ current_repos st = [].
Proof.
  intros Hrun.
  destruct (run_loop_rounds cfg (fun _ s => settled s) (fun _ _ => True)) with
    (fuel := fuel) (round := O) (gen := gen) (st := initial_state db0)
    as (gen' & _ & Hs & Hend).
  - intros _ s _. exact I.
  - intros _ e s H. exact H.
  - intros _ source c msg s H _ _. exact H.
  - intros _ source thunk s _ _ _ _ Hn. simpl in Hn.
    destruct (future_to_job s); discriminate.
  - intros _ source repo s _ _ _ _. split; [|exact I]. apply settled_handle_repo.
  - intros _ future job s _ Hok Hjob _. split; [|exact I]. intros _ Hn.
    destruct (callback_extends cfg job (deliver future s)) as ((new & Hnew & _) & _).
    { apply (futures_ok_frame s); auto. }
    simpl in Hnew. rewrite Hn in Hnew. apply job_of_In in Hjob.
    destruct (future_to_job s); [destruct Hjob | discriminate].
  - intros _ done s _ _ _ _ _. split; [|exact I]. intros Hnorm Hn.
    apply check_repo_completion_idle; [|exact Hnorm].
    destruct (check_repo_completion_frame cfg (remove_done done s)) as (E & _).
    now rewrite <- E.
  - intros _. reflexivity.
  - apply initial_futures_ok.
  - reflexivity.
  - rewrite Hrun in Hs. simpl in Hs. destruct (Hend st Hrun) as [Hf _].
    split; [exact Hf | exact (Hs I Hf)].
Qed.

(** The repositories admitted so far are those completed and those in
    progress. *)
Definition admissions (st : State) : Z := len (Cleanup.admitted st).

Definition counted (st : State) : Prop :=
  completed_repo_count st + len (current_repos st) = admissions st.

Lemma counted_finish_repo cfg x st :
  (1 <= cnt x (current_repos st))%nat -> counted st -> counted (finish_repo cfg x st).
Proof.
  intros Hx H. pose proof (remove_repo_length x (current_repos st) Hx) as E.
  unfold counted, admissions, Cleanup.admitted, len in *. simpl. lia.
Qed.

Lemma counted_check cfg st :
  counted st -> snd (check_repo_completion cfg st) = Normal ->
  counted (fst (check_repo_completion cfg st)).
Proof.
  intros H Hn.
  apply (check_repo_completion_ends cfg counted (fun _ => True)); auto.
  apply counted_finish_repo.
Qed.

Lemma counted_start cfg repo st : counted st -> counted (start_repo cfg repo st).
Proof.
  unfold counted, admissions, Cleanup.admitted, len. simpl.
  rewrite !length_app. simpl. lia.
Qed.

Lemma run_loop_counted cfg fuel gen db0 :
  undisturbed (run_loop cfg fuel O gen (initial_state db0)) ->
  counted (result_state (run_loop cfg fuel O gen (initial_state db0))).
Proof.
  destruct (run_loop_ends cfg (fun _ s => counted s) (fun _ _ => True)) with
    (fuel := fuel) (round := O) (gen := gen) (st := initial_state db0)
    as (gen' & _ & H).
  - intros _ s _. exact I.
  - intros _ msg s H. exact H.
  - intros _ code s H _. exact H.
  - intros _ analyzer repo result s H _. exact H.
  - intros _ s H. split; [now apply counted_check | exact I].
  - intros _ ev s H. exact H.
  - intros _ source repo s H _ _. now apply counted_start.
  - intros _ source thunk features s H _ _. exact H.
  - intros _ future source features repo s H _ _.
    now apply (counted_start cfg repo (deliver future s)).
  - intros _ future job s H _ _ _. exact H.
  - intros _ done s H _ _ _. exact H.
  - reflexivity.
  - apply initial_futures_ok.
  - reflexivity.
  - exact H.
Qed.

(** X21. When [run] returns normally, no job is pending and no repository is in
    progress: every repository that was admitted to analysis has been
    completed by [check_repo_completion] (aggregated, counted and cleaned up),
    so [completed_repo_count] is the number of admissions, and the [finally]
    block of [run] finds no repository left to clean up. *)
Theorem normal_end_leaves_nothing_in_progress :
  forall cfg fuel db0 st,
    run cfg fuel db0 = Finished st Normal ->
    future_to_job st = [] /\ current_repos st = [] /\
    completed_repo_count st = admissions st /\
    run_loop cfg fuel O (get_repo_generator (continue_on_failure (survey cfg))
                                            (sources (survey cfg)))
             (initial_state db0) = Finished st Normal.
Proof.
  intros cfg fuel db0 st Hrun. unfold run in Hrun.
  pose proof (run_loop_counted cfg fuel
                (get_repo_generator (continue_on_failure (survey cfg)) (sources (survey cfg)))
                db0) as Hc.
  destruct (run_loop cfg fuel O _ (initial_state db0)) as [st0 o|st0] eqn:E; [|discriminate].
  injection Hrun as Hst Ho. subst o.
  destruct (run_loop_settled cfg fuel _ db0 st0 E) as [Hf Hcur].
  assert (Est : st = st0).
  { rewrite <- Hst. unfold final_cleanup. now rewrite Hcur. }
  subst st0. specialize (Hc I). simpl in Hc. unfold counted in Hc. rewrite Hcur in Hc.
  repeat split; auto. unfold len in Hc. simpl in Hc. lia.
Qed.

(** X21 at an instance. Three repositories of one file each, one worker. *)
Lemma normal_end_leaves_nothing_in_progress_witness :
  let result := run (Scenario.config Scenario.survey3 None None Scenario.fifo) 10 empty in
  Scenario.finished_normally result = true /\
  completed_repo_count (Scenario.final_state result) = 3 /\
  current_repos (Scenario.final_state result) = [].
Proof.
  intros result.
  destruct result as [st o|st] eqn:E; [destruct o|]; try (vm_compute in E; discriminate).
  split; [reflexivity|]. split; [vm_compute in E; injection E as <-; reflexivity|].
  exact (proj1 (proj2 (normal_end_leaves_nothing_in_progress _ 10 empty st E))).
Defined.

(** *** What a run may do to the store *)

(** The key of a row of [repo_metadata] is in the table. *)
Definition has_metadata (db : Database) (source key metadata_key : string) : Prop :=
  exists row, In row (repo_metadata_tbl db) /\ rm_source_name row = source /\
              rm_repo_key row = key /\ rm_metadata_key row = metadata_key.

(** Every aggregate and every metadata key of [db0] is still recorded in
    [db], and, when unit records are kept, every unit record too. *)
Definition keeps_records (cfg : Config) (db0 db : Database) : Prop :=
  (forall s k a f, has_repo_row db0 s k a f = true -> has_repo_row db s k a f = true) /\
  (forall s k m, has_metadata db0 s k m -> has_metadata db s k m) /\
  (keeps_unit_records (survey cfg) = true ->
   forall s k a c f, has_code_row db0 s k a c f = true -> has_code_row db s k a c f = true).

Lemma keeps_records_refl cfg db0 : keeps_records cfg db0 db0.
Proof. repeat split; auto. Qed.

Lemma keeps_records_save_code cfg db0 now so code db1 :
  keeps_records cfg db0 db1 -> keeps_records cfg db0 (Db.save_code_features now so code db1).
Proof.
  intros (H1 & H2 & H3). split; [|split].
  - exact H1.
  - exact H2.
  - intros Hk s k a c f H. apply has_code_row_kept. auto.
Qed.

Lemma keeps_records_save_repo cfg db0 repo db1 :
  keeps_records cfg db0 db1 ->
  keeps_records cfg db0 (save_repo_features repo (keeps_unit_records (survey cfg)) db1).
Proof.
  intros (H1 & H2 & H3). split; [|split].
  - intros s k a f H. apply has_repo_row_kept. auto.
  - exact H2.
  - intros Hk s k a c f H. rewrite Hk.
    assert (E : has_code_row (save_repo_features repo true db1) s k a c f
                = has_code_row db1 s k a c f) by reflexivity.
    rewrite E. auto.
Qed.

Lemma keeps_records_save_metadata cfg db0 now repo db1 :
  keeps_records cfg db0 db1 -> keeps_records cfg db0 (save_repo_metadata now repo db1).
Proof.
  intros (H1 & H2 & H3). split; [|split].
  - exact H1.
  - intros s k m H. destruct (H2 s k m H) as (row & Hin & E1 & E2 & E3).
    destruct (upsert_many_keeps _ rm_same_key StoreFacts.rm_same_key_refl
                StoreFacts.rm_same_key_trans
                (map (fun kv => {| rm_updated := now; rm_source_name := repo_source repo;
                                   rm_repo_key := repo_key repo; rm_metadata_key := fst kv;
                                   rm_metadata_value := snd kv |}) (repo_metadata repo))
                (repo_metadata_tbl db1) row Hin) as (row' & Hin' & Hk & _).
    apply StoreFacts.rm_same_key_true in Hk. exists row'. split; [exact Hin'|].
    intuition congruence.
  - exact H3.
Qed.

Lemma keeps_records_check cfg db0 st :
  keeps_records cfg db0 (db st) ->
  keeps_records cfg db0 (db (fst (check_repo_completion cfg st))).
Proof.
  apply (check_repo_completion_keeps cfg (fun s => keeps_records cfg db0 (db s))).
  - intros x s _ H. simpl. now apply keeps_records_save_repo.
  - intros x s _ H. simpl. now apply keeps_records_save_repo.
Qed.

Lemma run_loop_keeps_records cfg fuel gen db0 :
  keeps_records cfg db0 (db (result_state (run_loop cfg fuel O gen (initial_state db0)))).
Proof.
  destruct (run_loop_keeps cfg (fun _ s => keeps_records cfg db0 (db s))) with
    (fuel := fuel) (round := O) (gen := gen) (st := initial_state db0) as (gen' & H).
  - intros _ msg s H. exact H.
  - intros _ code s H _. simpl. now apply keeps_records_save_code.
  - intros _ analyzer repo result s H _. exact H.
  - intros _ s H. now apply keeps_records_check.
  - intros _ ev s H. exact H.
  - intros _ source repo s H _ _. simpl. now apply keeps_records_save_metadata.
  - intros _ source thunk features s H _ _. exact H.
  - intros _ future source features repo s H _ _. simpl.
    now apply keeps_records_save_metadata.
  - intros _ future job s H _ _ _. exact H.
  - intros _ done s H _ _ _. exact H.
  - apply keeps_records_refl.
  - apply initial_futures_ok.
  - reflexivity.
  - exact H.
Qed.

(** X22. A run loses nothing that was recorded: however it ends (normally, by an
    exception, or not yet), every aggregate of a repository and every
    metadata key the store held before is still held, and, when unit records
    are kept ([save_code_features=True]), so is every unit record.  So no
    feature that was recorded is reported missing afterwards. *)
Theorem run_loses_no_record :
  forall cfg fuel db0,
    let db1 := db (result_state (run cfg fuel db0)) in
    (forall s k a f, has_repo_row db0 s k a f = true -> has_repo_row db1 s k a f = true) /\
    (forall s k m, has_metadata db0 s k m -> has_metadata db1 s k m) /\
    (keeps_unit_records (survey cfg) = true ->
     forall s k a c f,
       has_code_row db0 s k a c f = true -> has_code_row db1 s k a c f = true) /\
    (forall s k analyzer_features a fs f,
        In (a, fs) (get_repo_missing_analyzer_features db1 s k analyzer_features) ->
        In f fs ->
        exists fs0,
          In (a, fs0) (get_repo_missing_analyzer_features db0 s k analyzer_features) /\
          In f fs0).
Proof.
  intros cfg fuel db0 db1.
  assert (H : keeps_records cfg db0 db1).
  { subst db1. unfold run.
    pose proof (run_loop_keeps_records cfg fuel
                  (get_repo_generator (continue_on_failure (survey cfg))
                                      (sources (survey cfg))) db0) as H.
    destruct (run_loop cfg fuel O _ (initial_state db0)) as [st o|st]; simpl in *;
      [|exact H].
    now rewrite (proj1 (final_cleanup_same st)). }
  destruct H as (H1 & H2 & H3). split; [exact H1|]. split; [exact H2|]. split; [exact H3|].
  intros s k afs a fs f Hin Hf.
  destruct (StoreFacts.repo_missing_listed db1 s k afs a fs Hin) as (_ & fs' & Hcfg & ->).
  apply filter_In in Hf. destruct Hf as [Hf Hrow]. apply Bool.negb_true_iff in Hrow.
  assert (Hrow0 : has_repo_row db0 s k a f = false).
  { destruct (has_repo_row db0 s k a f) eqn:E; [|reflexivity].
    rewrite (H1 _ _ _ _ E) in Hrow. discriminate. }
  exists (filter (fun feature => negb (has_repo_row db0 s k a feature)) fs').
  split; [|apply filter_In; split; [exact Hf | now rewrite Hrow0]].
  (* the analyzer is listed for [db0] with that list *)
  clear -Hcfg Hf Hrow0. unfold get_repo_missing_analyzer_features.
  induction afs as [|[a' fs''] afs IH]; [destruct Hcfg|]. simpl.
  change (missing_of (existing_repo_features db0 s k a') fs'')
    with (filter (fun feature => negb (has_repo_row db0 s k a' feature)) fs'').
  destruct Hcfg as [[= -> ->]|Hcfg].
  - destruct (filter (fun feature => negb (has_repo_row db0 s k a feature)) fs') eqn:E.
    + exfalso. rewrite filter_nil in E. specialize (E f Hf). rewrite Hrow0 in E. discriminate.
    + simpl. now left.
  - destruct (filter (fun feature => negb (has_repo_row db0 s k a' feature)) fs'');
      simpl; [|right]; now apply IH.
Qed.

(** Every row of the store was there before the run or was written for a
    repository the run admitted, a unit it saved, a repository it
    completed. *)
Definition accounted_for (db0 : Database) (st : State) : Prop :=
  (forall row, In row (repo_metadata_tbl (db st)) ->
     In row (repo_metadata_tbl db0) \/
     exists repo, In (EvAnalyzeRepo repo) (events st) /\
                  rm_source_name row = repo_source repo /\
                  rm_repo_key row = repo_key repo /\
                  In (rm_metadata_key row, rm_metadata_value row) (repo_metadata repo)) /\
  (forall row, In row (code_feature_tbl (db st)) ->
     In row (code_feature_tbl db0) \/
     exists code, In (EvCodeSaved code) (events st) /\
                  cf_source_name row = repo_source (code_repo code) /\
                  cf_repo_key row = repo_key (code_repo code) /\
                  cf_analyzer_name row = code_analyzer code /\
                  cf_code_key row = code_key code /\
                  In (cf_feature_name row) (map fst (code_features code))) /\
  (forall row, In row (repo_feature_tbl (db st)) ->
     In row (repo_feature_tbl db0) \/
     exists repo, In (EvRepoCompleted repo) (events st) /\
                  rf_source_name row = repo_source repo /\
                  rf_repo_key row = repo_key repo).

Lemma accounted_for_frame db0 st st' :
  db st' = db st -> (forall ev, In ev (events st) -> In ev (events st')) ->
  accounted_for db0 st -> accounted_for db0 st'.
Proof.
  intros Ed Hev (H1 & H2 & H3). unfold accounted_for. rewrite Ed. split; [|split].
  - intros row Hin. destruct (H1 row Hin) as [H|(repo & He & H)]; [now left|].
    right. exists repo. split; [now apply Hev | exact H].
  - intros row Hin. destruct (H2 row Hin) as [H|(code & He & H)]; [now left|].
    right. exists code. split; [now apply Hev | exact H].
  - intros row Hin. destruct (H3 row Hin) as [H|(repo & He & H)]; [now left|].
    right. exists repo. split; [now apply Hev | exact H].
Qed.

Lemma accounted_for_save_code cfg db0 code st :
  accounted_for db0 st -> accounted_for db0 (save_code cfg code st).
Proof.
  intros (H1 & H2 & H3). split; [|split]; simpl.
  - intros row Hin. destruct (H1 row Hin) as [H|(repo & He & H)]; [now left|].
    right. exists repo. split; [now right | exact H].
  - intros row Hin. apply (upsert_many_In_old _ cf_same_key) in Hin.
    destruct Hin as [Hin|Hin].
    + right. exists code. split; [now left|]. apply in_map_iff in Hin.
      destruct Hin as (entry & <- & Hentry). simpl. repeat split. now apply in_map.
    + destruct (H2 row Hin) as [H|(c & He & H)]; [now left|].
      right. exists c. split; [now right | exact H].
  - intros row Hin. destruct (H3 row Hin) as [H|(repo & He & H)]; [now left|].
    right. exists repo. split; [now right | exact H].
Qed.

Lemma accounted_for_count_repo cfg db0 repo st :
  accounted_for db0 st -> accounted_for db0 (count_repo cfg repo st).
Proof.
  intros (H1 & H2 & H3). split; [|split]; simpl.
  - intros row Hin. destruct (H1 row Hin) as [H|(r & He & H)]; [now left|].
    right. exists r. split; [now right | exact H].
  - intros row Hin.
    assert (Hold : In row (code_feature_tbl (db st))).
    { destruct (keeps_unit_records (survey cfg)); [exact Hin|].
      apply filter_In in Hin. tauto. }
    destruct (H2 row Hold) as [H|(c & He & H)]; [now left|].
    right. exists c. split; [now right | exact H].
  - intros row Hin. apply (upsert_many_In_old _ rf_same_key) in Hin.
    destruct Hin as [Hin|Hin].
    + right. exists repo. split; [now left|].
      destruct (aggregate_rows_spec repo (db st) row Hin) as (E1 & E2 & _). auto.
    + destruct (H3 row Hin) as [H|(r & He & H)]; [now left|].
      right. exists r. split; [now right | exact H].
Qed.

Lemma accounted_for_finish_repo cfg db0 repo st :
  accounted_for db0 st -> accounted_for db0 (finish_repo cfg repo st).
Proof.
  intros H. apply (accounted_for_frame db0 (count_repo cfg repo st)).
  - reflexivity.
  - intros ev Hev. simpl. right. exact Hev.
  - now apply accounted_for_count_repo.
Qed.

Lemma accounted_for_check cfg db0 st :
  accounted_for db0 st -> accounted_for db0 (fst (check_repo_completion cfg st)).
Proof.
  apply (check_repo_completion_keeps cfg (accounted_for db0)).
  - intros x s _. apply accounted_for_finish_repo.
  - intros x s _. apply accounted_for_count_repo.
Qed.

Lemma accounted_for_start cfg db0 repo st :
  accounted_for db0 st -> accounted_for db0 (start_repo cfg repo st).
Proof.
  intros (H1 & H2 & H3). split; [|split]; simpl.
  - intros row Hin. apply (upsert_many_In_old _ rm_same_key) in Hin.
    destruct Hin as [Hin|Hin].
    + right. exists repo. split; [now left|]. apply in_map_iff in Hin.
      destruct Hin as ([key value] & <- & Hkv). simpl. auto.
    + destruct (H1 row Hin) as [H|(r & He & H)]; [now left|].
      right. exists r. split; [now right | exact H].
  - intros row Hin. destruct (H2 row Hin) as [H|(c & He & H)]; [now left|].
    right. exists c. split; [now right | exact H].
  - intros row Hin. destruct (H3 row Hin) as [H|(r & He & H)]; [now left|].
    right. exists r. split; [now right | exact H].
Qed.

Lemma accounted_for_submit db0 ev job st :
  accounted_for db0 st -> accounted_for db0 (submit ev job st).
Proof. apply accounted_for_frame; [reflexivity | intros e He; now right]. Qed.

Lemma run_loop_accounted_for cfg fuel gen db0 :
  accounted_for db0 (result_state (run_loop cfg fuel O gen (initial_state db0))).
Proof.
  destruct (run_loop_keeps cfg (fun _ s => accounted_for db0 s)) with
    (fuel := fuel) (round := O) (gen := gen) (st := initial_state db0) as (gen' & H).
  - intros _ msg s. apply accounted_for_frame; [reflexivity | intros e He; now right].
  - intros _ code s H _. now apply accounted_for_save_code.
  - intros _ analyzer repo result s H _. now apply accounted_for_submit.
  - intros _ s H. now apply accounted_for_check.
  - intros _ ev s H. exact H.
  - intros _ source repo s H _ _. now apply accounted_for_start.
  - intros _ source thunk features s H _ _. now apply accounted_for_submit.
  - intros _ future source features repo s H _ _.
    now apply (accounted_for_start cfg db0 repo (deliver future s)).
  - intros _ future job s H _ _ _. exact H.
  - intros _ done s H _ _ _. exact H.
  - repeat split; intros row Hin; now left.
  - apply initial_futures_ok.
  - reflexivity.
  - exact H.
Qed.

Lemma final_cleanup_events st ev : In ev (events st) -> In ev (events (final_cleanup st)).
Proof.
  unfold final_cleanup. generalize (current_repos st) as l. intros l. revert st.
  induction l as [|r l IH]; intros st H; simpl; [exact H|].
  apply IH. now right.
Qed.

(** X23. A run writes nothing but the results of its own work: however it ends,
    a row of [repo_metadata] that was not in the store before belongs to a
    repository the run admitted to analysis and holds one of its metadata
    entries; a new row of [code_feature] belongs to a unit whose result the
    run saved and to one of its features; a new row of [repo_feature] belongs
    to a repository the run completed. *)
Theorem run_writes_only_its_own_results :
  forall cfg fuel db0,
    let st := result_state (run cfg fuel db0) in
    (forall row, In row (repo_metadata_tbl (db st)) ->
       In row (repo_metadata_tbl db0) \/
       exists repo, In (EvAnalyzeRepo repo) (events st) /\
                    rm_source_name row = repo_source repo /\
                    rm_repo_key row = repo_key repo /\
                    In (rm_metadata_key row, rm_metadata_value row) (repo_metadata repo)) /\
    (forall row, In row (code_feature_tbl (db st)) ->
       In row (code_feature_tbl db0) \/
       exists code, In (EvCodeSaved code) (events st) /\
                    cf_source_name row = repo_source (code_repo code) /\
                    cf_repo_key row = repo_key (code_repo code) /\
                    cf_analyzer_name row = code_analyzer code /\
                    cf_code_key row = code_key code /\
                    In (cf_feature_name row) (map fst (code_features code))) /\
    (forall row, In row (repo_feature_tbl (db st)) ->
       In row (repo_feature_tbl db0) \/
       exists repo, In (EvRepoCompleted repo) (events st) /\
                    rf_source_name row = repo_source repo /\
                    rf_repo_key row = repo_key repo).
Proof.
  intros cfg fuel db0 st. change (accounted_for db0 st). subst st. unfold run.
  pose proof (run_loop_accounted_for cfg fuel
                (get_repo_generator (continue_on_failure (survey cfg))
                                    (sources (survey cfg))) db0) as H.
  destruct (run_loop cfg fuel O _ (initial_state db0)) as [s o|s]; simpl in *; [|exact H].
  apply (accounted_for_frame db0 s); [apply final_cleanup_same | | exact H].
  intros ev. apply final_cleanup_events.
Qed.

(** *** The work [handle_repo] starts *)

(** A unit analysis of [repo] by one of the analyzers named in
    [analyzer_features]. *)
Definition requested_job (repo : Repo) (analyzer_features : list (string * list string))
    (job : Job) : Prop :=
  exists analyzer result,
    job = CodeJob analyzer repo result /\ In analyzer (map fst analyzer_features).

Lemma dict_get_In name d v : dict_get name d = Some v -> In name (map fst d).
Proof.
  induction d as [|[k x] d IH]; simpl; [discriminate|].
  destruct (String.eqb k name) eqn:E; [|auto].
  apply String.eqb_eq in E. now left.
Qed.

Lemma codes_loop_jobs cfg repo analyzer features steps : forall st,
  exists new,
    future_to_job (fst (codes_loop cfg repo analyzer features steps st))
    = future_to_job st ++ new /\
    Forall (fun fj => exists result,
                        snd fj = CodeJob (analyzer_name analyzer) repo result) new.
Proof.
  induction steps as [|step rest IH]; intros st; simpl.
  - exists []. now rewrite app_nil_r.
  - destruct (step (get_code_features cfg repo analyzer features st)) as [|item|e]; simpl.
    + apply IH.
    + destruct (reached_max_codes cfg st) eqn:Hr; simpl.
      * exists []. now rewrite app_nil_r.
      * destruct item as [code|thunk].
        -- destruct (IH (handle_code cfg code st)) as (new & E & H). exists new.
           split; [|exact H]. rewrite E. unfold handle_code. now rewrite Hr.
        -- destruct (IH (submit (fun f => EvCodeJob f repo (analyzer_name analyzer))
                           (CodeJob (analyzer_name analyzer) repo (ct_thunk thunk)) st))
             as (new & E & H).
           eexists. split; [rewrite E; simpl; rewrite <- app_assoc; reflexivity|].
           constructor; [simpl; eauto | exact H].
    + exists []. now rewrite app_nil_r.
Qed.

Lemma analyzers_loop_jobs cfg repo analyzer_features todo : forall st,
  exists new,
    future_to_job (fst (analyzers_loop cfg repo analyzer_features todo st))
    = future_to_job st ++ new /\
    Forall (fun fj => requested_job repo analyzer_features (snd fj)) new.
Proof.
  induction todo as [|analyzer0 rest IH]; intros st; simpl.
  - exists []. now rewrite app_nil_r.
  - destruct (dict_get (analyzer_name analyzer0) analyzer_features) as [fs|] eqn:Eg.
    2: { destruct (IH (log (SkipCompletedAnalyzer (analyzer_name analyzer0) repo) st))
           as (new & E & H). exists new. split; [exact E | exact H]. }
    destruct (lookup_analyzer cfg (analyzer_name analyzer0)) as [analyzer|] eqn:El; simpl.
    2: { exists []. now rewrite app_nil_r. }
    assert (Hname : analyzer_name analyzer = analyzer_name analyzer0).
    { unfold lookup_analyzer in El. apply find_some in El. now apply String.eqb_eq. }
    destruct (code_generator analyzer repo) as [codes|ex].
    + destruct (codes_loop_jobs cfg repo analyzer fs codes st) as (new1 & E1 & H1).
      destruct (codes_loop cfg repo analyzer fs codes st) as [st1 o]. simpl in E1.
      assert (H1' : Forall (fun fj => requested_job repo analyzer_features (snd fj)) new1).
      { rewrite Forall_forall in *. intros fj Hin. destruct (H1 fj Hin) as [result E].
        exists (analyzer_name analyzer), result. split; [exact E|].
        rewrite Hname. now apply (dict_get_In _ _ fs). }
      destruct o; simpl; try (exists new1; split; [exact E1 | exact H1']).
      destruct (IH st1) as (new2 & E2 & H2). exists (new1 ++ new2).
      split; [rewrite E2, E1; now rewrite app_assoc | now apply Forall_app].
    + unfold handle_failure.
      destruct (continue_on_failure (survey cfg)); simpl.
      * destruct (IH (log (Failed ex) st)) as (new & E & H). exists new.
        split; [exact E | exact H].
      * exists []. now rewrite app_nil_r.
Qed.

(** X24. [handle_repo] starts work only where work is outstanding: every job it
    adds to [future_to_job] is a unit analysis of the repository it was
    given, by an analyzer that [analyzer_features] names (the analyzers with
    a feature missing for the repository); the jobs that were pending stay as
    they are, and an analyzer whose features are all recorded gets no job. *)
Theorem handle_repo_starts_only_requested_analyses :
  forall cfg repo analyzer_features st,
    exists new,
      future_to_job (fst (handle_repo cfg repo analyzer_features st))
      = future_to_job st ++ new /\
      forall future job, In (future, job) new ->
        exists analyzer result,
          job = CodeJob analyzer repo result /\ In analyzer (map fst analyzer_features).
Proof.
  intros cfg repo afs st. unfold handle_repo.
  assert (G : exists new,
             future_to_job
               (fst (if reached_max_codes cfg (start_repo cfg repo st)
                     then (start_repo cfg repo st, Break)
                     else analyzers_loop cfg repo afs (analyzers (survey cfg))
                            (start_repo cfg repo st)))
             = future_to_job st ++ new /\
             Forall (fun fj => requested_job repo afs (snd fj)) new).
  { destruct (reached_max_codes cfg (start_repo cfg repo st)).
    - exists []. simpl. now rewrite app_nil_r.
    - apply (analyzers_loop_jobs cfg repo afs (analyzers (survey cfg))
               (start_repo cfg repo st)). }
  destruct (if reached_max_codes cfg (start_repo cfg repo st)
            then (start_repo cfg repo st, Break)
            else analyzers_loop cfg repo afs (analyzers (survey cfg))
                   (start_repo cfg repo st)) as [st2 o].
  destruct G as (new & E & H). simpl in E. exists new. split.
  - destruct o; rewrite finally_fst;
      match goal with |- future_to_job (fst (check_repo_completion cfg ?s)) = _ =>
        rewrite (proj1 (check_repo_completion_frame cfg s))
      end; exact E.
  - intros future job Hin. rewrite Forall_forall in H. exact (H (future, job) Hin).
Qed.

(** X24 at an instance. The five files of the repository of [Scenario.survey5]: five jobs. *)
Lemma handle_repo_starts_only_requested_analyses_witness :
  let cfg := Scenario.config Scenario.survey5 None None Scenario.fifo in
  let st := fst (handle_repo cfg Scenario.r1 [("python", ["f"])] (initial_state empty)) in
  map fst (future_to_job st) = [0; 1; 2; 3; 4]%nat /\
  exists new,
    future_to_job st = [] ++ new /\
    forall future job, In (future, job) new ->
      exists analyzer result,
        job = CodeJob analyzer Scenario.r1 result /\ In analyzer ["python"].
Proof.
  intros cfg st. split; [reflexivity|].
  exact (handle_repo_starts_only_requested_analyses cfg Scenario.r1 [("python", ["f"])]
           (initial_state empty)).
Defined.

End RunFacts.

(** ** codesurvey/core.py: runs that do not tolerate failures *)

Module StrictFacts.

Import Feed Runner RunnerFacts Resume.

(** The call did not end by an exception. *)
Definition passed (o : Outcome) : bool :=
  match o with Raise _ => false | _ => true end.

Section Strict.
Variable cfg : Config.
Hypothesis strict : continue_on_failure (survey cfg) = false.

Lemma handle_failure_strict ex st : passed (snd (handle_failure cfg ex st)) = false.
Proof. unfold handle_failure. now rewrite strict. Qed.

Lemma no_failures_handle_code code st :
  no_failures st = true -> no_failures (handle_code cfg code st) = true.
Proof. unfold handle_code. destruct (reached_max_codes cfg st); auto. Qed.

Lemma strict_check_no_failures st :
  no_failures (fst (check_repo_completion cfg st)) = no_failures st.
Proof.
  destruct (check_repo_completion_cases cfg st)
    as [[_ ->]|(done & repo & rest & key & _ & -> & _)].
  - generalize (completed_repos st) as l. intros l. revert st.
    induction l as [|r l IH]; intros st; simpl; [reflexivity|]. now rewrite IH.
  - simpl. revert st.
    induction done as [|r l IH]; intros st; simpl; [reflexivity|]. now rewrite IH.
Qed.

Lemma codes_loop_strict repo analyzer features steps : forall st,
  no_failures st = true ->
  passed (snd (codes_loop cfg repo analyzer features steps st)) = true ->
  no_failures (fst (codes_loop cfg repo analyzer features steps st)) = true.
Proof.
  induction steps as [|step rest IH]; intros st H; simpl; [auto|].
  destruct (step (get_code_features cfg repo analyzer features st)) as [|item|e];
    simpl; auto.
  destruct (reached_max_codes cfg st); simpl; [auto|].
  destruct item as [code|thunk].
  - apply IH. now apply no_failures_handle_code.
  - apply IH. exact H.
Qed.

Lemma analyzers_loop_strict repo features todo : forall st,
  no_failures st = true ->
  passed (snd (analyzers_loop cfg repo features todo st)) = true ->
  no_failures (fst (analyzers_loop cfg repo features todo st)) = true.
Proof.
  induction todo as [|analyzer0 rest IH]; intros st H; simpl; [auto|].
  destruct (dict_get (analyzer_name analyzer0) features) as [fs|]; [|apply IH; exact H].
  destruct (lookup_analyzer cfg (analyzer_name analyzer0)) as [analyzer|]; simpl; [|auto].
  destruct (code_generator analyzer repo) as [codes|ex].
  - pose proof (codes_loop_strict repo analyzer fs codes st H) as Hc.
    destruct (codes_loop cfg repo analyzer fs codes st) as [st1 o]. simpl in Hc.
    destruct o; simpl; auto.
  - pose proof (handle_failure_strict ex st) as Hf.
    destruct (handle_failure cfg ex st) as [st1 o]. simpl in Hf.
    destruct o; simpl; try discriminate; intros; discriminate.
Qed.

Lemma handle_repo_strict repo features st :
  no_failures st = true ->
  passed (snd (handle_repo cfg repo features st)) = true ->
  no_failures (fst (handle_repo cfg repo features st)) = true.
Proof.
  intros H. unfold handle_repo.
  assert (H1 : no_failures (start_repo cfg repo st) = true) by exact H.
  assert (G : forall s o',
            passed (snd (let '(st4, o_finally) := check_repo_completion cfg s in
                         (st4, match o_finally with Normal => o' | _ => o_finally end)))
            = true ->
            passed o' = true).
  { intros s o'. rewrite finally_snd.
    destruct (check_repo_completion_outcome cfg s) as [->|[key ->]]; [auto | discriminate]. }
  destruct (reached_max_codes cfg (start_repo cfg repo st)).
  - intros _. rewrite finally_fst. now rewrite strict_check_no_failures.
  - pose proof (analyzers_loop_strict repo features (analyzers (survey cfg)) _ H1) as Ha.
    destruct (analyzers_loop cfg repo features (analyzers (survey cfg))
                (start_repo cfg repo st)) as [st2 o]. simpl in Ha.
    destruct o; intros Hp; apply G in Hp; rewrite finally_fst, strict_check_no_failures;
      auto.
Qed.

Lemma callback_strict job st :
  no_failures st = true ->
  passed (snd (callback cfg job st)) = true ->
  no_failures (fst (callback cfg job st)) = true.
Proof.
  intros H. destruct job as [source features [repo|ex]|analyzer repo [code|ex]]; simpl.
  - now apply handle_repo_strict.
  - rewrite handle_failure_strict. discriminate.
  - intros _. now apply no_failures_handle_code.
  - rewrite handle_failure_strict. discriminate.
Qed.

Lemma consume_repos_strict gen : forall st,
  no_failures st = true ->
  snd (consume_repos cfg gen st) = Normal ->
  no_failures (snd (fst (consume_repos cfg gen st))) = true.
Proof.
  induction gen as [|ev gen' IH]; intros st H; simpl; [auto|].
  destruct (may_admit cfg st); simpl; [|auto].
  destruct ev as [source c|e]; simpl; [|discriminate].
  destruct (in_progress c st); [apply IH; exact H|].
  destruct (len (repo_analyzer_features cfg c st) =? 0); [apply IH; exact H|].
  destruct c as [repo|thunk]; [|apply IH; exact H].
  pose proof (handle_repo_strict repo (repo_analyzer_features cfg (GotRepo repo) st) st H)
    as Hr.
  destruct (handle_repo cfg repo (repo_analyzer_features cfg (GotRepo repo) st) st)
    as [st1 o]. simpl in Hr.
  destruct o; simpl; try discriminate. apply IH. now apply Hr.
Qed.

Lemma process_done_strict done : forall st,
  no_failures st = true ->
  snd (process_done cfg done st) = Normal ->
  no_failures (fst (process_done cfg done st)) = true.
Proof.
  induction done as [|future rest IH]; intros st H; simpl; [auto|].
  destruct (job_of future (future_to_job st)) as [job|]; simpl; [|discriminate].
  pose proof (callback_strict job (deliver future st) H) as Hc.
  destruct (callback cfg job (deliver future st)) as [st1 o]. simpl in Hc.
  destruct o; simpl; try discriminate. apply IH. now apply Hc.
Qed.

Lemma run_loop_strict fuel : forall round gen st st',
  no_failures st = true ->
  run_loop cfg fuel round gen st = Finished st' Normal ->
  no_failures st' = true.
Proof.
  induction fuel as [|fuel IH]; intros round gen st st' H; simpl; [discriminate|].
  pose proof (consume_repos_strict gen st H) as Hc.
  destruct (consume_repos cfg gen st) as [[gen1 st1] o1]. simpl in Hc.
  destruct o1; try discriminate.
  destruct (len (future_to_job st1) =? 0); [intros [= <-]; auto|].
  pose proof (process_done_strict (wait cfg round st1) st1 (Hc eq_refl)) as Hp.
  destruct (process_done cfg (wait cfg round st1) st1) as [st2 o2]. simpl in Hp.
  destruct o2; try discriminate.
  pose proof (strict_check_no_failures (remove_done (wait cfg round st1) st2)) as Hk.
  destruct (check_repo_completion cfg (remove_done (wait cfg round st1) st2))
    as [st3 o3]. simpl in Hk.
  destruct o3; try discriminate.
  apply IH. rewrite Hk. exact (Hp eq_refl).
Qed.

End Strict.

(** X25. With [continue_on_failure=False] no failure is passed over: a run that
    returns normally has logged none (no fetch of a repository, no analyzer
    and no unit analysis raised), so that a run which met one ends by an
    exception. *)
Theorem strict_run_returns_normally_only_without_failure :
  forall cfg fuel db0 st,
    continue_on_failure (survey cfg) = false ->
    run cfg fuel db0 = Finished st Normal ->
    no_failures st = true.
Proof.
  intros cfg fuel db0 st Hs Hrun. unfold run in Hrun.
  destruct (run_loop cfg fuel O _ (initial_state db0)) as [st0 o|st0] eqn:E; [|discriminate].
  injection Hrun as <- ->.
  rewrite (proj1 (proj2 (final_cleanup_same st0))).
  exact (run_loop_strict cfg Hs fuel O _ (initial_state db0) st0 eq_refl E).
Qed.

(** A survey that does not tolerate failures, on a repository of three
    files that are analysed without failure. *)
Definition strict_survey : CodeSurvey :=
  {| sources := [Scenario.local [Scenario.r1]];
     analyzers := [Analyzers.to_analyzer (Scenario.file_analyzer 1 Scenario.three_files)];
     analyzer_features := [("python", ["f"])];
     max_workers := 2;
     continue_on_failure := false;
     save_code_features := true;
     save_occurrences := true;
     use_saved_features := true |}.

(** X25 at an instance. The run of [strict_survey] saves three unit results and logs no
    failure. *)
Lemma strict_run_returns_normally_only_without_failure_witness :
  let result := run (Scenario.config strict_survey None None Scenario.fifo) 10 Db.empty in
  Scenario.finished_normally result = true /\
  completed_code_count (Scenario.final_state result) = 3 /\
  no_failures (Scenario.final_state result) = true.
Proof.
  intros result.
  destruct result as [st o|st] eqn:E; [destruct o|]; try (vm_compute in E; discriminate).
  split; [reflexivity|]. split; [vm_compute in E; injection E as <-; reflexivity|].
  exact (strict_run_returns_normally_only_without_failure
           (Scenario.config strict_survey None None Scenario.fifo) 10 Db.empty st eq_refl E).
Defined.

End StrictFacts.

(** ** codesurvey/core.py: the progress trackers of a run *)

Module ProgressFacts.

Import Db Progress.

Lemma pbar_key_eqb_eq a b : pbar_key_eqb a b = true <-> a = b.
Proof.
  destruct a, b; simpl; split; try discriminate; try reflexivity.
  - rewrite Bool.andb_true_iff, !String.eqb_eq. intros [-> ->]. reflexivity.
  - intros [= -> ->]. now rewrite !String.eqb_refl.
Qed.

Lemma has_pbar_In key pbars : has_pbar key pbars = true <-> In key pbars.
Proof.
  unfold has_pbar. rewrite existsb_exists. split.
  - intros (k & Hin & E). apply pbar_key_eqb_eq in E. now subst.
  - intros H. exists key. split; [exact H | now apply pbar_key_eqb_eq].
Qed.

Lemma length_all_features analyzer_features :
  List.length (all_features analyzer_features)
  = fold_right (fun entry n => (String.length (fst entry) + n)%nat) O analyzer_features.
Proof.
  unfold all_features. induction analyzer_features as [|entry l IH]; simpl; [reflexivity|].
  rewrite length_app, IH. f_equal.
  induction (fst entry) as [|c s IHs]; simpl; congruence.
Qed.

Lemma In_feature_bars a f (l : list (string * list string)) :
  In (FeatureBar a f) (flat_map (fun entry => map (FeatureBar (fst entry)) (snd entry)) l)
  <-> exists fs, In (a, fs) l /\ In f fs.
Proof.
  rewrite in_flat_map. split.
  - intros ([a' fs] & Hin & H). simpl in H. apply in_map_iff in H.
    destruct H as (f' & [= <- <-] & Hf). eauto.
  - intros (fs & Hin & Hf). exists (a, fs). split; [exact Hin|]. simpl. now apply in_map.
Qed.

Lemma feature_bar_default afs a f :
  In (FeatureBar a f) (get_pbars afs None) <->
  (fold_right (fun entry n => (String.length (fst entry) + n)%nat) O afs <= 10)%nat /\
  exists fs, In (a, fs) afs /\ In f fs.
Proof.
  unfold get_pbars. rewrite <- length_all_features. unfold max_auto_feature_progress.
  destruct (10 <? Z.of_nat (List.length (all_features afs))) eqn:E.
  - apply Z.ltb_lt in E. simpl. split; [|lia].
    intros [H|[H|[H|[]]]]; discriminate.
  - apply Z.ltb_ge in E. rewrite in_app_iff, In_feature_bars. split.
    + intros [[H|[H|[H|[]]]]|H]; try discriminate. split; [lia | exact H].
    + intros [_ H]. now right.
Qed.

Lemma feature_bar_given afs given a f :
  In (FeatureBar a f) (get_pbars afs (Some given)) <->
  exists fs, In (a, fs) given /\ In f fs.
Proof.
  unfold get_pbars. rewrite in_app_iff, In_feature_bars. split.
  - intros [[H|[H|[H|[]]]]|H]; try discriminate. exact H.
  - intros H. now right.
Qed.

(** X26. With [progress_analyzer_features] left at [None], [get_pbars] makes a
    tracker for every feature of every analyzer, unless the names of the
    analyzers have more than ten characters in all: then it makes none.
    (What it counts against the limit of ten are the characters of the
    analyzer names, not the features.)  With a mapping given, the trackers
    are those of the mapping. *)
Theorem get_pbars_makes_trackers :
  forall analyzer_features analyzer_name feature_name,
    (In (FeatureBar analyzer_name feature_name) (get_pbars analyzer_features None) <->
     (fold_right (fun entry n => (String.length (fst entry) + n)%nat) O analyzer_features
      <= 10)%nat /\
     exists features,
       In (analyzer_name, features) analyzer_features /\ In feature_name features) /\
    (forall given,
        In (FeatureBar analyzer_name feature_name) (get_pbars analyzer_features (Some given))
        <-> exists features, In (analyzer_name, features) given /\ In feature_name features).
Proof.
  intros afs a f. split; [apply feature_bar_default | intros given; apply feature_bar_given].
Qed.

Lemma update_feature_pbars_ok pbars rows :
  update_feature_pbars pbars rows = AllUpdated <->
  forall row, In row rows -> 0 < rf_occurrence_count row ->
              In (FeatureBar (rf_analyzer_name row) (rf_feature_name row)) pbars.
Proof.
  induction rows as [|r rows IH]; simpl; [split; [intros _ ? [] | reflexivity]|].
  destruct (0 <? rf_occurrence_count r) eqn:E.
  - apply Z.ltb_lt in E.
    destruct (has_pbar (FeatureBar (rf_analyzer_name r) (rf_feature_name r)) pbars) eqn:Hp.
    + apply has_pbar_In in Hp. rewrite IH. split.
      * intros H row [<-|Hin]; auto.
      * intros H row Hin. apply H. now right.
    + split; [discriminate|]. intros H.
      specialize (H r (or_introl eq_refl) E). apply has_pbar_In in H. congruence.
  - apply Z.ltb_ge in E. rewrite IH. split.
    + intros H row [<-|Hin]; [lia | auto].
    + intros H row Hin. apply H. now right.
Qed.

Lemma tracked_rows db repo row :
  In row (map fst (get_repo_features db (Some [repo_source repo]) (Some [repo_key repo])
                                     None None)) <->
  In row (repo_feature_tbl db) /\
  rf_source_name row = repo_source repo /\ rf_repo_key row = repo_key repo.
Proof.
  unfold get_repo_features. rewrite map_map. simpl. rewrite map_id, filter_In.
  unfold Utils.mem. simpl. rewrite !Bool.orb_false_r, !Bool.andb_true_r, Bool.andb_true_iff,
    !String.eqb_eq. tauto.
Qed.

(** X27. Completing a repository looks up a tracker for each of its aggregates
    in the store that has an occurrence, those of earlier runs included: the
    lookup raises [KeyError] unless each of them has a tracker.  So with the
    trackers made by default for analyzers whose names have more than ten
    characters in all, or with [progress_analyzer_features={}], completing a
    repository with an aggregate that has an occurrence raises [KeyError]. *)
Theorem completion_needs_a_tracker_for_each_feature_found :
  forall pbars db repo,
    (track_completed_repo pbars db repo = AllUpdated <->
     forall row, In row (repo_feature_tbl db) ->
                 rf_source_name row = repo_source repo ->
                 rf_repo_key row = repo_key repo ->
                 0 < rf_occurrence_count row ->
                 In (FeatureBar (rf_analyzer_name row) (rf_feature_name row)) pbars) /\
    (forall analyzer_features progress row,
        pbars = get_pbars analyzer_features progress ->
        progress = Some [] \/
        (progress = None /\
         (10 < fold_right (fun entry n => (String.length (fst entry) + n)%nat) O
                          analyzer_features)%nat) ->
        In row (repo_feature_tbl db) ->
        rf_source_name row = repo_source repo ->
        rf_repo_key row = repo_key repo ->
        0 < rf_occurrence_count row ->
        exists key, track_completed_repo pbars db repo = RaisesKeyError key).
Proof.
  intros pbars db repo.
  assert (Hok : track_completed_repo pbars db repo = AllUpdated <->
                forall row, In row (repo_feature_tbl db) ->
                            rf_source_name row = repo_source repo ->
                            rf_repo_key row = repo_key repo ->
                            0 < rf_occurrence_count row ->
                            In (FeatureBar (rf_analyzer_name row) (rf_feature_name row)) pbars).
  { unfold track_completed_repo. rewrite update_feature_pbars_ok. split.
    - intros H row Hin E1 E2. apply H. apply tracked_rows. auto.
    - intros H row Hin. apply tracked_rows in Hin. destruct Hin as (Hin & E1 & E2). auto. }
  split; [exact Hok|].
  intros afs progress row -> Hnone Hin E1 E2 Hocc.
  destruct (track_completed_repo (get_pbars afs progress) db repo) as [|key] eqn:E; [|eauto].
  exfalso. pose proof (proj1 Hok eq_refl row Hin E1 E2 Hocc) as Hbar.
  destruct Hnone as [->|[-> Hlen]].
  - apply feature_bar_given in Hbar. destruct Hbar as (fs & [] & _).
  - apply feature_bar_default in Hbar. lia.
Qed.

(** X27 at an instance. Two analyzers whose names have sixteen characters together, default
    trackers: completing [Scenario.r1] with an occurrence of ["f"] found. *)
Lemma completion_needs_a_tracker_for_each_feature_found_witness :
  let analyzer_features := [("python", ["f"; "g"]); ("javascript", ["h"])] in
  let db := save_repo_features Scenario.r1 true StoreFacts.sample_store in
  get_pbars analyzer_features None = [Border; Repos; Codes] /\
  exists key,
    track_completed_repo (get_pbars analyzer_features None) db Scenario.r1
    = RaisesKeyError key.
Proof.
  intros analyzer_features db. split; [reflexivity|].
  refine (proj2 (completion_needs_a_tracker_for_each_feature_found
                   (get_pbars analyzer_features None) db Scenario.r1)
                analyzer_features None
                {| rf_updated := 2; rf_source_name := "local"; rf_repo_key := "r1";
                   rf_analyzer_name := "python"; rf_feature_name := "f";
                   rf_occurrence_count := 2; rf_code_occurrence_count := 2;
                   rf_code_total_count := 2 |} eq_refl _ _ eq_refl eq_refl eq_refl).
  - right. split; [reflexivity | simpl; lia].
  - now left.
Defined.

End ProgressFacts.
